(** * MarkovTextGenerator: a verified model of [generate_markov_text.py]

    The development embeds the core of the script (n-gram counting over a
    circular view of the text, the construction of the chain, the weighted
    random walk and the decimal model file) and proves the properties the
    specification states about it.

    Conventions of the embedding:
    - a Python [str] is the list of its code points ([pystr]); a character is
      a string of length one, as in Python;
    - a Python [int] is a [Z]; a Python [float] is an IEEE binary64 value of
      the standard library's [spec_float];
    - a [dict] is an association list in insertion order, with Python's
      lookup, membership test and item assignment;
    - a raised exception is the [Raise] branch of [result];
    - the module-level random generator is an explicit argument. *)

From Stdlib Require Import String Ascii.
From Stdlib Require Import ZArith List Bool Lia.
From Stdlib Require Import Sorted Permutation.
From Stdlib Require Import QArith Qpower Qabs Lqa.
From Stdlib Require Import DecimalString DecimalZ DecimalPos DecimalN.
From Stdlib Require Import Floats.SpecFloat.
Import ListNotations.

Local Open Scope Z_scope.

(** ** Python values and exceptions *)

Definition pystr := list Z.

(** The exceptions the modelled code can raise.  [Exception] carries the
    formatted message of line 57, [NoNextState] the arguments of line 48. *)
Inductive exn : Type :=
| Exception (msg : string)
| NoNextState (ngram : pystr)
| KeyError (key : pystr)
| IndexError
| ValueError
| OverflowError
| ZeroDivisionError
| UnicodeEncodeError.

Inductive result (A : Type) : Type :=
| Ok (a : A)
| Raise (e : exn).
Arguments Ok {A} a.
Arguments Raise {A} e.

Definition bind {A B : Type} (r : result A) (f : A -> result B) : result B :=
  match r with
  | Ok a => f a
  | Raise e => Raise e
  end.

Notation "x <- c1 ;; c2" := (bind c1 (fun x => c2))
  (at level 61, c1 at next level, right associativity).

Definition is_ok {A : Type} (r : result A) : bool :=
  match r with Ok _ => true | Raise _ => false end.

(** [for x in xs: body] over an accumulator, stopping at the first exception. *)
Fixpoint for_each {A S : Type} (xs : list A) (body : S -> A -> result S) (s : S)
  : result S :=
  match xs with
  | [] => Ok s
  | x :: xs' => s' <- body s x ;; for_each xs' body s'
  end.

(** [range(0, n)]: empty when [n <= 0]. *)
Definition range (n : Z) : list Z := map Z.of_nat (seq 0 (Z.to_nat n)).

(** ** Sequences: [len], slices and indexing *)

Definition len {A : Type} (s : list A) : Z := Z.of_nat (length s).

(** A slice bound is clamped as Python does: a negative bound counts from the
    end, and both are cut to [0, len]. *)
Definition clamp (n i : Z) : Z :=
  if i <? 0 then Z.max (i + n) 0 else Z.min i n.

(** [s[a:b]] *)
Definition py_slice {A : Type} (s : list A) (a b : Z) : list A :=
  let n := len s in
  firstn (Z.to_nat (clamp n b - clamp n a)) (skipn (Z.to_nat (clamp n a)) s).

(** [s[a:]] *)
Definition py_slice_from {A : Type} (s : list A) (a : Z) : list A :=
  py_slice s a (len s).

(** [s[i]] for a list: the element, or [IndexError]. *)
Definition py_index {A : Type} (s : list A) (i : Z) : result A :=
  let j := if i <? 0 then i + len s else i in
  if (0 <=? j) && (j <? len s) then
    match nth_error s (Z.to_nat j) with
    | Some x => Ok x
    | None => Raise IndexError
    end
  else Raise IndexError.

(** [s[i]] for a string: the one-character string at [i]. *)
Definition str_index (s : pystr) (i : Z) : result pystr :=
  c <- py_index s i ;; Ok [c].

(** ** Dictionaries *)

(** Key equality, Python's [__eq__] on keys. *)
Class Eqb (K : Type) := eqb : K -> K -> bool.

#[export] Instance Eqb_Z : Eqb Z := Z.eqb.

Fixpoint list_eqb {A : Type} (e : A -> A -> bool) (l1 l2 : list A) : bool :=
  match l1, l2 with
  | [], [] => true
  | x :: l1', y :: l2' => e x y && list_eqb e l1' l2'
  | _, _ => false
  end.

#[export] Instance Eqb_list {A : Type} `{Eqb A} : Eqb (list A) := list_eqb eqb.

Definition dict (K V : Type) := list (K * V).

Section Dict.
Context {K V : Type} `{Eqb K}.

(** [d[k]] as an option; [None] is where Python raises [KeyError]. *)
Fixpoint dict_get (k : K) (d : dict K V) : option V :=
  match d with
  | [] => None
  | (k', v) :: d' => if eqb k k' then Some v else dict_get k d'
  end.

(** [k in d] *)
Definition dict_mem (k : K) (d : dict K V) : bool :=
  match dict_get k d with Some _ => true | None => false end.

(** [d[k] = v]: an existing key keeps its place, a new key goes last. *)
Fixpoint dict_set (k : K) (v : V) (d : dict K V) : dict K V :=
  match d with
  | [] => [(k, v)]
  | (k', v') :: d' =>
      if eqb k k' then (k', v) :: d' else (k', v') :: dict_set k v d'
  end.

Definition keys (d : dict K V) : list K := map fst d.
Definition values (d : dict K V) : list V := map snd d.
End Dict.

(** The count table: n-gram -> (following letter -> occurrences). *)
Definition counts := dict pystr Z.
Definition table := dict pystr counts.

(** ** Decimal text: [str(int)] *)

Definition py_str (z : Z) : string := NilZero.string_of_int (Z.to_int z).

(** ** [compute_ngram_counts] (lines 51-85) *)

Definition too_short_message (k : Z) : string :=
  ("Text is too short. Provide more than " ++ py_str k ++ " characters")%string.

(** Lines 62-66: the n-gram starting at [i]. *)
Definition extract_ngram (text : pystr) (k i : Z) : pystr :=
  let text_length := len text in
  if i + k <? text_length then py_slice text i (i + k)
  else py_slice text i text_length ++ py_slice text 0 (k - (text_length - i)).

(** Lines 70-71: the letter after that n-gram. *)
Definition extract_next_letter (text : pystr) (k i : Z) : result pystr :=
  let text_length := len text in
  if i + k <? text_length then str_index text (i + k)
  else str_index text (k - (text_length - i)).

(** Lines 75-83.  [next_ngram_letters] is a reference to the inner dictionary
    held by [ngrams], so its update is an update of [ngrams].  The lookup of
    line 78 follows the insertion of line 76 and cannot miss. *)
Definition record_observation (ngrams : table) (ngram next_letter : pystr) : table :=
  let ngrams := if dict_mem ngram ngrams then ngrams else dict_set ngram [] ngrams in
  let next_ngram_letters :=
    match dict_get ngram ngrams with Some d => d | None => [] end in
  let next_ngram_letters :=
    match dict_get next_letter next_ngram_letters with
    | Some c => dict_set next_letter (c + 1) next_ngram_letters
    | None => dict_set next_letter 1 next_ngram_letters
    end in
  dict_set ngram next_ngram_letters ngrams.

Definition count_step (text : pystr) (k : Z) (ngrams : table) (i : Z) : result table :=
  let ngram := extract_ngram text k i in
  next_letter <- extract_next_letter text k i ;;
  Ok (record_observation ngrams ngram next_letter).

Definition compute_ngram_counts (text : pystr) (k : Z) : result table :=
  let text_length := len text in
  if text_length <? k then Raise (Exception (too_short_message k))
  else for_each (range text_length) (count_step text k) [].

(** ** Floats

    [float] is IEEE binary64: the standard library's specification of the
    operations at precision 53 and maximal exponent 1024. *)

Definition float := spec_float.
Definition prec : Z := 53.
Definition emax : Z := 1024.

(** [float(z)] for an [int]: the nearest binary64 value (ties to even), or
    [OverflowError] when that is out of range. *)
Definition float_of_int (z : Z) : result float :=
  match binary_normalize prec emax z 0 false with
  | S754_infinity _ => Raise OverflowError
  | f => Ok f
  end.

Definition float_is_zero (f : float) : bool :=
  match f with S754_zero _ => true | _ => false end.

(** [count / weight] with [count] an [int] and [weight] a [float]. *)
Definition truediv (count : Z) (weight : float) : result float :=
  c <- float_of_int count ;;
  if float_is_zero weight then Raise ZeroDivisionError
  else Ok (SFdiv prec emax c weight).

Definition float_lt (x y : float) : bool := SFltb x y.
Definition float_sub (x y : float) : float := SFsub prec emax x y.

(** ** [MarkovChainNode] (lines 26-48)

    A node object is reached through [chain_nodes] only, one object per key,
    so a reference to a node is modelled by the key under which the store
    holds it; the store maps it to the node's current state. *)

Definition node_ref := pystr.

Record MarkovChainNode : Type := {
  ngram : pystr;
  next_states : list (node_ref * float)
}.

Definition chain := dict pystr MarkovChainNode.

(** [l.sort(key = lambda pair : pair[1], reverse = True)]: the stable sort in
    descending order of the key, by the comparison [<] alone. *)
Fixpoint insert_desc (x : node_ref * float) (l : list (node_ref * float))
  : list (node_ref * float) :=
  match l with
  | [] => [x]
  | y :: l' => if float_lt (snd x) (snd y) then y :: insert_desc x l' else x :: l
  end.

Definition sort_desc (l : list (node_ref * float)) : list (node_ref * float) :=
  fold_right insert_desc [] l.

(** Lines 31-33. *)
Definition add_next_state (self : MarkovChainNode) (node : node_ref) (probability : float)
  : MarkovChainNode :=
  {| ngram := ngram self;
     next_states := sort_desc (next_states self ++ [(node, probability)]) |}.

(** Lines 38-48, for the value [probability] that [random()] returned. *)
Fixpoint scan_states (self_ngram : pystr) (states : list (node_ref * float))
  (probability : float) : result node_ref :=
  match states with
  | [] => Raise (NoNextState self_ngram)
  | state :: rest =>
      if float_lt probability (snd state) then Ok (fst state)
      else scan_states self_ngram rest (float_sub probability (snd state))
  end.

Definition get_next_state (self : MarkovChainNode) (probability : float)
  : result node_ref :=
  scan_states (ngram self) (next_states self) probability.

(** ** [build_markov_chain] (lines 153-173) *)

Definition lookup {V : Type} (k : pystr) (d : dict pystr V) : result V :=
  match dict_get k d with
  | Some v => Ok v
  | None => Raise (KeyError k)
  end.

(** [sum(count for letter, count in next_letters.items())] *)
Definition sum_counts (next_letters : counts) : Z :=
  fold_right Z.add 0 (values next_letters).

(** Lines 158-159. *)
Definition create_nodes (ngrams : table) : chain :=
  fold_left (fun chain_nodes ng =>
               dict_set ng {| ngram := ng; next_states := [] |} chain_nodes)
            (keys ngrams) [].

(** Lines 166-171: one edge of the node stored under [ng]. *)
Definition add_edge (ng : pystr) (weight : float) (chain_nodes : chain)
  (item : pystr * Z) : result chain :=
  let '(letter, count) := item in
  let next_state_ngram := py_slice_from ng 1 ++ letter in
  next_state_node <- lookup next_state_ngram chain_nodes ;;
  probability <- truediv count weight ;;
  node <- lookup ng chain_nodes ;;
  Ok (dict_set ng (add_next_state node next_state_ngram probability) chain_nodes).

(** Lines 161-171 for one item of [ngrams]. *)
Definition connect_node (chain_nodes : chain) (entry : pystr * counts) : result chain :=
  let '(ng, next_letters) := entry in
  weight <- float_of_int (sum_counts next_letters) ;;
  node <- lookup ng chain_nodes ;;
  for_each next_letters (add_edge ng weight) chain_nodes.

Definition build_markov_chain (ngrams : table) : result chain :=
  for_each ngrams connect_node (create_nodes ngrams).

(** ** [generate_text] (lines 176-194) *)

(** The random generator: [choice_draw] is the number behind [choice], reduced
    modulo the length of the sequence, and [draws n] is the value of the
    [n]-th call of [random()]. *)
Record random_source : Type := {
  choice_draw : nat;
  draws : nat -> float
}.

(** [choice(seq)] *)
Definition choice {A : Type} (rs : random_source) (seq : list A) : result A :=
  match seq with
  | [] => Raise IndexError
  | _ => match nth_error seq (Nat.modulo (choice_draw rs) (length seq)) with
         | Some x => Ok x
         | None => Raise IndexError
         end
  end.

(** The variables of the loop of lines 189-192, with the number of calls of
    [get_next_state] made so far. *)
Record walk_state : Type := {
  node : node_ref;
  text : list pystr;
  text_length : Z;
  selections : nat
}.

(** Lines 190-192. *)
Definition walk_step (ch : chain) (rs : random_source) (st : walk_state)
  : result walk_state :=
  self <- lookup (node st) ch ;;
  next <- get_next_state self (draws rs (selections st)) ;;
  next_node <- lookup next ch ;;
  letter <- str_index (ngram next_node) (-1) ;;
  Ok {| node := next;
        text := text st ++ [letter];
        text_length := text_length st + 1;
        selections := S (selections st) |}.

(** Line 189: [while text_length < length].  [None] is a loop still running
    when the fuel is spent. *)
Fixpoint while_loop (fuel : nat) (ch : chain) (rs : random_source) (length : Z)
  (st : walk_state) : option (result walk_state) :=
  if text_length st <? length then
    match fuel with
    | O => None
    | S fuel' =>
        match walk_step ch rs st with
        | Ok st' => while_loop fuel' ch rs length st'
        | Raise e => Some (Raise e)
        end
    end
  else Some (Ok st).

(** Lines 180-187: the state before the loop. *)
Definition initial_state (ch : chain) (rs : random_source) : result walk_state :=
  start <- choice rs (keys ch) ;;
  self <- lookup start ch ;;
  Ok {| node := start;
        text := map (fun c => [c]) (ngram self);
        text_length := len (ngram self);
        selections := O |}.

(** The whole function: the final state, whose [text] joined is the result. *)
Definition generate_run (fuel : nat) (ch : chain) (length : Z) (rs : random_source)
  : option (result walk_state) :=
  match initial_state ch rs with
  | Ok st => while_loop fuel ch rs length st
  | Raise e => Some (Raise e)
  end.

(** ["".join(text)] *)
Definition join_text (text : list pystr) : pystr := concat text.

Definition generate_text (fuel : nat) (ch : chain) (length : Z) (rs : random_source)
  : option (result pystr) :=
  match generate_run fuel ch length rs with
  | Some (Ok st) => Some (Ok (join_text (text st)))
  | Some (Raise e) => Some (Raise e)
  | None => None
  end.

(** ** The model file (lines 101-150)

    The content of the file is the text the program writes or reads: a
    [string] whose characters are code points below 256, with ["\n"] as the
    line terminator. *)

Definition newline : ascii := "010"%char.
Definition space : ascii := " "%char.

(** [sep.join(l)] *)
Fixpoint join (sep : string) (l : list string) : string :=
  match l with
  | [] => EmptyString
  | [x] => x
  | x :: l' => (x ++ sep ++ join sep l')%string
  end.

(** The characters [str.split()] separates at: those with [isspace()]. *)
Definition is_space (c : ascii) : bool :=
  let n := N_of_ascii c in
  ((9 <=? n) && (n <=? 13) || (28 <=? n) && (n <=? 32) || (n =? 133) || (n =? 160))%N.

(** [s.split()]: the maximal runs of characters that are not whitespace.
    [cur] is the run being read. *)
Fixpoint split_from (cur : string) (s : string) : list string :=
  match s with
  | EmptyString =>
      match cur with EmptyString => [] | _ => [cur] end
  | String c r =>
      if is_space c then
        match cur with
        | EmptyString => split_from EmptyString r
        | _ => cur :: split_from EmptyString r
        end
      else split_from (cur ++ String c EmptyString)%string r
  end.

Definition split (s : string) : list string := split_from EmptyString s.

(** [file.readline()]: the line with its terminator, and the rest of the
    file; the empty string at the end of the file. *)
Fixpoint readline (s : string) : string * string :=
  match s with
  | EmptyString => (EmptyString, EmptyString)
  | String c r =>
      if Ascii.eqb c newline then (String c EmptyString, r)
      else let '(l, r') := readline r in (String c l, r')
  end.

Definition is_digit (c : ascii) : bool :=
  let n := N_of_ascii c in ((48 <=? n) && (n <=? 57))%N.

Definition digit_value (c : ascii) : Z := Z.of_N (N_of_ascii c) - 48.

(** The digits of an [int] literal given to [int()]: decimal digits, with
    single underscores allowed between two digits.  [after_digit] tells
    whether the previous character was a digit. *)
Fixpoint int_digits (s : string) (acc : Z) (after_digit : bool) : option Z :=
  match s with
  | EmptyString => if after_digit then Some acc else None
  | String c r =>
      if is_digit c then int_digits r (10 * acc + digit_value c) true
      else if Ascii.eqb c "_"%char then
        if after_digit then int_digits r acc false else None
      else None
  end.

(** [int(s)] for a string without whitespace. *)
Definition py_int (s : string) : result Z :=
  let parsed :=
    match s with
    | String "-"%char r => option_map Z.opp (int_digits r 0 false)
    | String "+"%char r => int_digits r 0 false
    | _ => int_digits s 0 false
    end in
  match parsed with
  | Some z => Ok z
  | None => Raise ValueError
  end.

(** [chr(i)] *)
Definition py_chr (i : Z) : result pystr :=
  if (0 <=? i) && (i <=? 1114111) then Ok [i]
  else if (- 2147483648 <=? i) && (i <=? 2147483647) then Raise ValueError
  else Raise OverflowError.

(** A list comprehension [[f(x) for x in xs]]. *)
Fixpoint comprehension {A B : Type} (f : A -> result B) (xs : list A)
  : result (list B) :=
  match xs with
  | [] => Ok []
  | x :: xs' => y <- f x ;; ys <- comprehension f xs' ;; Ok (y :: ys)
  end.

(** Lines 101-102. *)
Definition string_to_decimal (text : pystr) : string :=
  join " " (map py_str text).

(** Lines 105-106. *)
Definition string_from_decimal (decimal : string) : result pystr :=
  letters <- comprehension (fun number => n <- py_int number ;; py_chr n)
                           (split decimal) ;;
  Ok (concat letters).

(** Line 120. *)
Definition write_letter_count (item : pystr * Z) : string :=
  let '(letter, count) := item in
  (string_to_decimal letter ++ " " ++ py_str count ++ " ")%string.

(** Lines 117-122. *)
Definition write_ngram (entry : pystr * counts) : string :=
  let '(ng, next_letters) := entry in
  (string_to_decimal ng ++ " " ++ py_str (len next_letters) ++ " "
   ++ String.concat "" (map write_letter_count next_letters)
   ++ String newline EmptyString)%string.

(** Lines 109-122: the text written to the file. *)
Definition write_ngram_counts_to_file (ngrams : table) (ngram_length : Z) : string :=
  (py_str ngram_length ++ " " ++ py_str (len ngrams) ++ String newline EmptyString
   ++ String.concat "" (map write_ngram ngrams))%string.

(** Lines 144-146. *)
Definition read_letter_count (ngram_info : list string) (ngram_length : Z)
  (next_letters : counts) (j : Z) : result counts :=
  field <- py_index ngram_info (1 + ngram_length + j * 2) ;;
  letter <- string_from_decimal field ;;
  field' <- py_index ngram_info (1 + ngram_length + (j * 2 + 1)) ;;
  count <- py_int field' ;;
  Ok (dict_set letter count next_letters).

(** Lines 136-148.  The state is the unread part of the file and [ngrams]. *)
Definition read_ngram (ngram_length : Z) (st : string * table) (i : Z)
  : result (string * table) :=
  let '(file, ngrams) := st in
  let '(line, file) := readline file in
  let ngram_info := split line in
  ngram_value <- string_from_decimal (join " " (py_slice ngram_info 0 ngram_length)) ;;
  field <- py_index ngram_info ngram_length ;;
  next_letter_count <- py_int field ;;
  next_letters <- for_each (range next_letter_count)
                           (read_letter_count ngram_info ngram_length) [] ;;
  Ok (file, dict_set ngram_value next_letters ngrams).

(** Lines 125-150, on the text of the file. *)
Definition read_ngram_counts_from_file (file : string) : result (table * Z) :=
  let '(line, file) := readline file in
  header <- comprehension py_int (split line) ;;
  match header with
  | [ngram_length; ngram_count] =>
      st <- for_each (range ngram_count) (read_ngram ngram_length) (file, []) ;;
      Ok (snd st, ngram_length)
  | _ => Raise ValueError
  end.

(** ** [write_text_to_file] (lines 197-206)

    The effect of the function is the text of the file at [file_path]: the
    characters given to [file.write], in order.  The file is a text file in
    the encoding that [open] chose at line 198, and [encodable] tells which
    characters that encoding has a code for: [file.write] raises
    [UnicodeEncodeError] for any other character.  The [with] block closes
    the file when line 204 or a [file.write] raises, with what was written
    until then. *)

(** [string.whitespace] *)
Definition string_whitespace : pystr := [32; 9; 10; 13; 11; 12].

(** [letter in string.whitespace], for a character [letter]. *)
Definition in_whitespace (letter : Z) : bool :=
  existsb (Z.eqb letter) string_whitespace.

(** [file.write(letter)] after the characters [file]. *)
Definition file_write (encodable : Z -> bool) (file : pystr) (letter : Z)
  : result pystr :=
  if encodable letter then Ok (file ++ [letter]) else Raise UnicodeEncodeError.

(** Lines 201-206, from the value [words] and after the characters [file]:
    the text of the file at the end, and how the loop ended. *)
Fixpoint write_letters (encodable : Z -> bool) (words_per_line : Z)
  (letters : pystr) (words : Z) (file : pystr) : pystr * result unit :=
  match letters with
  | [] => (file, Ok tt)
  | letter :: rest =>
      if in_whitespace letter then
        let words := words + 1 in
        if words_per_line =? 0 then (file, Raise ZeroDivisionError)
        else
          match file_write encodable file
                  (if words mod words_per_line =? 0 then 10 else letter) with
          | Ok file => write_letters encodable words_per_line rest words file
          | Raise e => (file, Raise e)
          end
      else
        match file_write encodable file letter with
        | Ok file => write_letters encodable words_per_line rest words file
        | Raise e => (file, Raise e)
        end
  end.

Definition write_text_to_file (encodable : Z -> bool) (letters : pystr)
  (words_per_line : Z) : pystr * result unit :=
  write_letters encodable words_per_line letters 0 [].

(** The value of the parameter [words_per_line] when it is not given. *)
Definition default_words_per_line : Z := 12.

(** * Properties *)

(** ** Key equality decides equality *)

Class EqbLaws (K : Type) `{Eqb K} : Prop :=
  eqb_eq : forall x y : K, eqb x y = true <-> x = y.

#[export] Instance EqbLaws_Z : EqbLaws Z.
Proof. exact Z.eqb_eq. Qed.

#[export] Instance EqbLaws_list {A : Type} `{EqbLaws A} : EqbLaws (list A).
Proof.
  intros l1; induction l1 as [|x l1 IH]; intros [|y l2]; cbn;
    try (split; congruence).
  rewrite andb_true_iff, eqb_eq.
  change (list_eqb eqb l1 l2) with (eqb l1 l2). rewrite IH.
  split; [intros [-> ->]; reflexivity | intros E; injection E; auto].
Qed.

Lemma eqb_spec {K : Type} `{EqbLaws K} (x y : K) : reflect (x = y) (eqb x y).
Proof. apply iff_reflect; symmetry; apply eqb_eq. Qed.

Lemma eqb_refl {K : Type} `{EqbLaws K} (k : K) : eqb k k = true.
Proof. destruct (eqb_spec k k); congruence. Qed.

Lemma eqb_neq {K : Type} `{EqbLaws K} (k k' : K) : k <> k' -> eqb k k' = false.
Proof. destruct (eqb_spec k k'); congruence. Qed.

(** ** Dictionaries *)

Section DictFacts.
Context {K V : Type} `{EqbLaws K}.
Implicit Types (k : K) (v : V) (d : dict K V).

Lemma dict_get_set_same k v d : dict_get k (dict_set k v d) = Some v.
Proof.
  induction d as [|[k' v'] d IH]; cbn.
  - now rewrite eqb_refl.
  - destruct (eqb_spec k k') as [->|Hn]; cbn.
    + now rewrite eqb_refl.
    + now rewrite (eqb_neq _ _ Hn).
Qed.

Lemma dict_get_set_other k k' v d :
  k <> k' -> dict_get k' (dict_set k v d) = dict_get k' d.
Proof.
  intros Hn; induction d as [|[k0 v0] d IH]; cbn.
  - rewrite eqb_neq; congruence.
  - destruct (eqb_spec k k0) as [->|Hn0]; cbn.
    + rewrite eqb_neq; congruence.
    + now rewrite IH.
Qed.

Lemma dict_get_In k v d : dict_get k d = Some v -> In (k, v) d.
Proof.
  induction d as [|[k' v'] d IH]; cbn; [discriminate|].
  destruct (eqb_spec k k') as [->|Hn]; intros E.
  - injection E as ->; now left.
  - right; auto.
Qed.

Lemma dict_get_None k d : dict_get k d = None <-> ~ In k (keys d).
Proof.
  induction d as [|[k' v'] d IH]; cbn; [tauto|].
  destruct (eqb_spec k k') as [->|Hn]; split; intros E; try discriminate.
  - exfalso; apply E; now left.
  - intros [E'|E']; [congruence|]. now apply IH in E.
  - apply IH; intros E'; apply E; now right.
Qed.

Lemma dict_get_Some_keys k d : In k (keys d) <-> exists v, dict_get k d = Some v.
Proof.
  destruct (dict_get k d) as [v|] eqn:E.
  - split; [eauto|]. intros _. apply dict_get_In in E.
    apply (in_map fst) in E; exact E.
  - split; [|intros [v Hv]; discriminate].
    intros Hi; apply dict_get_None in E; contradiction.
Qed.

Lemma dict_mem_keys k d : dict_mem k d = true <-> In k (keys d).
Proof.
  unfold dict_mem; rewrite dict_get_Some_keys.
  destruct (dict_get k d); split; intros E; eauto; try discriminate.
  destruct E; discriminate.
Qed.

(** Assigning to a new key appends the item. *)
Lemma dict_set_new k v d : ~ In k (keys d) -> dict_set k v d = d ++ [(k, v)].
Proof.
  induction d as [|[k' v'] d IH]; cbn; intros Hn; [reflexivity|].
  rewrite eqb_neq by (intros ->; apply Hn; now left).
  rewrite IH; [reflexivity|]. intros Hi; apply Hn; now right.
Qed.

Lemma keys_dict_set_old k v d : In k (keys d) -> keys (dict_set k v d) = keys d.
Proof.
  induction d as [|[k' v'] d IH]; cbn; intros Hi; [contradiction|].
  destruct (eqb_spec k k') as [->|Hn]; cbn; [reflexivity|].
  f_equal; apply IH. destruct Hi as [Hi|Hi]; [congruence|exact Hi].
Qed.

Lemma In_keys_dict_set k k' v d :
  In k' (keys (dict_set k v d)) <-> k' = k \/ In k' (keys d).
Proof.
  induction d as [|[k0 v0] d IH]; cbn.
  - intuition congruence.
  - destruct (eqb_spec k k0) as [->|Hn]; cbn; [intuition congruence|].
    rewrite IH; intuition congruence.
Qed.

Lemma In_dict_set k v k' v' d :
  In (k', v') (dict_set k v d) -> (k' = k /\ v' = v) \/ In (k', v') d.
Proof.
  induction d as [|[k0 v0] d IH]; cbn.
  - intros [E|[]]; left; split; congruence.
  - destruct (eqb_spec k k0) as [->|Hn]; cbn.
    + intros [E|E]; [left; split; congruence | right; now right].
    + intros [E|E]; [right; now left|].
      destruct (IH E) as [?|?]; [now left | right; now right].
Qed.

(** The effect of an assignment on a sum over the values. *)
Lemma sum_dict_set (f : V -> Z) k v d :
  fold_right Z.add 0 (map f (values (dict_set k v d)))
  = fold_right Z.add 0 (map f (values d))
    - match dict_get k d with Some o => f o | None => 0 end + f v.
Proof.
  induction d as [|[k' v'] d IH]; cbn; [lia|].
  destruct (eqb_spec k k') as [->|Hn]; cbn; [lia|].
  unfold values in IH; rewrite IH; lia.
Qed.
End DictFacts.

(** ** Loops *)

Lemma for_each_app {A S : Type} (xs ys : list A) (body : S -> A -> result S) (s : S) :
  for_each (xs ++ ys) body s = (s' <- for_each xs body s ;; for_each ys body s').
Proof.
  revert s; induction xs as [|x xs IH]; intros s; cbn; [reflexivity|].
  destruct (body s x); cbn; auto.
Qed.

(** A loop whose body cannot raise is a fold. *)
Lemma for_each_total {A S : Type} (xs : list A) (body : S -> A -> result S)
  (step : S -> A -> S) (s : S) :
  (forall s x, In x xs -> body s x = Ok (step s x)) ->
  for_each xs body s = Ok (fold_left step xs s).
Proof.
  revert s; induction xs as [|x xs IH]; intros s Hb; cbn; [reflexivity|].
  rewrite Hb by now left. cbn. apply IH. intros; apply Hb; now right.
Qed.

Lemma In_range (n i : Z) : In i (range n) <-> 0 <= i < n.
Proof.
  unfold range; rewrite in_map_iff; split.
  - intros [j [<- Hj]]. apply in_seq in Hj. lia.
  - intros Hi. exists (Z.to_nat i). split; [lia|]. apply in_seq. lia.
Qed.

Lemma length_range (n : Z) : 0 <= n -> len (range n) = n.
Proof. intros Hn; unfold len, range. rewrite length_map, length_seq. lia. Qed.

(** ** Slices and indexing inside the bounds *)

Lemma len_nonneg {A : Type} (s : list A) : 0 <= len s.
Proof. unfold len; lia. Qed.

Lemma len_app {A : Type} (s t : list A) : len (s ++ t) = len s + len t.
Proof. unfold len; rewrite length_app; lia. Qed.

Lemma map_seq_offset {B : Type} (f : nat -> B) (a m : nat) :
  map f (seq a m) = map (fun j => f (a + j)%nat) (seq 0 m).
Proof.
  revert a f; induction m as [|m IH]; intros a f; cbn; [reflexivity|].
  rewrite Nat.add_0_r; f_equal.
  rewrite (IH (S a) f), (IH 1%nat).
  apply map_ext; intros j; f_equal; lia.
Qed.

Lemma firstn_skipn_nth {A : Type} (d : A) (s : list A) (a m : nat) :
  (a + m <= length s)%nat ->
  firstn m (skipn a s) = map (fun j => nth (a + j) s d) (seq 0 m).
Proof.
  revert a; induction m as [|m IH]; intros a Hl; [reflexivity|].
  assert (Hs : skipn a s = nth a s d :: skipn (S a) s).
  { clear IH. revert a Hl; induction s as [|x s IHs]; intros a Hl; cbn in Hl; [lia|].
    destruct a as [|a]; [reflexivity|]. cbn [skipn nth]. apply IHs; lia. }
  rewrite Hs; cbn [firstn seq map]. rewrite Nat.add_0_r; f_equal.
  rewrite IH by lia. rewrite <- seq_shift, map_map.
  apply map_ext; intros j; f_equal; lia.
Qed.

Lemma py_slice_inside {A : Type} (d : A) (s : list A) (a b : Z) :
  0 <= a <= b -> b <= len s ->
  py_slice s a b
  = map (fun j => nth (Z.to_nat a + j) s d) (seq 0 (Z.to_nat (b - a))).
Proof.
  intros Ha Hb; unfold py_slice, clamp.
  replace (a <? 0) with false by (symmetry; apply Z.ltb_ge; lia).
  replace (b <? 0) with false by (symmetry; apply Z.ltb_ge; lia).
  rewrite !Z.min_l by lia.
  apply firstn_skipn_nth. unfold len in Hb; lia.
Qed.

Lemma py_index_inside {A : Type} (d : A) (s : list A) (i : Z) :
  0 <= i < len s -> py_index s i = Ok (nth (Z.to_nat i) s d).
Proof.
  intros Hi; unfold py_index.
  replace (i <? 0) with false by (symmetry; apply Z.ltb_ge; lia).
  replace (0 <=? i) with true by (symmetry; apply Z.leb_le; lia).
  replace (i <? len s) with true by (symmetry; apply Z.ltb_lt; lia).
  cbn. destruct (nth_error s (Z.to_nat i)) as [x|] eqn:E.
  - now rewrite (nth_error_nth _ _ d E).
  - apply nth_error_None in E. unfold len in Hi; lia.
Qed.

(** ** The circular view of the text

    The specification's reading of the scan: position [i] of the text taken
    modulo its length, the n-gram that starts at [i] and the character that
    follows it. *)

Definition spec_circular_at (text : pystr) (i : Z) : Z :=
  nth (Z.to_nat (i mod len text)) text 0.

Definition spec_circular_ngram (text : pystr) (k i : Z) : pystr :=
  map (fun j => spec_circular_at text (i + j)) (range k).

Definition spec_circular_next (text : pystr) (k i : Z) : pystr :=
  [spec_circular_at text (i + k)].

(** The slices of lines 62-66 are the circular n-gram. *)
Lemma extract_ngram_circular (text : pystr) (k i : Z) :
  0 <= k <= len text -> 0 <= i < len text ->
  extract_ngram text k i = spec_circular_ngram text k i.
Proof.
  intros Hk Hi; unfold extract_ngram, spec_circular_ngram, range.
  rewrite map_map.
  destruct (Z.ltb_spec (i + k) (len text)) as [Hlt|Hge].
  - rewrite (py_slice_inside 0) by lia.
    replace (i + k - i) with k by lia.
    apply map_ext_in; intros j Hj; apply in_seq in Hj.
    unfold spec_circular_at. rewrite Z.mod_small by lia. f_equal; lia.
  - rewrite (py_slice_inside 0 text i) by lia.
    rewrite (py_slice_inside 0 text 0) by lia.
    replace (Z.to_nat k)
      with (Z.to_nat (len text - i) + Z.to_nat (k - (len text - i) - 0))%nat by lia.
    rewrite seq_app, map_app; f_equal.
    + apply map_ext_in; intros j Hj; apply in_seq in Hj.
      unfold spec_circular_at. rewrite Z.mod_small by lia. f_equal; lia.
    + cbn [Nat.add]. rewrite (map_seq_offset _ (Z.to_nat (len text - i))).
      apply map_ext_in; intros j Hj; apply in_seq in Hj.
      unfold spec_circular_at. f_equal.
      replace (i + Z.of_nat (Z.to_nat (len text - i) + j))
        with (Z.of_nat j + 1 * len text) by lia.
      rewrite Z.mod_add by lia. rewrite Z.mod_small by lia. lia.
Qed.

(** The index of lines 70-71 is the circular position after the n-gram. *)
Lemma extract_next_letter_circular (text : pystr) (k i : Z) :
  0 <= k <= len text -> 0 <= i < len text ->
  extract_next_letter text k i = Ok (spec_circular_next text k i).
Proof.
  intros Hk Hi; unfold extract_next_letter, spec_circular_next, str_index, spec_circular_at.
  destruct (Z.ltb_spec (i + k) (len text)) as [Hlt|Hge].
  - rewrite (py_index_inside 0) by lia; cbn. now rewrite Z.mod_small by lia.
  - rewrite (py_index_inside 0) by lia; cbn. do 3 f_equal.
    replace (i + k) with (k - (len text - i) + 1 * len text) by lia.
    rewrite Z.mod_add by lia. now rewrite Z.mod_small by lia.
Qed.

(** The observation made at start position [i]. *)
Definition spec_observation (text : pystr) (k i : Z) : pystr * pystr :=
  (spec_circular_ngram text k i, spec_circular_next text k i).

Definition record_pair (ngrams : table) (o : pystr * pystr) : table :=
  record_observation ngrams (fst o) (snd o).

(** With a text of at least [k] characters the scan cannot raise, and is the
    fold of [record_observation] over the circular observations. *)
Lemma compute_ngram_counts_fold (text : pystr) (k : Z) :
  0 <= k <= len text ->
  compute_ngram_counts text k
  = Ok (fold_left record_pair
          (map (spec_observation text k) (range (len text))) []).
Proof.
  intros Hk; unfold compute_ngram_counts.
  replace (len text <? k) with false by (symmetry; apply Z.ltb_ge; lia).
  rewrite (for_each_total _ _ (fun t i => record_pair t (spec_observation text k i))).
  - f_equal. generalize (@nil (pystr * counts)) at 1 2 as t.
    induction (range (len text)) as [|i l IH]; intros t; cbn; auto.
  - intros t i Hi; apply In_range in Hi. unfold count_step.
    rewrite extract_next_letter_circular, extract_ngram_circular by lia.
    reflexivity.
Qed.

(** ** Counting observations *)

(** The total of all successor counts of a table. *)
Definition total_count (t : table) : Z :=
  fold_right Z.add 0 (map sum_counts (values t)).

(** [t.get(g, {}).get(c, 0)]: the count recorded for the pair. *)
Definition count_of (t : table) (g c : pystr) : Z :=
  match dict_get g t with
  | Some d => match dict_get c d with Some m => m | None => 0 end
  | None => 0
  end.

(** Some item of [t] pairs [g] with a dictionary that has the key [c]. *)
Definition has_entry (t : table) (g c : pystr) : Prop :=
  exists d m, In (g, d) t /\ In (c, m) d.

Lemma record_observation_unfold (t : table) (g c : pystr) :
  exists t1 d,
    (forall g', dict_get g' t1 = if eqb g g' then Some d else dict_get g' t) /\
    (forall g' d', In (g', d') t1 -> (g' = g /\ d' = d) \/ In (g', d') t) /\
    (forall g', In g' (keys t1) <-> g' = g \/ In g' (keys t)) /\
    ((dict_get g t = None /\ d = []) \/ dict_get g t = Some d) /\
    total_count t1 = total_count t /\
    dict_get g t1 = Some d /\
    record_observation t g c
    = dict_set g (dict_set c (match dict_get c d with Some m => m + 1 | None => 1 end) d) t1.
Proof.
  unfold record_observation, dict_mem.
  destruct (dict_get g t) as [d|] eqn:E.
  - exists t, d. repeat split; auto.
    + intros g'. destruct (eqb_spec g g') as [<-|Hn]; auto.
    + intros [-> | Hi]; auto. apply dict_get_Some_keys; eauto.
    + rewrite E. destruct (dict_get c d); reflexivity.
  - exists (dict_set g [] t), []. repeat split; auto.
    + intros g'. destruct (eqb_spec g g') as [<-|Hn].
      * apply dict_get_set_same.
      * now apply dict_get_set_other.
    + intros g' d' Hi. now apply In_dict_set in Hi.
    + apply In_keys_dict_set.
    + apply In_keys_dict_set.
    + unfold total_count. rewrite sum_dict_set, E. cbn. lia.
    + apply dict_get_set_same.
    + rewrite dict_get_set_same. reflexivity.
Qed.

Lemma sum_counts_set (c : pystr) (m : Z) (d : counts) :
  sum_counts (dict_set c m d)
  = sum_counts d - match dict_get c d with Some o => o | None => 0 end + m.
Proof.
  unfold sum_counts.
  pose proof (sum_dict_set (fun z : Z => z) c m d) as E.
  rewrite !map_id in E. exact E.
Qed.

(** Every observation adds one to the total. *)
Lemma total_count_record (t : table) (g c : pystr) :
  total_count (record_observation t g c) = total_count t + 1.
Proof.
  destruct (record_observation_unfold t g c)
    as (t1 & d & Hget & _ & _ & _ & Htot & Hd & ->).
  unfold total_count in *. rewrite sum_dict_set, Hd, Htot, sum_counts_set.
  destruct (dict_get c d); lia.
Qed.

Lemma total_count_fold (obs : list (pystr * pystr)) (t : table) :
  total_count (fold_left record_pair obs t) = total_count t + len obs.
Proof.
  revert t; induction obs as [|o obs IH]; intros t; cbn [fold_left].
  - unfold len; cbn [length]; lia.
  - rewrite IH. unfold record_pair. rewrite total_count_record.
    unfold len; cbn [length]; lia.
Qed.

(** Every observation adds one to the count of its own pair and leaves the
    other counts as they were. *)
Lemma count_of_record (t : table) (g0 c0 g c : pystr) :
  count_of (record_observation t g0 c0) g c
  = count_of t g c + (if eqb g0 g && eqb c0 c then 1 else 0).
Proof.
  destruct (record_observation_unfold t g0 c0)
    as (t1 & d & Hget & _ & _ & Hold & _ & Hd & ->).
  unfold count_of.
  destruct (eqb_spec g0 g) as [<-|Hg]; cbn.
  - rewrite dict_get_set_same.
    assert (Hc : match dict_get g0 t with
                 | Some d0 => match dict_get c d0 with Some m => m | None => 0 end
                 | None => 0 end
                 = match dict_get c d with Some m => m | None => 0 end).
    { destruct Hold as [[E ->]|E]; rewrite E; reflexivity. }
    rewrite Hc. destruct (eqb_spec c0 c) as [<-|Hc0].
    + rewrite dict_get_set_same. destruct (dict_get c0 d); lia.
    + rewrite dict_get_set_other by assumption. lia.
  - rewrite dict_get_set_other by assumption.
    rewrite Hget, (eqb_neq _ _ Hg). lia.
Qed.

(** The start positions at which the pair [(g, c)] is observed. *)
Definition spec_positions (text : pystr) (k : Z) (g c : pystr) : list Z :=
  filter (fun i => eqb (spec_circular_ngram text k i) g
                   && eqb (spec_circular_next text k i) c)
         (range (len text)).

Lemma count_of_fold (text : pystr) (k : Z) (g c : pystr) (l : list Z) (t : table) :
  count_of (fold_left record_pair (map (spec_observation text k) l) t) g c
  = count_of t g c
    + len (filter (fun i => eqb (spec_circular_ngram text k i) g
                            && eqb (spec_circular_next text k i) c) l).
Proof.
  revert t; induction l as [|i l IH]; intros t; cbn [map fold_left filter].
  - unfold len; cbn; lia.
  - rewrite IH. unfold record_pair. rewrite count_of_record. cbn [fst snd].
    destruct (eqb _ g && eqb _ c); unfold len; cbn [length]; lia.
Qed.

(** Entries and keys of the table come from observations only, and every
    observed n-gram is a key. *)
Lemma has_entry_record (t : table) (g0 c0 g c : pystr) :
  has_entry (record_observation t g0 c0) g c ->
  has_entry t g c \/ (g = g0 /\ c = c0).
Proof.
  destruct (record_observation_unfold t g0 c0)
    as (t1 & d & _ & Hin & _ & Hold & _ & _ & ->).
  intros (d' & m & Hg & Hc).
  apply In_dict_set in Hg. destruct Hg as [[-> ->]|Hg].
  - apply In_dict_set in Hc. destruct Hc as [[-> _]|Hc]; [now right|].
    left. destruct Hold as [[E ->]|E].
    + contradiction.
    + exists d, m. split; [now apply dict_get_In|assumption].
  - left. destruct (Hin _ _ Hg) as [[-> ->]|Hg'].
    + destruct Hold as [[E ->]|E].
      * contradiction.
      * exists d, m. split; [now apply dict_get_In|assumption].
    + exists d', m; auto.
Qed.

Lemma keys_record (t : table) (g0 c0 g : pystr) :
  In g (keys (record_observation t g0 c0)) <-> g = g0 \/ In g (keys t).
Proof.
  destruct (record_observation_unfold t g0 c0)
    as (t1 & d & _ & _ & Hk & _ & _ & _ & ->).
  rewrite In_keys_dict_set, Hk. tauto.
Qed.

Lemma has_entry_fold (obs : list (pystr * pystr)) (t : table) (g c : pystr) :
  has_entry (fold_left record_pair obs t) g c -> has_entry t g c \/ In (g, c) obs.
Proof.
  revert t; induction obs as [|[g0 c0] obs IH]; intros t; cbn [fold_left In]; [tauto|].
  intros He. apply IH in He. destruct He as [He|He]; [|tauto].
  apply has_entry_record in He. cbn [fst snd] in He.
  destruct He as [He|[-> ->]]; auto.
Qed.

Lemma keys_fold (obs : list (pystr * pystr)) (t : table) (g : pystr) :
  In g (keys (fold_left record_pair obs t)) <-> In g (keys t) \/ In g (map fst obs).
Proof.
  revert t; induction obs as [|[g0 c0] obs IH]; intros t; cbn [fold_left map In fst];
    [tauto|].
  rewrite IH. unfold record_pair. rewrite keys_record. cbn [fst]. intuition congruence.
Qed.

(** ** [compute_ngram_counts]: failure, total and observations *)

(** C8.  For a positive n-gram length [k], [compute_ngram_counts] raises
    exactly when the text has fewer than [k] characters; the exception is the
    one of line 57, whose message carries [k] in decimal, the least length
    that is accepted; with [k] characters or more a table is returned. *)
Theorem compute_ngram_counts_too_short_iff (text : pystr) (k : Z) :
  0 < k ->
  (len text < k ->
   compute_ngram_counts text k
   = Raise (Exception ("Text is too short. Provide more than "
                       ++ py_str k ++ " characters")%string)) /\
  (k <= len text -> exists t, compute_ngram_counts text k = Ok t) /\
  (is_ok (compute_ngram_counts text k) = false <-> len text < k).
Proof.
  intros Hk.
  assert (Hshort : len text < k ->
                   compute_ngram_counts text k = Raise (Exception (too_short_message k))).
  { intros Hl; unfold compute_ngram_counts.
    now replace (len text <? k) with true by (symmetry; apply Z.ltb_lt; lia). }
  split; [exact Hshort|]. split.
  - intros Hl. rewrite compute_ngram_counts_fold by lia. eauto.
  - destruct (Z.lt_ge_cases (len text) k) as [Hl|Hl].
    + rewrite Hshort by assumption. cbn. tauto.
    + rewrite compute_ngram_counts_fold by lia. cbn. split; [discriminate|lia].
Qed.

Lemma compute_ngram_counts_too_short_iff_witness :
  compute_ngram_counts [97; 98] 5
  = Raise (Exception "Text is too short. Provide more than 5 characters")
  /\ exists t, compute_ngram_counts [97; 98; 99; 100; 101] 5 = Ok t.
Proof.
  split.
  - apply (compute_ngram_counts_too_short_iff [97; 98] 5); [lia | cbn; lia].
  - apply (compute_ngram_counts_too_short_iff [97; 98; 99; 100; 101] 5);
      [lia | cbn; lia].
Defined.

(** C2.  For a positive [k] and a text of at least [k] characters, the table
    returned by [compute_ngram_counts] has a total of successor counts equal
    to the length of the text. *)
Theorem compute_ngram_counts_total (text : pystr) (k : Z) :
  0 < k -> k <= len text ->
  exists t, compute_ngram_counts text k = Ok t /\ total_count t = len text.
Proof.
  intros Hk Hl. rewrite compute_ngram_counts_fold by lia.
  eexists; split; [reflexivity|].
  rewrite total_count_fold.
  assert (E : len (map (spec_observation text k) (range (len text))) = len text).
  { unfold len at 1. rewrite length_map. apply length_range, len_nonneg. }
  rewrite E. reflexivity.
Qed.

Lemma compute_ngram_counts_total_witness :
  exists t, compute_ngram_counts [97; 98; 97; 98] 1 = Ok t /\ total_count t = 4.
Proof.
  apply (compute_ngram_counts_total [97; 98; 97; 98] 1); [lia | cbn; lia].
Defined.

(** C5.  For a text of at least [k] characters, the count that the returned
    table holds for an n-gram [g] and a following character [c] is the number
    of start positions [i] in [0, len text) whose circular n-gram (the
    characters at positions [i .. i+k-1] modulo the length) is [g] and whose
    circular successor (position [i+k] modulo the length) is [c]: one
    observation for each start position, the wrapped ones included. *)
Theorem compute_ngram_counts_observations (text : pystr) (k : Z) :
  0 <= k -> k <= len text ->
  exists t, compute_ngram_counts text k = Ok t /\
    forall g c, count_of t g c = len (spec_positions text k g c).
Proof.
  intros Hk Hl. rewrite compute_ngram_counts_fold by lia.
  eexists; split; [reflexivity|]. intros g c.
  rewrite count_of_fold. reflexivity.
Qed.

Lemma compute_ngram_counts_observations_witness :
  exists t, compute_ngram_counts [97; 98; 99] 3 = Ok t /\
    forall g c, count_of t g c = len (spec_positions [97; 98; 99] 3 g c).
Proof.
  apply (compute_ngram_counts_observations [97; 98; 99] 3); [lia | cbn; lia].
Defined.

(** ** The successor of an observed n-gram is observed *)

Lemma py_slice_from_1 {A : Type} (s : list A) : py_slice_from s 1 = tl s.
Proof.
  unfold py_slice_from, py_slice, clamp. cbn [Z.ltb Z.compare].
  pose proof (len_nonneg s) as Hn.
  replace (len s <? 0) with false by (symmetry; apply Z.ltb_ge; lia).
  rewrite Z.min_id. destruct s as [|x s]; [reflexivity|].
  unfold len in *; cbn [length] in *. rewrite Z.min_l by lia.
  change (Z.to_nat 1) with 1%nat. cbn [skipn tl].
  replace (Z.to_nat (Z.of_nat (S (length s)) - 1)) with (length s) by lia.
  apply firstn_all.
Qed.

Lemma spec_circular_at_mod (text : pystr) (i : Z) :
  spec_circular_at text (i mod len text) = spec_circular_at text i.
Proof.
  unfold spec_circular_at. destruct (Z.eq_dec (len text) 0) as [E|E].
  - rewrite E, !Z.mod_0_r. reflexivity.
  - now rewrite Z.mod_mod.
Qed.

Lemma spec_circular_at_shift (text : pystr) (i j : Z) :
  spec_circular_at text (i mod len text + j) = spec_circular_at text (i + j).
Proof.
  rewrite <- (spec_circular_at_mod text (i mod len text + j)).
  rewrite <- (spec_circular_at_mod text (i + j)).
  destruct (Z.eq_dec (len text) 0) as [E|E].
  - rewrite E, !Z.mod_0_r. unfold spec_circular_at. rewrite E, !Z.mod_0_r. reflexivity.
  - now rewrite Z.add_mod_idemp_l.
Qed.

(** Dropping the first character of the n-gram at [i] and appending its
    successor gives the n-gram at the next circular position. *)
Lemma spec_circular_ngram_next (text : pystr) (k i : Z) :
  0 < k ->
  py_slice_from (spec_circular_ngram text k i) 1 ++ spec_circular_next text k i
  = spec_circular_ngram text k ((i + 1) mod len text).
Proof.
  intros Hk. rewrite py_slice_from_1.
  unfold spec_circular_ngram, spec_circular_next, range. rewrite !map_map.
  destruct (Z.to_nat k) as [|m] eqn:Em; [lia|].
  rewrite seq_S at 2. cbn [seq map tl Nat.add]. rewrite map_app. cbn [map].
  rewrite <- seq_shift, map_map. f_equal.
  - apply map_ext; intros j. rewrite spec_circular_at_shift. f_equal; lia.
  - rewrite spec_circular_at_shift. do 2 f_equal; lia.
Qed.

(** The table of a circular scan is closed under the sliding window: C4's
    graph invariant on the counts. *)
Lemma compute_ngram_counts_closed (text : pystr) (k : Z) (t : table) :
  0 < k -> k <= len text -> compute_ngram_counts text k = Ok t ->
  forall g c, has_entry t g c -> In (py_slice_from g 1 ++ c) (keys t).
Proof.
  intros Hk Hl. rewrite compute_ngram_counts_fold by lia.
  intros E; injection E as <-. intros g c He.
  apply has_entry_fold in He. destruct He as [(d & m & [] & _)|He].
  apply in_map_iff in He. destruct He as (i & Ho & Hi).
  apply In_range in Hi. injection Ho as <- <-.
  rewrite spec_circular_ngram_next by assumption.
  apply keys_fold. right. rewrite map_map. apply in_map_iff.
  exists ((i + 1) mod len text). split; [reflexivity|].
  apply In_range. apply Z.mod_pos_bound. lia.
Qed.

(** ** [build_markov_chain]: the lookups *)

(** A loop keeps an invariant [P] of its state, and raises only exceptions
    its body raises from states that satisfy [P]. *)
Lemma for_each_inv {A S : Type} (P : S -> Prop) (Q : exn -> Prop)
  (xs : list A) (body : S -> A -> result S) (s : S) :
  P s ->
  (forall s x, In x xs -> P s ->
     match body s x with Ok s' => P s' | Raise e => Q e end) ->
  match for_each xs body s with Ok s' => P s' | Raise e => Q e end.
Proof.
  revert s; induction xs as [|x xs IH]; intros s Hs Hb; cbn; [exact Hs|].
  pose proof (Hb s x (or_introl eq_refl) Hs) as Hx.
  destruct (body s x) as [s'|e]; cbn; [|exact Hx].
  apply IH; [exact Hx|]. intros; apply Hb; auto. now right.
Qed.

Definition not_key_error (e : exn) : Prop := forall key, e <> KeyError key.

Lemma lookup_keys {V : Type} (k : pystr) (d : dict pystr V) :
  In k (keys d) -> exists v, lookup k d = Ok v /\ dict_get k d = Some v.
Proof.
  intros Hi; apply dict_get_Some_keys in Hi; destruct Hi as [v Hv].
  exists v; unfold lookup; now rewrite Hv.
Qed.

Lemma keys_create_nodes (t : table) (g : pystr) :
  In g (keys (create_nodes t)) <-> In g (keys t).
Proof.
  unfold create_nodes.
  assert (G : forall (l : list pystr) (ch : chain),
             In g (keys (fold_left
                           (fun chain_nodes ng =>
                              dict_set ng {| ngram := ng; next_states := [] |} chain_nodes)
                           l ch))
             <-> In g (keys ch) \/ In g l).
  { induction l as [|x l IH]; intros ch; cbn [fold_left In]; [tauto|].
    rewrite IH, In_keys_dict_set. intuition congruence. }
  rewrite G. cbn. tauto.
Qed.

(** One edge: the keys of the store are kept, and [KeyError] needs a
    successor n-gram that is not a key. *)
Lemma add_edge_keys (K : list pystr) (ng : pystr) (weight : float) (ch : chain)
  (letter : pystr) (count : Z) :
  (forall g, In g (keys ch) <-> In g K) ->
  In ng K -> In (py_slice_from ng 1 ++ letter) K ->
  match add_edge ng weight ch (letter, count) with
  | Ok ch' => forall g, In g (keys ch') <-> In g K
  | Raise e => not_key_error e
  end.
Proof.
  intros HK Hng Ht. unfold add_edge.
  destruct (lookup_keys (py_slice_from ng 1 ++ letter) ch) as (tn & -> & _);
    [now apply HK|]. cbn [bind].
  destruct (truediv count weight) as [p|e] eqn:Ep; cbn [bind].
  - destruct (lookup_keys ng ch) as (nd & -> & _); [now apply HK|]. cbn [bind].
    intros g. rewrite In_keys_dict_set, HK. split; [intros [->|]; auto | auto].
  - unfold truediv in Ep. destruct (float_of_int count) as [c|e'] eqn:Ec; cbn in Ep.
    + destruct (float_is_zero weight); [|discriminate].
      injection Ep as <-. intros key; discriminate.
    + injection Ep as <-. unfold float_of_int in Ec.
      destruct (binary_normalize prec emax count 0 false); try discriminate.
      injection Ec as <-. intros key; discriminate.
Qed.

Lemma connect_node_keys (K : list pystr) (t : table) (ch : chain)
  (ng : pystr) (next_letters : counts) :
  (forall g c, has_entry t g c -> In (py_slice_from g 1 ++ c) K) ->
  (forall g, In g (keys t) -> In g K) ->
  In (ng, next_letters) t ->
  (forall g, In g (keys ch) <-> In g K) ->
  match connect_node ch (ng, next_letters) with
  | Ok ch' => forall g, In g (keys ch') <-> In g K
  | Raise e => not_key_error e
  end.
Proof.
  intros Hclosed Hsub Hin HK. unfold connect_node.
  assert (Hng : In ng K).
  { apply Hsub. apply (in_map fst) in Hin. exact Hin. }
  destruct (float_of_int (sum_counts next_letters)) as [w|e] eqn:Ew; cbn [bind].
  - destruct (lookup_keys ng ch) as (nd & -> & _); [now apply HK|]. cbn [bind].
    apply for_each_inv; [exact HK|].
    intros ch1 [letter count] Hi HK1. apply add_edge_keys; auto.
    apply Hclosed. exists next_letters, count. auto.
  - unfold float_of_int in Ew.
    destruct (binary_normalize prec emax _ 0 false); try discriminate.
    injection Ew as <-. intros key; discriminate.
Qed.

(** On a table closed under the sliding window, [build_markov_chain] returns
    a store with the keys of the table or raises something else than
    [KeyError]. *)
Lemma build_markov_chain_keys (t : table) :
  (forall g c, has_entry t g c -> In (py_slice_from g 1 ++ c) (keys t)) ->
  match build_markov_chain t with
  | Ok ch => forall g, In g (keys ch) <-> In g (keys t)
  | Raise e => not_key_error e
  end.
Proof.
  intros Hclosed. unfold build_markov_chain.
  apply for_each_inv; [apply keys_create_nodes|].
  intros ch [ng next_letters] Hi HK.
  apply (connect_node_keys (keys t) t); auto.
Qed.

(** C4.  For a positive [k] and a text of at least [k] characters, in the
    table returned by [compute_ngram_counts] every n-gram key [g] with a
    successor letter [c] has its sliding-window successor [g[1:] + c] among
    the keys, and [build_markov_chain] on that table does not raise
    [KeyError], the exception of a missing state. *)
Theorem build_markov_chain_no_missing_state (text : pystr) (k : Z) :
  0 < k -> k <= len text ->
  exists t, compute_ngram_counts text k = Ok t /\
    (forall g d c m, In (g, d) t -> In (c, m) d ->
                     dict_mem (py_slice_from g 1 ++ c) t = true) /\
    (forall key, build_markov_chain t <> Raise (KeyError key)).
Proof.
  intros Hk Hl.
  assert (Hfold := compute_ngram_counts_fold text k (conj (Z.lt_le_incl _ _ Hk) Hl)).
  destruct (compute_ngram_counts text k) as [t|e] eqn:Ht; [|discriminate].
  exists t. split; [reflexivity|].
  pose proof (compute_ngram_counts_closed text k t Hk Hl Ht) as Hclosed.
  split.
  - intros g d c m Hg Hc. apply dict_mem_keys. apply Hclosed. exists d, m; auto.
  - intros key E. pose proof (build_markov_chain_keys t Hclosed) as Hb.
    rewrite E in Hb. exact (Hb key eq_refl).
Qed.

Lemma build_markov_chain_no_missing_state_witness :
  exists t, compute_ngram_counts [97; 98; 97; 97; 99] 2 = Ok t /\
    (forall g d c m, In (g, d) t -> In (c, m) d ->
                     dict_mem (py_slice_from g 1 ++ c) t = true) /\
    (forall key, build_markov_chain t <> Raise (KeyError key)).
Proof.
  apply (build_markov_chain_no_missing_state [97; 98; 97; 97; 99] 2);
    [lia | cbn; lia].
Defined.

(** ** [build_markov_chain]: the nodes *)

(** The edge that lines 169-171 give to the node of [ng] for one item. *)
Definition edge_of (ng : pystr) (weight : float) (item : pystr * Z)
  : result (node_ref * float) :=
  probability <- truediv (snd item) weight ;;
  Ok (py_slice_from ng 1 ++ fst item, probability).

(** The calls of [add_next_state] for a list of edges, in order. *)
Definition insert_edges (es : list (node_ref * float)) (nd : MarkovChainNode)
  : MarkovChainNode :=
  fold_left (fun n e => add_next_state n (fst e) (snd e)) es nd.

Definition empty_node (ng : pystr) : MarkovChainNode :=
  {| ngram := ng; next_states := [] |}.

Lemma dict_set_same_value {K V : Type} `{EqbLaws K} (k : K) (v : V) (d : dict K V) :
  dict_get k d = Some v -> dict_set k v d = d.
Proof.
  induction d as [|[k' v'] d IH]; cbn; [discriminate|].
  destruct (eqb_spec k k') as [->|Hn]; intros E.
  - now injection E as ->.
  - now rewrite IH.
Qed.

Lemma dict_set_set {K V : Type} `{EqbLaws K} (k : K) (v v' : V) (d : dict K V) :
  dict_set k v' (dict_set k v d) = dict_set k v' d.
Proof.
  induction d as [|[k0 v0] d IH]; cbn.
  - now rewrite eqb_refl.
  - destruct (eqb_spec k k0) as [->|Hn]; cbn.
    + now rewrite eqb_refl.
    + now rewrite eqb_neq, IH by assumption.
Qed.

Lemma In_insert_desc (x a : node_ref * float) (l : list (node_ref * float)) :
  In x (insert_desc a l) <-> x = a \/ In x l.
Proof.
  induction l as [|y l IH]; cbn; [intuition congruence|].
  destruct (float_lt (snd a) (snd y)); cbn; [rewrite IH|]; intuition congruence.
Qed.

Lemma In_sort_desc (x : node_ref * float) (l : list (node_ref * float)) :
  In x (sort_desc l) <-> In x l.
Proof.
  induction l as [|y l IH]; cbn; [tauto|].
  rewrite In_insert_desc, IH. intuition congruence.
Qed.

Lemma ngram_insert_edges (es : list (node_ref * float)) (nd : MarkovChainNode) :
  ngram (insert_edges es nd) = ngram nd.
Proof. revert nd; induction es as [|e es IH]; intros nd; cbn; [reflexivity|]. now rewrite IH. Qed.

Lemma In_insert_edges (x : node_ref * float) (es : list (node_ref * float))
  (nd : MarkovChainNode) :
  In x (next_states (insert_edges es nd)) <-> In x (next_states nd) \/ In x es.
Proof.
  revert nd; induction es as [|e es IH]; intros nd; cbn [insert_edges fold_left In];
    [tauto|].
  fold (insert_edges es (add_next_state nd (fst e) (snd e))).
  rewrite IH. cbn [add_next_state next_states].
  rewrite In_sort_desc, in_app_iff. cbn [In]. destruct e; cbn [fst snd].
  intuition congruence.
Qed.

Lemma lookup_Ok {V : Type} (k : pystr) (d : dict pystr V) (v : V) :
  lookup k d = Ok v <-> dict_get k d = Some v.
Proof.
  unfold lookup. destruct (dict_get k d); split; intros E; congruence.
Qed.

(** The inner loop of lines 166-171 replaces the node of [ng] by the node
    with the edges of the items inserted. *)
Lemma add_edges_node (ng : pystr) (weight : float) (next_letters : counts)
  (ch ch' : chain) (nd : MarkovChainNode) :
  for_each next_letters (add_edge ng weight) ch = Ok ch' ->
  dict_get ng ch = Some nd ->
  exists es,
    comprehension (edge_of ng weight) next_letters = Ok es /\
    ch' = dict_set ng (insert_edges es nd) ch /\
    Forall (fun e => In (fst e) (keys ch)) es.
Proof.
  revert ch nd; induction next_letters as [|[letter count] d IH]; intros ch nd;
    cbn [for_each comprehension].
  - intros E Hg; injection E as <-. exists []. repeat split; auto.
    symmetry; now apply dict_set_same_value.
  - unfold add_edge at 1, edge_of at 1. cbn [fst snd].
    destruct (lookup (py_slice_from ng 1 ++ letter) ch) as [tn|e] eqn:Et;
      cbn [bind]; [|discriminate].
    apply lookup_Ok in Et.
    destruct (truediv count weight) as [p|e]; cbn [bind]; [|discriminate].
    intros E Hg. rewrite (proj2 (lookup_Ok _ _ _) Hg) in E. cbn [bind] in E.
    set (nd1 := add_next_state nd (py_slice_from ng 1 ++ letter) p) in *.
    destruct (IH (dict_set ng nd1 ch) nd1 E (dict_get_set_same _ _ _))
      as (es & -> & -> & Hes).
    exists ((py_slice_from ng 1 ++ letter, p) :: es). cbn [bind]. repeat split.
    + now rewrite dict_set_set.
    + constructor.
      * cbn [fst]. apply dict_get_Some_keys; eauto.
      * eapply Forall_impl; [|exact Hes]. cbn beta. intros e He.
        apply In_keys_dict_set in He. destruct He as [->|He]; auto.
        apply dict_get_Some_keys; eauto.
Qed.

(** The outer loop of lines 161-171, for a table whose keys are distinct. *)
Lemma connect_nodes (t : table) (ch0 ch : chain) :
  NoDup (keys t) ->
  for_each t connect_node ch0 = Ok ch ->
  (forall g, ~ In g (keys t) -> dict_get g ch = dict_get g ch0) /\
  (forall g, In g (keys ch) <-> In g (keys ch0)) /\
  (forall g d nd0, In (g, d) t -> dict_get g ch0 = Some nd0 ->
     exists w es,
       float_of_int (sum_counts d) = Ok w /\
       comprehension (edge_of g w) d = Ok es /\
       dict_get g ch = Some (insert_edges es nd0) /\
       Forall (fun e => In (fst e) (keys ch0)) es).
Proof.
  revert ch0; induction t as [|[g0 d0] t IH]; intros ch0 Hnd; cbn [for_each].
  - intros E; injection E as <-. repeat split; auto; try tauto. intros ? ? ? [].
  - cbn [keys map fst] in Hnd. apply NoDup_cons_iff in Hnd. destruct Hnd as [Hg0 Hnd].
    unfold connect_node at 1.
    destruct (float_of_int (sum_counts d0)) as [w|e] eqn:Ew; cbn [bind]; [|discriminate].
    destruct (lookup g0 ch0) as [nd|e] eqn:Eg; cbn [bind]; [|discriminate].
    apply lookup_Ok in Eg.
    destruct (for_each d0 (add_edge g0 w) ch0) as [ch1|e] eqn:E1; cbn [bind];
      [|discriminate].
    intros E.
    destruct (add_edges_node _ _ _ _ _ _ E1 Eg) as (es & Hes & -> & Hin).
    destruct (IH _ Hnd E) as (Hout & Hkeys & Hnodes).
    assert (Hk1 : forall g, In g (keys (dict_set g0 (insert_edges es nd) ch0))
                            <-> In g (keys ch0)).
    { intros g. rewrite In_keys_dict_set. split; [intros [->|]; auto | auto].
      apply dict_get_Some_keys; eauto. }
    split; [|split].
    + intros g Hg. cbn [keys map fst In] in Hg.
      rewrite Hout by tauto. apply dict_get_set_other. intros ->; apply Hg; now left.
    + intros g. now rewrite Hkeys, Hk1.
    + intros g d nd0 [Ei|Hi] Hget.
      * injection Ei as -> ->. exists w, es. repeat split; auto.
        rewrite Hout by assumption. rewrite dict_get_set_same. congruence.
      * assert (Hn : g0 <> g).
        { intros ->. apply Hg0. apply (in_map fst) in Hi. exact Hi. }
        destruct (Hnodes g d nd0 Hi) as (w' & es' & Hw' & Hes' & Hg' & Hin').
        { now rewrite dict_get_set_other. }
        exists w', es'. repeat split; auto.
        eapply Forall_impl; [|exact Hin']. cbn. intros e. apply Hk1.
Qed.

Lemma dict_get_create_nodes (t : table) (g : pystr) :
  In g (keys t) -> dict_get g (create_nodes t) = Some (empty_node g).
Proof.
  unfold create_nodes.
  set (f := fun (chain_nodes : chain) (ng : pystr) =>
              dict_set ng {| ngram := ng; next_states := [] |} chain_nodes).
  assert (Hout : forall l ch, ~ In g l -> dict_get g (fold_left f l ch) = dict_get g ch).
  { induction l as [|y l IH]; intros ch Hn; cbn [fold_left]; [reflexivity|].
    cbn [In] in Hn. rewrite IH by tauto. unfold f.
    apply dict_get_set_other. tauto. }
  generalize (@nil (pystr * MarkovChainNode)) as ch.
  induction (keys t) as [|x l IH]; intros ch Hi; [contradiction|].
  cbn [fold_left].
  destruct (in_dec (list_eq_dec Z.eq_dec) g l) as [Hl|Hl]; [now apply IH|].
  destruct Hi as [->|Hi]; [|contradiction].
  rewrite Hout by assumption. unfold f. apply dict_get_set_same.
Qed.

(** The chain of a table with distinct keys: the keys of the table, and for
    each item the node with its edges inserted one by one. *)
Lemma build_markov_chain_nodes (t : table) (ch : chain) :
  NoDup (keys t) -> build_markov_chain t = Ok ch ->
  (forall g, In g (keys ch) <-> In g (keys t)) /\
  (forall g d, In (g, d) t ->
     exists w es,
       float_of_int (sum_counts d) = Ok w /\
       comprehension (edge_of g w) d = Ok es /\
       dict_get g ch = Some (insert_edges es (empty_node g)) /\
       Forall (fun e => In (fst e) (keys t)) es).
Proof.
  intros Hnd Hb. unfold build_markov_chain in Hb.
  destruct (connect_nodes _ _ _ Hnd Hb) as (_ & Hkeys & Hnodes). split.
  - intros g. now rewrite Hkeys, keys_create_nodes.
  - intros g d Hi.
    destruct (Hnodes g d (empty_node g) Hi) as (w & es & Hw & Hes & Hg & Hin).
    { apply dict_get_create_nodes. apply (in_map fst) in Hi. exact Hi. }
    exists w, es. repeat split; auto.
    eapply Forall_impl; [|exact Hin]. cbn. intros e. apply keys_create_nodes.
Qed.

(** The keys of a table made by [record_observation] are distinct. *)
Lemma NoDup_keys_dict_set {K V : Type} `{EqbLaws K} (k : K) (v : V) (d : dict K V) :
  NoDup (keys d) -> NoDup (keys (dict_set k v d)).
Proof.
  intros Hnd. destruct (dict_get k d) as [o|] eqn:E.
  - rewrite keys_dict_set_old; [exact Hnd|]. apply dict_get_Some_keys; eauto.
  - apply dict_get_None in E. rewrite dict_set_new by assumption.
    unfold keys. rewrite map_app. cbn. apply NoDup_app; auto.
    + apply NoDup_cons; [tauto | constructor].
    + intros x Hx [->|[]]. contradiction.
Qed.

Lemma NoDup_keys_record (t : table) (g c : pystr) :
  NoDup (keys t) -> NoDup (keys (record_observation t g c)).
Proof.
  intros Hnd. unfold record_observation.
  apply NoDup_keys_dict_set. destruct (dict_mem g t); [exact Hnd|].
  now apply NoDup_keys_dict_set.
Qed.

Lemma NoDup_keys_fold (obs : list (pystr * pystr)) (t : table) :
  NoDup (keys t) -> NoDup (keys (fold_left record_pair obs t)).
Proof.
  revert t; induction obs as [|o obs IH]; intros t Hnd; cbn [fold_left]; [exact Hnd|].
  apply IH. now apply NoDup_keys_record.
Qed.

(** ** The walk of [generate_text] *)

(** A chain graph for n-grams of length [k]: it has a node; every key has
    [k] characters and holds the node of that n-gram; every edge leads to a
    node of the graph. *)
Definition chain_wf (k : Z) (ch : chain) : Prop :=
  ch <> [] /\
  forall key, In key (keys ch) ->
    len key = k /\
    exists nd, dict_get key ch = Some nd /\ ngram nd = key /\
               forall e, In e (next_states nd) -> In (fst e) (keys ch).

(** The scans resolve everywhere: at every node of the chain and for every
    draw of the source, whether the run comes to it or not. *)
Definition scans_resolve (ch : chain) (rs : random_source) : Prop :=
  forall nd n, In nd (values ch) -> is_ok (get_next_state nd (draws rs n)) = true.

Definition float_zero : float := S754_zero false.
Definition float_one : float := S754_finite false 4503599627370496 (-52).

(** [0.0 <= r < 1.0], the range of [random()]. *)
Definition in_unit_interval (r : float) : bool :=
  SFleb float_zero r && SFltb r float_one.

Lemma compute_ngram_counts_Ok_len (text : pystr) (k : Z) (t : table) :
  compute_ngram_counts text k = Ok t -> k <= len text.
Proof.
  unfold compute_ngram_counts. destruct (Z.ltb_spec (len text) k); [discriminate|lia].
Qed.

Lemma compute_ngram_counts_NoDup (text : pystr) (k : Z) (t : table) :
  0 <= k -> compute_ngram_counts text k = Ok t -> NoDup (keys t).
Proof.
  intros Hk Ht. pose proof (compute_ngram_counts_Ok_len _ _ _ Ht) as Hl.
  rewrite compute_ngram_counts_fold in Ht by lia. injection Ht as <-.
  apply NoDup_keys_fold. constructor.
Qed.

Lemma compute_ngram_counts_keys (text : pystr) (k : Z) (t : table) (g : pystr) :
  0 <= k -> compute_ngram_counts text k = Ok t ->
  (In g (keys t) <-> exists i, 0 <= i < len text /\ g = spec_circular_ngram text k i).
Proof.
  intros Hk Ht. pose proof (compute_ngram_counts_Ok_len _ _ _ Ht) as Hl.
  rewrite compute_ngram_counts_fold in Ht by lia. injection Ht as <-.
  rewrite keys_fold, map_map, in_map_iff. cbn [keys map In fst].
  split.
  - intros [[]|(i & <- & Hi)]. apply In_range in Hi. eauto.
  - intros (i & Hi & ->). right. exists i. split; [reflexivity|]. now apply In_range.
Qed.

Lemma len_spec_circular_ngram (text : pystr) (k i : Z) :
  0 <= k -> len (spec_circular_ngram text k i) = k.
Proof.
  intros Hk. unfold spec_circular_ngram, len. rewrite length_map.
  apply length_range, Hk.
Qed.

(** The chain built from the table of a circular scan is a chain graph. *)
Lemma build_markov_chain_wf (text : pystr) (k : Z) (t : table) (ch : chain) :
  0 < k -> compute_ngram_counts text k = Ok t -> build_markov_chain t = Ok ch ->
  chain_wf k ch.
Proof.
  intros Hk Ht Hb.
  pose proof (compute_ngram_counts_Ok_len _ _ _ Ht) as Hl.
  pose proof (compute_ngram_counts_NoDup _ _ _ (Z.lt_le_incl _ _ Hk) Ht) as Hnd.
  destruct (build_markov_chain_nodes _ _ Hnd Hb) as (Hkeys & Hnodes).
  split.
  - assert (Hi : In (spec_circular_ngram text k 0) (keys ch)).
    { apply Hkeys. apply (compute_ngram_counts_keys text k t); [lia|assumption|].
      exists 0. split; [lia|reflexivity]. }
    intros ->. contradiction.
  - intros key Hkey. apply Hkeys in Hkey. split.
    + apply (compute_ngram_counts_keys text k t) in Hkey; [|lia|assumption].
      destruct Hkey as (i & _ & ->). apply len_spec_circular_ngram; lia.
    + unfold keys in Hkey. apply in_map_iff in Hkey.
      destruct Hkey as ([g d] & <- & Hi). cbn [fst].
      destruct (Hnodes g d Hi) as (w & es & _ & _ & Hg & Hin).
      eexists. split; [exact Hg|]. split.
      * now rewrite ngram_insert_edges.
      * intros e He. apply In_insert_edges in He. cbn in He.
        destruct He as [[]|He]. apply Hkeys.
        rewrite Forall_forall in Hin. now apply Hin.
Qed.

Lemma scan_states_In (g : pystr) (states : list (node_ref * float)) (p : float)
  (next : node_ref) :
  scan_states g states p = Ok next -> exists pr, In (next, pr) states.
Proof.
  revert p; induction states as [|[tgt pr] states IH]; intros p; cbn; [discriminate|].
  destruct (float_lt p pr).
  - intros E; injection E as <-. eauto.
  - intros E. destruct (IH _ E) as [pr' Hi]. eauto.
Qed.

Lemma str_index_last (s : pystr) :
  0 < len s -> exists c, str_index s (-1) = Ok [c].
Proof.
  intros Hs. unfold str_index, py_index. cbn [Z.ltb Z.compare].
  replace (0 <=? -1 + len s) with true by (symmetry; apply Z.leb_le; lia).
  replace (-1 + len s <? len s) with true by (symmetry; apply Z.ltb_lt; lia).
  cbn [andb]. destruct (nth_error s (Z.to_nat (-1 + len s))) as [c|] eqn:E.
  - exists c. reflexivity.
  - apply nth_error_None in E. unfold len in *. lia.
Qed.

(** One turn of the loop in a chain graph: one selection, one character. *)
Lemma walk_step_wf (k : Z) (ch : chain) (rs : random_source) (st : walk_state) :
  0 < k -> chain_wf k ch -> scans_resolve ch rs -> In (node st) (keys ch) ->
  exists next c,
    walk_step ch rs st
    = Ok {| node := next; text := text st ++ [[c]];
            text_length := text_length st + 1; selections := S (selections st) |}
    /\ In next (keys ch).
Proof.
  intros Hk [_ Hwf] Hres Hin. unfold walk_step.
  destruct (Hwf _ Hin) as (_ & nd & Hnd & _ & Hedges).
  rewrite (proj2 (lookup_Ok _ _ _) Hnd). cbn [bind].
  assert (Hv : In nd (values ch)).
  { apply dict_get_In in Hnd. apply (in_map snd) in Hnd. exact Hnd. }
  specialize (Hres nd (selections st) Hv).
  destruct (get_next_state nd (draws rs (selections st))) as [next|e] eqn:En;
    [|discriminate].
  cbn [bind]. apply scan_states_In in En. destruct En as [pr Hpr].
  apply Hedges in Hpr. cbn [fst] in Hpr.
  destruct (Hwf _ Hpr) as (Hlen & nd' & Hnd' & Hng & _).
  rewrite (proj2 (lookup_Ok _ _ _) Hnd'). cbn [bind].
  destruct (str_index_last (ngram nd')) as [c Hc]; [rewrite Hng; lia|].
  rewrite Hc. cbn [bind]. exists next, c. auto.
Qed.

Lemma while_loop_fuel_mono (ch : chain) (rs : random_source) (length : Z)
  (fuel fuel' : nat) (st : walk_state) (r : result walk_state) :
  (fuel <= fuel')%nat ->
  while_loop fuel ch rs length st = Some r ->
  while_loop fuel' ch rs length st = Some r.
Proof.
  revert fuel' st; induction fuel as [|fuel IH]; intros fuel' st Hle.
  - destruct fuel'; cbn; destruct (text_length st <? length); auto; discriminate.
  - destruct fuel' as [|fuel']; [lia|]. cbn.
    destruct (text_length st <? length); auto.
    destruct (walk_step ch rs st); auto. apply IH. lia.
Qed.

Lemma len_join_text_app (t1 t2 : list pystr) :
  len (join_text (t1 ++ t2)) = len (join_text t1) + len (join_text t2).
Proof. unfold join_text. now rewrite concat_app, len_app. Qed.

(** The loop ends after [max 0 (length - text_length)] turns. *)
Lemma while_loop_wf (k : Z) (ch : chain) (rs : random_source) (length : Z) :
  0 < k -> chain_wf k ch -> scans_resolve ch rs ->
  forall (fuel : nat) (st : walk_state),
    In (node st) (keys ch) ->
    (Z.to_nat (length - text_length st) <= fuel)%nat ->
    exists st',
      while_loop fuel ch rs length st = Some (Ok st') /\
      selections st' = (selections st + Z.to_nat (length - text_length st))%nat /\
      (exists more, text st' = text st ++ more /\
                    len (join_text more) = Z.max 0 (length - text_length st)).
Proof.
  intros Hk Hwf Hres. induction fuel as [|fuel IH]; intros st Hin Hfuel.
  - cbn. destruct (Z.ltb_spec (text_length st) length) as [Hlt|Hge]; [lia|].
    exists st. split; [reflexivity|]. split; [lia|].
    exists []. rewrite app_nil_r. split; [reflexivity|]. cbn. lia.
  - cbn. destruct (Z.ltb_spec (text_length st) length) as [Hlt|Hge].
    + destruct (walk_step_wf k ch rs st Hk Hwf Hres Hin) as (next & c & -> & Hnext).
      destruct (IH {| node := next; text := text st ++ [[c]];
                      text_length := text_length st + 1;
                      selections := S (selections st) |} Hnext)
        as (st' & Hrun & Hsel & more & Htext & Hmore).
      { cbn [text_length]. lia. }
      exists st'. split; [exact Hrun|]. cbn [selections text text_length] in *.
      split; [lia|]. exists ([c] :: more). split.
      * rewrite Htext, <- app_assoc. reflexivity.
      * change ([c] :: more) with ([[c]] ++ more). rewrite len_join_text_app, Hmore.
        change (len (join_text [[c]])) with 1. lia.
    + exists st. split; [reflexivity|]. split; [lia|].
      exists []. rewrite app_nil_r. split; [reflexivity|]. cbn. lia.
Qed.

Lemma join_text_letters (s : pystr) : join_text (map (fun c => [c]) s) = s.
Proof. induction s as [|c s IH]; cbn; [reflexivity|]. unfold join_text in IH. now rewrite IH. Qed.

Lemma choice_In {A : Type} (rs : random_source) (l : list A) :
  l <> [] -> exists x, choice rs l = Ok x /\ In x l.
Proof.
  intros Hl. unfold choice. destruct l as [|a l]; [contradiction|].
  destruct (nth_error (a :: l) (choice_draw rs mod length (a :: l))) as [x|] eqn:E.
  - exists x. split; [reflexivity|]. eapply nth_error_In; eauto.
  - apply nth_error_None in E.
    pose proof (Nat.mod_upper_bound (choice_draw rs) (length (a :: l))) as Hb.
    cbn [length] in *. lia.
Qed.

(** The whole run in a chain graph. *)
Lemma generate_run_wf (k : Z) (ch : chain) (rs : random_source) (length : Z) :
  0 < k -> chain_wf k ch -> scans_resolve ch rs ->
  exists st start more,
    (forall fuel, (Z.to_nat (length - k) <= fuel)%nat ->
                  generate_run fuel ch length rs = Some (Ok st)) /\
    In start (keys ch) /\
    join_text (text st) = start ++ join_text more /\
    len (join_text more) = Z.max 0 (length - k) /\
    selections st = Z.to_nat (length - k).
Proof.
  intros Hk Hwf Hres. unfold generate_run, initial_state.
  destruct (choice_In rs (keys ch)) as (start & Hc & Hstart).
  { destruct Hwf as [Hne _]. destruct ch; [contradiction|discriminate]. }
  destruct (proj2 Hwf _ Hstart) as (Hlen & nd & Hnd & Hng & _).
  rewrite Hc. cbn [bind]. rewrite (proj2 (lookup_Ok _ _ _) Hnd). cbn [bind].
  rewrite Hng.
  set (st0 := {| node := start; text := map (fun c => [c]) start;
                 text_length := len start; selections := 0 |}).
  destruct (while_loop_wf k ch rs length Hk Hwf Hres
              (Z.to_nat (length - k)) st0)
    as (st & Hrun & Hsel & more & Htext & Hmore).
  { exact Hstart. }
  { cbn [st0 text_length]. lia. }
  exists st, start, more. cbn [st0 text_length selections text] in *.
  rewrite Hlen in *. repeat split; auto.
  - intros fuel Hf. eapply while_loop_fuel_mono; eauto.
  - rewrite Htext. unfold join_text. rewrite concat_app.
    fold (join_text (map (fun c => [c]) start)). now rewrite join_text_letters.
Qed.

(** ** [generate_text]: length of the result *)

(** Every weighted scan that the run makes resolves to an edge: however far
    the loop of lines 189-192 is followed, [generate_text] has not stopped
    with the exception of line 48.  Nothing is asked of the nodes that the
    run does not visit, nor of the draws that it does not use. *)
Definition run_scans_resolve (ch : chain) (length : Z) (rs : random_source) : Prop :=
  forall fuel g, generate_text fuel ch length rs <> Some (Raise (NoNextState g)).

Lemma scan_states_Raise (g : pystr) (states : list (node_ref * float)) (p : float)
  (e : exn) :
  scan_states g states p = Raise e -> e = NoNextState g.
Proof.
  revert p; induction states as [|[tgt pr] states IH]; intros p; cbn [scan_states].
  - intros E; now injection E as <-.
  - cbn [fst snd]. destruct (float_lt p pr); [discriminate | apply IH].
Qed.

(** One turn of the loop in a chain graph: one selection and one character,
    or the exception of line 48. *)
Lemma walk_step_cases (k : Z) (ch : chain) (rs : random_source) (st : walk_state) :
  0 < k -> chain_wf k ch -> In (node st) (keys ch) ->
  (exists next c,
     walk_step ch rs st
     = Ok {| node := next; text := text st ++ [[c]];
             text_length := text_length st + 1; selections := S (selections st) |}
     /\ In next (keys ch))
  \/ walk_step ch rs st = Raise (NoNextState (node st)).
Proof.
  intros Hk [_ Hwf] Hin. unfold walk_step.
  destruct (Hwf _ Hin) as (_ & nd & Hnd & Hself & Hedges).
  rewrite (proj2 (lookup_Ok _ _ _) Hnd). cbn [bind].
  destruct (get_next_state nd (draws rs (selections st))) as [next|e] eqn:En.
  - left. cbn [bind]. apply scan_states_In in En. destruct En as [pr Hpr].
    apply Hedges in Hpr. cbn [fst] in Hpr.
    destruct (Hwf _ Hpr) as (Hlen & nd' & Hnd' & Hng & _).
    rewrite (proj2 (lookup_Ok _ _ _) Hnd'). cbn [bind].
    destruct (str_index_last (ngram nd')) as [c Hc]; [rewrite Hng; lia|].
    rewrite Hc. cbn [bind]. exists next, c. auto.
  - right. cbn [bind]. apply scan_states_Raise in En. now rewrite En, Hself.
Qed.

(** The loop ends within [max 0 (length - text_length)] turns: after exactly
    that many when no scan fails, with the exception of line 48 otherwise. *)
Lemma while_loop_cases (k : Z) (ch : chain) (rs : random_source) (length : Z) :
  0 < k -> chain_wf k ch ->
  forall (fuel : nat) (st : walk_state),
    In (node st) (keys ch) ->
    (Z.to_nat (length - text_length st) <= fuel)%nat ->
    (exists st',
       while_loop fuel ch rs length st = Some (Ok st') /\
       selections st' = (selections st + Z.to_nat (length - text_length st))%nat /\
       (exists more, text st' = text st ++ more /\
                     len (join_text more) = Z.max 0 (length - text_length st)))
    \/ exists g, while_loop fuel ch rs length st = Some (Raise (NoNextState g)).
Proof.
  intros Hk Hwf. induction fuel as [|fuel IH]; intros st Hin Hfuel.
  - left. cbn. destruct (Z.ltb_spec (text_length st) length) as [Hlt|Hge]; [lia|].
    exists st. split; [reflexivity|]. split; [lia|].
    exists []. rewrite app_nil_r. split; [reflexivity|]. cbn. lia.
  - cbn [while_loop]. destruct (Z.ltb_spec (text_length st) length) as [Hlt|Hge].
    + destruct (walk_step_cases k ch rs st Hk Hwf Hin) as [(next & c & E & Hnext)|E];
        rewrite E; [|right; eauto].
      destruct (IH {| node := next; text := text st ++ [[c]];
                      text_length := text_length st + 1;
                      selections := S (selections st) |} Hnext)
        as [(st' & Hrun & Hsel & more & Htext & Hmore)|[g Hg]];
        [cbn [text_length]; lia | left | right; eauto].
      exists st'. split; [exact Hrun|]. cbn [selections text text_length] in *.
      split; [lia|]. exists ([c] :: more). split.
      * rewrite Htext, <- app_assoc. reflexivity.
      * change ([c] :: more) with ([[c]] ++ more). rewrite len_join_text_app, Hmore.
        change (len (join_text [[c]])) with 1. lia.
    + left. exists st. split; [reflexivity|]. split; [lia|].
      exists []. rewrite app_nil_r. split; [reflexivity|]. cbn. lia.
Qed.

(** The whole run in a chain graph, at the fuel of [max 0 (length - k)]
    turns. *)
Lemma generate_run_cases (k : Z) (ch : chain) (rs : random_source) (length : Z) :
  0 < k -> chain_wf k ch ->
  (exists st start more,
     generate_run (Z.to_nat (length - k)) ch length rs = Some (Ok st) /\
     In start (keys ch) /\
     join_text (text st) = start ++ join_text more /\
     len (join_text more) = Z.max 0 (length - k) /\
     selections st = Z.to_nat (length - k))
  \/ exists g,
       generate_run (Z.to_nat (length - k)) ch length rs
       = Some (Raise (NoNextState g)).
Proof.
  intros Hk Hwf. unfold generate_run, initial_state.
  destruct (choice_In rs (keys ch)) as (start & Hc & Hstart).
  { destruct Hwf as [Hne _]. destruct ch; [contradiction|discriminate]. }
  destruct (proj2 Hwf _ Hstart) as (Hlen & nd & Hnd & Hng & _).
  rewrite Hc. cbn [bind]. rewrite (proj2 (lookup_Ok _ _ _) Hnd). cbn [bind].
  rewrite Hng.
  set (st0 := {| node := start; text := map (fun c => [c]) start;
                 text_length := len start; selections := 0 |}).
  destruct (while_loop_cases k ch rs length Hk Hwf (Z.to_nat (length - k)) st0)
    as [(st & Hrun & Hsel & more & Htext & Hmore)|[g Hg]].
  { exact Hstart. }
  { cbn [st0 text_length]. lia. }
  - left. exists st, start, more. cbn [st0 text_length selections text] in *.
    rewrite Hlen in *. repeat split; auto.
    rewrite Htext. unfold join_text. rewrite concat_app.
    fold (join_text (map (fun c => [c]) start)). now rewrite join_text_letters.
  - right. eauto.
Qed.

Lemma generate_run_fuel_mono (ch : chain) (rs : random_source) (length : Z)
  (fuel fuel' : nat) (r : result walk_state) :
  (fuel <= fuel')%nat ->
  generate_run fuel ch length rs = Some r ->
  generate_run fuel' ch length rs = Some r.
Proof.
  unfold generate_run. intros Hle. destruct (initial_state ch rs); [|auto].
  now apply while_loop_fuel_mono.
Qed.

Lemma generate_text_fuel_mono (ch : chain) (rs : random_source) (length : Z)
  (fuel fuel' : nat) (r : result pystr) :
  (fuel <= fuel')%nat ->
  generate_text fuel ch length rs = Some r ->
  generate_text fuel' ch length rs = Some r.
Proof.
  unfold generate_text. intros Hle.
  destruct (generate_run fuel ch length rs) as [r0|] eqn:E; [|discriminate].
  now rewrite (generate_run_fuel_mono _ _ _ _ _ _ Hle E).
Qed.

(** A run that returns a text has made only scans that resolve. *)
Lemma run_scans_resolve_returned (ch : chain) (length : Z) (rs : random_source)
  (fuel : nat) (s : pystr) :
  generate_text fuel ch length rs = Some (Ok s) -> run_scans_resolve ch length rs.
Proof.
  intros Hs fuel' g Hg. destruct (Nat.le_ge_cases fuel fuel') as [Hle|Hle].
  - rewrite (generate_text_fuel_mono _ _ _ _ _ _ Hle Hs) in Hg. discriminate.
  - rewrite (generate_text_fuel_mono _ _ _ _ _ _ Hle Hg) in Hs. discriminate.
Qed.

(** The run of a chain graph whose scans resolve. *)
Lemma generate_run_resolved (k : Z) (ch : chain) (rs : random_source) (length : Z) :
  0 < k -> chain_wf k ch -> run_scans_resolve ch length rs ->
  exists st start more,
    (forall fuel, (Z.to_nat (length - k) <= fuel)%nat ->
                  generate_run fuel ch length rs = Some (Ok st)) /\
    In start (keys ch) /\
    join_text (text st) = start ++ join_text more /\
    len (join_text more) = Z.max 0 (length - k) /\
    selections st = Z.to_nat (length - k).
Proof.
  intros Hk Hwf Hres.
  destruct (generate_run_cases k ch rs length Hk Hwf)
    as [(st & start & more & Hrun & H)|[g Hg]].
  - exists st, start, more. split; [|exact H].
    intros fuel Hf. exact (generate_run_fuel_mono _ _ _ _ _ _ Hf Hrun).
  - exfalso. apply (Hres (Z.to_nat (length - k)) g).
    unfold generate_text. now rewrite Hg.
Qed.

(** The text ["abababacacacad"] with [k = 1]: the n-gram ["a"] has three
    successors, of 3, 3 and 1 occurrences. *)
Definition branching_source : pystr :=
  [97; 98; 97; 98; 97; 98; 97; 99; 97; 99; 97; 99; 97; 100].

Definition branching_chain : chain :=
  Eval vm_compute in
    match compute_ngram_counts branching_source 1 with
    | Ok t => match build_markov_chain t with Ok ch => ch | Raise _ => [] end
    | Raise _ => []
    end.

(** [0.5], and [1 - 2^-53], the largest value below [1.0]. *)
Definition float_half : float := S754_finite false 4503599627370496 (-53).
Definition float_below_one : float := S754_finite false 9007199254740991 (-53).

(** A run that starts at the first key and draws [0.5] and [1 - 2^-53] in
    turn. *)
Definition alternating_draws : random_source :=
  {| choice_draw := 0;
     draws := fun n => if Nat.even n then float_half else float_below_one |}.

(** C10.  In a chain built from the table of [compute_ngram_counts] (for a
    positive n-gram length [k]), for every integer [target], with every
    draw in [0,1) and every weighted scan that the run makes resolving to
    an edge, [generate_text] terminates: with enough fuel for
    [max 0 (target - k)] turns the loop ends, after exactly that many
    selections, and the result has [max k target] characters and begins
    with the whole n-gram of the start node. *)
Theorem generate_text_terminates (source : pystr) (k : Z) (t : table) (ch : chain)
  (target : Z) (rs : random_source) :
  0 < k ->
  compute_ngram_counts source k = Ok t ->
  build_markov_chain t = Ok ch ->
  (forall n, in_unit_interval (draws rs n) = true) ->
  run_scans_resolve ch target rs ->
  exists st start rest,
    (forall fuel, (Z.to_nat (Z.max 0 (target - k)) <= fuel)%nat ->
       generate_run fuel ch target rs = Some (Ok st) /\
       generate_text fuel ch target rs = Some (Ok (join_text (text st)))) /\
    selections st = Z.to_nat (Z.max 0 (target - k)) /\
    len (join_text (text st)) = Z.max k target /\
    In start (keys ch) /\ len start = k /\
    join_text (text st) = start ++ rest.
Proof.
  intros Hk Ht Hb _ Hres.
  pose proof (build_markov_chain_wf source k t ch Hk Ht Hb) as Hwf.
  destruct (generate_run_resolved k ch rs target Hk Hwf Hres)
    as (st & start & more & Hrun & Hstart & Hjoin & Hmore & Hsel).
  exists st, start, (join_text more).
  pose proof (proj1 (proj2 Hwf _ Hstart)) as Hlen.
  split; [|split; [|split; [|split; [|split]]]]; auto.
  - intros fuel Hf. unfold generate_text. rewrite Hrun by lia. auto.
  - lia.
  - rewrite Hjoin, len_app, Hmore. lia.
Qed.

Lemma generate_text_terminates_witness :
  exists st start rest,
    (forall fuel, (Z.to_nat (Z.max 0 (6 - 1)) <= fuel)%nat ->
       generate_run fuel branching_chain 6 alternating_draws = Some (Ok st) /\
       generate_text fuel branching_chain 6 alternating_draws
       = Some (Ok (join_text (text st)))) /\
    selections st = Z.to_nat (Z.max 0 (6 - 1)) /\
    len (join_text (text st)) = Z.max 1 6 /\
    In start (keys branching_chain) /\ len start = 1 /\
    join_text (text st) = start ++ rest.
Proof.
  apply (generate_text_terminates branching_source 1
           [([97], [([98], 3); ([99], 3); ([100], 1)]);
            ([98], [([97], 3)]); ([99], [([97], 3)]); ([100], [([97], 1)])]).
  - lia.
  - reflexivity.
  - reflexivity.
  - intros n. unfold alternating_draws. cbn [draws].
    destruct (Nat.even n); reflexivity.
  - apply (run_scans_resolve_returned _ _ _ 5 [97; 99; 97; 99; 97; 99]).
    vm_compute. reflexivity.
Defined.

(** C3, as the code has it.  In a chain graph for n-grams of length [k] and
    for a target [n >= 1], when every weighted scan that the run makes
    resolves to an edge, that is when [get_next_state] does not raise during
    the run, [generate_text] returns a string of [max n k] characters that
    begins with the n-gram of a node of the graph: exactly [n] characters
    when [n >= k], and the whole n-gram, all [k] characters of it, when
    [n <= k]. *)
Theorem generate_text_length (k : Z) (ch : chain) (n : Z) (rs : random_source) :
  0 < k -> chain_wf k ch -> 1 <= n -> run_scans_resolve ch n rs ->
  exists s start rest,
    (forall fuel, (Z.to_nat (n - k) <= fuel)%nat ->
                  generate_text fuel ch n rs = Some (Ok s)) /\
    In start (keys ch) /\ len start = k /\ s = start ++ rest /\
    len s = Z.max n k /\
    (k <= n -> len s = n) /\
    (n <= k -> s = start).
Proof.
  intros Hk Hwf Hn Hres.
  destruct (generate_run_resolved k ch rs n Hk Hwf Hres)
    as (st & start & more & Hrun & Hstart & Hjoin & Hmore & Hsel).
  pose proof (proj1 (proj2 Hwf _ Hstart)) as Hlen.
  exists (join_text (text st)), start, (join_text more).
  assert (Hl : len (join_text (text st)) = Z.max n k).
  { rewrite Hjoin, len_app, Hmore. lia. }
  split; [|split; [|split; [|split; [|split; [|split]]]]]; auto.
  - intros fuel Hf. unfold generate_text. now rewrite Hrun.
  - lia.
  - intros Hle. rewrite Hjoin.
    assert (E : join_text more = []).
    { destruct (join_text more); [reflexivity|]. unfold len in Hmore.
      cbn [List.length] in Hmore. lia. }
    rewrite E. apply app_nil_r.
Qed.

Lemma generate_text_length_witness :
  exists s start rest,
    (forall fuel, (Z.to_nat (5 - 1) <= fuel)%nat ->
       generate_text fuel
         [([97], {| ngram := [97]; next_states := [([97], float_one)] |});
          ([98], {| ngram := [98]; next_states := [] |})]
         5 {| choice_draw := 0; draws := fun _ => float_half |} = Some (Ok s)) /\
    In start (keys
         [([97], {| ngram := [97]; next_states := [([97], float_one)] |});
          ([98], {| ngram := [98]; next_states := [] |})]) /\
    len start = 1 /\ s = start ++ rest /\
    len s = Z.max 5 1 /\ (1 <= 5 -> len s = 5) /\ (5 <= 1 -> s = start).
Proof.
  apply (generate_text_length 1).
  - lia.
  - split; [discriminate|].
    intros key [<-|[<-|[]]]; (split; [reflexivity|]);
      eexists; (split; [reflexivity|]); (split; [reflexivity|]).
    + intros e [<-|[]]. now left.
    + intros e [].
  - lia.
  - apply (run_scans_resolve_returned _ _ _ 4 [97; 97; 97; 97; 97]).
    vm_compute. reflexivity.
Defined.

(** C3 as stated fails: asked for one character, in the chain of the text
    ["ab"] with [k = 2], [generate_text] returns the two characters of the
    start n-gram. *)
Lemma generate_text_not_clamped :
  compute_ngram_counts [97; 98] 2
  = Ok [([97; 98], [([97], 1)]); ([98; 97], [([98], 1)])] /\
  build_markov_chain [([97; 98], [([97], 1)]); ([98; 97], [([98], 1)])]
  = Ok [([97; 98], {| ngram := [97; 98]; next_states := [([98; 97], float_one)] |});
        ([98; 97], {| ngram := [98; 97]; next_states := [([97; 98], float_one)] |})] /\
  (forall fuel,
     generate_text fuel
       [([97; 98], {| ngram := [97; 98]; next_states := [([98; 97], float_one)] |});
        ([98; 97], {| ngram := [98; 97]; next_states := [([97; 98], float_one)] |})]
       1 {| choice_draw := 0; draws := fun _ => float_zero |}
     = Some (Ok [97; 98])) /\
  len [97; 98] <> 1 /\
  py_slice [97; 98] 0 1 <> [97; 98].
Proof.
  split; [reflexivity|]. split; [reflexivity|]. split.
  - intros fuel. destruct fuel; reflexivity.
  - split; [cbn; lia | cbn; discriminate].
Qed.

(** ** The scenario of the text ["abab"] *)

Lemma in_unit_interval_lt_one (r : float) :
  in_unit_interval r = true -> float_lt r float_one = true.
Proof. unfold in_unit_interval. intros H; apply andb_true_iff in H. apply H. Qed.

(** C9.  For the text ["abab"] and [k = 1] the table has the two n-grams
    ["a"] and ["b"], ["a"] followed by ["b"] only, twice, and ["b"] by
    ["a"] only, twice; both edges of the chain have probability [1.0]; and a
    run of [generate_text] for 6 characters whose start node is ["a"]
    returns ["ababab"], whatever the draws in [0,1) are. *)
Theorem abab_scenario (rs : random_source) (fuel : nat) :
  (choice_draw rs mod 2 = 0)%nat ->
  (forall n, in_unit_interval (draws rs n) = true) ->
  (5 <= fuel)%nat ->
  compute_ngram_counts [97; 98; 97; 98] 1
  = Ok [([97], [([98], 2)]); ([98], [([97], 2)])] /\
  build_markov_chain [([97], [([98], 2)]); ([98], [([97], 2)])]
  = Ok [([97], {| ngram := [97]; next_states := [([98], float_one)] |});
        ([98], {| ngram := [98]; next_states := [([97], float_one)] |})] /\
  float_one = SFone prec emax /\
  generate_text fuel
    [([97], {| ngram := [97]; next_states := [([98], float_one)] |});
     ([98], {| ngram := [98]; next_states := [([97], float_one)] |})]
    6 rs
  = Some (Ok [97; 98; 97; 98; 97; 98]).
Proof.
  intros Hstart Hdraws Hfuel.
  split; [reflexivity|]. split; [reflexivity|]. split; [reflexivity|].
  do 5 (destruct fuel as [|fuel]; [lia|]).
  set (na := {| ngram := [97]; next_states := [([98], float_one)] |}).
  set (nb := {| ngram := [98]; next_states := [([97], float_one)] |}).
  set (ch := [([97], na); ([98], nb)]).
  assert (La : lookup [97] ch = Ok na) by reflexivity.
  assert (Lb : lookup [98] ch = Ok nb) by reflexivity.
  assert (Ha : forall st,
             node st = [97] ->
             walk_step ch rs st
             = Ok {| node := [98]; text := text st ++ [[98]];
                     text_length := text_length st + 1;
                     selections := S (selections st) |}).
  { intros st E. unfold walk_step. rewrite E, La. cbn [bind].
    unfold get_next_state, na. cbn [scan_states next_states ngram snd fst].
    rewrite (in_unit_interval_lt_one _ (Hdraws _)). cbn [bind].
    rewrite Lb. reflexivity. }
  assert (Hb : forall st,
             node st = [98] ->
             walk_step ch rs st
             = Ok {| node := [97]; text := text st ++ [[97]];
                     text_length := text_length st + 1;
                     selections := S (selections st) |}).
  { intros st E. unfold walk_step. rewrite E, Lb. cbn [bind].
    unfold get_next_state, nb. cbn [scan_states next_states ngram snd fst].
    rewrite (in_unit_interval_lt_one _ (Hdraws _)). cbn [bind].
    rewrite La. reflexivity. }
  unfold generate_text, generate_run, initial_state, choice.
  change (keys ch) with [[97]; [98]]. cbn [List.length]. rewrite Hstart.
  cbn [nth_error bind]. rewrite La. cbn [bind].
  change (len (ngram na)) with 1. change (ngram na) with [97]. cbn [map].
  cbn [while_loop text_length]. change (1 <? 6) with true. cbv iota.
  rewrite Ha by reflexivity.
  cbn [while_loop text_length]. change (1 + 1 <? 6) with true. cbv iota.
  rewrite Hb by reflexivity.
  cbn [while_loop text_length]. change (1 + 1 + 1 <? 6) with true. cbv iota.
  rewrite Ha by reflexivity.
  cbn [while_loop text_length]. change (1 + 1 + 1 + 1 <? 6) with true. cbv iota.
  rewrite Hb by reflexivity.
  cbn [while_loop text_length]. change (1 + 1 + 1 + 1 + 1 <? 6) with true. cbv iota.
  rewrite Ha by reflexivity.
  destruct fuel; reflexivity.
Qed.

Lemma abab_scenario_witness :
  generate_text 5
    [([97], {| ngram := [97]; next_states := [([98], float_one)] |});
     ([98], {| ngram := [98]; next_states := [([97], float_one)] |})]
    6 {| choice_draw := 0;
         draws := fun _ => S754_finite false 8106479329266893 (-53) |}
  = Some (Ok [97; 98; 97; 98; 97; 98]).
Proof.
  apply (abab_scenario
           {| choice_draw := 0;
              draws := fun _ => S754_finite false 8106479329266893 (-53) |} 5);
    [reflexivity | intros n; reflexivity | lia].
Defined.

(** ** Decimal text *)

Local Open Scope string_scope.
Local Open Scope list_scope.
Local Open Scope Z_scope.

Lemma append_assoc (a b c : string) : ((a ++ b) ++ c = a ++ (b ++ c))%string.
Proof. induction a as [|x a IH]; cbn; [reflexivity|]. now rewrite IH. Qed.

Lemma append_nil_r (a : string) : (a ++ "")%string = a.
Proof. induction a as [|x a IH]; cbn; [reflexivity|]. now rewrite IH. Qed.

(** All characters of a string satisfy a test. *)
Fixpoint string_forall (P : ascii -> bool) (s : string) : bool :=
  match s with
  | EmptyString => true
  | String c r => P c && string_forall P r
  end.

Lemma string_forall_append (P : ascii -> bool) (a b : string) :
  string_forall P (a ++ b) = string_forall P a && string_forall P b.
Proof. induction a as [|x a IH]; cbn; [reflexivity|]. now rewrite IH, andb_assoc. Qed.

Lemma string_forall_impl (P Q : ascii -> bool) (s : string) :
  (forall c, P c = true -> Q c = true) ->
  string_forall P s = true -> string_forall Q s = true.
Proof.
  intros HPQ; induction s as [|x s IH]; cbn; [reflexivity|].
  intros H; apply andb_true_iff in H; destruct H as [Hx Hs].
  now rewrite (HPQ _ Hx), IH.
Qed.

Definition not_space (c : ascii) : bool := negb (is_space c).
Definition not_newline (c : ascii) : bool := negb (Ascii.eqb c newline).

(** A field of a line: not empty and free of whitespace. *)
Definition is_token (s : string) : bool :=
  match s with
  | EmptyString => false
  | _ => string_forall not_space s
  end.

Lemma not_space_not_newline (c : ascii) : not_space c = true -> not_newline c = true.
Proof.
  unfold not_space, not_newline. destruct (Ascii.eqb_spec c newline) as [->|]; auto.
Qed.

(** The value of a decimal numeral read from the left. *)
Fixpoint uint_value (d : Decimal.uint) (acc : Z) : Z :=
  match d with
  | Decimal.Nil => acc
  | Decimal.D0 d => uint_value d (10 * acc + 0)
  | Decimal.D1 d => uint_value d (10 * acc + 1)
  | Decimal.D2 d => uint_value d (10 * acc + 2)
  | Decimal.D3 d => uint_value d (10 * acc + 3)
  | Decimal.D4 d => uint_value d (10 * acc + 4)
  | Decimal.D5 d => uint_value d (10 * acc + 5)
  | Decimal.D6 d => uint_value d (10 * acc + 6)
  | Decimal.D7 d => uint_value d (10 * acc + 7)
  | Decimal.D8 d => uint_value d (10 * acc + 8)
  | Decimal.D9 d => uint_value d (10 * acc + 9)
  end.

Lemma int_digits_uint (d : Decimal.uint) (acc : Z) (after_digit : bool) :
  d <> Decimal.Nil \/ after_digit = true ->
  int_digits (NilEmpty.string_of_uint d) acc after_digit = Some (uint_value d acc).
Proof.
  revert acc after_digit; induction d; intros acc b Hd;
    try (cbn [NilEmpty.string_of_uint int_digits uint_value];
         change (is_digit _) with true; cbv iota;
         rewrite IHd by (now right); reflexivity).
  cbn. destruct Hd as [Hd| ->]; [congruence|reflexivity].
Qed.

Lemma of_uint_acc_value (d : Decimal.uint) (p : positive) :
  Z.pos (Pos.of_uint_acc d p) = uint_value d (Z.pos p).
Proof.
  revert p; induction d; intros p; cbn [Pos.of_uint_acc uint_value];
    [reflexivity | rewrite IHd; f_equal; lia ..].
Qed.

Lemma of_uint_value (d : Decimal.uint) : Z.of_N (Pos.of_uint d) = uint_value d 0.
Proof.
  induction d; cbn [Pos.of_uint uint_value Z.of_N];
    [reflexivity | exact IHd | apply of_uint_acc_value ..].
Qed.

Lemma string_of_uint_digits (d : Decimal.uint) :
  string_forall is_digit (NilEmpty.string_of_uint d) = true.
Proof. induction d; cbn; auto. Qed.

Lemma string_of_uint_nonnil (d : Decimal.uint) :
  d <> Decimal.Nil ->
  NilZero.string_of_uint d = NilEmpty.string_of_uint d /\
  exists c r, NilEmpty.string_of_uint d = String c r /\ is_digit c = true.
Proof.
  intros Hd. destruct d; try congruence; cbn; split; eauto.
Qed.

Lemma to_uint_nonnil (p : positive) : Pos.to_uint p <> Decimal.Nil.
Proof.
  intros E. pose proof (DecimalPos.Unsigned.of_to p) as H. rewrite E in H. discriminate.
Qed.

Lemma py_int_digits (s : string) (c : ascii) :
  is_digit c = true ->
  py_int (String c s)
  = match int_digits (String c s) 0 false with
    | Some z => Ok z
    | None => Raise ValueError
    end.
Proof.
  intros Hc. unfold py_int.
  destruct (Ascii.eqb_spec c "-") as [->|Hm]; [discriminate|].
  destruct (Ascii.eqb_spec c "+") as [->|Hp]; [discriminate|].
  destruct c as [[] [] [] [] [] [] [] []]; try reflexivity; congruence.
Qed.

(** [int(str(z)) == z] *)
Lemma py_int_py_str (z : Z) : py_int (py_str z) = Ok z.
Proof.
  unfold py_str. destruct z as [|p|p]; [reflexivity| |]; cbn [Z.to_int NilZero.string_of_int].
  - destruct (string_of_uint_nonnil _ (to_uint_nonnil p)) as (-> & c & r & E & Hc).
    pose proof (int_digits_uint (Pos.to_uint p) 0 false (or_introl (to_uint_nonnil p))) as Hi.
    rewrite E in *. rewrite py_int_digits, Hi by assumption.
    rewrite <- of_uint_value, DecimalPos.Unsigned.of_to. reflexivity.
  - destruct (string_of_uint_nonnil _ (to_uint_nonnil p)) as (-> & c & r & E & Hc).
    unfold py_int.
    rewrite (int_digits_uint (Pos.to_uint p) 0 false (or_introl (to_uint_nonnil p))).
    rewrite <- of_uint_value, DecimalPos.Unsigned.of_to. reflexivity.
Qed.

Lemma is_digit_not_space (c : ascii) : is_digit c = true -> not_space c = true.
Proof.
  destruct c as [[] [] [] [] [] [] [] []]; cbn; intros H; try reflexivity; discriminate.
Qed.

(** [str(z)] is a field. *)
Lemma is_token_py_str (z : Z) : is_token (py_str z) = true.
Proof.
  assert (Hd : forall d, d <> Decimal.Nil -> is_token (NilZero.string_of_uint d) = true).
  { intros d Hd. destruct (string_of_uint_nonnil d Hd) as (-> & c & r & E & Hc).
    pose proof (string_of_uint_digits d) as Hs. rewrite E in *.
    unfold is_token. eapply string_forall_impl; [|exact Hs].
    apply is_digit_not_space. }
  unfold py_str. destruct z as [|p|p]; [reflexivity| |]; cbn [Z.to_int NilZero.string_of_int].
  - apply Hd, to_uint_nonnil.
  - specialize (Hd _ (to_uint_nonnil p)). unfold is_token in *.
    destruct (NilZero.string_of_uint (Pos.to_uint p)) as [|a s]; [discriminate|].
    change (not_space "-" && string_forall not_space (String a s) = true).
    now rewrite Hd.
Qed.

(** ** Lines and fields *)

Lemma split_from_token (cur t s : string) :
  string_forall not_space t = true ->
  split_from cur (t ++ s) = split_from (cur ++ t) s.
Proof.
  revert cur; induction t as [|c t IH]; intros cur Ht; cbn [append].
  - now rewrite append_nil_r.
  - cbn [string_forall] in Ht. apply andb_true_iff in Ht. destruct Ht as [Hc Ht].
    cbn [split_from]. unfold not_space in Hc. apply negb_true_iff in Hc. rewrite Hc.
    rewrite IH by assumption. rewrite append_assoc. reflexivity.
Qed.

(** A field followed by a space is the first field of the line. *)
Lemma split_token_space (t s : string) :
  is_token t = true -> split (t ++ String space s) = t :: split s.
Proof.
  intros Ht. unfold split. rewrite split_from_token.
  - cbn [append split_from]. change (is_space space) with true. cbv iota.
    destruct t; [discriminate|reflexivity].
  - unfold is_token in Ht. destruct t; [discriminate|exact Ht].
Qed.

Lemma split_token (t : string) : is_token t = true -> split t = [t].
Proof.
  intros Ht. unfold split. rewrite <- (append_nil_r t) at 1.
  rewrite split_from_token.
  - cbn [append split_from]. destruct t; [discriminate|reflexivity].
  - unfold is_token in Ht. destruct t; [discriminate|exact Ht].
Qed.

Lemma split_join_space (ts : list string) (rest : string) :
  forallb is_token ts = true ->
  split (join " " ts ++ String space rest) = ts ++ split rest.
Proof.
  induction ts as [|t ts IH]; intros Hts; [reflexivity|].
  cbn [forallb] in Hts. apply andb_true_iff in Hts. destruct Hts as [Ht Hts].
  destruct ts as [|t' ts].
  - cbn [join app]. now apply split_token_space.
  - change (join " " (t :: t' :: ts)) with (t ++ " " ++ join " " (t' :: ts))%string.
    rewrite append_assoc.
    change ((" " ++ join " " (t' :: ts)) ++ String space rest)%string
      with (String space (join " " (t' :: ts) ++ String space rest)).
    rewrite split_token_space by assumption. rewrite IH by assumption. reflexivity.
Qed.

Lemma split_join (ts : list string) :
  forallb is_token ts = true -> split (join " " ts) = ts.
Proof.
  induction ts as [|t ts IH]; intros Hts; [reflexivity|].
  cbn [forallb] in Hts. apply andb_true_iff in Hts. destruct Hts as [Ht Hts].
  destruct ts as [|t' ts].
  - cbn [join]. now apply split_token.
  - change (join " " (t :: t' :: ts))
      with (t ++ String space (join " " (t' :: ts)))%string.
    rewrite split_token_space by assumption. now rewrite IH.
Qed.

Lemma forallb_is_token_py_str (l : list Z) : forallb is_token (map py_str l) = true.
Proof. induction l as [|x l IH]; cbn; [reflexivity|]. now rewrite is_token_py_str. Qed.

Lemma is_token_not_newline (t : string) :
  is_token t = true -> string_forall not_newline t = true.
Proof.
  intros Ht. apply (string_forall_impl not_space); [apply not_space_not_newline|].
  unfold is_token in Ht. destruct t; [discriminate|exact Ht].
Qed.

Lemma join_not_newline (ts : list string) :
  forallb is_token ts = true -> string_forall not_newline (join " " ts) = true.
Proof.
  induction ts as [|t ts IH]; intros Hts; [reflexivity|].
  cbn [forallb] in Hts. apply andb_true_iff in Hts. destruct Hts as [Ht Hts].
  destruct ts as [|t' ts]; [now apply is_token_not_newline|].
  change (join " " (t :: t' :: ts))
    with (t ++ String space (join " " (t' :: ts)))%string.
  rewrite string_forall_append, is_token_not_newline by assumption.
  cbn [string_forall andb]. now rewrite IH.
Qed.

(** [readline] stops at the first line terminator. *)
Lemma readline_line (body rest : string) :
  string_forall not_newline body = true ->
  readline (body ++ String newline rest) = ((body ++ String newline "")%string, rest).
Proof.
  induction body as [|c body IH]; intros Hb; cbn [append readline].
  - reflexivity.
  - cbn [string_forall] in Hb. apply andb_true_iff in Hb. destruct Hb as [Hc Hb].
    unfold not_newline in Hc. apply negb_true_iff in Hc. rewrite Hc.
    now rewrite IH.
Qed.

Lemma string_concat_cons (x : string) (xs : list string) :
  String.concat "" (x :: xs) = (x ++ String.concat "" xs)%string.
Proof. destruct xs; cbn; [now rewrite append_nil_r | reflexivity]. Qed.

(** ** The text of a table, field by field *)

Definition letter_tokens (d : counts) : list string :=
  flat_map (fun item => map py_str (fst item) ++ [py_str (snd item)]) d.

Definition ngram_tokens (e : pystr * counts) : list string :=
  map py_str (fst e) ++ [py_str (len (snd e))] ++ letter_tokens (snd e).

(** The line of an item without its terminator. *)
Definition ngram_line (e : pystr * counts) : string :=
  (string_to_decimal (fst e) ++ " " ++ py_str (len (snd e)) ++ " "
   ++ String.concat "" (map write_letter_count (snd e)))%string.

Lemma write_ngram_line (e : pystr * counts) :
  write_ngram e = (ngram_line e ++ String newline "")%string.
Proof.
  destruct e as [g d]. unfold write_ngram, ngram_line. cbn [fst snd].
  now rewrite !append_assoc.
Qed.

Lemma forallb_is_token_letter_tokens (d : counts) :
  forallb is_token (letter_tokens d) = true.
Proof.
  induction d as [|[l c] d IH]; [reflexivity|].
  unfold letter_tokens in *. cbn [flat_map fst snd].
  rewrite !forallb_app, forallb_is_token_py_str, IH. cbn. now rewrite is_token_py_str.
Qed.

Lemma split_letter_counts (d : counts) (rest : string) :
  split (String.concat "" (map write_letter_count d) ++ rest)
  = letter_tokens d ++ split rest.
Proof.
  induction d as [|[l c] d IH]; [reflexivity|].
  cbn [map]. rewrite string_concat_cons. unfold write_letter_count at 1.
  unfold letter_tokens. cbn [flat_map fst snd]. fold (letter_tokens d).
  unfold string_to_decimal. rewrite !append_assoc.
  change (" " ++ py_str c ++ " "
          ++ String.concat "" (map write_letter_count d) ++ rest)%string
    with (String space (py_str c ++ String space
                          (String.concat "" (map write_letter_count d) ++ rest))).
  rewrite split_join_space by apply forallb_is_token_py_str.
  rewrite split_token_space by apply is_token_py_str.
  rewrite IH, <- !app_assoc. reflexivity.
Qed.

(** The fields of the line of an item. *)
Lemma split_write_ngram (e : pystr * counts) :
  split (write_ngram e) = ngram_tokens e.
Proof.
  destruct e as [g d]. unfold write_ngram, ngram_tokens, string_to_decimal.
  cbn [fst snd].
  change (" " ++ py_str (len d) ++ " "
          ++ String.concat "" (map write_letter_count d) ++ String newline "")%string
    with (String space (py_str (len d) ++ String space
            (String.concat "" (map write_letter_count d) ++ String newline ""))).
  rewrite split_join_space by apply forallb_is_token_py_str.
  rewrite split_token_space by apply is_token_py_str.
  rewrite split_letter_counts. cbn [app]. change (split (String newline "")) with (@nil string).
  now rewrite app_nil_r.
Qed.

Lemma letter_counts_not_newline (d : counts) :
  string_forall not_newline (String.concat "" (map write_letter_count d)) = true.
Proof.
  induction d as [|[l c] d IH]; [reflexivity|].
  cbn [map]. rewrite string_concat_cons. unfold write_letter_count at 1.
  unfold string_to_decimal.
  rewrite !string_forall_append, IH, join_not_newline
    by apply forallb_is_token_py_str.
  rewrite (is_token_not_newline (py_str c)) by apply is_token_py_str. reflexivity.
Qed.

Lemma ngram_line_not_newline (e : pystr * counts) :
  string_forall not_newline (ngram_line e) = true.
Proof.
  destruct e as [g d]. unfold ngram_line, string_to_decimal. cbn [fst snd].
  rewrite !string_forall_append, letter_counts_not_newline, join_not_newline
    by apply forallb_is_token_py_str.
  rewrite (is_token_not_newline (py_str (len d))) by apply is_token_py_str.
  reflexivity.
Qed.

Lemma readline_write_ngram (e : pystr * counts) (rest : string) :
  readline (write_ngram e ++ rest) = (write_ngram e, rest).
Proof.
  rewrite write_ngram_line, append_assoc. cbn [append].
  apply readline_line, ngram_line_not_newline.
Qed.

(** ** Well-formed tables *)

Definition valid_char (c : Z) : bool := (0 <=? c) && (c <=? 1114111).

(** The keys of a dictionary are pairwise different. *)
Fixpoint distinct {K : Type} `{Eqb K} (l : list K) : bool :=
  match l with
  | [] => true
  | x :: l' => negb (existsb (eqb x) l') && distinct l'
  end.

(** A string of one character. *)
Definition is_letter (l : pystr) : bool :=
  match l with
  | [c] => valid_char c
  | _ => false
  end.

Definition counts_wf (d : counts) : bool :=
  distinct (keys d) && forallb is_letter (keys d).

Definition entry_wf (k : Z) (e : pystr * counts) : bool :=
  (len (fst e) =? k) && forallb valid_char (fst e) && counts_wf (snd e).

(** A count table for n-grams of length [k]: a dictionary from strings of
    [k] characters to dictionaries from one-character strings to counts. *)
Definition table_wf (k : Z) (t : table) : bool :=
  distinct (keys t) && forallb (entry_wf k) t.

Lemma distinct_NoDup {K : Type} `{EqbLaws K} (l : list K) :
  distinct l = true -> NoDup l.
Proof.
  induction l as [|x l IH]; cbn; [constructor|].
  intros Hd. apply andb_true_iff in Hd. destruct Hd as [Hx Hl].
  constructor; [|auto]. intros Hi. apply negb_true_iff in Hx.
  assert (E : existsb (eqb x) l = true).
  { apply existsb_exists. exists x. split; [exact Hi | apply eqb_refl]. }
  congruence.
Qed.

(** Assigning the items of a dictionary in order rebuilds it. *)
Lemma fold_dict_set {K V : Type} `{EqbLaws K} (l acc : dict K V) :
  NoDup (keys acc ++ keys l) ->
  fold_left (fun a e => dict_set (fst e) (snd e) a) l acc = acc ++ l.
Proof.
  revert acc; induction l as [|[k v] l IH]; intros acc Hnd; cbn [fold_left].
  - now rewrite app_nil_r.
  - cbn [keys map fst snd] in *. rewrite dict_set_new.
    + rewrite IH.
      * now rewrite <- app_assoc.
      * unfold keys. rewrite map_app, <- app_assoc. exact Hnd.
    + apply NoDup_remove_2 in Hnd. intros Hi. apply Hnd. apply in_or_app. now left.
Qed.

(** ** Decoding the line of an item *)

Lemma split_token_newline (t : string) :
  is_token t = true -> split (t ++ String newline "") = [t].
Proof.
  intros Ht. unfold split. rewrite split_from_token.
  - cbn [append split_from]. change (is_space newline) with true. cbv iota.
    destruct t; [discriminate|reflexivity].
  - unfold is_token in Ht. destruct t; [discriminate|exact Ht].
Qed.

Lemma py_slice_prefix {A : Type} (a b : list A) : py_slice (a ++ b) 0 (len a) = a.
Proof.
  unfold py_slice, clamp. cbn [Z.ltb Z.compare].
  pose proof (len_nonneg a) as Ha. pose proof (len_nonneg b) as Hb.
  replace (len a <? 0) with false by (symmetry; apply Z.ltb_ge; lia).
  rewrite len_app, !Z.min_l by lia. cbn [Z.to_nat skipn]. rewrite Z.sub_0_r.
  unfold len. rewrite Nat2Z.id, firstn_app, Nat.sub_diag, firstn_all. cbn.
  apply app_nil_r.
Qed.

Lemma py_index_app {A : Type} (a b : list A) (i : nat) (x : A) :
  nth_error b i = Some x -> py_index (a ++ b) (len a + Z.of_nat i) = Ok x.
Proof.
  intros Hx. unfold py_index.
  assert (Hi : (i < length b)%nat) by (apply nth_error_Some; congruence).
  pose proof (len_nonneg a) as Ha.
  replace (len a + Z.of_nat i <? 0) with false by (symmetry; apply Z.ltb_ge; lia).
  replace (0 <=? len a + Z.of_nat i) with true by (symmetry; apply Z.leb_le; lia).
  replace (len a + Z.of_nat i <? len (a ++ b)) with true
    by (symmetry; apply Z.ltb_lt; rewrite len_app; unfold len; lia).
  cbn [andb]. unfold len. rewrite <- Nat2Z.inj_add, Nat2Z.id.
  rewrite nth_error_app2 by lia.
  replace (length a + i - length a)%nat with i by lia. now rewrite Hx.
Qed.

Lemma comprehension_chars (g : pystr) :
  forallb valid_char g = true ->
  comprehension (fun number => n <- py_int number ;; py_chr n) (map py_str g)
  = Ok (map (fun c => [c]) g).
Proof.
  induction g as [|c g IH]; intros Hg; [reflexivity|].
  cbn [forallb] in Hg. apply andb_true_iff in Hg. destruct Hg as [Hc Hg].
  cbn [map comprehension]. rewrite py_int_py_str. cbn [bind].
  unfold py_chr at 1. unfold valid_char in Hc. rewrite Hc. cbn [bind].
  now rewrite IH.
Qed.

(** [string_from_decimal(string_to_decimal(g)) == g] *)
Lemma string_from_to_decimal (g : pystr) :
  forallb valid_char g = true -> string_from_decimal (string_to_decimal g) = Ok g.
Proof.
  intros Hg. unfold string_from_decimal, string_to_decimal.
  rewrite split_join by apply forallb_is_token_py_str.
  rewrite comprehension_chars by assumption. cbn [bind].
  f_equal. apply join_text_letters.
Qed.

Lemma is_letter_inv (l : pystr) :
  is_letter l = true -> exists c, l = [c] /\ valid_char c = true.
Proof. destruct l as [|c [|c' l]]; cbn; try discriminate. eauto. Qed.

Lemma nth_error_letter_tokens (d : counts) (j : nat) (l : pystr) (count : Z) :
  forallb is_letter (keys d) = true ->
  nth_error d j = Some (l, count) ->
  nth_error (letter_tokens d) (2 * j) = Some (string_to_decimal l) /\
  nth_error (letter_tokens d) (2 * j + 1) = Some (py_str count).
Proof.
  revert j; induction d as [|[l0 c0] d IH]; intros j Hd Hj.
  - destruct j; discriminate.
  - cbn [keys map fst forallb] in Hd. apply andb_true_iff in Hd.
    destruct Hd as [Hl0 Hd]. destruct (is_letter_inv _ Hl0) as (x & -> & _).
    unfold letter_tokens. cbn [flat_map fst snd map app]. fold (letter_tokens d).
    destruct j as [|j].
    + injection Hj as <- <-. split; reflexivity.
    + cbn [nth_error] in Hj. destruct (IH j Hd Hj) as [E1 E2].
      replace (2 * S j)%nat with (S (S (2 * j))) by lia.
      replace (S (S (2 * j)) + 1)%nat with (S (S (2 * j + 1))) by lia.
      cbn [nth_error]. auto.
Qed.

Lemma firstn_S_nth_error {A : Type} (l : list A) (m : nat) (x : A) :
  nth_error l m = Some x -> firstn (S m) l = firstn m l ++ [x].
Proof.
  revert m; induction l as [|y l IH]; intros m Hm; [destruct m; discriminate|].
  destruct m as [|m]; cbn in *.
  - now injection Hm as ->.
  - f_equal. now apply IH.
Qed.

Definition assign_all {K V : Type} `{Eqb K} (l acc : dict K V) : dict K V :=
  fold_left (fun a e => dict_set (fst e) (snd e) a) l acc.

(** The loop of lines 143-146 on the fields of a written line. *)
Lemma read_letter_counts (pre : list string) (d : counts) (k : Z) (m : nat) :
  len pre = k + 1 -> forallb is_letter (keys d) = true -> (m <= length d)%nat ->
  for_each (map Z.of_nat (seq 0 m))
           (read_letter_count (pre ++ letter_tokens d) k) []
  = Ok (assign_all (firstn m d) []).
Proof.
  intros Hpre Hd. induction m as [|m IH]; intros Hm; [reflexivity|].
  rewrite seq_S, map_app, for_each_app, IH by lia. cbn [bind Nat.add map for_each].
  destruct (nth_error d m) as [[l count]|] eqn:E;
    [|apply nth_error_None in E; lia].
  destruct (nth_error_letter_tokens d m l count Hd E) as [E1 E2].
  unfold read_letter_count.
  replace (1 + k + Z.of_nat m * 2) with (len pre + Z.of_nat (2 * m)) by lia.
  rewrite (py_index_app _ _ _ _ E1). cbn [bind].
  assert (Hl : is_letter l = true).
  { rewrite forallb_forall in Hd. apply Hd. apply nth_error_In in E.
    apply (in_map fst) in E. exact E. }
  destruct (is_letter_inv _ Hl) as (x & -> & Hx).
  rewrite string_from_to_decimal by (cbn; now rewrite Hx). cbn [bind].
  replace (1 + k + (Z.of_nat m * 2 + 1)) with (len pre + Z.of_nat (2 * m + 1)) by lia.
  rewrite (py_index_app _ _ _ _ E2). cbn [bind]. rewrite py_int_py_str. cbn [bind].
  rewrite (firstn_S_nth_error _ _ _ E). unfold assign_all.
  rewrite fold_left_app. reflexivity.
Qed.

(** Lines 136-148 on the line written for a well-formed item. *)
Lemma read_write_ngram (k : Z) (e : pystr * counts) (rest : string)
  (ngrams : table) (i : Z) :
  entry_wf k e = true ->
  read_ngram k ((write_ngram e ++ rest)%string, ngrams) i
  = Ok (rest, dict_set (fst e) (snd e) ngrams).
Proof.
  intros Hwf. unfold entry_wf, counts_wf in Hwf.
  apply andb_true_iff in Hwf. destruct Hwf as [Hwf Hd].
  apply andb_true_iff in Hwf. destruct Hwf as [Hlen Hg].
  apply andb_true_iff in Hd. destruct Hd as [Hnd Hl].
  apply Z.eqb_eq in Hlen.
  unfold read_ngram. rewrite readline_write_ngram, split_write_ngram.
  destruct e as [g d]. unfold ngram_tokens. cbn [fst snd] in *.
  assert (Hlg : len (map py_str g) = k).
  { unfold len in *. now rewrite length_map. }
  rewrite <- Hlg at 1. rewrite py_slice_prefix.
  fold (string_to_decimal g). rewrite string_from_to_decimal by assumption.
  cbn [bind].
  replace k with (len (map py_str g) + Z.of_nat 0) at 1 by lia.
  rewrite (py_index_app _ _ 0 (py_str (len d))) by reflexivity.
  cbn [bind]. rewrite py_int_py_str. cbn [bind].
  change (map py_str g ++ [py_str (len d)] ++ letter_tokens d)
    with (map py_str g ++ py_str (len d) :: letter_tokens d).
  replace (map py_str g ++ py_str (len d) :: letter_tokens d)
    with ((map py_str g ++ [py_str (len d)]) ++ letter_tokens d)
    by (now rewrite <- app_assoc).
  unfold range. unfold len at 1. rewrite Nat2Z.id.
  rewrite (read_letter_counts _ d k (length d)); auto.
  - cbn [bind]. rewrite firstn_all. unfold assign_all.
    rewrite fold_dict_set by (cbn [keys map app]; now apply distinct_NoDup).
    reflexivity.
  - rewrite len_app, Hlg. reflexivity.
Qed.

(** The loop of lines 133-148 on the lines written for a table. *)
Lemma read_write_ngrams (k : Z) (t : table) (rest : string) (acc : table)
  (xs : list Z) :
  forallb (entry_wf k) t = true -> length xs = length t ->
  for_each xs (read_ngram k)
           ((String.concat "" (map write_ngram t) ++ rest)%string, acc)
  = Ok (rest, assign_all t acc).
Proof.
  revert acc xs; induction t as [|e t IH]; intros acc xs Hwf Hxs.
  - destruct xs; [reflexivity|discriminate].
  - destruct xs as [|x xs]; [discriminate|].
    cbn [forallb] in Hwf. apply andb_true_iff in Hwf. destruct Hwf as [He Ht].
    cbn [map for_each]. rewrite string_concat_cons, append_assoc.
    rewrite read_write_ngram by assumption. cbn [bind].
    rewrite IH; auto.
Qed.

(** C1.  For a count table for n-grams of length [k] (distinct keys of [k]
    valid characters each, successor keys of one valid character each, any
    counts), reading the text that [write_ngram_counts_to_file] writes gives
    back the same table, items in the same order, and the same [k]; valid
    characters are all code points from 0 to 1114111, control characters and
    whitespace included. *)
Theorem codec_round_trip (t : table) (k : Z) :
  table_wf k t = true ->
  read_ngram_counts_from_file (write_ngram_counts_to_file t k) = Ok (t, k).
Proof.
  intros Hwf. unfold table_wf in Hwf. apply andb_true_iff in Hwf.
  destruct Hwf as [Hnd Ht].
  unfold read_ngram_counts_from_file, write_ngram_counts_to_file.
  replace (py_str k ++ " " ++ py_str (len t) ++ String newline ""
           ++ String.concat "" (map write_ngram t))%string
    with ((py_str k ++ " " ++ py_str (len t))
          ++ String newline (String.concat "" (map write_ngram t)))%string
    by (now rewrite !append_assoc).
  rewrite readline_line.
  - rewrite append_assoc.
    change ((" " ++ py_str (len t)) ++ String newline "")%string
      with (String space (py_str (len t) ++ String newline "")).
    rewrite split_token_space by apply is_token_py_str.
    rewrite split_token_newline by apply is_token_py_str.
    cbn [comprehension]. rewrite !py_int_py_str. cbn [bind].
    rewrite <- (append_nil_r (String.concat "" (map write_ngram t))).
    rewrite read_write_ngrams; auto.
    + cbn [bind snd]. unfold assign_all.
      rewrite fold_dict_set by (cbn [keys map app]; now apply distinct_NoDup).
      reflexivity.
    + unfold range, len. now rewrite length_map, length_seq, Nat2Z.id.
  - rewrite string_forall_append, (is_token_not_newline (py_str k))
      by apply is_token_py_str.
    change (" " ++ py_str (len t))%string with (String space (py_str (len t))).
    cbn [string_forall andb]. change (not_newline space) with true. cbn [andb].
    apply is_token_not_newline, is_token_py_str.
Qed.

Lemma codec_round_trip_witness :
  read_ngram_counts_from_file
    (write_ngram_counts_to_file
       [([0; 32], [([10], 3); ([1114111], 1)]); ([1114111; 9], [([0], 2)])] 2)
  = Ok ([([0; 32], [([10], 3); ([1114111], 1)]); ([1114111; 9], [([0], 2)])], 2).
Proof. apply codec_round_trip. reflexivity. Defined.

(** ** Malformed model files *)

(** [file.readlines()]: the lines that [readline] returns one after the
    other until the end of the file. *)
Fixpoint readlines_fuel (fuel : nat) (file : string) : list string :=
  match fuel with
  | O => []
  | S fuel' =>
      match file with
      | EmptyString => []
      | _ => let '(l, r) := readline file in l :: readlines_fuel fuel' r
      end
  end.

Definition readlines (file : string) : list string :=
  readlines_fuel (String.length file) file.

(** Decoding reads field [j] of a data line: the [k] codes of the n-gram,
    the number [m] of pairs at position [k], and the [2 * m] fields after
    it. *)
Definition reads_field (k : Z) (fields : list string) (j : Z) : bool :=
  (0 <=? j) &&
  ((j <=? k) ||
   match py_index fields k with
   | Ok f => match py_int f with Ok m => j <=? k + 2 * m | Raise _ => false end
   | Raise _ => false
   end).

(** A data line with a field that decoding reads and [int()] rejects. *)
Definition unparseable_line (k : Z) (line : string) : Prop :=
  exists j field,
    nth_error (split line) (Z.to_nat j) = Some field /\
    reads_field k (split line) j = true /\
    is_ok (py_int field) = false.

Lemma readline_le (s : string) :
  (String.length (snd (readline s)) <= String.length s)%nat.
Proof.
  induction s as [|c s IH]; cbn [readline]; [cbn; lia|].
  destruct (Ascii.eqb c newline); [cbn; lia|].
  destruct (readline s) as [l r]. cbn [snd String.length] in *. lia.
Qed.

Lemma readline_shorter (c : ascii) (s : string) :
  (String.length (snd (readline (String c s))) < String.length (String c s))%nat.
Proof.
  cbn [readline]. pose proof (readline_le s) as Hs.
  destruct (Ascii.eqb c newline); [cbn; lia|].
  destruct (readline s) as [l r]. cbn [snd String.length] in *. lia.
Qed.

Lemma readlines_fuel_enough (fuel : nat) (file : string) :
  (String.length file <= fuel)%nat -> readlines_fuel fuel file = readlines file.
Proof.
  unfold readlines.
  remember (String.length file) as n eqn:En.
  revert fuel file En; induction n as [n IH] using lt_wf_ind; intros fuel file En Hf.
  destruct file as [|c s]; [subst n; destruct fuel; reflexivity|].
  destruct fuel as [|fuel]; [subst n; cbn in Hf; lia|].
  subst n. cbn [String.length readlines_fuel].
  pose proof (readline_shorter c s) as Hs.
  destruct (readline (String c s)) as [l r]. cbn [snd String.length] in Hs.
  f_equal.
  rewrite (IH (String.length r) ltac:(cbn; lia) fuel r eq_refl ltac:(cbn in Hf; lia)).
  rewrite (IH (String.length r) ltac:(cbn; lia) (String.length s) r eq_refl ltac:(lia)).
  reflexivity.
Qed.

Lemma readlines_cons (c : ascii) (s : string) :
  readlines (String c s)
  = fst (readline (String c s)) :: readlines (snd (readline (String c s))).
Proof.
  unfold readlines at 1. cbn [String.length readlines_fuel].
  pose proof (readline_shorter c s) as Hs.
  destruct (readline (String c s)) as [l r]. cbn [fst snd String.length] in *.
  f_equal. apply readlines_fuel_enough. lia.
Qed.

Lemma is_ok_bind_false {A B : Type} (r : result A) (f : A -> result B) :
  is_ok r = false -> is_ok (bind r f) = false.
Proof. destruct r; [discriminate|reflexivity]. Qed.

Lemma py_slice_nil {A : Type} (a b : Z) : py_slice (@nil A) a b = [].
Proof. unfold py_slice. now rewrite skipn_nil, firstn_nil. Qed.

Lemma py_index_nil {A : Type} (i : Z) : py_index (@nil A) i = Raise IndexError.
Proof.
  unfold py_index. change (len (@nil A)) with 0.
  destruct (i <? 0); rewrite ?Z.add_0_r;
    destruct (Z.leb_spec 0 i), (Z.ltb_spec i 0); try reflexivity; lia.
Qed.

(** At the end of the file line 138 raises [IndexError]. *)
Lemma read_ngram_eof (k : Z) (ngrams : table) (i : Z) :
  read_ngram k (EmptyString, ngrams) i = Raise IndexError.
Proof.
  unfold read_ngram. cbn [readline]. change (split "") with (@nil string).
  rewrite py_slice_nil, py_index_nil. reflexivity.
Qed.

Lemma read_ngram_rest (k : Z) (file file' : string) (ngrams ngrams' : table) (i : Z) :
  read_ngram k (file, ngrams) i = Ok (file', ngrams') ->
  file' = snd (readline file).
Proof.
  unfold read_ngram. destruct (readline file) as [l r]. cbn [snd].
  destruct (string_from_decimal _); cbn [bind]; [|discriminate].
  destruct (py_index _ _); cbn [bind]; [|discriminate].
  destruct (py_int _); cbn [bind]; [|discriminate].
  destruct (for_each _ _ _); cbn [bind]; [|discriminate].
  intros E; now injection E.
Qed.

(** More turns than lines: the loop of line 133 raises. *)
Lemma read_ngrams_too_few_lines (k : Z) (xs : list Z) (file : string) (ngrams : table) :
  (length (readlines file) < length xs)%nat ->
  is_ok (for_each xs (read_ngram k) (file, ngrams)) = false.
Proof.
  revert file ngrams; induction xs as [|x xs IH]; intros file ngrams Hl;
    [cbn in Hl; lia|].
  cbn [for_each]. destruct file as [|c s].
  - now rewrite read_ngram_eof.
  - destruct (read_ngram k (String c s, ngrams) x) as [[file' ngrams']|e] eqn:E;
      [|reflexivity].
    cbn [bind]. apply read_ngram_rest in E. subst file'. apply IH.
    rewrite readlines_cons in Hl. cbn [length] in Hl. lia.
Qed.

Lemma comprehension_fails {A B : Type} (f : A -> result B) (xs : list A) (x : A) :
  In x xs -> is_ok (f x) = false -> is_ok (comprehension f xs) = false.
Proof.
  induction xs as [|y xs IH]; intros Hi Hx; [contradiction|]. cbn [comprehension].
  destruct Hi as [->|Hi].
  - now apply is_ok_bind_false.
  - destruct (f y); [|reflexivity]. cbn [bind].
    apply is_ok_bind_false. now apply IH.
Qed.

Lemma for_each_fails {A S : Type} (xs : list A) (body : S -> A -> result S)
  (x : A) (s : S) :
  In x xs -> (forall s', is_ok (body s' x) = false) ->
  is_ok (for_each xs body s) = false.
Proof.
  revert s; induction xs as [|y xs IH]; intros s Hi Hx; [contradiction|].
  cbn [for_each]. destruct Hi as [->|Hi].
  - now apply is_ok_bind_false.
  - destruct (body s y); [|reflexivity]. cbn [bind]. now apply IH.
Qed.

(** The fields that [split] returns are fields. *)
Lemma split_from_tokens (cur s : string) :
  string_forall not_space cur = true ->
  forallb is_token (split_from cur s) = true.
Proof.
  revert cur; induction s as [|c s IH]; intros cur Hc; cbn [split_from].
  - destruct cur; [reflexivity|]. cbn [forallb is_token]. now rewrite Hc.
  - destruct (is_space c) eqn:Es.
    + destruct cur; [now apply IH|]. cbn [forallb is_token]. rewrite Hc.
      now apply IH.
    + apply IH. rewrite string_forall_append, Hc. cbn [string_forall].
      unfold not_space. now rewrite Es.
Qed.

Lemma split_tokens (s : string) : forallb is_token (split s) = true.
Proof. now apply split_from_tokens. Qed.

Lemma py_index_nth_error {A : Type} (l : list A) (j : Z) (x : A) :
  0 <= j -> nth_error l (Z.to_nat j) = Some x -> py_index l j = Ok x.
Proof.
  intros Hj Hx. unfold py_index.
  assert (Hl : (Z.to_nat j < length l)%nat) by (apply nth_error_Some; congruence).
  replace (j <? 0) with false by (symmetry; apply Z.ltb_ge; lia).
  replace (0 <=? j) with true by (symmetry; apply Z.leb_le; lia).
  replace (j <? len l) with true by (symmetry; apply Z.ltb_lt; unfold len; lia).
  cbn [andb]. now rewrite Hx.
Qed.

Lemma string_from_decimal_fails (field : string) :
  is_token field = true -> is_ok (py_int field) = false ->
  is_ok (string_from_decimal field) = false.
Proof.
  intros Ht Hf. unfold string_from_decimal. rewrite split_token by assumption.
  cbn [comprehension]. destruct (py_int field); [discriminate|reflexivity].
Qed.

Lemma py_slice_0 {A : Type} (l : list A) (k : Z) :
  0 <= k -> py_slice l 0 k = firstn (Z.to_nat k) l.
Proof.
  intros Hk. unfold py_slice, clamp. cbn [Z.ltb Z.compare].
  pose proof (len_nonneg l) as Hl.
  replace (k <? 0) with false by (symmetry; apply Z.ltb_ge; lia).
  rewrite (Z.min_l 0) by lia. cbn [Z.to_nat skipn]. rewrite Z.sub_0_r.
  destruct (Z.le_ge_cases k (len l)) as [Hle|Hge].
  - now rewrite Z.min_l by lia.
  - rewrite Z.min_r by lia. unfold len in *.
    rewrite Nat2Z.id, firstn_all, firstn_all2 by lia. reflexivity.
Qed.

Lemma nth_error_In_firstn {A : Type} (l : list A) (n j : nat) (x : A) :
  nth_error l j = Some x -> (j < n)%nat -> In x (firstn n l).
Proof.
  revert n j; induction l as [|y l IH]; intros n j Hx Hj; [destruct j; discriminate|].
  destruct n as [|n]; [lia|]. destruct j as [|j]; cbn in *.
  - injection Hx as ->. now left.
  - right. apply (IH n j); auto. lia.
Qed.

Lemma forallb_firstn {A : Type} (P : A -> bool) (l : list A) (n : nat) :
  forallb P l = true -> forallb P (firstn n l) = true.
Proof.
  revert n; induction l as [|y l IH]; intros n Hl; [now rewrite firstn_nil|].
  destruct n as [|n]; [reflexivity|]. cbn in *.
  apply andb_true_iff in Hl. destruct Hl as [-> Hl]. now apply IH.
Qed.

(** A line with an unparseable field among those read makes lines 136-148
    raise. *)
Lemma read_ngram_unparseable (k : Z) (file : string) (ngrams : table) (i : Z) :
  0 <= k -> unparseable_line k (fst (readline file)) ->
  is_ok (read_ngram k (file, ngrams) i) = false.
Proof.
  intros Hk (j & field & Hn & Hr & Hbad). unfold read_ngram.
  destruct (readline file) as [line rest]. cbn [fst] in *.
  set (fields := split line) in *.
  assert (Htok : is_token field = true).
  { pose proof (split_tokens line) as Ht. rewrite forallb_forall in Ht.
    apply Ht. eapply nth_error_In; eauto. }
  unfold reads_field in Hr. apply andb_true_iff in Hr. destruct Hr as [Hj Hr].
  apply Z.leb_le in Hj.
  destruct (Z.lt_ge_cases j k) as [Hlt|Hge].
  - (* one of the codes of the n-gram *)
    apply is_ok_bind_false. unfold string_from_decimal. apply is_ok_bind_false.
    rewrite py_slice_0 by assumption.
    rewrite split_join by (apply forallb_firstn, split_tokens).
    apply (comprehension_fails _ _ field).
    + apply (nth_error_In_firstn _ _ (Z.to_nat j)); [assumption|lia].
    + now apply is_ok_bind_false.
  - destruct (string_from_decimal _) as [ngram_value|e]; [|reflexivity].
    cbn [bind]. destruct (Z.eq_dec j k) as [->|Hne].
    + (* the number of pairs *)
      rewrite (py_index_nth_error _ _ _ Hk Hn). cbn [bind].
      now apply is_ok_bind_false.
    + (* a field of a pair *)
      replace (j <=? k) with false in Hr by (symmetry; apply Z.leb_gt; lia).
      cbn [orb] in Hr.
      destruct (py_index fields k) as [f|e]; [|discriminate]. cbn [bind].
      destruct (py_int f) as [m|e]; [|discriminate]. cbn [bind].
      apply Z.leb_le in Hr. apply is_ok_bind_false.
      apply (for_each_fails _ _ ((j - k - 1) / 2)).
      * apply In_range. split; [apply Z.div_pos; lia|].
        apply Z.div_lt_upper_bound; lia.
      * intros s'. unfold read_letter_count.
        pose proof (Z.div_mod (j - k - 1) 2 ltac:(lia)) as Hdm.
        pose proof (Z.mod_pos_bound (j - k - 1) 2 ltac:(lia)) as Hmod.
        destruct (Z.eq_dec ((j - k - 1) mod 2) 0) as [E0|E1].
        -- replace (1 + k + (j - k - 1) / 2 * 2) with j by lia.
           rewrite (py_index_nth_error _ _ _ Hj Hn). cbn [bind].
           apply is_ok_bind_false. now apply string_from_decimal_fails.
        -- destruct (py_index fields _) as [f0|e]; [|reflexivity]. cbn [bind].
           destruct (string_from_decimal f0) as [letter|e]; [|reflexivity].
           cbn [bind].
           replace (1 + k + ((j - k - 1) / 2 * 2 + 1)) with j by lia.
           rewrite (py_index_nth_error _ _ _ Hj Hn). cbn [bind].
           now apply is_ok_bind_false.
Qed.

Lemma read_ngrams_unparseable (k : Z) (xs : list Z) (file : string)
  (ngrams : table) (i : nat) (line : string) :
  0 <= k -> (i < length xs)%nat -> nth_error (readlines file) i = Some line ->
  unparseable_line k line ->
  is_ok (for_each xs (read_ngram k) (file, ngrams)) = false.
Proof.
  intros Hk. revert file ngrams i.
  induction xs as [|x xs IH]; intros file ngrams i Hi Hn Hbad; [cbn in Hi; lia|].
  cbn [for_each]. destruct file as [|c s]; [now rewrite read_ngram_eof|].
  rewrite readlines_cons in Hn. destruct i as [|i]; cbn [nth_error] in Hn.
  - injection Hn as <-. apply is_ok_bind_false. now apply read_ngram_unparseable.
  - destruct (read_ngram k (String c s, ngrams) x) as [[file' ngrams']|e] eqn:E;
      [|reflexivity].
    cbn [bind]. apply read_ngram_rest in E. subst file'.
    apply (IH _ _ i); auto. cbn [length] in Hi. lia.
Qed.

(** The text of a file given by its lines. *)
Definition text_of_lines (ls : list string) : string :=
  String.concat "" (map (fun l => (l ++ String newline "")%string) ls).

(** C7, as the code has it.  Reading a model file raises when the header has
    a field that is not an integer or has not exactly two fields; when the
    header declares more n-grams than the file has data lines; and when, in
    one of the declared data lines, a field that is read (the [k] codes of
    the n-gram, the number [m] of pairs, or one of the [2 * m] fields after
    it) is not an integer.  A file whose header declares 2 n-grams and that
    has 1 data line raises. *)
Theorem read_ngram_counts_malformed (file : string) :
  let header := split (fst (readline file)) in
  let data := readlines (snd (readline file)) in
  ((exists field, In field header /\ is_ok (py_int field) = false) ->
   is_ok (read_ngram_counts_from_file file) = false) /\
  (length header <> 2%nat -> is_ok (read_ngram_counts_from_file file) = false) /\
  (forall k n, comprehension py_int header = Ok [k; n] ->
     ((length data < Z.to_nat n)%nat ->
      is_ok (read_ngram_counts_from_file file) = false) /\
     (forall i line,
        0 <= k -> (i < Z.to_nat n)%nat -> nth_error data i = Some line ->
        unparseable_line k line ->
        is_ok (read_ngram_counts_from_file file) = false)) /\
  read_ngram_counts_from_file (text_of_lines ["1 2"; "97 1 98 1 "])
  = Raise IndexError.
Proof.
  cbv zeta. unfold read_ngram_counts_from_file.
  destruct (readline file) as [line rest]. cbn [fst snd].
  split; [|split; [|split]].
  - intros (field & Hin & Hbad). apply is_ok_bind_false.
    now apply (comprehension_fails _ _ field).
  - intros Hlen. destruct (comprehension py_int (split line)) as [header|e] eqn:E;
      [|reflexivity].
    cbn [bind].
    assert (Hl : length header = length (split line)).
    { clear Hlen. revert header E. induction (split line) as [|x l IH]; intros header E.
      - now injection E as <-.
      - cbn [comprehension] in E. destruct (py_int x); [|discriminate].
        cbn [bind] in E. destruct (comprehension py_int l); [|discriminate].
        injection E as <-. cbn [length]. f_equal. now apply IH. }
    destruct header as [|a [|b [|c header]]]; try reflexivity.
    cbn [length] in Hl. congruence.
  - intros k n ->. cbn [bind]. split.
    + intros Hlen. apply is_ok_bind_false. apply read_ngrams_too_few_lines.
      unfold range. now rewrite length_map, length_seq.
    + intros i l Hk Hi Hn Hbad. apply is_ok_bind_false.
      apply (read_ngrams_unparseable k _ _ _ i l); auto.
      unfold range. now rewrite length_map, length_seq.
  - reflexivity.
Qed.

Lemma read_ngram_counts_malformed_witness :
  is_ok (read_ngram_counts_from_file (text_of_lines ["1 2"; "97 1 98 1 "])) = false
  /\ is_ok (read_ngram_counts_from_file (text_of_lines ["1 1"; "97 x 98 1 "])) = false
  /\ is_ok (read_ngram_counts_from_file (text_of_lines ["1 1"; "97 1 98 1x "])) = false
  /\ is_ok (read_ngram_counts_from_file (text_of_lines ["1 one"; "97 1 98 1 "])) = false
  /\ is_ok (read_ngram_counts_from_file (text_of_lines ["1 1 1"; "97 1 98 1 "])) = false.
Proof.
  split; [|split; [|split; [|split]]].
  - apply (proj1 (proj1 (proj2 (proj2 (read_ngram_counts_malformed
                                  (text_of_lines ["1 2"; "97 1 98 1 "]))))
                    1 2 eq_refl)).
    cbn. lia.
  - apply (proj2 (proj1 (proj2 (proj2 (read_ngram_counts_malformed
                                  (text_of_lines ["1 1"; "97 x 98 1 "]))))
                    1 1 eq_refl)
             0%nat (String.append "97 x 98 1 " (String newline ""))).
    + lia.
    + cbn. lia.
    + reflexivity.
    + exists 1, "x". repeat split.
  - apply (proj2 (proj1 (proj2 (proj2 (read_ngram_counts_malformed
                                  (text_of_lines ["1 1"; "97 1 98 1x "]))))
                    1 1 eq_refl)
             0%nat (String.append "97 1 98 1x " (String newline ""))).
    + lia.
    + cbn. lia.
    + reflexivity.
    + exists 3, "1x". repeat split.
  - apply (proj1 (read_ngram_counts_malformed
                    (text_of_lines ["1 one"; "97 1 98 1 "]))).
    exists "one". split; [cbn; tauto | reflexivity].
  - apply (proj1 (proj2 (read_ngram_counts_malformed
                           (text_of_lines ["1 1 1"; "97 1 98 1 "])))).
    cbn. lia.
Defined.

(** C7 as stated fails: a header that declares 1 n-gram before 2 data lines,
    and a field that is not an integer after the declared pairs, are both
    read without an exception. *)
Lemma read_ngram_counts_ignores_surplus :
  read_ngram_counts_from_file (text_of_lines ["1 1"; "97 1 98 1 "; "98 1 97 1 "])
  = Ok ([([97], [([98], 1)])], 1) /\
  length (readlines (snd (readline
            (text_of_lines ["1 1"; "97 1 98 1 "; "98 1 97 1 "])))) = 2%nat /\
  read_ngram_counts_from_file (text_of_lines ["1 1"; "97 1 98 1 xyz"])
  = Ok ([([97], [([98], 1)])], 1) /\
  In "xyz" (split "97 1 98 1 xyz") /\
  py_int "xyz" = Raise ValueError.
Proof.
  split; [reflexivity|]. split; [reflexivity|]. split; [reflexivity|].
  split; [|reflexivity]. cbn. tauto.
Qed.

(** ** The order of the probabilities *)

Definition is_nan (f : float) : bool :=
  match f with S754_nan => true | _ => false end.

(** A float that is not a NaN, placed in the lexicographic order of a class
    (negative infinite, negative, zero, positive, positive infinite), an
    exponent and a mantissa. *)
Definition float_rank (f : float) : Z * (Z * Z) :=
  match f with
  | S754_nan => (0, (0, 0))
  | S754_infinity true => (-2, (0, 0))
  | S754_infinity false => (2, (0, 0))
  | S754_zero _ => (0, (0, 0))
  | S754_finite false m e => (1, (e, Z.pos m))
  | S754_finite true m e => (-1, (- e, - Z.pos m))
  end.

Definition rank_lt (a b : Z * (Z * Z)) : Prop :=
  fst a < fst b \/
  (fst a = fst b /\
   (fst (snd a) < fst (snd b) \/
    (fst (snd a) = fst (snd b) /\ snd (snd a) < snd (snd b)))).

Lemma float_lt_rank (x y : float) :
  is_nan x = false -> is_nan y = false ->
  (float_lt x y = true <-> rank_lt (float_rank x) (float_rank y)).
Proof.
  unfold float_lt, SFltb, rank_lt.
  destruct x as [sx|sx| |sx mx ex], y as [sy|sy| |sy my ey]; try discriminate;
    intros _ _;
    try (destruct sx); try (destruct sy); cbn;
    try (split; [discriminate | lia]);
    try (split; [lia | reflexivity]);
    change (Pos.compare_cont Eq mx my) with (Pos.compare mx my);
    destruct (Z.compare_spec ex ey), (Pos.compare_spec mx my); cbn;
    try (split; [discriminate | lia]);
    try (split; [lia | reflexivity]).
Qed.

Lemma float_lt_false_rank (x y : float) :
  is_nan x = false -> is_nan y = false ->
  (float_lt x y = false <-> ~ rank_lt (float_rank x) (float_rank y)).
Proof.
  intros Hx Hy. rewrite <- (float_lt_rank x y Hx Hy).
  destruct (float_lt x y); split; congruence.
Qed.

(** [a] does not come before [b] in the order of [sort]: not [a < b]. *)
Definition not_below (a b : node_ref * float) : Prop :=
  float_lt (snd a) (snd b) = false.

(** Neither probability is less than the other: equal keys for [sort]. *)
Definition same_probability (p : float) (e : node_ref * float) : bool :=
  negb (float_lt p (snd e)) && negb (float_lt (snd e) p).

Definition no_nan (l : list (node_ref * float)) : Prop :=
  Forall (fun e => is_nan (snd e) = false) l.

Lemma insert_desc_perm (a : node_ref * float) (l : list (node_ref * float)) :
  Permutation (insert_desc a l) (a :: l).
Proof.
  induction l as [|y l IH]; cbn; [reflexivity|].
  destruct (float_lt (snd a) (snd y)); [|reflexivity].
  rewrite IH. apply perm_swap.
Qed.

Lemma sort_desc_perm (l : list (node_ref * float)) : Permutation (sort_desc l) l.
Proof.
  induction l as [|y l IH]; cbn; [reflexivity|].
  rewrite insert_desc_perm. now constructor.
Qed.

Lemma no_nan_perm (l l' : list (node_ref * float)) :
  Permutation l l' -> no_nan l -> no_nan l'.
Proof. intros Hp. unfold no_nan. now apply Permutation_Forall. Qed.

Ltac rank_facts :=
  repeat match goal with
    | H : float_lt ?x ?y = true |- _ =>
        apply float_lt_rank in H; [|assumption ..]
    | H : float_lt ?x ?y = false |- _ =>
        apply float_lt_false_rank in H; [|assumption ..]
    end;
  unfold rank_lt in *.

(** Inserting into a list in descending order keeps it in descending
    order. *)
Lemma insert_desc_sorted (a : node_ref * float) (l : list (node_ref * float)) :
  is_nan (snd a) = false -> no_nan l ->
  StronglySorted not_below l -> StronglySorted not_below (insert_desc a l).
Proof.
  intros Ha. induction l as [|y l IH]; intros Hl Hs; cbn.
  - repeat constructor.
  - apply Forall_cons_iff in Hl. destruct Hl as [Hy Hl].
    apply StronglySorted_inv in Hs. destruct Hs as [Hs Hf].
    destruct (float_lt (snd a) (snd y)) eqn:E.
    + constructor; [now apply IH|].
      apply (Permutation_Forall (Permutation_sym (insert_desc_perm a l))).
      constructor; [|exact Hf].
      unfold not_below. apply float_lt_false_rank; auto. rank_facts. lia.
    + constructor; [now constructor|]. constructor; [exact E|].
      rewrite Forall_forall in *. intros z Hz. specialize (Hf z Hz).
      specialize (Hl z Hz). unfold not_below in *. cbv beta in Hl.
      apply float_lt_false_rank; auto. rank_facts. lia.
Qed.

Lemma sort_desc_sorted (l : list (node_ref * float)) :
  no_nan l -> StronglySorted not_below (sort_desc l).
Proof.
  induction l as [|y l IH]; intros Hl; cbn; [constructor|].
  apply Forall_cons_iff in Hl. destruct Hl as [Hy Hl].
  apply insert_desc_sorted; auto.
  apply (no_nan_perm l); [symmetry; apply sort_desc_perm | exact Hl].
Qed.

(** Inserting keeps the order of the entries with the same probability. *)
Lemma insert_desc_stable (p : float) (a : node_ref * float)
  (l : list (node_ref * float)) :
  is_nan p = false -> is_nan (snd a) = false -> no_nan l ->
  filter (same_probability p) (insert_desc a l)
  = filter (same_probability p) (a :: l).
Proof.
  intros Hp Ha. induction l as [|y l IH]; intros Hl; [reflexivity|].
  apply Forall_cons_iff in Hl. destruct Hl as [Hy Hl].
  cbn [insert_desc]. destruct (float_lt (snd a) (snd y)) eqn:E; [|reflexivity].
  cbn [filter]. rewrite IH by assumption. cbn [filter].
  destruct (same_probability p a) eqn:Ea; [|reflexivity].
  destruct (same_probability p y) eqn:Ey; [|reflexivity].
  exfalso. unfold same_probability in *.
  apply andb_true_iff in Ea, Ey. destruct Ea as [Ea1 Ea2], Ey as [Ey1 Ey2].
  apply negb_true_iff in Ea1, Ea2, Ey1, Ey2.
  rank_facts. lia.
Qed.

Lemma sort_desc_stable (p : float) (l : list (node_ref * float)) :
  is_nan p = false -> no_nan l ->
  filter (same_probability p) (sort_desc l) = filter (same_probability p) l.
Proof.
  intros Hp. induction l as [|y l IH]; intros Hl; [reflexivity|].
  apply Forall_cons_iff in Hl. destruct Hl as [Hy Hl].
  cbn [sort_desc fold_right]. fold (sort_desc l).
  rewrite insert_desc_stable; auto.
  - cbn [filter]. now rewrite IH.
  - apply (no_nan_perm l); [symmetry; apply sort_desc_perm | exact Hl].
Qed.

(** The edge list of a node after the calls of [add_next_state]: a
    permutation of the inserted edges, in descending order of probability,
    the edges of one probability in the order of their insertion. *)
Lemma insert_edges_sorted (es : list (node_ref * float)) (nd : MarkovChainNode) :
  no_nan es -> no_nan (next_states nd) ->
  StronglySorted not_below (next_states nd) ->
  Permutation (next_states (insert_edges es nd)) (next_states nd ++ es) /\
  StronglySorted not_below (next_states (insert_edges es nd)) /\
  forall p, is_nan p = false ->
    filter (same_probability p) (next_states (insert_edges es nd))
    = filter (same_probability p) (next_states nd ++ es).
Proof.
  revert nd; induction es as [|e es IH]; intros nd Hes Hnd Hs.
  - cbn [insert_edges fold_left]. rewrite app_nil_r. auto.
  - apply Forall_cons_iff in Hes. destruct Hes as [He Hes].
    cbn [insert_edges fold_left].
    fold (insert_edges es (add_next_state nd (fst e) (snd e))).
    assert (Hn1 : no_nan (next_states nd ++ [(fst e, snd e)])).
    { apply Forall_app. split; [exact Hnd|]. now repeat constructor. }
    destruct (IH (add_next_state nd (fst e) (snd e))) as (Hp & Hsort & Hst); auto.
    + cbn [add_next_state next_states].
      apply (no_nan_perm _ _ (Permutation_sym (sort_desc_perm _))), Hn1.
    + cbn [add_next_state next_states]. now apply sort_desc_sorted.
    + cbn [add_next_state next_states] in *.
      replace (next_states nd ++ e :: es)
        with ((next_states nd ++ [(fst e, snd e)]) ++ es)
        by (rewrite <- app_assoc; destruct e; reflexivity).
      split; [|split; [exact Hsort|]].
      * rewrite Hp. apply Permutation_app_tail, sort_desc_perm.
      * intros p Hpn. rewrite Hst by assumption.
        rewrite !filter_app. f_equal. rewrite sort_desc_stable by assumption.
        now rewrite filter_app.
Qed.

(** ** Rounding to binary64

    The value of a float as a rational number, and the error of the
    library's rounding ([binary_round_aux]) against the exact value. *)

Definition pow2 (e : Z) : Q := (2 ^ e)%Q.

Definition float_value (f : float) : Q :=
  match f with
  | S754_finite false m e => (inject_Z (Z.pos m) * pow2 e)%Q
  | S754_finite true m e => (- (inject_Z (Z.pos m) * pow2 e))%Q
  | _ => 0%Q
  end.

(** The scaled value [y] lies in the unit interval above the mantissa of the
    record, on the side of the middle that the round and sticky bits tell. *)
Definition located (mrs : shr_record) (y : Q) : Prop :=
  0 <= shr_m mrs /\
  match shr_r mrs, shr_s mrs with
  | false, false => (y == inject_Z (shr_m mrs))%Q
  | false, true =>
      (inject_Z (shr_m mrs) < y)%Q /\ (y < inject_Z (shr_m mrs) + (1 # 2))%Q
  | true, false => (y == inject_Z (shr_m mrs) + (1 # 2))%Q
  | true, true =>
      (inject_Z (shr_m mrs) + (1 # 2) < y)%Q /\ (y < inject_Z (shr_m mrs) + 1)%Q
  end.

Lemma pow2_pos (e : Z) : (0 < pow2 e)%Q.
Proof. apply Qpower_0_lt. reflexivity. Qed.

Lemma pow2_add (a b : Z) : (pow2 (a + b) == pow2 a * pow2 b)%Q.
Proof. apply Qpower_plus. discriminate. Qed.

Lemma pow2_le (a b : Z) : a <= b -> (pow2 a <= pow2 b)%Q.
Proof. intros H. apply Qpower_le_compat_l; [exact H | discriminate]. Qed.

Lemma pow2_lt (a b : Z) : a < b -> (pow2 a < pow2 b)%Q.
Proof. intros H. apply Qpower_lt_compat_l; [exact H | reflexivity]. Qed.

Lemma pow2_inject (n : Z) : 0 <= n -> (inject_Z (2 ^ n) == pow2 n)%Q.
Proof. intros Hn. now rewrite Zpower_Qpower. Qed.

Lemma pow2_cancel (e : Z) : (pow2 e * pow2 (- e) == 1)%Q.
Proof. rewrite <- pow2_add, Z.add_opp_diag_r. reflexivity. Qed.

Lemma located_ext (mrs : shr_record) (y y' : Q) :
  (y == y')%Q -> located mrs y -> located mrs y'.
Proof.
  intros E [Hm H]. split; [exact Hm|].
  destruct (shr_r mrs), (shr_s mrs); rewrite <- E; exact H.
Qed.

Lemma inject_Z_xO (p : positive) : (inject_Z (Z.pos p~0) == 2 * inject_Z (Z.pos p))%Q.
Proof. rewrite Pos2Z.inj_xO, inject_Z_mult. reflexivity. Qed.

Lemma inject_Z_xI (p : positive) :
  (inject_Z (Z.pos p~1) == 2 * inject_Z (Z.pos p) + 1)%Q.
Proof. rewrite Pos2Z.inj_xI, inject_Z_plus, inject_Z_mult. reflexivity. Qed.

(** One shift to the right halves the scaled value. *)
Lemma shr_1_located (mrs : shr_record) (y : Q) :
  located mrs y -> located (shr_1 mrs) (y * (1 # 2))%Q.
Proof.
  destruct mrs as [m r s]. unfold located. cbn [shr_m shr_r shr_s].
  intros [Hm H].
  destruct m as [|p|p]; [| |lia].
  - destruct r, s; cbn [shr_1 shr_m shr_r shr_s orb] in *;
      (split; [lia|]); change (inject_Z 0) with 0%Q in *; lra.
  - destruct p as [p|p|].
    + pose proof (inject_Z_xI p) as E.
      destruct r, s; cbn [shr_1 shr_m shr_r shr_s orb] in *; (split; [lia|]); lra.
    + pose proof (inject_Z_xO p) as E.
      destruct r, s; cbn [shr_1 shr_m shr_r shr_s orb] in *; (split; [lia|]); lra.
    + destruct r, s; cbn [shr_1 shr_m shr_r shr_s orb] in *; (split; [lia|]);
        change (inject_Z 0) with 0%Q in *; change (inject_Z 1) with 1%Q in *; lra.
Qed.

Lemma iter_pos_shr_1_located (n : positive) (mrs : shr_record) (y : Q) :
  located mrs y ->
  located (iter_pos shr_1 n mrs) (y * pow2 (- Z.pos n))%Q.
Proof.
  revert mrs y; induction n as [n IH|n IH|]; intros mrs y H; cbn [iter_pos].
  - apply (located_ext _ (y * (1 # 2) * pow2 (- Z.pos n) * pow2 (- Z.pos n))%Q).
    + rewrite <- !Qmult_assoc, <- pow2_add.
      replace (- Z.pos n~1) with (-1 + (- Z.pos n + - Z.pos n)) by lia.
      rewrite (pow2_add (-1)). reflexivity.
    + apply IH, IH, shr_1_located, H.
  - apply (located_ext _ (y * pow2 (- Z.pos n) * pow2 (- Z.pos n))%Q).
    + rewrite <- !Qmult_assoc, <- pow2_add.
      replace (- Z.pos n~0) with (- Z.pos n + - Z.pos n) by lia. reflexivity.
    + apply IH, IH, H.
  - apply shr_1_located, H.
Qed.

(** [shr] keeps the represented value. *)
Lemma shr_located (mrs : shr_record) (e n : Z) (x : Q) :
  located mrs (x * pow2 (- e))%Q ->
  located (fst (shr mrs e n)) (x * pow2 (- snd (shr mrs e n)))%Q.
Proof.
  intros H. destruct n as [|n|n]; cbn [shr fst snd]; try exact H.
  apply (located_ext _ (x * pow2 (- e) * pow2 (- Z.pos n))%Q).
  - rewrite <- Qmult_assoc, <- pow2_add.
    replace (- (e + Z.pos n)) with (- e + - Z.pos n) by lia. reflexivity.
  - apply iter_pos_shr_1_located, H.
Qed.

Lemma snd_shr (mrs : shr_record) (e n : Z) : snd (shr mrs e n) = e + Z.max n 0.
Proof. destruct n; cbn [shr snd]; lia. Qed.

Lemma located_loc (m : Z) (l : location) :
  shr_m (shr_record_of_loc m l) = m /\
  loc_of_shr_record (shr_record_of_loc m l) = l.
Proof. destruct l as [|[]]; split; reflexivity. Qed.

(** The bounds that [located] gives on the scaled value. *)
Lemma located_bounds (mrs : shr_record) (y : Q) :
  located mrs y ->
  (inject_Z (shr_m mrs) <= y)%Q /\ (y < inject_Z (shr_m mrs) + 1)%Q.
Proof.
  unfold located. intros [_ H]. destruct (shr_r mrs), (shr_s mrs); lra.
Qed.

(** Rounding to nearest moves the scaled value by a half at most. *)
Lemma round_nearest_even_located (mrs : shr_record) (y : Q) :
  located mrs y ->
  let m1 := round_nearest_even (shr_m mrs) (loc_of_shr_record mrs) in
  shr_m mrs <= m1 <= shr_m mrs + 1 /\
  (y - (1 # 2) <= inject_Z m1)%Q /\ (inject_Z m1 <= y + (1 # 2))%Q.
Proof.
  destruct mrs as [m r s]. unfold located. cbn [shr_m shr_r shr_s].
  intros [Hm H].
  assert (E : (inject_Z (m + 1) == inject_Z m + 1)%Q)
    by (rewrite inject_Z_plus; reflexivity).
  destruct r, s; cbn [loc_of_shr_record round_nearest_even];
    try (destruct (Z.even m)); cbv zeta; (split; [lia|]); lra.
Qed.

(** The number of binary digits. *)
Lemma digits2_pos_size (p : positive) : digits2_pos p = Pos.size p.
Proof. induction p; cbn; congruence. Qed.

Lemma Zdigits2_log2 (p : positive) : Zdigits2 (Z.pos p) = Z.log2 (Z.pos p) + 1.
Proof.
  cbn [Zdigits2]. rewrite digits2_pos_size.
  destruct p; cbn [Pos.size Z.log2]; lia.
Qed.

Lemma Zdigits2_nonneg (m : Z) : 0 <= m -> 0 <= Zdigits2 m.
Proof. destruct m; cbn; lia. Qed.

Lemma Zdigits2_bounds (m : Z) :
  0 < m -> 2 ^ (Zdigits2 m - 1) <= m < 2 ^ Zdigits2 m.
Proof.
  intros Hm. destruct m as [|p|p]; try lia. rewrite Zdigits2_log2.
  pose proof (Z.log2_spec (Z.pos p) Hm) as H.
  replace (Z.log2 (Z.pos p) + 1 - 1) with (Z.log2 (Z.pos p)) by lia.
  replace (Z.log2 (Z.pos p) + 1) with (Z.succ (Z.log2 (Z.pos p))) by lia.
  exact H.
Qed.

Lemma Zdigits2_upper (m : Z) : 0 <= m -> m < 2 ^ Zdigits2 m.
Proof.
  intros Hm. destruct (Z.eq_dec m 0) as [->|Hn]; [reflexivity|].
  apply Zdigits2_bounds. lia.
Qed.

Lemma Zdigits2_le (m k : Z) : 0 <= m -> 0 <= k -> m < 2 ^ k -> Zdigits2 m <= k.
Proof.
  intros Hm Hk Hlt. destruct m as [|p|p]; try lia; [cbn; lia|].
  rewrite Zdigits2_log2. apply Z.log2_lt_pow2 in Hlt; lia.
Qed.

Lemma Zdigits2_gt (m k : Z) : 0 <= k -> 2 ^ k <= m -> k < Zdigits2 m.
Proof.
  intros Hk Hle. assert (Hm : 0 < m) by (pose proof (Z.pow_pos_nonneg 2 k); lia).
  destruct m as [|p|p]; try lia.
  rewrite Zdigits2_log2. apply Z.log2_le_pow2 in Hle; lia.
Qed.

Lemma fexp_binary64 (z : Z) : fexp prec emax z = Z.max (z - 53) (-1074).
Proof. reflexivity. Qed.

Lemma shr_nonpos (mrs : shr_record) (e n : Z) : n <= 0 -> shr mrs e n = (mrs, e).
Proof. destruct n; [reflexivity | lia | reflexivity]. Qed.

Lemma Qlt_inject_Z (a b : Z) : (inject_Z a < inject_Z b)%Q -> a < b.
Proof. intros H. now rewrite Zlt_Qlt. Qed.

(** The error allowed to a rounding of [x]: the relative error of a normal
    number or the absolute error of a subnormal one. *)
Definition rounding_error (x : Q) : Q := (x * pow2 (-53) + pow2 (-1075))%Q.

(** [r] is a non-negative finite float within the rounding error of [x]. *)
Definition rounds_to (r : float) (x : Q) : Prop :=
  match r with
  | S754_zero false | S754_finite false _ _ =>
      (x - rounding_error x <= float_value r)%Q /\
      (float_value r <= x + rounding_error x)%Q /\
      (0 <= float_value r)%Q /\ (float_value r < pow2 1024)%Q
  | _ => False
  end.

Lemma pow2_half (e : Z) : (pow2 e * (1 # 2) == pow2 (e - 1))%Q.
Proof.
  replace (e - 1) with (e + -1) by lia. rewrite pow2_add. reflexivity.
Qed.

(** Half a unit in the last place is within the rounding error. *)
Lemma half_ulp_rounding_error (m e : Z) (l : location) (x : Q) :
  0 <= m ->
  located (shr_record_of_loc m l) (x * pow2 (- e))%Q ->
  e <= fexp prec emax (Zdigits2 m + e) ->
  (0 <= x)%Q /\
  (pow2 (fexp prec emax (Zdigits2 m + e)) * (1 # 2) <= rounding_error x)%Q /\
  (-1074 < fexp prec emax (Zdigits2 m + e) ->
   (pow2 (fexp prec emax (Zdigits2 m + e) + 52) <= x)%Q).
Proof.
  intros Hm Hloc Hpre. apply located_bounds in Hloc.
  destruct (located_loc m l) as [-> _] in Hloc. destruct Hloc as [Hlo _].
  assert (Hx : (x == x * pow2 (- e) * pow2 e)%Q).
  { rewrite <- Qmult_assoc, (Qmult_comm (pow2 (- e))), pow2_cancel. ring. }
  pose proof (pow2_pos e) as He.
  assert (Hmx : (inject_Z m * pow2 e <= x)%Q).
  { rewrite Hx. apply Qmult_le_compat_r; [exact Hlo | lra]. }
  assert (Hm0 : (0 <= inject_Z m)%Q) by (change 0%Q with (inject_Z 0); now rewrite <- Zle_Qle).
  assert (Hx0 : (0 <= x)%Q).
  { eapply Qle_trans; [|exact Hmx]. apply Qmult_le_0_compat; lra. }
  split; [exact Hx0|]. unfold rounding_error.
  rewrite fexp_binary64 in *. rewrite pow2_half.
  pose proof (pow2_pos (-53)) as H53. pose proof (pow2_pos (-1075)) as H1075.
  assert (Hx53 : (0 <= x * pow2 (-53))%Q) by (apply Qmult_le_0_compat; lra).
  destruct (Z.max_spec (Zdigits2 m + e - 53) (-1074)) as [[Hc ->]|[Hc ->]].
  - split; [change (-1074 - 1) with (-1075); lra | lia].
  - assert (Hpos : 0 < m).
    { destruct (Z.eq_dec m 0) as [->|]; [cbn in *; lia | lia]. }
    pose proof (Zdigits2_bounds m Hpos) as [Hd _].
    assert (Hd1 : 0 <= Zdigits2 m - 1).
    { pose proof (Zdigits2_gt m 0 ltac:(lia) ltac:(cbn; lia)). lia. }
    assert (Hpm : (pow2 (Zdigits2 m - 1) <= inject_Z m)%Q).
    { rewrite <- pow2_inject by assumption. now rewrite <- Zle_Qle. }
    assert (Hpx : (pow2 (Zdigits2 m - 1) * pow2 e <= x)%Q).
    { eapply Qle_trans; [|exact Hmx]. apply Qmult_le_compat_r; [exact Hpm | lra]. }
    split.
    + replace (Zdigits2 m + e - 53 - 1) with ((Zdigits2 m - 1) + e + -53) by lia.
      rewrite !pow2_add.
      assert (Hmul : (pow2 (Zdigits2 m - 1) * pow2 e * pow2 (-53)
                      <= x * pow2 (-53))%Q).
      { apply Qmult_le_compat_r; [exact Hpx | lra]. }
      lra.
    + intros _. replace (Zdigits2 m + e - 53 + 52) with ((Zdigits2 m - 1) + e) by lia.
      now rewrite pow2_add.
Qed.

Lemma value_below_overflow (m e : Z) :
  0 <= m < 2 ^ 53 -> e <= 971 ->
  (0 <= inject_Z m * pow2 e)%Q /\ (inject_Z m * pow2 e < pow2 1024)%Q.
Proof.
  intros [Hm0 Hm] He.
  pose proof (pow2_pos e) as Hp. pose proof (pow2_le e 971 He) as Hle.
  assert (H0 : (0 <= inject_Z m)%Q)
    by (change 0%Q with (inject_Z 0); now rewrite <- Zle_Qle).
  assert (H1 : (inject_Z m < pow2 53)%Q).
  { rewrite <- pow2_inject by lia. now rewrite <- Zlt_Qlt. }
  split; [apply Qmult_le_0_compat; lra|].
  apply Qle_lt_trans with (inject_Z m * pow2 971)%Q.
  - rewrite !(Qmult_comm (inject_Z m)). apply Qmult_le_compat_r; assumption.
  - change 1024 with (53 + 971). rewrite pow2_add.
    apply Qmult_lt_compat_r; [apply pow2_pos | exact H1].
Qed.

(** The rounding of the library: from a mantissa, an exponent and a location
    that hold the non-negative value [x], with the mantissa long enough for
    its exponent, [binary_round_aux] gives the infinity or a finite float
    within the rounding error of [x]. *)
Lemma binary_round_aux_correct (m e : Z) (l : location) (x : Q) :
  0 <= m ->
  located (shr_record_of_loc m l) (x * pow2 (- e))%Q ->
  e <= fexp prec emax (Zdigits2 m + e) ->
  (binary_round_aux prec emax false m e l = S754_infinity false /\
   (pow2 1023 <= x)%Q) \/
  rounds_to (binary_round_aux prec emax false m e l) x.
Proof.
  intros Hm Hloc Hpre.
  destruct (half_ulp_rounding_error m e l x Hm Hloc Hpre) as (Hx0 & Hulp & Hbig).
  unfold binary_round_aux, shr_fexp.
  pose proof (Zdigits2_upper m Hm) as Hdig.
  pose proof (Zdigits2_nonneg m Hm) as Hdig0.
  pose proof (fexp_binary64 (Zdigits2 m + e)) as Hfexp.
  set (e1 := fexp prec emax (Zdigits2 m + e)) in *.
  pose proof (shr_located (shr_record_of_loc m l) e (e1 - e) x Hloc) as Hloc1.
  pose proof (snd_shr (shr_record_of_loc m l) e (e1 - e)) as He1.
  destruct (shr (shr_record_of_loc m l) e (e1 - e)) as [mrs' e'].
  cbn [fst snd] in *.
  assert (He' : e' = e1) by lia. clear He1. subst e'.
  pose proof (pow2_pos e1) as Hp1.
  (* the scaled value is below 2^53 *)
  assert (Hy53 : (x * pow2 (- e1) < pow2 53)%Q).
  { apply located_bounds in Hloc. destruct (located_loc m l) as [-> _] in Hloc.
    destruct Hloc as [_ Hhi].
    assert (Hm1 : (inject_Z m + 1 <= pow2 (Zdigits2 m))%Q).
    { rewrite <- pow2_inject by assumption.
      change 1%Q with (inject_Z 1). rewrite <- inject_Z_plus, <- Zle_Qle. lia. }
    assert (Hs : (x * pow2 (- e1) == x * pow2 (- e) * pow2 (e - e1))%Q).
    { rewrite <- Qmult_assoc, <- pow2_add.
      replace (- e + (e - e1)) with (- e1) by lia. reflexivity. }
    rewrite Hs.
    apply Qlt_le_trans with (pow2 (Zdigits2 m) * pow2 (e - e1))%Q.
    - apply Qmult_lt_compat_r; [apply pow2_pos | lra].
    - rewrite <- pow2_add. apply pow2_le. lia. }
  pose proof (located_bounds _ _ Hloc1) as [Hlo1 Hhi1].
  pose proof (round_nearest_even_located _ _ Hloc1) as Hrnd. cbv zeta in Hrnd.
  destruct Hloc1 as [Hm' _].
  set (m1 := round_nearest_even (shr_m mrs') (loc_of_shr_record mrs')) in *.
  destruct Hrnd as (Hm1 & Hr1 & Hr2).
  assert (Hm'53 : shr_m mrs' < 2 ^ 53).
  { apply Qlt_inject_Z. rewrite pow2_inject by lia. lra. }
  (* the value of the rounded mantissa *)
  assert (Hx : (x == x * pow2 (- e1) * pow2 e1)%Q).
  { rewrite <- Qmult_assoc, (Qmult_comm (pow2 (- e1))), pow2_cancel. ring. }
  assert (Hv1 : (x - rounding_error x <= inject_Z m1 * pow2 e1)%Q).
  { pose proof (Qmult_le_compat_r _ _ (pow2 e1) Hr1 (Qlt_le_weak _ _ Hp1)) as H.
    lra. }
  assert (Hv2 : (inject_Z m1 * pow2 e1 <= x + rounding_error x)%Q).
  { pose proof (Qmult_le_compat_r _ _ (pow2 e1) Hr2 (Qlt_le_weak _ _ Hp1)) as H.
    lra. }
  destruct (Z.eq_dec m1 (2 ^ 53)) as [E53|N53].
  - (* the mantissa overflowed to 2^53: one more shift *)
    rewrite E53 in *. change (Zdigits2 (2 ^ 53)) with 54.
    rewrite fexp_binary64.
    replace (Z.max (54 + e1 - 53) (-1074) - e1) with 1 by lia.
    cbn [shr_record_of_loc shr iter_pos]. change (2 ^ 53) with 9007199254740992.
    cbn [shr_1 shr_m orb].
    destruct (Z.leb_spec (e1 + 1) (emax - prec)) as [Hle|Hgt]; [right|left].
    2: { split; [reflexivity|]. change (emax - prec) with 971 in Hgt.
         eapply Qle_trans; [|apply Hbig; lia]. apply pow2_le. lia. }
    change (emax - prec) with 971 in Hle.
    cbn [rounds_to float_value].
    assert (Ev : (inject_Z 4503599627370496 * pow2 (e1 + 1)
                  == inject_Z (2 ^ 53) * pow2 e1)%Q).
    { rewrite pow2_add, (Qmult_comm (pow2 e1)), Qmult_assoc.
      apply Qmult_comp; reflexivity. }
    pose proof (value_below_overflow 4503599627370496 (e1 + 1)
                  ltac:(split; [lia|reflexivity]) Hle) as [Hb0 Hb1].
    rewrite Ev in *. auto.
  - (* the usual case: no second shift *)
    assert (Hm153 : m1 < 2 ^ 53) by lia.
    pose proof (Zdigits2_le m1 53 ltac:(lia) ltac:(lia) Hm153) as Hd1.
    rewrite shr_nonpos by (rewrite fexp_binary64; lia).
    cbn [shr_record_of_loc shr_m].
    destruct m1 as [|p|p] eqn:Em1; [| |lia].
    + right. cbn [rounds_to float_value].
      change (inject_Z 0) with 0%Q in *.
      pose proof (pow2_pos 1024). repeat split; lra.
    + destruct (Z.leb_spec e1 (emax - prec)) as [Hle|Hgt]; [right|left].
      2: { split; [reflexivity|]. change (emax - prec) with 971 in Hgt.
           eapply Qle_trans; [|apply Hbig; lia]. apply pow2_le. lia. }
      change (emax - prec) with 971 in Hle.
      cbn [rounds_to float_value].
      pose proof (value_below_overflow (Z.pos p) e1 ltac:(lia) Hle) as [Hb0 Hb1].
      auto.
Qed.

Lemma iter_xO_value (p k : positive) :
  Z.pos (Pos.iter xO p k) = Z.pos p * 2 ^ Z.pos k /\
  digits2_pos (Pos.iter xO p k) = (digits2_pos p + k)%positive.
Proof.
  induction k as [|k IH] using Pos.peano_ind.
  - cbn. split; lia.
  - rewrite Pos.iter_succ. destruct IH as [IH1 IH2].
    rewrite Pos2Z.inj_xO, IH1, Pos2Z.inj_succ, Z.pow_succ_r by lia.
    cbn [digits2_pos]. rewrite IH2. split; lia.
Qed.

(** [float(p)]-style rounding of [p * 2^ex], [p] positive. *)
Lemma binary_round_correct (p : positive) (ex : Z) :
  (binary_round prec emax false p ex = S754_infinity false /\
   (pow2 1023 <= inject_Z (Z.pos p) * pow2 ex)%Q) \/
  rounds_to (binary_round prec emax false p ex) (inject_Z (Z.pos p) * pow2 ex)%Q.
Proof.
  unfold binary_round, shl_align.
  set (ex' := fexp prec emax (Z.pos (digits2_pos p) + ex)).
  destruct (ex' - ex) as [|k|k] eqn:Ek.
  - apply binary_round_aux_correct; [lia| |].
    + split; [cbn; lia|]. cbn.
      rewrite <- Qmult_assoc, pow2_cancel. ring.
    + cbn [Zdigits2]. fold ex'. lia.
  - apply binary_round_aux_correct; [lia| |].
    + split; [cbn; lia|]. cbn.
      rewrite <- Qmult_assoc, pow2_cancel. ring.
    + cbn [Zdigits2]. fold ex'. lia.
  - destruct (iter_xO_value p k) as [Hv Hd].
    apply binary_round_aux_correct; [lia| |].
    + split; [cbn; lia|]. cbn [shr_record_of_loc shr_m shr_r shr_s].
      rewrite Hv, inject_Z_mult, pow2_inject by lia.
      rewrite <- Qmult_assoc, <- pow2_add.
      replace (ex + - ex') with (Z.pos k) by lia. reflexivity.
    + cbn [Zdigits2]. rewrite Hd, Pos2Z.inj_add.
      replace (Z.pos (digits2_pos p) + Z.pos k + ex')
        with (Z.pos (digits2_pos p) + ex) by lia.
      fold ex'. lia.
Qed.

(** [float(z)] for a positive [z]: when it does not overflow it is within
    the rounding error of [z]. *)
Lemma float_of_int_correct (z : Z) (f : float) :
  0 < z -> float_of_int z = Ok f -> rounds_to f (inject_Z z).
Proof.
  intros Hz. unfold float_of_int. destruct z as [|p|p]; try lia.
  cbn [binary_normalize].
  destruct (binary_round_correct p 0) as [[Hinf _]|Hr].
  - rewrite Hinf. discriminate.
  - assert (E : (inject_Z (Z.pos p) * pow2 0 == inject_Z (Z.pos p))%Q)
      by (change (pow2 0) with 1%Q; ring).
    destruct (binary_round prec emax false p 0) as [s|s| |s m e];
      try (destruct s); try contradiction; intros Hf; injection Hf as <-;
      unfold rounds_to, rounding_error in *; rewrite E in Hr; exact Hr.
Qed.

(** The location of a quotient from its remainder. *)
Lemma new_location_located (q m2 r : Z) :
  0 <= q -> 0 <= r < m2 ->
  located (shr_record_of_loc q (new_location m2 r))
          (inject_Z q + inject_Z r / inject_Z m2)%Q.
Proof.
  intros Hq [Hr0 Hr].
  assert (HM : (0 < inject_Z m2)%Q)
    by (change 0%Q with (inject_Z 0); rewrite <- Zlt_Qlt; lia).
  assert (HR0 : (0 <= inject_Z r)%Q)
    by (change 0%Q with (inject_Z 0); now rewrite <- Zle_Qle).
  assert (Hlt : 2 * r < m2 -> (inject_Z r / inject_Z m2 < 1 # 2)%Q).
  { intros H. apply Qlt_shift_div_r; [exact HM|].
    assert (H' : (inject_Z (2 * r) < inject_Z m2)%Q) by now rewrite <- Zlt_Qlt.
    rewrite inject_Z_mult in H'. change (inject_Z 2) with 2%Q in H'. lra. }
  assert (Hgt : m2 < 2 * r -> ((1 # 2) < inject_Z r / inject_Z m2)%Q).
  { intros H. apply Qlt_shift_div_l; [exact HM|].
    assert (H' : (inject_Z m2 < inject_Z (2 * r))%Q) by now rewrite <- Zlt_Qlt.
    rewrite inject_Z_mult in H'. change (inject_Z 2) with 2%Q in H'. lra. }
  assert (Heq : 2 * r = m2 -> (inject_Z r / inject_Z m2 == 1 # 2)%Q).
  { intros H. rewrite <- H, inject_Z_mult. change (inject_Z 2) with 2%Q.
    field. intros E. rewrite <- H, inject_Z_mult in HM.
    change (inject_Z 2) with 2%Q in HM. lra. }
  assert (Hpos : 0 < r -> (0 < inject_Z r / inject_Z m2)%Q).
  { intros H. apply Qlt_shift_div_l; [exact HM|].
    assert (H' : (inject_Z 0 < inject_Z r)%Q) by now rewrite <- Zlt_Qlt.
    change (inject_Z 0) with 0%Q in H'. lra. }
  assert (Hone : (inject_Z r / inject_Z m2 < 1)%Q).
  { apply Qlt_shift_div_r; [exact HM|].
    assert (H' : (inject_Z r < inject_Z m2)%Q) by now rewrite <- Zlt_Qlt. lra. }
  assert (Hzero : located (shr_record_of_loc q loc_Exact)
                          (inject_Z q + inject_Z 0 / inject_Z m2)%Q).
  { split; [exact Hq|]. cbn. unfold Qdiv. change (inject_Z 0) with 0%Q. ring. }
  unfold new_location.
  destruct (Z.even m2) eqn:Ev; unfold new_location_even, new_location_odd;
    (destruct (Z.eqb_spec r 0) as [->|Hn]; [exact Hzero|]).
  - destruct (Z.compare_spec (2 * r) m2) as [E|E|E];
      (split; [exact Hq|]); cbn [shr_record_of_loc shr_m shr_r shr_s].
    + specialize (Heq E). lra.
    + specialize (Hlt E). specialize (Hpos ltac:(lia)). lra.
    + specialize (Hgt E). lra.
  - assert (Hodd : exists k, m2 = 2 * k + 1).
    { apply Z.odd_spec. rewrite <- Z.negb_even, Ev. reflexivity. }
    destruct Hodd as [k Hk].
    destruct (Z.compare_spec (2 * r + 1) m2) as [E|E|E];
      (split; [exact Hq|]); cbn [shr_record_of_loc shr_m shr_r shr_s].
    + specialize (Hlt ltac:(lia)). specialize (Hpos ltac:(lia)). lra.
    + specialize (Hlt ltac:(lia)). specialize (Hpos ltac:(lia)). lra.
    + specialize (Hgt ltac:(lia)). lra.
Qed.

(** The quotient, exponent and location that [SFdiv] rounds. *)
Lemma SFdiv_core_binary_correct (m1 m2 : positive) (e1 e2 : Z) :
  let x := ((inject_Z (Z.pos m1) * pow2 e1) / (inject_Z (Z.pos m2) * pow2 e2))%Q in
  let '(q, eq, loc) := SFdiv_core_binary prec emax (Z.pos m1) e1 (Z.pos m2) e2 in
  0 <= q /\
  located (shr_record_of_loc q loc) (x * pow2 (- eq))%Q /\
  eq <= fexp prec emax (Zdigits2 q + eq).
Proof.
  cbv zeta. unfold SFdiv_core_binary.
  set (d1 := Zdigits2 (Z.pos m1)). set (d2 := Zdigits2 (Z.pos m2)).
  set (eq := Z.min (fexp prec emax (d1 + e1 - (d2 + e2))) (e1 - e2)).
  set (s := e1 - e2 - eq).
  assert (Hs : 0 <= s) by (unfold s, eq; lia).
  set (m' := match s with Z.pos _ => Z.shiftl (Z.pos m1) s | 0 => Z.pos m1
                        | Z.neg _ => 0 end).
  assert (Hm' : m' = Z.pos m1 * 2 ^ s).
  { unfold m'. destruct s as [|k|k]; [lia | | lia].
    now rewrite Z.shiftl_mul_pow2 by lia. }
  clearbody m'.
  pose proof (Z.pow_pos_nonneg 2 s ltac:(lia) Hs) as H2s.
  assert (Hm'0 : 0 < m') by (rewrite Hm'; lia).
  pose proof (Z_div_mod m' (Z.pos m2) ltac:(lia)) as Hdm.
  destruct (Z.div_eucl m' (Z.pos m2)) as [q r]. destruct Hdm as [Hdiv Hr].
  assert (Hq : 0 <= q) by nia.
  split; [exact Hq|]. split.
  - (* the location *)
    apply (located_ext _ (inject_Z q + inject_Z r / inject_Z (Z.pos m2))%Q);
      [|apply new_location_located; [exact Hq | lia]].
    assert (HM2 : (0 < inject_Z (Z.pos m2))%Q) by reflexivity.
    pose proof (pow2_pos e2) as Hp2.
    assert (Es : (pow2 e1 == pow2 s * pow2 eq * pow2 e2)%Q).
    { rewrite <- !pow2_add. replace (s + eq + e2) with e1 by (unfold s; lia).
      reflexivity. }
    assert (Em : (inject_Z (Z.pos m1) * pow2 s
                  == inject_Z (Z.pos m2) * inject_Z q + inject_Z r)%Q).
    { rewrite <- pow2_inject, <- !inject_Z_mult, <- inject_Z_plus by assumption.
      now rewrite <- Hm', Hdiv. }
    rewrite Es.
    transitivity ((inject_Z (Z.pos m1) * pow2 s) / inject_Z (Z.pos m2)
                  * (pow2 eq * pow2 (- eq)))%Q.
    + rewrite Em, pow2_cancel. field. lra.
    + field. split; lra.
  - (* the mantissa is long enough *)
    rewrite fexp_binary64.
    destruct (Z_le_gt_dec eq (-1074)) as [Hle|Hgt]; [lia|].
    assert (Ht : 52 <= d1 + e1 - (d2 + e2) - eq - 1).
    { assert (Heq : eq <= fexp prec emax (d1 + e1 - (d2 + e2)))
        by (unfold eq; lia).
      rewrite fexp_binary64 in Heq. lia. }
    pose proof (Zdigits2_bounds (Z.pos m1) ltac:(lia)) as [Hb1 _].
    pose proof (Zdigits2_bounds (Z.pos m2) ltac:(lia)) as [_ Hb2].
    fold d1 in Hb1. fold d2 in Hb2.
    assert (Hd1 : 0 <= d1 - 1).
    { pose proof (Zdigits2_gt (Z.pos m1) 0 ltac:(lia) ltac:(cbn; lia)).
      fold d1 in H. lia. }
    assert (Hd2 : 0 <= d2) by (apply Zdigits2_nonneg; lia).
    set (t := d1 - 1 + s - d2).
    assert (Ht' : 52 <= t) by (unfold t, s; lia).
    assert (Hpow : 2 ^ t * 2 ^ d2 = 2 ^ (d1 - 1) * 2 ^ s).
    { rewrite <- !Z.pow_add_r by lia. f_equal. unfold t. lia. }
    assert (Hq52 : 2 ^ t <= q).
    { pose proof (Z.pow_pos_nonneg 2 t ltac:(lia) ltac:(lia)) as Hpt.
      assert (Hlow : 2 ^ t * Z.pos m2 < m').
      { rewrite Hm'. nia. }
      nia. }
    assert (H52 : 2 ^ 52 <= q).
    { eapply Z.le_trans; [|exact Hq52]. apply Z.pow_le_mono_r; lia. }
    pose proof (Zdigits2_gt q 52 ltac:(lia) H52). lia.
Qed.

(** The quotient of two positive finite floats is the infinity or within the
    rounding error of the exact quotient. *)
Lemma SFdiv_correct (m1 m2 : positive) (e1 e2 : Z) :
  let x := ((inject_Z (Z.pos m1) * pow2 e1) / (inject_Z (Z.pos m2) * pow2 e2))%Q in
  let r := SFdiv prec emax (S754_finite false m1 e1) (S754_finite false m2 e2) in
  (r = S754_infinity false /\ (pow2 1023 <= x)%Q) \/ rounds_to r x.
Proof.
  cbv zeta. cbn [SFdiv xorb].
  pose proof (SFdiv_core_binary_correct m1 m2 e1 e2) as H. cbv zeta in H.
  destruct (SFdiv_core_binary prec emax (Z.pos m1) e1 (Z.pos m2) e2) as [[q eq] loc].
  destruct H as (Hq & Hloc & Hpre).
  now apply binary_round_aux_correct.
Qed.

(** ** The error of a probability

    [count / weight] rounds three times: the two conversions to [float] and
    the division.  With [eps] at least the error of one rounding of a number
    that is at least 1, the quotient is within [4 * eps] of the exact one,
    relatively, and [eta] absolutely. *)

Lemma quotient_error (C W vc vw x p u eta eps : Q) :
  (1 <= C -> 1 <= W -> 0 <= u -> 0 <= eta -> u + eta <= eps -> eps <= 1 # 8 ->
   C - (C * u + eta) <= vc -> vc <= C + (C * u + eta) ->
   W - (W * u + eta) <= vw -> vw <= W + (W * u + eta) ->
   x * vw == vc ->
   (C <= W -> x <= 2) /\
   (x - (x * u + eta) <= p -> p <= x + (x * u + eta) ->
    (p - eta) * W <= C * (1 + 4 * eps) /\ C * (1 - 4 * eps) <= (p + eta) * W))%Q.
Proof.
  intros HC HW Hu Heta Hue Heps Hc1 Hc2 Hw1 Hw2 Hx.
  assert (He0 : (0 <= eps)%Q) by lra.
  assert (Hcu : (C * u + eta <= C * eps)%Q).
  { assert (eta <= C * eta)%Q by nra. assert (C * (u + eta) <= C * eps)%Q by nra. lra. }
  assert (Hwu : (W * u + eta <= W * eps)%Q).
  { assert (eta <= W * eta)%Q by nra. assert (W * (u + eta) <= W * eps)%Q by nra. lra. }
  assert (Hc1' : (C * (1 - eps) <= vc)%Q) by lra.
  assert (Hc2' : (vc <= C * (1 + eps))%Q) by lra.
  assert (Hw1' : (W * (1 - eps) <= vw)%Q) by lra.
  assert (Hw2' : (vw <= W * (1 + eps))%Q) by lra.
  clear Hc1 Hc2 Hw1 Hw2 Hcu Hwu.
  assert (HWe : (0 < W * (1 - eps))%Q) by nra.
  assert (HCe : (0 < C * (1 - eps))%Q) by nra.
  assert (Hvw : (0 < vw)%Q) by lra.
  assert (Hvc : (0 < vc)%Q) by lra.
  assert (Hx0 : (0 <= x)%Q).
  { destruct (Qlt_le_dec x 0) as [Hneg|]; [|assumption].
    assert (x * vw <= 0)%Q by nra. lra. }
  assert (Hxa : (x * (W * (1 - eps)) <= C * (1 + eps))%Q).
  { assert (x * (W * (1 - eps)) <= x * vw)%Q by nra. lra. }
  assert (Hxb : (C * (1 - eps) <= x * (W * (1 + eps)))%Q).
  { assert (x * vw <= x * (W * (1 + eps)))%Q by nra. lra. }
  split.
  { intros HCW.
    assert (H1 : (x * (W * (1 - eps)) <= W * (1 + eps))%Q) by nra.
    assert (H2 : (2 * (W * (1 - eps)) >= W * (1 + eps))%Q) by nra.
    assert (H3 : (x * (W * (1 - eps)) <= 2 * (W * (1 - eps)))%Q) by lra.
    apply Qmult_le_r in H3; lra. }
  intros Hp1 Hp2.
  assert (Hxu : (x * u <= x * eps)%Q) by nra.
  assert (Hp1' : (x * (1 - eps) <= p + eta)%Q) by lra.
  assert (Hp2' : (p - eta <= x * (1 + eps))%Q) by lra.
  clear Hp1 Hp2 Hxu Hue.
  clear Hx Hc1' Hc2' Hw1' Hw2' Hvw Hvc.
  split.
  - assert (H1 : ((p - eta) * (W * (1 - eps)) <= x * (1 + eps) * (W * (1 - eps)))%Q).
    { apply Qmult_le_compat_r; lra. }
    assert (H2 : (x * (W * (1 - eps)) * (1 + eps) <= C * (1 + eps) * (1 + eps))%Q).
    { apply Qmult_le_compat_r; lra. }
    assert (H3 : (C * (1 + eps) * (1 + eps) <= C * (1 + 4 * eps) * (1 - eps))%Q).
    { assert (E5 : (5 * eps * eps <= eps)%Q) by nra.
      assert (C * (5 * eps * eps) <= C * eps)%Q by (apply Qmult_le_l; lra). nra. }
    assert (H4 : ((p - eta) * W * (1 - eps) <= C * (1 + 4 * eps) * (1 - eps))%Q) by lra.
    apply Qmult_le_r in H4; lra.
  - assert (H1 : (x * (1 - eps) * (W * (1 + eps)) <= (p + eta) * (W * (1 + eps)))%Q).
    { apply Qmult_le_compat_r; nra. }
    assert (H2 : (C * (1 - eps) * (1 - eps) <= x * (W * (1 + eps)) * (1 - eps))%Q).
    { apply Qmult_le_compat_r; lra. }
    assert (H3 : (C * (1 - 4 * eps) * (1 + eps) <= C * (1 - eps) * (1 - eps))%Q).
    { assert (E5 : (0 <= 5 * eps * eps)%Q) by nra.
      assert (0 <= C * (5 * eps * eps))%Q by (apply Qmult_le_0_compat; lra). nra. }
    assert (H4 : (C * (1 - 4 * eps) * (1 + eps) <= (p + eta) * W * (1 + eps))%Q) by lra.
    apply Qmult_le_r in H4; lra.
Qed.

Lemma rounding_constants :
  (0 <= pow2 (-53))%Q /\ (0 <= pow2 (-1075))%Q /\
  (pow2 (-53) + pow2 (-1075) <= pow2 (-52))%Q /\ (pow2 (-52) <= 1 # 8)%Q.
Proof.
  pose proof (pow2_pos (-53)) as H53. pose proof (pow2_pos (-1075)) as H1075.
  pose proof (pow2_le (-1075) (-53) ltac:(lia)) as Hle.
  pose proof (pow2_le (-52) (-3) ltac:(lia)) as H3.
  assert (E : (pow2 (-52) == 2 * pow2 (-53))%Q).
  { change (-52) with (1 + -53). rewrite pow2_add. reflexivity. }
  assert (E3 : (pow2 (-3) == 1 # 8)%Q) by reflexivity.
  split; [lra|]. split; [lra|]. split; lra.
Qed.

(** A float that rounds a number of at least 1 is positive. *)
Lemma rounds_to_positive (f : float) (x : Q) :
  (1 <= x)%Q -> rounds_to f x ->
  exists m e, f = S754_finite false m e.
Proof.
  intros Hx Hr. destruct rounding_constants as (Hu & Heta & Hsum & Heps).
  destruct f as [[]|[]| |[] m e]; try contradiction; [|eauto].
  exfalso. cbn [rounds_to float_value] in Hr. unfold rounding_error in Hr.
  destruct Hr as (H1 & _).
  assert (x * pow2 (-53) <= x * (1 # 8))%Q by nra.
  assert (pow2 (-1075) <= 1 # 8)%Q by lra. lra.
Qed.

(** The probability of an edge, for a count between 1 and the total: it is no
    NaN, and its value [p] satisfies
    [c * (1 - 4 eps) - eta * w <= p * w <= c * (1 + 4 eps) + eta * w] for
    [eps = 2^-52] and [eta = 2^-1075], [w] being the total. *)
Lemma truediv_correct (count total : Z) (weight p : float) :
  1 <= count <= total ->
  float_of_int total = Ok weight ->
  truediv count weight = Ok p ->
  is_nan p = false /\
  ((float_value p - pow2 (-1075)) * inject_Z total
   <= inject_Z count * (1 + 4 * pow2 (-52)))%Q /\
  (inject_Z count * (1 - 4 * pow2 (-52))
   <= (float_value p + pow2 (-1075)) * inject_Z total)%Q.
Proof.
  intros [Hc Hct] Hw Hp. unfold truediv in Hp.
  destruct (float_of_int count) as [fc|e] eqn:Efc; [|discriminate]. cbn [bind] in Hp.
  pose proof (float_of_int_correct count fc ltac:(lia) Efc) as Hrc.
  pose proof (float_of_int_correct total weight ltac:(lia) Hw) as Hrw.
  assert (HC : (1 <= inject_Z count)%Q)
    by (change 1%Q with (inject_Z 1); now rewrite <- Zle_Qle).
  assert (HW : (1 <= inject_Z total)%Q)
    by (change 1%Q with (inject_Z 1); rewrite <- Zle_Qle; lia).
  assert (HCW : (inject_Z count <= inject_Z total)%Q) by now rewrite <- Zle_Qle.
  destruct (rounds_to_positive _ _ HC Hrc) as (mc & ec & ->).
  destruct (rounds_to_positive _ _ HW Hrw) as (mw & ew & ->).
  remember (SFdiv prec emax (S754_finite false mc ec) (S754_finite false mw ew))
    as q eqn:Eq.
  cbn [float_is_zero] in Hp. injection Hp as <-.
  cbn [rounds_to float_value] in Hrc, Hrw. unfold rounding_error in Hrc, Hrw.
  destruct Hrc as (Hc1 & Hc2 & Hc0 & _). destruct Hrw as (Hw1 & Hw2 & Hw0 & _).
  destruct rounding_constants as (Hu & Heta & Hsum & Heps).
  set (vc := (inject_Z (Z.pos mc) * pow2 ec)%Q) in *.
  set (vw := (inject_Z (Z.pos mw) * pow2 ew)%Q) in *.
  assert (Hvw : (0 < vw)%Q).
  { unfold vw. apply Qmult_lt_0_compat; [reflexivity | apply pow2_pos]. }
  assert (Hx : (vc / vw * vw == vc)%Q) by (field; lra).
  destruct (quotient_error (inject_Z count) (inject_Z total) vc vw (vc / vw)
              (float_value q) (pow2 (-53)) (pow2 (-1075)) (pow2 (-52))
              HC HW Hu Heta Hsum Heps Hc1 Hc2 Hw1 Hw2 Hx) as [Hsmall Hq].
  specialize (Hsmall HCW).
  pose proof (SFdiv_correct mc mw ec ew) as Hdiv. cbv zeta in Hdiv.
  fold vc vw in Hdiv. rewrite <- Eq in Hdiv. destruct Hdiv as [[_ Hbig]|Hr].
  - exfalso.
    assert (H3 : (pow2 1 < pow2 1023)%Q) by (apply pow2_lt; lia).
    change (pow2 1) with 2%Q in H3. lra.
  - clear Eq. destruct q as [[]|[]| |[] m e]; try contradiction;
      (split; [reflexivity|]);
      cbn [rounds_to] in Hr; unfold rounding_error in Hr;
      destruct Hr as (Hr1 & Hr2 & _);
      apply Hq; assumption.
Qed.

(** ** No probability is a NaN *)

Lemma shr_1_nonneg (mrs : shr_record) : 0 <= shr_m mrs -> 0 <= shr_m (shr_1 mrs).
Proof.
  destruct mrs as [m r s]. cbn [shr_m]. intros Hm.
  destruct m as [|[p|p|]|p]; cbn [shr_1 shr_m]; lia.
Qed.

Lemma iter_pos_shr_1_nonneg (n : positive) (mrs : shr_record) :
  0 <= shr_m mrs -> 0 <= shr_m (iter_pos shr_1 n mrs).
Proof.
  revert mrs; induction n as [n IH|n IH|]; intros mrs Hm; cbn [iter_pos].
  - apply IH, IH, shr_1_nonneg, Hm.
  - apply IH, IH, Hm.
  - apply shr_1_nonneg, Hm.
Qed.

Lemma shr_fexp_nonneg (m e : Z) (l : location) :
  0 <= m -> 0 <= shr_m (fst (shr_fexp prec emax m e l)).
Proof.
  intros Hm. unfold shr_fexp, shr.
  assert (H0 : 0 <= shr_m (shr_record_of_loc m l))
    by (destruct (located_loc m l) as [-> _]; exact Hm).
  destruct (fexp prec emax (Zdigits2 m + e) - e); cbn [fst]; auto.
  now apply iter_pos_shr_1_nonneg.
Qed.

Lemma binary_round_aux_not_nan (sx : bool) (m e : Z) (l : location) :
  0 <= m -> is_nan (binary_round_aux prec emax sx m e l) = false.
Proof.
  intros Hm. unfold binary_round_aux.
  pose proof (shr_fexp_nonneg m e l Hm) as H1.
  destruct (shr_fexp prec emax m e l) as [mrs' e']. cbn [fst] in H1.
  assert (H2 : 0 <= round_nearest_even (shr_m mrs') (loc_of_shr_record mrs')).
  { destruct (loc_of_shr_record mrs') as [|[]]; cbn [round_nearest_even];
      try destruct (Z.even (shr_m mrs')); lia. }
  pose proof (shr_fexp_nonneg _ e' loc_Exact H2) as H3.
  destruct (shr_fexp prec emax _ e' loc_Exact) as [mrs'' e'']. cbn [fst] in H3.
  destruct (shr_m mrs'') as [|p|p]; [reflexivity| |lia].
  destruct (e'' <=? emax - prec); reflexivity.
Qed.

(** [float(z)] is a zero or a finite float. *)
Lemma float_of_int_finite (z : Z) (f : float) :
  float_of_int z = Ok f ->
  (exists s, f = S754_zero s) \/ (exists s m e, f = S754_finite s m e).
Proof.
  unfold float_of_int. intros Hf.
  assert (Hn : is_nan (binary_normalize prec emax z 0 false) = false).
  { destruct z as [|p|p]; [reflexivity| |]; cbn [binary_normalize];
      unfold binary_round;
      destruct (shl_align p 0 (fexp prec emax (Z.pos (digits2_pos p) + 0)));
      apply binary_round_aux_not_nan; lia. }
  destruct (binary_normalize prec emax z 0 false) as [s|s| |s m e];
    try discriminate; injection Hf as <-; eauto.
Qed.

Lemma SFdiv_not_nan (s1 s2 : bool) (m1 m2 : positive) (e1 e2 : Z) :
  is_nan (SFdiv prec emax (S754_finite s1 m1 e1) (S754_finite s2 m2 e2)) = false.
Proof.
  cbn [SFdiv].
  pose proof (SFdiv_core_binary_correct m1 m2 e1 e2) as H. cbv zeta in H.
  destruct (SFdiv_core_binary prec emax (Z.pos m1) e1 (Z.pos m2) e2) as [[q eq] loc].
  apply binary_round_aux_not_nan. apply H.
Qed.

(** The probability of an edge is never a NaN. *)
Lemma truediv_not_nan (count total : Z) (weight p : float) :
  float_of_int total = Ok weight -> truediv count weight = Ok p ->
  is_nan p = false.
Proof.
  intros Hw Hp. unfold truediv in Hp.
  destruct (float_of_int count) as [fc|e] eqn:Efc; [|discriminate]. cbn [bind] in Hp.
  destruct (float_is_zero weight) eqn:Ez; [discriminate|]. injection Hp as <-.
  destruct (float_of_int_finite _ _ Hw) as [[s ->]|(s & m & e & ->)]; [discriminate|].
  destruct (float_of_int_finite _ _ Efc) as [[s' ->]|(s' & m' & e' & ->)].
  - reflexivity.
  - apply SFdiv_not_nan.
Qed.

Lemma edges_no_nan (g : pystr) (total : Z) (weight : float) (d : counts)
  (es : list (node_ref * float)) :
  float_of_int total = Ok weight ->
  comprehension (edge_of g weight) d = Ok es -> no_nan es.
Proof.
  intros Hw. revert es; induction d as [|[letter count] d IH]; intros es Hes.
  - injection Hes as <-. constructor.
  - cbn [comprehension] in Hes. unfold edge_of at 1 in Hes. cbn [fst snd] in Hes.
    destruct (truediv count weight) as [p|e] eqn:Ep; [|discriminate].
    cbn [bind] in Hes.
    destruct (comprehension (edge_of g weight) d) as [es'|e]; [|discriminate].
    injection Hes as <-. constructor; [|now apply IH].
    cbn [snd]. eapply truediv_not_nan; eauto.
Qed.

(** ** The sum of the probabilities of a node *)

Definition Qsum (l : list Q) : Q := fold_right Qplus 0%Q l.

(** The exact sum of the probabilities of an edge list. *)
Definition probability_sum (states : list (node_ref * float)) : Q :=
  Qsum (map (fun state => float_value (snd state)) states).

Lemma probability_sum_perm (l l' : list (node_ref * float)) :
  Permutation l l' -> (probability_sum l == probability_sum l')%Q.
Proof.
  unfold probability_sum.
  induction 1 as [|x l l' Hp IH|x y l|l l' l'' H1 IH1 H2 IH2]; cbn [map Qsum fold_right].
  - reflexivity.
  - fold (Qsum (map (fun s => float_value (snd s)) l)).
    fold (Qsum (map (fun s => float_value (snd s)) l')). now rewrite IH.
  - ring.
  - now rewrite IH1.
Qed.

Lemma edges_sum (g : pystr) (total : Z) (weight : float) (d : counts)
  (es : list (node_ref * float)) :
  float_of_int total = Ok weight ->
  comprehension (edge_of g weight) d = Ok es ->
  Forall (fun item => 1 <= snd item <= total) d ->
  ((probability_sum es - inject_Z (len d) * pow2 (-1075)) * inject_Z total
   <= inject_Z (sum_counts d) * (1 + 4 * pow2 (-52)))%Q /\
  (inject_Z (sum_counts d) * (1 - 4 * pow2 (-52))
   <= (probability_sum es + inject_Z (len d) * pow2 (-1075)) * inject_Z total)%Q.
Proof.
  intros Hw. revert es; induction d as [|[letter count] d IH]; intros es Hes Hd.
  - injection Hes as <-. change (probability_sum []) with 0%Q.
    change (inject_Z (len (@nil (pystr * Z)))) with 0%Q.
    change (inject_Z (sum_counts [])) with 0%Q. split; nra.
  - cbn [comprehension] in Hes. unfold edge_of at 1 in Hes. cbn [fst snd] in Hes.
    destruct (truediv count weight) as [p|e] eqn:Ep; [|discriminate].
    cbn [bind] in Hes.
    destruct (comprehension (edge_of g weight) d) as [es'|e]; [|discriminate].
    injection Hes as <-.
    apply Forall_cons_iff in Hd. destruct Hd as [Hc Hd]. cbn [snd] in Hc.
    destruct (IH es' eq_refl Hd) as [IH1 IH2].
    destruct (truediv_correct count total weight p Hc Hw Ep) as (_ & Hp1 & Hp2).
    assert (El : (inject_Z (len ((letter, count) :: d)) == inject_Z (len d) + 1)%Q).
    { unfold len. cbn [length]. rewrite Nat2Z.inj_succ, <- Z.add_1_r, inject_Z_plus.
      reflexivity. }
    assert (Es : (inject_Z (sum_counts ((letter, count) :: d))
                  == inject_Z count + inject_Z (sum_counts d))%Q).
    { unfold sum_counts. cbn [values map snd fold_right]. now rewrite inject_Z_plus. }
    assert (Ep' : (probability_sum ((py_slice_from g 1 ++ letter, p) :: es')
                   == float_value p + probability_sum es')%Q) by reflexivity.
    rewrite El, Es, Ep'. split; nra.
Qed.

Lemma counts_le_sum (d : counts) :
  Forall (fun item => 1 <= snd item) d ->
  len d <= sum_counts d /\ Forall (fun item => 1 <= snd item <= sum_counts d) d.
Proof.
  induction d as [|[l c] d IH]; intros Hd; [split; [reflexivity|constructor]|].
  apply Forall_cons_iff in Hd. destruct Hd as [Hc Hd]. cbn [snd] in Hc.
  destruct (IH Hd) as [IH1 IH2].
  unfold sum_counts, values, len in *. cbn [map snd fold_right length].
  split; [lia|].
  constructor; [cbn [snd]; lia|].
  eapply Forall_impl; [|exact IH2]. cbn beta. intros item. lia.
Qed.

(** The tolerance of the sum: [2^-49], below [10^-9]. *)
Lemma sum_tolerance_small : (pow2 (-49) <= 1 # 1000000000)%Q.
Proof. vm_compute. discriminate. Qed.

(** The probabilities of the edges made for a non-empty dictionary of
    positive counts sum to 1 within [2^-49]. *)
Lemma edges_sum_one (g : pystr) (weight : float) (d : counts)
  (es : list (node_ref * float)) :
  d <> [] -> Forall (fun item => 1 <= snd item) d ->
  float_of_int (sum_counts d) = Ok weight ->
  comprehension (edge_of g weight) d = Ok es ->
  (Qabs (probability_sum es - 1) <= pow2 (-49))%Q.
Proof.
  intros Hne Hd Hw Hes.
  destruct (counts_le_sum d Hd) as [Hlen Hle].
  destruct (edges_sum g (sum_counts d) weight d es Hw Hes Hle) as [H1 H2].
  assert (Hlen1 : 1 <= len d).
  { destruct d; [contradiction|]. unfold len. cbn [length]. lia. }
  set (T := inject_Z (sum_counts d)) in *. set (N := inject_Z (len d)) in *.
  set (S := probability_sum es) in *.
  assert (HT : (1 <= T)%Q).
  { unfold T. change 1%Q with (inject_Z 1). rewrite <- Zle_Qle. lia. }
  assert (HN : (0 <= N)%Q /\ (N <= T)%Q).
  { unfold N, T. change 0%Q with (inject_Z 0). rewrite <- !Zle_Qle. lia. }
  destruct rounding_constants as (Hu & Heta & Hsum & Heps).
  (* the total is below 2^1025 *)
  assert (Hpos : 0 < sum_counts d) by lia.
  pose proof (float_of_int_correct _ _ Hpos Hw) as Hrw.
  destruct (rounds_to_positive _ _ HT Hrw) as (mw & ew & ->).
  cbn [rounds_to float_value] in Hrw. unfold rounding_error in Hrw. fold T in Hrw.
  destruct Hrw as (Hw1 & _ & _ & Hw3).
  set (vw := (inject_Z (Z.pos mw) * pow2 ew)%Q) in *.
  assert (HT1025 : (T * pow2 (-1075) <= pow2 (-50))%Q).
  { assert (Hta : (T * pow2 (-53) <= T * (1 # 8))%Q) by nra.
    assert (Htb : (T <= 2 * pow2 1024)%Q) by lra.
    assert (E : (2 * pow2 1024 * pow2 (-1075) == pow2 (-50))%Q).
    { change 2%Q with (pow2 1). rewrite <- !pow2_add. reflexivity. }
    rewrite <- E. apply Qmult_le_compat_r; lra. }
  assert (HNeta : (N * pow2 (-1075) <= pow2 (-50))%Q).
  { eapply Qle_trans; [|exact HT1025]. apply Qmult_le_compat_r; lra. }
  assert (E50 : (4 * pow2 (-52) == pow2 (-50))%Q).
  { change 4%Q with (pow2 2). rewrite <- pow2_add. reflexivity. }
  assert (E49 : (pow2 (-49) == 2 * pow2 (-50))%Q).
  { change 2%Q with (pow2 1). rewrite <- pow2_add. reflexivity. }
  assert (Hup : (S - N * pow2 (-1075) <= 1 + 4 * pow2 (-52))%Q).
  { assert (H : ((S - N * pow2 (-1075)) * T <= (1 + 4 * pow2 (-52)) * T)%Q) by lra.
    apply Qmult_le_r in H; lra. }
  assert (Hlo : (1 - 4 * pow2 (-52) <= S + N * pow2 (-1075))%Q).
  { assert (H : ((1 - 4 * pow2 (-52)) * T <= (S + N * pow2 (-1075)) * T)%Q) by lra.
    apply Qmult_le_r in H; lra. }
  apply Qabs_Qle_condition. split; lra.
Qed.

(** ** The invariant of a node *)

(** The successor counts of one n-gram in a count table: at least one
    successor, and every count at least 1. *)
Definition positive_counts (d : counts) : bool :=
  negb (len d =? 0) && forallb (fun item => 1 <=? snd item) d.

(** A count table of the data model: a dictionary (its keys are distinct)
    whose n-grams all have positive counts. *)
Definition count_table (t : table) : bool :=
  distinct (keys t) && forallb (fun entry => positive_counts (snd entry)) t.

Lemma NoDup_distinct {K : Type} `{EqbLaws K} (l : list K) :
  NoDup l -> distinct l = true.
Proof.
  induction 1 as [|x l Hx Hl IH]; cbn; [reflexivity|].
  rewrite IH, andb_true_r. apply negb_true_iff.
  destruct (existsb (eqb x) l) eqn:E; [|reflexivity].
  apply existsb_exists in E. destruct E as (y & Hy & Exy).
  apply eqb_eq in Exy. subst y. contradiction.
Qed.

Lemma positive_counts_spec (d : counts) :
  positive_counts d = true <->
  d <> [] /\ Forall (fun item => 1 <= snd item) d.
Proof.
  unfold positive_counts. rewrite andb_true_iff, negb_true_iff, Z.eqb_neq.
  rewrite forallb_forall, Forall_forall. split; intros [Hn Hp]; split.
  - intros ->. apply Hn. reflexivity.
  - intros item Hi. apply Z.leb_le. auto.
  - destruct d; [congruence|]. unfold len. cbn [length]. lia.
  - intros item Hi. apply Z.leb_le. auto.
Qed.

Lemma count_table_spec (t : table) :
  count_table t = true ->
  NoDup (keys t) /\
  forall g d, In (g, d) t -> d <> [] /\ Forall (fun item => 1 <= snd item) d.
Proof.
  unfold count_table. rewrite andb_true_iff, forallb_forall. intros [Hd Hp].
  split; [now apply distinct_NoDup|].
  intros g d Hi. apply positive_counts_spec. exact (Hp (g, d) Hi).
Qed.

Lemma dict_set_nonempty {K V : Type} `{Eqb K} (k : K) (v : V) (d : dict K V) :
  dict_set k v d <> [].
Proof.
  destruct d as [|[k' v'] d]; cbn; [discriminate|].
  destruct (eqb k k'); discriminate.
Qed.

(** Recording an observation keeps the counts of every n-gram positive. *)
Lemma positive_counts_record (t : table) (g c : pystr) :
  (forall g' d', dict_get g' t = Some d' -> positive_counts d' = true) ->
  forall g' d', dict_get g' (record_observation t g c) = Some d' ->
                positive_counts d' = true.
Proof.
  intros Ht g' d' Hg'.
  destruct (record_observation_unfold t g c)
    as (t1 & d & Hget & _ & _ & Hd & _ & _ & E).
  rewrite E in Hg'. clear E.
  destruct (eqb_spec g g') as [<-|Hn].
  - rewrite dict_get_set_same in Hg'. injection Hg' as <-.
    apply positive_counts_spec. split; [apply dict_set_nonempty|].
    assert (Hpos : Forall (fun item => 1 <= snd item) d).
    { destruct Hd as [[_ ->]|Hd]; [constructor|].
      apply positive_counts_spec. exact (Ht g d Hd). }
    apply Forall_forall. intros [c' m'] Hi.
    apply In_dict_set in Hi. destruct Hi as [[_ ->]|Hi].
    + cbn [snd]. destruct (dict_get c d) as [m|] eqn:Ec; [|lia].
      apply dict_get_In in Ec. rewrite Forall_forall in Hpos.
      specialize (Hpos _ Ec). cbn [snd] in Hpos. lia.
    + rewrite Forall_forall in Hpos. exact (Hpos _ Hi).
  - rewrite dict_get_set_other in Hg' by exact Hn.
    rewrite Hget in Hg'. rewrite (eqb_neq _ _ Hn) in Hg'. eauto.
Qed.

Lemma positive_counts_fold (obs : list (pystr * pystr)) (t : table) :
  (forall g d, dict_get g t = Some d -> positive_counts d = true) ->
  forall g d, dict_get g (fold_left record_pair obs t) = Some d ->
              positive_counts d = true.
Proof.
  revert t. induction obs as [|[g0 c0] obs IH]; intros t Ht; [exact Ht|].
  cbn [fold_left]. apply IH. unfold record_pair. cbn [fst snd].
  now apply positive_counts_record.
Qed.

Lemma NoDup_In_dict_get {K V : Type} `{EqbLaws K} (k : K) (v : V) (d : dict K V) :
  NoDup (keys d) -> In (k, v) d -> dict_get k d = Some v.
Proof.
  induction d as [|[k' v'] d IH]; cbn; intros Hnd Hi; [contradiction|].
  apply NoDup_cons_iff in Hnd. destruct Hnd as [Hk' Hnd].
  destruct Hi as [E|Hi].
  - injection E as -> ->. now rewrite eqb_refl.
  - destruct (eqb_spec k k') as [->|Hn]; [|auto].
    exfalso. apply Hk'. apply (in_map fst) in Hi. exact Hi.
Qed.

(** The tables that [compute_ngram_counts] returns are count tables. *)
Lemma compute_ngram_counts_count_table (text : pystr) (k : Z) (t : table) :
  0 <= k -> compute_ngram_counts text k = Ok t -> count_table t = true.
Proof.
  intros Hk Ht. pose proof (compute_ngram_counts_NoDup _ _ _ Hk Ht) as Hnd.
  pose proof (compute_ngram_counts_Ok_len _ _ _ Ht) as Hl.
  rewrite compute_ngram_counts_fold in Ht by lia. injection Ht as Ht.
  unfold count_table. apply andb_true_iff. split; [now apply NoDup_distinct|].
  apply forallb_forall. intros [g d] Hi. cbn [snd].
  apply (NoDup_In_dict_get _ _ _ Hnd) in Hi. rewrite <- Ht in Hi.
  revert Hi. apply positive_counts_fold. intros g' d' E. discriminate E.
Qed.

(** The table of the text [acabadab] for n-grams of one character, its chain
    and the node of [a] in it. *)
Definition example_table : table :=
  [([97], [([99], 1); ([98], 2); ([100], 1)]);
   ([99], [([97], 1)]);
   ([98], [([97], 2)]);
   ([100], [([97], 1)])].

Definition example_chain : chain :=
  Eval vm_compute in
    match build_markov_chain example_table with Ok ch => ch | Raise _ => [] end.

Definition example_node : MarkovChainNode :=
  Eval vm_compute in
    match dict_get [97] example_chain with
    | Some nd => nd
    | None => empty_node []
    end.

(** C6.  In every chain that [build_markov_chain] returns for a count table
    (distinct n-grams, each with at least one successor and counts of at
    least 1), every node [nd], stored under the n-gram [g], satisfies the
    invariant: its edges are those made from the successor counts [d] of
    [g], each with the probability [count / float(total)] for the total of
    the counts of [d]; the edge list is a permutation of them in which no
    probability is a NaN and no edge has a lower probability than a later
    one (descending order); the edges of one probability keep the order in
    which they were made from [d]; and the exact sum of the stored
    probabilities is within [2^-49], hence within [10^-9], of 1. *)
Theorem build_markov_chain_node_invariant (t : table) (ch : chain) :
  count_table t = true ->
  build_markov_chain t = Ok ch ->
  forall (g : pystr) (nd : MarkovChainNode),
    dict_get g ch = Some nd ->
    exists (d : counts) (w : float) (es : list (node_ref * float)),
      dict_get g t = Some d /\
      float_of_int (sum_counts d) = Ok w /\
      comprehension (edge_of g w) d = Ok es /\
      Permutation (next_states nd) es /\
      no_nan (next_states nd) /\
      StronglySorted not_below (next_states nd) /\
      (forall p, is_nan p = false ->
         filter (same_probability p) (next_states nd)
         = filter (same_probability p) es) /\
      (Qabs (probability_sum (next_states nd) - 1) <= pow2 (-49))%Q /\
      (Qabs (probability_sum (next_states nd) - 1) <= 1 # 1000000000)%Q.
Proof.
  intros Ht Hb g nd Hg.
  destruct (count_table_spec t Ht) as [Hnd Hpos].
  destruct (build_markov_chain_nodes t ch Hnd Hb) as [Hkeys Hnodes].
  assert (Hi : In g (keys t)).
  { apply Hkeys. apply dict_get_Some_keys. eauto. }
  apply dict_get_Some_keys in Hi. destruct Hi as [d Hd].
  pose proof (dict_get_In _ _ _ Hd) as Hin.
  destruct (Hnodes g d Hin) as (w & es & Hw & Hes & Hnode & _).
  rewrite Hnode in Hg. injection Hg as <-.
  destruct (Hpos g d Hin) as [Hne Hcounts].
  pose proof (edges_no_nan g _ w d es Hw Hes) as Hnan.
  destruct (insert_edges_sorted es (empty_node g) Hnan)
    as (Hperm & Hsorted & Hstable);
    [constructor | constructor |].
  cbn [empty_node next_states app] in Hperm, Hstable.
  assert (Hsum : (Qabs (probability_sum
                          (next_states (insert_edges es (empty_node g))) - 1)
                  <= pow2 (-49))%Q).
  { rewrite (probability_sum_perm _ _ Hperm).
    exact (edges_sum_one g w d es Hne Hcounts Hw Hes). }
  exists d, w, es. repeat split; auto.
  - unfold no_nan. eapply Permutation_Forall; [|exact Hnan].
    symmetry. exact Hperm.
  - eapply Qle_trans; [exact Hsum | exact sum_tolerance_small].
Qed.

Lemma build_markov_chain_node_invariant_witness :
  exists (d : counts) (w : float) (es : list (node_ref * float)),
    dict_get [97] example_table = Some d /\
    float_of_int (sum_counts d) = Ok w /\
    comprehension (edge_of [97] w) d = Ok es /\
    Permutation (next_states example_node) es /\
    no_nan (next_states example_node) /\
    StronglySorted not_below (next_states example_node) /\
    (forall p, is_nan p = false ->
       filter (same_probability p) (next_states example_node)
       = filter (same_probability p) es) /\
    (Qabs (probability_sum (next_states example_node) - 1) <= pow2 (-49))%Q /\
    (Qabs (probability_sum (next_states example_node) - 1) <= 1 # 1000000000)%Q.
Proof.
  apply (build_markov_chain_node_invariant example_table example_chain);
    vm_compute; reflexivity.
Defined.

(** * Further properties of the code *)

(** ** [write_text_to_file] *)

(** The characters that UTF-8 has a code for: the code points that are not
    surrogates. *)
Definition utf8_encodable (c : Z) : bool :=
  valid_char c && negb ((55296 <=? c) && (c <=? 57343)).

(** The number of whitespace characters of a text. *)
Definition count_whitespace (letters : pystr) : Z :=
  len (filter in_whitespace letters).

(** The characters that the loop of lines 201-206 gives to [file.write] for
    [letters] when [words] whitespace characters came before. *)
Fixpoint break_lines (words_per_line words : Z) (letters : pystr) : pystr :=
  match letters with
  | [] => []
  | letter :: rest =>
      if in_whitespace letter then
        (if (words + 1) mod words_per_line =? 0 then 10 else letter)
        :: break_lines words_per_line (words + 1) rest
      else letter :: break_lines words_per_line words rest
  end.

(** The characters of a text before the first one that the encoding lacks. *)
Fixpoint encodable_prefix (encodable : Z -> bool) (letters : pystr) : pystr :=
  match letters with
  | [] => []
  | letter :: rest =>
      if encodable letter then letter :: encodable_prefix encodable rest else []
  end.

Lemma encodable_prefix_all (encodable : Z -> bool) (letters : pystr) :
  forallb encodable letters = true -> encodable_prefix encodable letters = letters.
Proof.
  induction letters as [|c r IH]; cbn [forallb encodable_prefix]; [reflexivity|].
  intros H. apply andb_true_iff in H. destruct H as [-> Hr]. now rewrite IH.
Qed.

Lemma encodable_prefix_app (encodable : Z -> bool) (letters : pystr) :
  exists more, letters = encodable_prefix encodable letters ++ more.
Proof.
  induction letters as [|c r [more IH]]; cbn [encodable_prefix]; [now exists []|].
  destruct (encodable c); [|now exists (c :: r)].
  exists more. cbn [app]. now rewrite <- IH.
Qed.

(** With a number of words per line other than 0 the loop writes the
    characters of [break_lines] up to the first one that the encoding
    lacks. *)
Lemma write_letters_break_lines (encodable : Z -> bool) (words_per_line : Z)
  (letters : pystr) (words : Z) (file : pystr) :
  words_per_line <> 0 ->
  write_letters encodable words_per_line letters words file
  = (file ++ encodable_prefix encodable (break_lines words_per_line words letters),
     if forallb encodable (break_lines words_per_line words letters)
     then Ok tt else Raise UnicodeEncodeError).
Proof.
  intros Hw. revert words file.
  induction letters as [|c r IH]; intros words file;
    cbn [write_letters break_lines encodable_prefix forallb].
  - now rewrite app_nil_r.
  - replace (words_per_line =? 0) with false by (symmetry; now apply Z.eqb_neq).
    unfold file_write.
    destruct (in_whitespace c); cbn [encodable_prefix forallb];
      match goal with
      | |- context [encodable ?x] =>
          destruct (encodable x); cbn [andb];
          [rewrite IH, <- app_assoc; reflexivity | now rewrite app_nil_r]
      end.
Qed.

Lemma length_break_lines (words_per_line words : Z) (letters : pystr) :
  length (break_lines words_per_line words letters) = length letters.
Proof.
  revert words. induction letters as [|c r IH]; intros words;
    cbn [break_lines length]; [reflexivity|].
  destruct (in_whitespace c); cbn [length]; now rewrite IH.
Qed.

Lemma count_whitespace_cons (c : Z) (r : pystr) :
  count_whitespace (c :: r)
  = (if in_whitespace c then 1 else 0) + count_whitespace r.
Proof.
  unfold count_whitespace, len. cbn [filter].
  destruct (in_whitespace c); cbn [length]; lia.
Qed.

Lemma count_whitespace_nonneg (letters : pystr) : 0 <= count_whitespace letters.
Proof. apply len_nonneg. Qed.

Lemma nth_break_lines (words_per_line words : Z) (letters : pystr) (i : nat) :
  (i < length letters)%nat ->
  nth i (break_lines words_per_line words letters) 0
  = if in_whitespace (nth i letters 0)
       && ((words + count_whitespace (firstn (S i) letters)) mod words_per_line =? 0)
    then 10 else nth i letters 0.
Proof.
  revert words i. induction letters as [|c r IH]; intros words i Hi;
    [cbn in Hi; lia|].
  cbn [break_lines]. destruct i as [|i].
  - cbn [firstn nth]. rewrite count_whitespace_cons.
    change (count_whitespace []) with 0.
    destruct (in_whitespace c) eqn:Ec; cbn [nth andb]; [|reflexivity].
    now rewrite Z.add_0_r.
  - cbn [length] in Hi. change (firstn (S (S i)) (c :: r)) with (c :: firstn (S i) r).
    rewrite count_whitespace_cons.
    destruct (in_whitespace c) eqn:Ec; cbn [nth]; rewrite IH by lia.
    + now rewrite Z.add_assoc.
    + now rewrite Z.add_0_l.
Qed.

(** The characters given to [file.write] are characters of the text or
    newlines. *)
Lemma break_lines_encodable (encodable : Z -> bool) (words_per_line words : Z)
  (letters : pystr) :
  forallb encodable letters = true -> encodable 10 = true ->
  forallb encodable (break_lines words_per_line words letters) = true.
Proof.
  intros Hl Hn. revert words.
  induction letters as [|c r IH]; intros words; cbn [break_lines forallb];
    [reflexivity|].
  cbn [forallb] in Hl. apply andb_true_iff in Hl. destruct Hl as [Hc Hr].
  destruct (in_whitespace c); cbn [forallb]; rewrite (IH Hr), andb_true_r;
    [destruct (_ =? 0)|]; assumption.
Qed.

(** X1.  With a number of words per line other than 0, and a text whose
    characters the encoding of the file has, the newline too,
    [write_text_to_file] does not raise and writes as many characters as the
    text has: at each position the character of the text, except that a
    whitespace character (of [string.whitespace]) becomes a newline when the
    number of whitespace characters up to and including it is a multiple of
    [words_per_line]. *)
Theorem write_text_to_file_characters (encodable : Z -> bool) (letters : pystr)
  (words_per_line : Z) :
  words_per_line <> 0 ->
  forallb encodable letters = true -> encodable 10 = true ->
  exists file,
    write_text_to_file encodable letters words_per_line = (file, Ok tt) /\
    len file = len letters /\
    forall i, (i < length letters)%nat ->
      nth i file 0
      = if in_whitespace (nth i letters 0)
           && (count_whitespace (firstn (S i) letters) mod words_per_line =? 0)
        then 10 else nth i letters 0.
Proof.
  intros Hw Hl Hn. unfold write_text_to_file.
  rewrite write_letters_break_lines by assumption. cbn [app].
  pose proof (break_lines_encodable encodable words_per_line 0 letters Hl Hn) as He.
  rewrite He, (encodable_prefix_all _ _ He).
  eexists. split; [reflexivity|]. split.
  - unfold len. now rewrite length_break_lines.
  - intros i Hi. rewrite nth_break_lines by assumption. reflexivity.
Qed.

Lemma write_text_to_file_characters_witness :
  exists file,
    write_text_to_file utf8_encodable [97; 32; 98; 9; 233; 32; 100] 2
    = (file, Ok tt) /\
    len file = len [97; 32; 98; 9; 233; 32; 100] /\
    forall i, (i < length [97; 32; 98; 9; 233; 32; 100])%nat ->
      nth i file 0
      = if in_whitespace (nth i [97; 32; 98; 9; 233; 32; 100] 0)
           && (count_whitespace (firstn (S i) [97; 32; 98; 9; 233; 32; 100]) mod 2 =? 0)
        then 10 else nth i [97; 32; 98; 9; 233; 32; 100] 0.
Proof.
  apply (write_text_to_file_characters utf8_encodable [97; 32; 98; 9; 233; 32; 100] 2).
  - lia.
  - reflexivity.
  - reflexivity.
Defined.

(** The characters before the first whitespace character, and whether there
    is one. *)
Fixpoint first_word (letters : pystr) : pystr * bool :=
  match letters with
  | [] => ([], false)
  | letter :: rest =>
      if in_whitespace letter then ([], true)
      else let '(w, more) := first_word rest in (letter :: w, more)
  end.

(** With 0 words per line the loop writes the first word, up to the first
    character that the encoding lacks, and stops at the first whitespace
    character. *)
Lemma write_letters_zero (encodable : Z -> bool) (letters : pystr) (words : Z)
  (file : pystr) :
  write_letters encodable 0 letters words file
  = (file ++ encodable_prefix encodable (fst (first_word letters)),
     if forallb encodable (fst (first_word letters))
     then if snd (first_word letters) then Raise ZeroDivisionError else Ok tt
     else Raise UnicodeEncodeError).
Proof.
  revert words file. induction letters as [|c r IH]; intros words file;
    cbn [write_letters first_word].
  - cbn. now rewrite app_nil_r.
  - destruct (in_whitespace c); cbn [Z.eqb fst snd encodable_prefix forallb].
    + now rewrite app_nil_r.
    + unfold file_write. destruct (encodable c) eqn:Ec.
      * rewrite IH. destruct (first_word r) as [w more].
        cbn [fst snd encodable_prefix forallb]. rewrite Ec. cbn [andb].
        now rewrite <- app_assoc.
      * destruct (first_word r) as [w more].
        cbn [fst snd encodable_prefix forallb]. rewrite Ec. cbn [andb].
        now rewrite app_nil_r.
Qed.

Lemma first_word_whitespace (letters : pystr) :
  snd (first_word letters) = existsb in_whitespace letters.
Proof.
  induction letters as [|c r IH]; cbn [first_word existsb snd]; [reflexivity|].
  destruct (in_whitespace c); cbn [snd orb]; [reflexivity|].
  destruct (first_word r); exact IH.
Qed.

Lemma first_word_no_whitespace (letters : pystr) :
  existsb in_whitespace letters = false -> first_word letters = (letters, false).
Proof.
  induction letters as [|c r IH]; cbn [first_word existsb]; [reflexivity|].
  intros H. apply orb_false_iff in H. destruct H as [-> Hr]. now rewrite IH.
Qed.

Lemma first_word_incl (letters : pystr) : incl (fst (first_word letters)) letters.
Proof.
  induction letters as [|c r IH]; cbn [first_word]; [apply incl_refl|].
  destruct (in_whitespace c); cbn [fst]; [intros x []|].
  destruct (first_word r) as [w more]. cbn [fst] in *.
  intros x [<-|Hx]; [now left | right; now apply IH].
Qed.

Lemma break_lines_no_whitespace (words_per_line words : Z) (letters : pystr) :
  existsb in_whitespace letters = false ->
  break_lines words_per_line words letters = letters.
Proof.
  induction letters as [|c r IH]; cbn [break_lines existsb]; [reflexivity|].
  intros H. apply orb_false_iff in H. destruct H as [-> Hr]. now rewrite IH.
Qed.

Lemma forallb_incl_encodable (encodable : Z -> bool) (l l' : pystr) :
  incl l l' -> forallb encodable l' = true -> forallb encodable l = true.
Proof.
  intros Hi Hl. apply forallb_forall. intros x Hx.
  exact (proj1 (forallb_forall _ _) Hl x (Hi x Hx)).
Qed.

(** X2.  [write_text_to_file] raises [ZeroDivisionError] exactly when
    [words_per_line] is 0, the text has a whitespace character and the
    encoding of the file has the characters before the first one; the file
    is then left with those characters.  The only other exception is
    [UnicodeEncodeError], and it needs a character of the text, or the
    newline, that the encoding lacks: when it has them all, the function
    raises exactly when [words_per_line] is 0 and the text has a whitespace
    character.  A text without whitespace whose characters the encoding has
    is written unchanged, whatever [words_per_line] is. *)
Theorem write_text_to_file_zero_division (encodable : Z -> bool) (letters : pystr)
  (words_per_line : Z) :
  (snd (write_text_to_file encodable letters words_per_line) = Raise ZeroDivisionError
   <-> words_per_line = 0 /\ existsb in_whitespace letters = true /\
       forallb encodable (fst (first_word letters)) = true) /\
  (snd (write_text_to_file encodable letters words_per_line) = Raise ZeroDivisionError ->
   fst (write_text_to_file encodable letters words_per_line) = fst (first_word letters)) /\
  (forall e, snd (write_text_to_file encodable letters words_per_line) = Raise e ->
     e = ZeroDivisionError \/
     e = UnicodeEncodeError /\ forallb encodable (10 :: letters) = false) /\
  (forallb encodable (10 :: letters) = true ->
   (is_ok (snd (write_text_to_file encodable letters words_per_line)) = false
    <-> words_per_line = 0 /\ existsb in_whitespace letters = true)) /\
  (existsb in_whitespace letters = false -> forallb encodable letters = true ->
   write_text_to_file encodable letters words_per_line = (letters, Ok tt)).
Proof.
  unfold write_text_to_file.
  assert (Hzero : write_letters encodable 0 letters 0 []
                  = (encodable_prefix encodable (fst (first_word letters)),
                     if forallb encodable (fst (first_word letters))
                     then if existsb in_whitespace letters
                          then Raise ZeroDivisionError else Ok tt
                     else Raise UnicodeEncodeError)).
  { now rewrite write_letters_zero, first_word_whitespace. }
  assert (Hfirst : forallb encodable letters = true ->
                   forallb encodable (fst (first_word letters)) = true).
  { apply forallb_incl_encodable, first_word_incl. }
  split; [|split; [|split; [|split]]].
  - destruct (Z.eq_dec words_per_line 0) as [->|Hw].
    + rewrite Hzero. cbn [snd].
      destruct (forallb encodable (fst (first_word letters)));
        destruct (existsb in_whitespace letters); intuition congruence.
    + rewrite write_letters_break_lines by assumption. cbn [snd].
      split;
        [destruct (forallb encodable (break_lines words_per_line 0 letters));
         discriminate|].
      intros [H _]. contradiction.
  - destruct (Z.eq_dec words_per_line 0) as [->|Hw].
    + rewrite Hzero. cbn [fst snd].
      destruct (forallb encodable (fst (first_word letters))) eqn:Ef;
        [|discriminate].
      intros _. now apply encodable_prefix_all.
    + rewrite write_letters_break_lines by assumption. cbn [snd].
      destruct (forallb encodable (break_lines words_per_line 0 letters));
        discriminate.
  - intros e. cbn [forallb].
    destruct (Z.eq_dec words_per_line 0) as [->|Hw].
    + rewrite Hzero. cbn [snd].
      destruct (forallb encodable (fst (first_word letters))) eqn:Ef.
      * destruct (existsb in_whitespace letters); [|discriminate].
        intros E. injection E as <-. now left.
      * intros E. injection E as <-. right. split; [reflexivity|].
        destruct (forallb encodable letters) eqn:El;
          [discriminate (Hfirst eq_refl) | apply andb_false_r].
    + rewrite write_letters_break_lines by assumption. cbn [snd].
      destruct (forallb encodable (break_lines words_per_line 0 letters)) eqn:Eb;
        [discriminate|].
      intros E. injection E as <-. right. split; [reflexivity|].
      destruct (encodable 10) eqn:En; [|reflexivity].
      destruct (forallb encodable letters) eqn:El; [|reflexivity].
      rewrite (break_lines_encodable encodable words_per_line 0 letters El En) in Eb.
      discriminate.
  - cbn [forallb]. intros H. apply andb_true_iff in H. destruct H as [Hn Hl].
    destruct (Z.eq_dec words_per_line 0) as [->|Hw].
    + rewrite Hzero, (Hfirst Hl). cbn [snd].
      destruct (existsb in_whitespace letters); cbn [is_ok]; intuition congruence.
    + rewrite write_letters_break_lines by assumption.
      rewrite (break_lines_encodable encodable words_per_line 0 letters Hl Hn).
      cbn [snd is_ok]. split; [discriminate|]. intros [H _]. contradiction.
  - intros Hs Hl. destruct (Z.eq_dec words_per_line 0) as [->|Hw].
    + rewrite Hzero, Hs, (first_word_no_whitespace _ Hs). cbn [fst].
      now rewrite Hl, encodable_prefix_all.
    + rewrite write_letters_break_lines by assumption.
      rewrite (break_lines_no_whitespace _ _ _ Hs), Hl.
      now rewrite encodable_prefix_all.
Qed.

Lemma write_text_to_file_zero_division_witness :
  (snd (write_text_to_file utf8_encodable [97; 98; 32; 99; 100] 0)
   = Raise ZeroDivisionError /\
   fst (write_text_to_file utf8_encodable [97; 98; 32; 99; 100] 0) = [97; 98]) /\
  (is_ok (snd (write_text_to_file utf8_encodable [97; 98; 32; 99; 100] 0)) = false
   <-> 0 = 0 /\ existsb in_whitespace [97; 98; 32; 99; 100] = true) /\
  write_text_to_file utf8_encodable [97; 98; 99] 0 = ([97; 98; 99], Ok tt).
Proof.
  pose proof (write_text_to_file_zero_division utf8_encodable [97; 98; 32; 99; 100] 0)
    as (Hiff & Hfile & _ & Hall & _).
  assert (Hraise : snd (write_text_to_file utf8_encodable [97; 98; 32; 99; 100] 0)
                   = Raise ZeroDivisionError).
  { apply Hiff. repeat split; reflexivity. }
  split; [split; [exact Hraise | exact (Hfile Hraise)]|].
  split; [apply Hall; reflexivity|].
  apply (proj2 (proj2 (proj2 (proj2
           (write_text_to_file_zero_division utf8_encodable [97; 98; 99] 0)))));
    reflexivity.
Defined.

(** X3.  Writing is idempotent on the text of the file: the text that
    [write_text_to_file] writes is written unchanged by a second call with
    the same [words_per_line], to a file of the same encoding. *)
Theorem write_text_to_file_idempotent (encodable : Z -> bool) (letters file : pystr)
  (words_per_line : Z) :
  write_text_to_file encodable letters words_per_line = (file, Ok tt) ->
  write_text_to_file encodable file words_per_line = (file, Ok tt).
Proof.
  unfold write_text_to_file. destruct (Z.eq_dec words_per_line 0) as [->|Hw].
  - rewrite !write_letters_zero, !first_word_whitespace. cbn [app].
    destruct (forallb encodable (fst (first_word letters))) eqn:Ef; [|discriminate].
    destruct (existsb in_whitespace letters) eqn:Es; [discriminate|].
    rewrite (first_word_no_whitespace _ Es) in *. cbn [fst] in *.
    rewrite (encodable_prefix_all _ _ Ef).
    intros E. injection E as <-.
    rewrite (first_word_no_whitespace _ Es). cbn [fst].
    now rewrite Ef, Es, (encodable_prefix_all _ _ Ef).
  - rewrite !write_letters_break_lines by assumption. cbn [app].
    destruct (forallb encodable (break_lines words_per_line 0 letters)) eqn:Ef;
      [|discriminate].
    rewrite (encodable_prefix_all _ _ Ef).
    intros E. injection E as <-.
    assert (G : forall words l,
               break_lines words_per_line words (break_lines words_per_line words l)
               = break_lines words_per_line words l).
    { intros words l. revert words. induction l as [|c r IH]; intros words;
        [reflexivity|].
      cbn [break_lines]. destruct (in_whitespace c) eqn:Ec.
      - destruct ((words + 1) mod words_per_line =? 0) eqn:Em.
        + cbn [break_lines]. change (in_whitespace 10) with true. cbv iota.
          rewrite Em. now rewrite IH.
        + cbn [break_lines]. rewrite Ec, Em. now rewrite IH.
      - cbn [break_lines]. rewrite Ec. now rewrite IH. }
    rewrite G, Ef. now rewrite (encodable_prefix_all _ _ Ef).
Qed.

Lemma write_text_to_file_idempotent_witness :
  write_text_to_file utf8_encodable [97; 32; 98; 10; 99; 32; 100] 2
  = ([97; 32; 98; 10; 99; 32; 100], Ok tt).
Proof.
  apply (write_text_to_file_idempotent utf8_encodable [97; 32; 98; 9; 99; 32; 100]).
  reflexivity.
Defined.

(** A stretch of the written text without a newline has fewer than
    [words_per_line] whitespace characters. *)
Lemma break_lines_stretch (words_per_line words : Z) (letters stretch rest : pystr) :
  0 < words_per_line ->
  break_lines words_per_line words letters = stretch ++ rest ->
  ~ In 10 stretch ->
  count_whitespace stretch + words mod words_per_line < words_per_line.
Proof.
  intros Hw. revert words letters.
  induction stretch as [|x stretch IH]; intros words letters E Hn.
  - change (count_whitespace []) with 0.
    pose proof (Z.mod_pos_bound words words_per_line Hw). lia.
  - destruct letters as [|c r]; [discriminate|].
    cbn [break_lines app] in E. rewrite count_whitespace_cons.
    destruct (in_whitespace c) eqn:Ec.
    + injection E as Ex E.
      destruct (Z.eqb_spec ((words + 1) mod words_per_line) 0) as [Em|Em].
      * exfalso. apply Hn. now left.
      * subst x. rewrite Ec.
        assert (Hs : ~ In 10 stretch) by (intros Hi; apply Hn; now right).
        specialize (IH _ _ E Hs).
        assert (Hm : (words + 1) mod words_per_line = words mod words_per_line + 1).
        { pose proof (Z.mod_pos_bound words words_per_line Hw) as Hb.
          pose proof (Z.div_mod words words_per_line ltac:(lia)) as Hd.
          destruct (Z.eq_dec (words mod words_per_line + 1) words_per_line) as [Ef|Ef].
          - exfalso. apply Em.
            replace (words + 1) with ((words / words_per_line + 1) * words_per_line)
              by lia.
            apply Z.mod_mul. lia.
          - symmetry. apply (Z.mod_unique _ _ (words / words_per_line)); lia. }
        lia.
    + injection E as Ex E. subst x. rewrite Ec.
      assert (Hs : ~ In 10 stretch) by (intros Hi; apply Hn; now right).
      specialize (IH _ _ E Hs). lia.
Qed.

Lemma break_lines_suffix (words_per_line words : Z) (letters before rest : pystr) :
  break_lines words_per_line words letters = before ++ rest ->
  exists words' letters', rest = break_lines words_per_line words' letters'.
Proof.
  revert words letters. induction before as [|x before IH]; intros words letters E.
  - exists words, letters. now rewrite E.
  - destruct letters as [|c r]; [discriminate|].
    cbn [break_lines app] in E. destruct (in_whitespace c); injection E as _ E; eauto.
Qed.

(** X4.  With a positive number of words per line, every stretch of the written
    text that has no newline in it has fewer than [words_per_line]
    whitespace characters: a line of the file has at most [words_per_line]
    words.  This holds of the text left by a call that raises, too. *)
Theorem write_text_to_file_line_width (encodable : Z -> bool) (letters : pystr)
  (words_per_line : Z) (before stretch rest : pystr) :
  0 < words_per_line ->
  fst (write_text_to_file encodable letters words_per_line)
  = before ++ stretch ++ rest ->
  ~ In 10 stretch ->
  count_whitespace stretch < words_per_line.
Proof.
  intros Hw E Hn. unfold write_text_to_file in E.
  rewrite write_letters_break_lines in E by lia. cbn [app fst] in E.
  destruct (encodable_prefix_app encodable (break_lines words_per_line 0 letters))
    as [more Hmore].
  rewrite E, <- !app_assoc in Hmore.
  destruct (break_lines_suffix _ _ _ _ _ Hmore) as (words' & letters' & E').
  symmetry in E'.
  pose proof (break_lines_stretch _ _ _ _ _ Hw E' Hn) as Hs.
  pose proof (Z.mod_pos_bound words' words_per_line Hw). lia.
Qed.

Lemma write_text_to_file_line_width_witness :
  count_whitespace [97; 32; 98] < 2.
Proof.
  apply (write_text_to_file_line_width utf8_encodable
           [97; 32; 98; 9; 99; 32; 55296; 100] 2 []
           [97; 32; 98] [10; 99; 32]).
  - lia.
  - reflexivity.
  - cbn. intros [H|[H|[H|[]]]]; discriminate.
Defined.

(** ** [compute_ngram_counts]: the order of the keys *)

(** What an assignment [d[x] = v] does to the keys of [d]: a new key goes
    last, a key that is there keeps its place. *)
Definition add_key (seen : list pystr) (x : pystr) : list pystr :=
  if existsb (eqb x) seen then seen else seen ++ [x].

(** The distinct strings of a list, in the order of their first occurrence. *)
Definition first_occurrences (l : list pystr) : list pystr :=
  fold_left add_key l [].

Lemma existsb_eqb_In (x : pystr) (l : list pystr) :
  existsb (eqb x) l = true <-> In x l.
Proof.
  rewrite existsb_exists. split.
  - intros (y & Hy & E). apply eqb_eq in E. now subst.
  - intros Hi. exists x. split; [exact Hi | apply eqb_refl].
Qed.

Lemma keys_dict_set {V : Type} (k : pystr) (v : V) (d : dict pystr V) :
  keys (dict_set k v d) = add_key (keys d) k.
Proof.
  unfold add_key. destruct (existsb (eqb k) (keys d)) eqn:E.
  - apply keys_dict_set_old. now apply existsb_eqb_In.
  - rewrite dict_set_new.
    + unfold keys. now rewrite map_app.
    + intros Hi. apply existsb_eqb_In in Hi. congruence.
Qed.

Lemma add_key_idem (l : list pystr) (x : pystr) :
  add_key (add_key l x) x = add_key l x.
Proof.
  unfold add_key. destruct (existsb (eqb x) l) eqn:E.
  - now rewrite E.
  - rewrite existsb_app. cbn [existsb]. rewrite eqb_refl, E. reflexivity.
Qed.

Lemma keys_record_order (t : table) (g c : pystr) :
  keys (record_observation t g c) = add_key (keys t) g.
Proof.
  unfold record_observation. rewrite keys_dict_set.
  destruct (dict_mem g t) eqn:E.
  - apply dict_mem_keys in E. apply existsb_eqb_In in E.
    unfold add_key. now rewrite E.
  - rewrite keys_dict_set. apply add_key_idem.
Qed.

Lemma keys_fold_order (obs : list (pystr * pystr)) (t : table) :
  keys (fold_left record_pair obs t) = fold_left add_key (map fst obs) (keys t).
Proof.
  revert t. induction obs as [|o obs IH]; intros t; cbn [fold_left map]; [reflexivity|].
  rewrite IH. unfold record_pair. now rewrite keys_record_order.
Qed.

(** The successor letters that a table holds for an n-gram, in the order of
    the inner dictionary. *)
Definition successors_of (t : table) (g : pystr) : list pystr :=
  match dict_get g t with Some d => keys d | None => [] end.

Lemma successors_record (t : table) (g0 c0 g : pystr) :
  successors_of (record_observation t g0 c0) g
  = if eqb g0 g then add_key (successors_of t g) c0 else successors_of t g.
Proof.
  destruct (record_observation_unfold t g0 c0)
    as (t1 & d & Hget & _ & _ & Hold & _ & _ & ->).
  unfold successors_of. destruct (eqb_spec g0 g) as [<-|Hn].
  - rewrite dict_get_set_same, keys_dict_set.
    destruct Hold as [[E ->] | E]; rewrite E; reflexivity.
  - rewrite dict_get_set_other by assumption.
    now rewrite Hget, (eqb_neq _ _ Hn).
Qed.

Lemma successors_fold (obs : list (pystr * pystr)) (t : table) (g : pystr) :
  successors_of (fold_left record_pair obs t) g
  = fold_left add_key (map snd (filter (fun o => eqb (fst o) g) obs))
              (successors_of t g).
Proof.
  revert t. induction obs as [|[g0 c0] obs IH]; intros t; cbn [fold_left filter fst];
    [reflexivity|].
  rewrite IH. unfold record_pair. cbn [fst snd]. rewrite successors_record.
  destruct (eqb g0 g); reflexivity.
Qed.

(** X5.  The n-grams of the returned table are keyed in the order in which they
    first occur in the text, read from position 0, and the successor letters
    of an n-gram in the order in which they first follow it. *)
Theorem compute_ngram_counts_order (letters : pystr) (k : Z) (t : table) :
  0 <= k -> compute_ngram_counts letters k = Ok t ->
  keys t
  = first_occurrences (map (spec_circular_ngram letters k) (range (len letters))) /\
  forall g d, dict_get g t = Some d ->
    keys d
    = first_occurrences
        (map (spec_circular_next letters k)
             (filter (fun i => eqb (spec_circular_ngram letters k i) g)
                     (range (len letters)))).
Proof.
  intros Hk Ht. pose proof (compute_ngram_counts_Ok_len _ _ _ Ht) as Hl.
  rewrite compute_ngram_counts_fold in Ht by lia. injection Ht as <-. split.
  - rewrite keys_fold_order, map_map. reflexivity.
  - intros g d Hd.
    pose proof (successors_fold
                  (map (spec_observation letters k) (range (len letters))) [] g) as Hs.
    unfold successors_of at 1 in Hs. rewrite Hd in Hs. rewrite Hs.
    unfold first_occurrences. change (successors_of [] g) with (@nil pystr).
    f_equal. generalize (range (len letters)) as l.
    induction l as [|i l IH]; [reflexivity|]. cbn [map filter fst spec_observation].
    unfold spec_observation at 1. cbn [fst].
    destruct (eqb (spec_circular_ngram letters k i) g); cbn [map snd]; now rewrite IH.
Qed.

Lemma compute_ngram_counts_order_witness :
  keys [([98; 97], [([99], 1); ([98], 1)]); ([97; 99], [([98], 1)]);
        ([99; 98], [([97], 1)]); ([97; 98], [([98], 1)]); ([98; 98], [([97], 1)])]
  = first_occurrences
      (map (spec_circular_ngram [98; 97; 99; 98; 97; 98] 2)
           (range (len [98; 97; 99; 98; 97; 98]))) /\
  forall g d,
    dict_get g [([98; 97], [([99], 1); ([98], 1)]); ([97; 99], [([98], 1)]);
                ([99; 98], [([97], 1)]); ([97; 98], [([98], 1)]);
                ([98; 98], [([97], 1)])] = Some d ->
    keys d
    = first_occurrences
        (map (spec_circular_next [98; 97; 99; 98; 97; 98] 2)
             (filter (fun i => eqb (spec_circular_ngram [98; 97; 99; 98; 97; 98] 2 i) g)
                     (range (len [98; 97; 99; 98; 97; 98])))).
Proof.
  apply (compute_ngram_counts_order [98; 97; 99; 98; 97; 98] 2); [lia|reflexivity].
Defined.

(** ** [compute_ngram_counts]: the shape of the table *)

Lemma spec_circular_at_In (letters : pystr) (i : Z) :
  letters <> [] -> In (spec_circular_at letters i) letters.
Proof.
  intros Hne. unfold spec_circular_at. apply nth_In.
  assert (Hl : 0 < len letters).
  { destruct letters; [contradiction|]. unfold len. cbn [length]. lia. }
  pose proof (Z.mod_pos_bound i (len letters) Hl). unfold len in *. lia.
Qed.

Lemma spec_circular_ngram_incl (letters : pystr) (k i : Z) :
  letters <> [] -> incl (spec_circular_ngram letters k i) letters.
Proof.
  intros Hne x Hx. unfold spec_circular_ngram in Hx. apply in_map_iff in Hx.
  destruct Hx as (j & <- & _). now apply spec_circular_at_In.
Qed.

(** Recording an observation keeps the successor letters of every n-gram
    distinct. *)
Lemma NoDup_successors_fold (obs : list (pystr * pystr)) (t : table) (g : pystr) :
  NoDup (successors_of t g) ->
  NoDup (successors_of (fold_left record_pair obs t) g).
Proof.
  revert t. induction obs as [|[g0 c0] obs IH]; intros t Ht; [exact Ht|].
  cbn [fold_left]. apply IH. unfold record_pair. cbn [fst snd].
  rewrite successors_record. destruct (eqb g0 g); [|exact Ht].
  unfold add_key. destruct (existsb (eqb c0) (successors_of t g)) eqn:E; [exact Ht|].
  apply NoDup_app; [exact Ht | repeat constructor; intros [] |].
  intros x Hx [<-|[]]. apply existsb_eqb_In in Hx. congruence.
Qed.

Lemma len_filter_le {A : Type} (f : A -> bool) (l : list A) :
  len (filter f l) <= len l.
Proof.
  unfold len. apply inj_le. induction l as [|x l IH]; cbn; [lia|].
  destruct (f x); cbn; lia.
Qed.

(** The items of the table that [compute_ngram_counts] returns: a key of
    [k] characters of the text, and distinct successor letters, each one
    character of the text. *)
Lemma compute_ngram_counts_entries (letters : pystr) (k : Z) (t : table) :
  0 <= k -> compute_ngram_counts letters k = Ok t ->
  forall g d, In (g, d) t ->
    (exists i, 0 <= i < len letters /\ g = spec_circular_ngram letters k i) /\
    len g = k /\ incl g letters /\ NoDup (keys d) /\
    forall c m, In (c, m) d -> exists x, c = [x] /\ In x letters.
Proof.
  intros Hk Ht g d Hi.
  pose proof (compute_ngram_counts_NoDup _ _ _ Hk Ht) as Hnd.
  pose proof (compute_ngram_counts_Ok_len _ _ _ Ht) as Hl.
  assert (Hkey : In g (keys t)) by (apply (in_map fst) in Hi; exact Hi).
  apply (compute_ngram_counts_keys letters k t g Hk Ht) in Hkey.
  destruct Hkey as (i & Hi0 & ->).
  assert (Hne : letters <> []).
  { intros ->. unfold len in Hi0. cbn in Hi0. lia. }
  pose proof (NoDup_In_dict_get _ _ _ Hnd Hi) as Hget.
  split; [eauto|].
  split; [now apply len_spec_circular_ngram|].
  split; [now apply spec_circular_ngram_incl|].
  rewrite compute_ngram_counts_fold in Ht by lia. injection Ht as Ht.
  split.
  - pose proof (NoDup_successors_fold
                  (map (spec_observation letters k) (range (len letters))) []
                  (spec_circular_ngram letters k i)) as Hs.
    rewrite Ht in Hs. unfold successors_of in Hs. rewrite Hget in Hs.
    apply Hs. constructor.
  - intros c m Hc.
    assert (He : has_entry t (spec_circular_ngram letters k i) c)
      by (exists d, m; auto).
    rewrite <- Ht in He. apply has_entry_fold in He.
    destruct He as [(d' & m' & [] & _)|He].
    apply in_map_iff in He. destruct He as (j & Ho & _).
    injection Ho as _ <-. unfold spec_circular_next.
    eexists. split; [reflexivity|]. now apply spec_circular_at_In.
Qed.

(** X6.  The shape of the table that [compute_ngram_counts] returns: the keys are
    distinct; every key has exactly [k] characters, all of them characters
    of the text; every n-gram has at least one successor letter; the
    successor letters of an n-gram are distinct, each one character of the
    text; and every count is at least 1 and at most the length of the
    text. *)
Theorem compute_ngram_counts_shape (letters : pystr) (k : Z) (t : table) :
  0 <= k -> compute_ngram_counts letters k = Ok t ->
  NoDup (keys t) /\
  forall g d, In (g, d) t ->
    len g = k /\ incl g letters /\ d <> [] /\ NoDup (keys d) /\
    forall c m, In (c, m) d ->
      (exists x, c = [x] /\ In x letters) /\ 1 <= m <= len letters.
Proof.
  intros Hk Ht.
  pose proof (compute_ngram_counts_NoDup _ _ _ Hk Ht) as Hnd.
  pose proof (compute_ngram_counts_count_table _ _ _ Hk Ht) as Hct.
  pose proof (compute_ngram_counts_Ok_len _ _ _ Ht) as Hl.
  split; [exact Hnd|]. intros g d Hi.
  destruct (compute_ngram_counts_entries letters k t Hk Ht g d Hi)
    as ((i & Hi0 & Hg) & Hlen & Hincl & Hcd & Hletters).
  destruct (proj2 (count_table_spec t Hct) _ _ Hi) as [Hd Hpos].
  pose proof (NoDup_In_dict_get _ _ _ Hnd Hi) as Hget.
  split; [exact Hlen|]. split; [exact Hincl|]. split; [exact Hd|].
  split; [exact Hcd|]. intros c m Hc. split; [now apply (Hletters c m)|].
  split.
  - rewrite Forall_forall in Hpos. exact (Hpos _ Hc).
  - pose proof (NoDup_In_dict_get _ _ _ Hcd Hc) as Hm.
    rewrite compute_ngram_counts_fold in Ht by lia. injection Ht as Ht.
    pose proof (count_of_fold letters k g c (range (len letters)) []) as Hcount.
    rewrite Ht in Hcount. unfold count_of at 1 in Hcount.
    rewrite Hget, Hm in Hcount. rewrite Hcount.
    change (count_of [] g c) with 0.
    etransitivity; [apply Z.eq_le_incl, Z.add_0_l|].
    etransitivity; [apply len_filter_le|].
    rewrite length_range by apply len_nonneg. lia.
Qed.

Lemma compute_ngram_counts_shape_witness :
  NoDup (keys [([97], [([98], 2); ([97], 1)]); ([98], [([97], 2)])]) /\
  forall g d, In (g, d) [([97], [([98], 2); ([97], 1)]); ([98], [([97], 2)])] ->
    len g = 1 /\ incl g [97; 98; 97; 98; 97] /\ d <> [] /\ NoDup (keys d) /\
    forall c m, In (c, m) d ->
      (exists x, c = [x] /\ In x [97; 98; 97; 98; 97]) /\
      1 <= m <= len [97; 98; 97; 98; 97].
Proof.
  apply (compute_ngram_counts_shape [97; 98; 97; 98; 97] 1); [lia|reflexivity].
Defined.

(** ** The model file of a computed table *)

Lemma forallb_incl {A : Type} (f : A -> bool) (l l' : list A) :
  incl l l' -> forallb f l' = true -> forallb f l = true.
Proof.
  intros Hi Hl. rewrite forallb_forall in *. intros x Hx. apply Hl, Hi, Hx.
Qed.

(** The table of a text of valid characters is a table of the data model of
    the file. *)
Lemma compute_ngram_counts_table_wf (letters : pystr) (k : Z) (t : table) :
  0 <= k -> forallb valid_char letters = true ->
  compute_ngram_counts letters k = Ok t -> table_wf k t = true.
Proof.
  intros Hk Hv Ht.
  pose proof (compute_ngram_counts_NoDup _ _ _ Hk Ht) as Hnd.
  unfold table_wf. apply andb_true_iff. split; [now apply NoDup_distinct|].
  apply forallb_forall. intros [g d] Hi.
  destruct (compute_ngram_counts_entries letters k t Hk Ht g d Hi)
    as (_ & Hlen & Hincl & Hd & Hc).
  unfold entry_wf, counts_wf. cbn [fst snd].
  rewrite (proj2 (Z.eqb_eq _ _) Hlen), (forallb_incl _ _ _ Hincl Hv).
  rewrite (NoDup_distinct _ Hd). cbn [andb].
  apply forallb_forall. intros c Hin. unfold keys in Hin.
  apply in_map_iff in Hin. destruct Hin as ([c' m] & <- & Hin). cbn [fst].
  destruct (Hc c' m Hin) as (x & -> & Hx). cbn [is_letter].
  rewrite forallb_forall in Hv. now apply Hv.
Qed.

(** Reading the text written for a table of the data model gives the table
    back. *)
Lemma read_write_table (t : table) (k : Z) :
  table_wf k t = true ->
  read_ngram_counts_from_file (write_ngram_counts_to_file t k) = Ok (t, k).
Proof.
  intros Hwf. unfold table_wf in Hwf. apply andb_true_iff in Hwf.
  destruct Hwf as [Hnd Ht].
  unfold read_ngram_counts_from_file, write_ngram_counts_to_file.
  replace (py_str k ++ " " ++ py_str (len t) ++ String newline ""
           ++ String.concat "" (map write_ngram t))%string
    with ((py_str k ++ " " ++ py_str (len t))
          ++ String newline (String.concat "" (map write_ngram t)))%string
    by (now rewrite !append_assoc).
  rewrite readline_line.
  - rewrite append_assoc.
    change ((" " ++ py_str (len t)) ++ String newline "")%string
      with (String space (py_str (len t) ++ String newline "")).
    rewrite split_token_space by apply is_token_py_str.
    rewrite split_token_newline by apply is_token_py_str.
    cbn [comprehension]. rewrite !py_int_py_str. cbn [bind].
    rewrite <- (append_nil_r (String.concat "" (map write_ngram t))).
    rewrite read_write_ngrams; auto.
    + cbn [bind snd]. unfold assign_all.
      rewrite fold_dict_set by (cbn [keys map app]; now apply distinct_NoDup).
      reflexivity.
    + unfold range, len. now rewrite length_map, length_seq, Nat2Z.id.
  - rewrite string_forall_append, (is_token_not_newline (py_str k))
      by apply is_token_py_str.
    change (" " ++ py_str (len t))%string with (String space (py_str (len t))).
    cbn [string_forall andb]. change (not_newline space) with true. cbn [andb].
    apply is_token_not_newline, is_token_py_str.
Qed.

(** X7.  Export and import compose to the identity on computed tables: for a
    text of valid characters (code points 0 to 1114111), the model file
    written for the table of [compute_ngram_counts] and its n-gram length is
    read back as that table, keys and successor letters in the same order,
    and that length. *)
Theorem compute_write_read_round_trip (letters : pystr) (k : Z) (t : table) :
  0 <= k -> forallb valid_char letters = true ->
  compute_ngram_counts letters k = Ok t ->
  read_ngram_counts_from_file (write_ngram_counts_to_file t k) = Ok (t, k).
Proof.
  intros Hk Hv Ht. apply read_write_table.
  now apply (compute_ngram_counts_table_wf letters).
Qed.

Lemma compute_write_read_round_trip_witness :
  read_ngram_counts_from_file
    (write_ngram_counts_to_file
       [([97; 32], [([98], 1)]); ([32; 98], [([10], 1)]); ([98; 10], [([97], 1)]);
        ([10; 97], [([32], 1)])] 2)
  = Ok ([([97; 32], [([98], 1)]); ([32; 98], [([10], 1)]); ([98; 10], [([97], 1)]);
         ([10; 97], [([32], 1)])], 2).
Proof.
  apply (compute_write_read_round_trip [97; 32; 98; 10] 2);
    [lia | reflexivity | reflexivity].
Defined.

(** ** [compute_ngram_counts]: the cut of the circular text *)

Lemma Permutation_filter_len {A : Type} (f : A -> bool) (l l' : list A) :
  Permutation l l' -> len (filter f l) = len (filter f l').
Proof.
  intros Hp. unfold len. f_equal.
  induction Hp as [|x l l' Hp IH|x y l|l l' l'' _ IH1 _ IH2]; cbn.
  - reflexivity.
  - destruct (f x); cbn; lia.
  - destruct (f x), (f y); reflexivity.
  - lia.
Qed.

Lemma range_NoDup (n : Z) : NoDup (range n).
Proof.
  unfold range. apply NoDup_map_NoDup_ForallPairs; [|apply seq_NoDup].
  intros x y _ _ E. lia.
Qed.

(** Shifting the positions by [r] modulo the length permutes them. *)
Lemma range_shift_perm (n r : Z) :
  Permutation (map (fun i => (i + r) mod n) (range n)) (range n).
Proof.
  apply Permutation_map_same_l.
  - apply NoDup_map_NoDup_ForallPairs; [|apply range_NoDup].
    intros x y Hx Hy E. apply In_range in Hx, Hy.
    assert (Hn : 0 < n) by lia.
    pose proof (Z.div_mod (x + r) n ltac:(lia)) as Dx.
    pose proof (Z.div_mod (y + r) n ltac:(lia)) as Dy.
    rewrite E in Dx.
    assert (Hq : n * ((x + r) / n - (y + r) / n) = x - y) by lia.
    assert (Hz : (x + r) / n - (y + r) / n = 0) by nia.
    rewrite Hz in Hq. lia.
  - intros y Hy. apply in_map_iff in Hy. destruct Hy as (x & <- & Hx).
    apply In_range in Hx. apply In_range. apply Z.mod_pos_bound. lia.
Qed.

(** The text cut at [r] and read from there: [text[r:] + text[:r]]. *)
Definition rotate (letters : pystr) (r : Z) : pystr :=
  py_slice_from letters r ++ py_slice letters 0 r.

Lemma rotate_skipn_firstn (letters : pystr) (r : Z) :
  0 <= r <= len letters ->
  rotate letters r
  = skipn (Z.to_nat r) letters ++ firstn (Z.to_nat r) letters.
Proof.
  intros Hr. unfold rotate, py_slice_from, py_slice, clamp.
  pose proof (len_nonneg letters) as Hn.
  replace (r <? 0) with false by (symmetry; apply Z.ltb_ge; lia).
  replace (len letters <? 0) with false by (symmetry; apply Z.ltb_ge; lia).
  cbn [Z.ltb Z.compare]. rewrite Z.min_id, !Z.min_l by lia.
  rewrite Z.sub_0_r. change (Z.to_nat 0) with 0%nat. cbn [skipn]. f_equal.
  apply firstn_all2. rewrite length_skipn. unfold len. lia.
Qed.

Lemma len_rotate (letters : pystr) (r : Z) :
  0 <= r <= len letters -> len (rotate letters r) = len letters.
Proof.
  intros Hr. rewrite rotate_skipn_firstn by assumption.
  rewrite len_app. unfold len in *. rewrite length_skipn, length_firstn. lia.
Qed.

Lemma spec_circular_at_rotate (letters : pystr) (r i : Z) :
  0 <= r <= len letters ->
  spec_circular_at (rotate letters r) i = spec_circular_at letters (i + r).
Proof.
  intros Hr. unfold spec_circular_at. rewrite len_rotate by assumption.
  rewrite rotate_skipn_firstn by assumption.
  destruct (Z.eq_dec (len letters) 0) as [E|E].
  - assert (El : letters = []).
    { destruct letters; [reflexivity|]. unfold len in E. cbn in E. lia. }
    subst letters. rewrite skipn_nil, firstn_nil. cbn [app].
    now destruct (Z.to_nat (i mod len [])), (Z.to_nat ((i + r) mod len [])).
  - pose proof (len_nonneg letters) as Hn.
    pose proof (Z.mod_pos_bound i (len letters) ltac:(lia)) as Hj.
    set (j := i mod len letters) in *.
    assert (Hir : (i + r) mod len letters
                  = if j + r <? len letters then j + r else j + r - len letters).
    { pose proof (Z.div_mod i (len letters) E) as Di. fold j in Di.
      destruct (Z.ltb_spec (j + r) (len letters)).
      - symmetry. apply (Z.mod_unique _ _ (i / len letters)); lia.
      - symmetry. apply (Z.mod_unique _ _ (i / len letters + 1)); lia. }
    rewrite Hir. unfold len in *.
    destruct (Z.ltb_spec (j + r) (Z.of_nat (length letters))) as [Hlt|Hge].
    + rewrite app_nth1 by (rewrite length_skipn; lia).
      rewrite nth_skipn. f_equal. lia.
    + rewrite app_nth2 by (rewrite length_skipn; lia).
      rewrite length_skipn, nth_firstn.
      replace (Z.to_nat j - (length letters - Z.to_nat r) <? Z.to_nat r)%nat with true
        by (symmetry; apply Nat.ltb_lt; lia).
      f_equal. lia.
Qed.

Lemma spec_circular_ngram_rotate (letters : pystr) (k r i : Z) :
  0 <= r <= len letters ->
  spec_circular_ngram (rotate letters r) k i
  = spec_circular_ngram letters k ((i + r) mod len letters).
Proof.
  intros Hr. unfold spec_circular_ngram. apply map_ext. intros j.
  rewrite spec_circular_at_rotate, spec_circular_at_shift by assumption.
  f_equal. lia.
Qed.

Lemma spec_circular_next_rotate (letters : pystr) (k r i : Z) :
  0 <= r <= len letters ->
  spec_circular_next (rotate letters r) k i
  = spec_circular_next letters k ((i + r) mod len letters).
Proof.
  intros Hr. unfold spec_circular_next.
  rewrite spec_circular_at_rotate, spec_circular_at_shift by assumption.
  do 2 f_equal. lia.
Qed.

(** X8.  The counts do not depend on where the circular text is cut: the table
    of the text read from position [r] on, [text[r:] + text[:r]], holds for
    every n-gram and successor letter the count that the table of the text
    holds. *)
Theorem compute_ngram_counts_rotation (letters : pystr) (k r : Z) (t : table) :
  0 <= k -> 0 <= r <= len letters ->
  compute_ngram_counts letters k = Ok t ->
  exists t', compute_ngram_counts (rotate letters r) k = Ok t' /\
    forall g c, count_of t' g c = count_of t g c.
Proof.
  intros Hk Hr Ht. pose proof (compute_ngram_counts_Ok_len _ _ _ Ht) as Hl.
  rewrite compute_ngram_counts_fold in Ht by lia. injection Ht as <-.
  rewrite compute_ngram_counts_fold by (rewrite len_rotate; lia).
  eexists. split; [reflexivity|]. intros g c.
  rewrite !count_of_fold, len_rotate by assumption. f_equal.
  rewrite <- (Permutation_filter_len
                (fun i => eqb (spec_circular_ngram letters k i) g
                          && eqb (spec_circular_next letters k i) c)
                _ _ (range_shift_perm (len letters) r)).
  unfold len at 1 3. f_equal.
  induction (range (len letters)) as [|i l IH]; [reflexivity|].
  cbn [map filter].
  rewrite spec_circular_ngram_rotate, spec_circular_next_rotate by assumption.
  destruct (eqb (spec_circular_ngram letters k ((i + r) mod len letters)) g
            && eqb (spec_circular_next letters k ((i + r) mod len letters)) c);
    cbn [length]; now rewrite IH.
Qed.

Lemma compute_ngram_counts_rotation_witness :
  exists t', compute_ngram_counts (rotate [97; 98; 97; 99] 3) 2 = Ok t' /\
    forall g c,
      count_of t' g c
      = count_of [([97; 98], [([97], 1)]); ([98; 97], [([99], 1)]);
                  ([97; 99], [([97], 1)]); ([99; 97], [([98], 1)])] g c.
Proof.
  apply (compute_ngram_counts_rotation [97; 98; 97; 99] 2 3);
    [lia | cbn; lia | reflexivity].
Defined.

(** ** N-gram lengths below 1 *)

(** [float(z)] does not overflow for a positive [z] below [2^1023]. *)
Lemma float_of_int_total (z : Z) :
  0 < z < 2 ^ 1023 -> exists m e, float_of_int z = Ok (S754_finite false m e).
Proof.
  intros Hz. unfold float_of_int. destruct z as [|p|p]; try lia.
  cbn [binary_normalize].
  assert (E : (inject_Z (Z.pos p) * pow2 0 == inject_Z (Z.pos p))%Q)
    by (change (pow2 0) with 1%Q; ring).
  destruct (binary_round_correct p 0) as [[_ Hb]|Hr].
  - exfalso. rewrite E, <- pow2_inject in Hb by lia.
    rewrite <- Zle_Qle in Hb. lia.
  - assert (H1 : (1 <= inject_Z (Z.pos p) * pow2 0)%Q).
    { rewrite E. change 1%Q with (inject_Z 1). rewrite <- Zle_Qle. lia. }
    destruct (rounds_to_positive _ _ H1 Hr) as (m & e & ->). eauto.
Qed.

Lemma fold_left_add_key_head (l : list pystr) (a : pystr) (acc : list pystr) :
  exists acc', fold_left add_key l (a :: acc) = a :: acc'.
Proof.
  revert acc. induction l as [|x l IH]; intros acc; cbn [fold_left]; [eauto|].
  unfold add_key at 2. destruct (existsb (eqb x) (a :: acc)); [apply IH|].
  cbn [app]. apply IH.
Qed.

Lemma range_S (n : nat) :
  range (Z.of_nat (S n)) = 0 :: map Z.of_nat (seq 1 n).
Proof. unfold range. rewrite Nat2Z.id. reflexivity. Qed.

(** X9.  An n-gram length of 0 passes the guard of line 55: for a non-empty text
    (shorter than [2^1023] characters) [compute_ngram_counts] returns the
    table of the single, empty n-gram, whose counts add up to the length of
    the text; and [build_markov_chain] on that table raises [KeyError] for
    the first character of the text, the successor [""[1:] + letter] being
    no key. *)
Theorem compute_ngram_counts_zero_length (c : Z) (rest : pystr) :
  len (c :: rest) < 2 ^ 1023 ->
  exists d,
    compute_ngram_counts (c :: rest) 0 = Ok [([], d)] /\
    sum_counts d = len (c :: rest) /\
    build_markov_chain [([], d)] = Raise (KeyError [c]).
Proof.
  intros Hlen. set (letters := c :: rest) in *.
  assert (Hl : 0 < len letters) by (unfold len, letters; cbn [length]; lia).
  set (obs := map (spec_observation letters 0) (range (len letters))).
  assert (Ht : compute_ngram_counts letters 0 = Ok (fold_left record_pair obs []))
    by (apply compute_ngram_counts_fold; lia).
  set (t := fold_left record_pair obs []) in *.
  assert (Hobs : exists obs', obs = ([], [c]) :: obs'
                              /\ Forall (fun o => fst o = []) obs').
  { unfold obs, len, letters. cbn [length]. rewrite range_S. cbn [map].
    eexists. split; [reflexivity|]. apply Forall_forall. intros o Ho.
    apply in_map_iff in Ho. destruct Ho as (i & <- & _). reflexivity. }
  destruct Hobs as (obs' & Eobs & Hobs').
  assert (Hkeys : keys t = [[]]).
  { unfold t. rewrite keys_fold_order, Eobs. cbn [map fst fold_left keys].
    change (add_key [] []) with [@nil Z].
    clear Eobs. induction obs' as [|o obs' IH]; [reflexivity|].
    apply Forall_cons_iff in Hobs'. destruct Hobs' as [Eo Hobs'].
    change (fold_left add_key (map fst obs') (add_key [[]] (fst o)) = [[]]).
    rewrite Eo. change (add_key [[]] []) with [@nil Z].
    now apply IH. }
  destruct t as [|[g d] [|e t']] eqn:Et; try discriminate.
  cbn in Hkeys. injection Hkeys as ->.
  exists d. split; [exact Ht|].
  assert (Hsum : sum_counts d = len letters).
  { pose proof (total_count_fold obs []) as Htot. fold t in Htot. rewrite Et in Htot.
    unfold total_count in Htot. cbn [values map snd fold_right] in Htot.
    rewrite Z.add_0_r in Htot. rewrite Htot. cbn [fold_right].
    unfold obs, len. rewrite length_map. fold (len (range (Z.of_nat (length letters)))).
    rewrite length_range by lia. lia. }
  split; [exact Hsum|].
  assert (Hd : exists m d', d = ([c], m) :: d').
  { pose proof (successors_fold obs [] []) as Hs. fold t in Hs. rewrite Et in Hs.
    unfold successors_of in Hs. cbn [dict_get] in Hs.
    change (eqb (@nil Z) []) with true in Hs. cbv iota in Hs.
    rewrite Eobs in Hs. cbn [filter fst] in Hs.
    change (eqb (@nil Z) []) with true in Hs. cbv iota in Hs.
    cbn [map snd fold_left] in Hs. change (add_key [] [c]) with [[c]] in Hs.
    destruct (fold_left_add_key_head
                (map snd (filter (fun o => eqb (fst o) []) obs')) [c] [])
      as (acc' & Eacc).
    pose proof (eq_trans Hs Eacc) as Hs'. clear Hs. rename Hs' into Hs.
    destruct d as [|[c' m] d']; [discriminate|].
    cbn in Hs. injection Hs as -> _. eauto. }
  destruct Hd as (m & d' & ->).
  unfold build_markov_chain. cbn [create_nodes keys map fst fold_left dict_set].
  cbn [for_each]. unfold connect_node at 1.
  destruct (float_of_int_total (sum_counts (([c], m) :: d'))) as (mw & ew & ->);
    [lia|].
  cbn [bind]. unfold lookup at 1. cbn [dict_get].
  change (eqb (@nil Z) []) with true. cbv iota. cbn [bind for_each].
  unfold add_edge at 1. rewrite py_slice_from_1. cbn [tl app].
  unfold lookup at 1. cbn [dict_get].
  change (eqb [c] []) with false. cbv iota. reflexivity.
Qed.

Lemma compute_ngram_counts_zero_length_witness :
  exists d,
    compute_ngram_counts [98; 97; 98] 0 = Ok [([], d)] /\
    sum_counts d = len [98; 97; 98] /\
    build_markov_chain [([], d)] = Raise (KeyError [98]).
Proof.
  apply (compute_ngram_counts_zero_length 98 [97; 98]). vm_compute. reflexivity.
Defined.

Lemma py_index_ok {A : Type} (s : list A) (i : Z) :
  - len s <= i < len s -> exists x, py_index s i = Ok x.
Proof.
  intros Hi. unfold py_index.
  set (j := if i <? 0 then i + len s else i).
  assert (Hj : 0 <= j < len s).
  { unfold j. destruct (Z.ltb_spec i 0); lia. }
  replace (0 <=? j) with true by (symmetry; apply Z.leb_le; lia).
  replace (j <? len s) with true by (symmetry; apply Z.ltb_lt; lia).
  cbn [andb]. destruct (nth_error s (Z.to_nat j)) as [x|] eqn:E; [eauto|].
  apply nth_error_None in E. unfold len in Hj. lia.
Qed.

(** X10.  A negative n-gram length passes the guard of line 55 as well.  For a
    non-empty text, [compute_ngram_counts] then raises [IndexError], at the
    index of line 70, exactly when [k] is below [- len(text)]; for a [k]
    from [- len(text)] to [-1] it returns a table. *)
Theorem compute_ngram_counts_negative_length (letters : pystr) (k : Z) :
  k < 0 -> letters <> [] ->
  (k < - len letters -> compute_ngram_counts letters k = Raise IndexError) /\
  (- len letters <= k -> exists t, compute_ngram_counts letters k = Ok t).
Proof.
  intros Hk Hne.
  assert (Hl : 0 < len letters).
  { destruct letters; [contradiction|]. unfold len. cbn [length]. lia. }
  unfold compute_ngram_counts.
  replace (len letters <? k) with false by (symmetry; apply Z.ltb_ge; lia).
  split.
  - intros Hlow. destruct letters as [|c rest]; [contradiction|].
    unfold len at 1. cbn [length]. rewrite range_S. cbn [for_each].
    unfold count_step at 1, extract_next_letter.
    replace (0 + k <? len (c :: rest)) with true by (symmetry; apply Z.ltb_lt; lia).
    unfold str_index, py_index.
    replace (0 + k <? 0) with true by (symmetry; apply Z.ltb_lt; lia).
    replace (0 <=? 0 + k + len (c :: rest)) with false
      by (symmetry; apply Z.leb_gt; lia).
    reflexivity.
  - intros Hlow.
    rewrite (for_each_total _ _
               (fun t i => match count_step letters k t i with
                           | Ok t' => t'
                           | Raise _ => t
                           end)); [eauto|].
    intros t i Hi. apply In_range in Hi. unfold count_step, extract_next_letter.
    replace (i + k <? len letters) with true by (symmetry; apply Z.ltb_lt; lia).
    unfold str_index. destruct (py_index_ok letters (i + k)) as [x ->]; [lia|].
    reflexivity.
Qed.

Lemma compute_ngram_counts_negative_length_witness :
  compute_ngram_counts [97; 98] (-3) = Raise IndexError /\
  exists t, compute_ngram_counts [97; 98] (-2) = Ok t.
Proof.
  split.
  - apply (compute_ngram_counts_negative_length [97; 98] (-3));
      [lia | discriminate | cbn; lia].
  - apply (compute_ngram_counts_negative_length [97; 98] (-2));
      [lia | discriminate | cbn; lia].
Defined.

(** ** [MarkovChainNode.add_next_state] *)

(** X11.  One call of [add_next_state], on any node whose probabilities are not
    NaN and with a probability that is not NaN: the n-gram stays, the edge
    list is the old one with the new edge, in descending order of
    probability whatever the order was before, and the edges of one
    probability keep their order, the new edge last among them. *)
Theorem add_next_state_sorted (self : MarkovChainNode) (target : node_ref)
  (probability : float) :
  no_nan (next_states self) -> is_nan probability = false ->
  ngram (add_next_state self target probability) = ngram self /\
  Permutation (next_states (add_next_state self target probability))
              (next_states self ++ [(target, probability)]) /\
  StronglySorted not_below (next_states (add_next_state self target probability)) /\
  forall p, is_nan p = false ->
    filter (same_probability p) (next_states (add_next_state self target probability))
    = filter (same_probability p) (next_states self ++ [(target, probability)]).
Proof.
  intros Hs Hp. cbn [add_next_state ngram next_states].
  assert (Hn : no_nan (next_states self ++ [(target, probability)])).
  { unfold no_nan. apply Forall_app. split; [exact Hs|]. repeat constructor. exact Hp. }
  split; [reflexivity|]. split; [apply sort_desc_perm|].
  split; [now apply sort_desc_sorted|].
  intros p Hq. now apply sort_desc_stable.
Qed.

Lemma add_next_state_sorted_witness :
  ngram (add_next_state
           {| ngram := [97]; next_states := [([98], float_zero); ([99], float_one)] |}
           [100] float_zero) = [97] /\
  Permutation
    (next_states (add_next_state
           {| ngram := [97]; next_states := [([98], float_zero); ([99], float_one)] |}
           [100] float_zero))
    ([([98], float_zero); ([99], float_one)] ++ [([100], float_zero)]) /\
  StronglySorted not_below
    (next_states (add_next_state
           {| ngram := [97]; next_states := [([98], float_zero); ([99], float_one)] |}
           [100] float_zero)) /\
  forall p, is_nan p = false ->
    filter (same_probability p)
      (next_states (add_next_state
           {| ngram := [97]; next_states := [([98], float_zero); ([99], float_one)] |}
           [100] float_zero))
    = filter (same_probability p)
        ([([98], float_zero); ([99], float_one)] ++ [([100], float_zero)]).
Proof.
  apply (add_next_state_sorted
           {| ngram := [97]; next_states := [([98], float_zero); ([99], float_one)] |}
           [100] float_zero).
  - repeat constructor.
  - reflexivity.
Defined.

(** ** [build_markov_chain]: the nodes of the chain *)

Lemma fold_left_add_key_NoDup (l acc : list pystr) :
  NoDup (acc ++ l) -> fold_left add_key l acc = acc ++ l.
Proof.
  revert acc. induction l as [|x l IH]; intros acc Hnd; cbn [fold_left].
  - now rewrite app_nil_r.
  - assert (Hx : existsb (eqb x) acc = false).
    { destruct (existsb (eqb x) acc) eqn:E; [|reflexivity].
      apply existsb_eqb_In in E. apply NoDup_remove_2 in Hnd.
      exfalso. apply Hnd. apply in_or_app. now left. }
    unfold add_key. rewrite Hx. rewrite IH; rewrite <- app_assoc; [reflexivity|exact Hnd].
Qed.

Lemma keys_create_nodes_order (t : table) :
  NoDup (keys t) -> keys (create_nodes t) = keys t.
Proof.
  intros Hnd. unfold create_nodes.
  assert (G : forall l (ch : chain),
             keys (fold_left
                     (fun chain_nodes ng =>
                        dict_set ng {| ngram := ng; next_states := [] |} chain_nodes)
                     l ch)
             = fold_left add_key l (keys ch)).
  { induction l as [|x l IH]; intros ch; cbn [fold_left]; [reflexivity|].
    now rewrite IH, keys_dict_set. }
  rewrite G. cbn [keys map]. now apply fold_left_add_key_NoDup.
Qed.

Lemma add_edge_keys_order (ng : pystr) (weight : float) (ch ch' : chain)
  (item : pystr * Z) :
  add_edge ng weight ch item = Ok ch' -> keys ch' = keys ch.
Proof.
  destruct item as [letter count]. unfold add_edge.
  destruct (lookup (py_slice_from ng 1 ++ letter) ch); cbn [bind]; [|discriminate].
  destruct (truediv count weight); cbn [bind]; [|discriminate].
  destruct (lookup ng ch) as [nd|] eqn:E; cbn [bind]; [|discriminate].
  intros H. injection H as <-. apply keys_dict_set_old.
  apply lookup_Ok in E. apply dict_get_Some_keys. eauto.
Qed.

Lemma for_each_keys_order {A : Type} (xs : list A) (body : chain -> A -> result chain)
  (ch ch' : chain) :
  (forall c c' x, body c x = Ok c' -> keys c' = keys c) ->
  for_each xs body ch = Ok ch' -> keys ch' = keys ch.
Proof.
  intros Hb. revert ch. induction xs as [|x xs IH]; intros ch; cbn [for_each].
  - intros E. now injection E as <-.
  - destruct (body ch x) as [c1|] eqn:E1; cbn [bind]; [|discriminate].
    intros E. rewrite (IH _ E). eauto.
Qed.

Lemma connect_node_keys_order (ch ch' : chain) (entry : pystr * counts) :
  connect_node ch entry = Ok ch' -> keys ch' = keys ch.
Proof.
  destruct entry as [ng d]. unfold connect_node.
  destruct (float_of_int (sum_counts d)) as [w|]; cbn [bind]; [|discriminate].
  destruct (lookup ng ch); cbn [bind]; [|discriminate].
  apply for_each_keys_order. intros c c' x. apply add_edge_keys_order.
Qed.

Lemma comprehension_length {A B : Type} (f : A -> result B) (xs : list A)
  (ys : list B) :
  comprehension f xs = Ok ys -> length ys = length xs.
Proof.
  revert ys. induction xs as [|x xs IH]; intros ys; cbn [comprehension].
  - intros E. now injection E as <-.
  - destruct (f x); cbn [bind]; [|discriminate].
    destruct (comprehension f xs); cbn [bind]; [|discriminate].
    intros E. injection E as <-. cbn [length]. f_equal. now apply IH.
Qed.

Lemma insert_edges_perm (es : list (node_ref * float)) (nd : MarkovChainNode) :
  Permutation (next_states (insert_edges es nd)) (next_states nd ++ es).
Proof.
  revert nd. induction es as [|e es IH]; intros nd; cbn [insert_edges fold_left].
  - now rewrite app_nil_r.
  - fold (insert_edges es (add_next_state nd (fst e) (snd e))).
    rewrite IH. cbn [add_next_state next_states].
    rewrite sort_desc_perm, <- app_assoc. destruct e. reflexivity.
Qed.

(** X12.  The chain that [build_markov_chain] returns has one node for every
    n-gram of the table, keyed in the order of the table; the node stored
    under a key has that key as its n-gram and one edge for each successor
    letter of the n-gram, and every edge leads to a node of the chain. *)
Theorem build_markov_chain_one_node_per_ngram (t : table) (ch : chain) :
  NoDup (keys t) -> build_markov_chain t = Ok ch ->
  keys ch = keys t /\
  forall g nd, dict_get g ch = Some nd ->
    ngram nd = g /\
    (exists d, dict_get g t = Some d /\ len (next_states nd) = len d) /\
    forall e, In e (next_states nd) -> In (fst e) (keys ch).
Proof.
  intros Hnd Hb.
  assert (Hkeys : keys ch = keys t).
  { unfold build_markov_chain in Hb.
    rewrite (for_each_keys_order _ _ _ _ connect_node_keys_order Hb).
    now apply keys_create_nodes_order. }
  split; [exact Hkeys|]. intros g nd Hg.
  destruct (build_markov_chain_nodes t ch Hnd Hb) as [_ Hnodes].
  assert (Hi : In g (keys t)).
  { rewrite <- Hkeys. apply dict_get_Some_keys. eauto. }
  apply dict_get_Some_keys in Hi. destruct Hi as [d Hd].
  destruct (Hnodes g d (dict_get_In _ _ _ Hd)) as (w & es & Hw & Hes & Hnode & Hin).
  rewrite Hnode in Hg. injection Hg as <-.
  split; [apply ngram_insert_edges|]. split.
  - exists d. split; [exact Hd|].
    unfold len. f_equal.
    rewrite (Permutation_length (insert_edges_perm es (empty_node g))).
    cbn [empty_node next_states app]. now apply (comprehension_length _ _ _ Hes).
  - intros e He. apply In_insert_edges in He. cbn [empty_node next_states] in He.
    destruct He as [[]|He]. rewrite Hkeys.
    rewrite Forall_forall in Hin. now apply Hin.
Qed.

Lemma build_markov_chain_one_node_per_ngram_witness :
  keys example_chain = keys example_table /\
  forall g nd, dict_get g example_chain = Some nd ->
    ngram nd = g /\
    (exists d, dict_get g example_table = Some d /\ len (next_states nd) = len d) /\
    forall e, In e (next_states nd) -> In (fst e) (keys example_chain).
Proof.
  apply (build_markov_chain_one_node_per_ngram example_table example_chain).
  - repeat constructor; cbn; intuition discriminate.
  - vm_compute. reflexivity.
Defined.

(** ** [build_markov_chain]: when it succeeds *)

(** Every successor n-gram of the table is a key of the table. *)
Definition closed_table (t : table) : Prop :=
  forall g c, has_entry t g c -> In (py_slice_from g 1 ++ c) (keys t).

Lemma float_of_int_small (z : Z) :
  0 <= z < 2 ^ 1023 ->
  exists f, float_of_int z = Ok f /\ float_is_zero f = (z =? 0).
Proof.
  intros Hz. destruct (Z.eq_dec z 0) as [->|Hn].
  - exists (S754_zero false). split; reflexivity.
  - destruct (float_of_int_total z) as (m & e & ->); [lia|].
    eexists. split; [reflexivity|]. cbn. symmetry. now apply Z.eqb_neq.
Qed.

Lemma sum_counts_cons (c : pystr) (m : Z) (d : counts) :
  sum_counts ((c, m) :: d) = m + sum_counts d.
Proof. reflexivity. Qed.

Lemma sum_counts_nonneg (d : counts) :
  Forall (fun item => 0 <= snd item) d ->
  0 <= sum_counts d /\ Forall (fun item => snd item <= sum_counts d) d.
Proof.
  induction d as [|[c m] d IH]; intros Hd; [split; [reflexivity|constructor]|].
  apply Forall_cons_iff in Hd. destruct Hd as [Hm Hd]. cbn [snd] in Hm.
  destruct (IH Hd) as [IH1 IH2]. rewrite sum_counts_cons. split; [lia|].
  constructor; [cbn [snd]; lia|].
  eapply Forall_impl; [|exact IH2]. cbn beta. intros item. lia.
Qed.

(** The inner loop of lines 166-171 for a non-zero weight: it ends without
    an exception and keeps the keys. *)
Lemma add_edges_ok (K : list pystr) (ng : pystr) (weight : float) (d : counts)
  (ch : chain) :
  (forall g, In g (keys ch) <-> In g K) -> In ng K ->
  float_is_zero weight = false ->
  Forall (fun item => In (py_slice_from ng 1 ++ fst item) K
                      /\ 0 <= snd item < 2 ^ 1023) d ->
  exists ch', for_each d (add_edge ng weight) ch = Ok ch'
              /\ forall g, In g (keys ch') <-> In g K.
Proof.
  intros HK Hng Hw. revert ch HK.
  induction d as [|[letter count] d IH]; intros ch HK Hd; cbn [for_each]; [eauto|].
  apply Forall_cons_iff in Hd. destruct Hd as [[Ht Hc] Hd]. cbn [fst snd] in Ht, Hc.
  unfold add_edge at 1.
  destruct (lookup_keys (py_slice_from ng 1 ++ letter) ch) as (tn & -> & _);
    [now apply HK|]. cbn [bind].
  unfold truediv. destruct (float_of_int_small count Hc) as (fc & -> & _).
  cbn [bind]. rewrite Hw. cbn [bind].
  destruct (lookup_keys ng ch) as (nd & -> & _); [now apply HK|]. cbn [bind].
  apply IH; [|exact Hd].
  intros g. rewrite In_keys_dict_set, HK. split; [intros [->|]; auto | auto].
Qed.

(** Lines 161-171 for one item whose counts are not negative: the item is
    connected when it has no successor or a positive total, and
    [ZeroDivisionError] is raised when it has successors and the total 0. *)
Lemma connect_node_result (K : list pystr) (ch : chain) (ng : pystr) (d : counts) :
  (forall g, In g (keys ch) <-> In g K) -> In ng K ->
  Forall (fun item => In (py_slice_from ng 1 ++ fst item) K /\ 0 <= snd item) d ->
  sum_counts d < 2 ^ 1023 ->
  (d = [] \/ 0 < sum_counts d ->
   exists ch', connect_node ch (ng, d) = Ok ch'
               /\ forall g, In g (keys ch') <-> In g K) /\
  (d <> [] -> sum_counts d = 0 ->
   connect_node ch (ng, d) = Raise ZeroDivisionError).
Proof.
  intros HK Hng Hd Hsum.
  assert (Hnn : Forall (fun item => 0 <= snd item) d).
  { eapply Forall_impl; [|exact Hd]. cbn beta. tauto. }
  destruct (sum_counts_nonneg d Hnn) as [H0 Hle].
  destruct (float_of_int_small (sum_counts d) (conj H0 Hsum)) as (w & Hw & Hz).
  unfold connect_node. rewrite Hw. cbn [bind].
  destruct (lookup_keys ng ch) as (nd & -> & _); [now apply HK|]. cbn [bind].
  split.
  - intros [->|Hpos]; [cbn [for_each]; eauto|].
    apply add_edges_ok; auto.
    + rewrite Hz. apply Z.eqb_neq. lia.
    + rewrite Forall_forall in *. intros item Hi.
      specialize (Hd item Hi). specialize (Hle item Hi). cbn beta in Hd, Hle.
      destruct Hd as [Hd1 Hd2]. split; [exact Hd1|].
      split; [exact Hd2 | eapply Z.le_lt_trans; eassumption].
  - intros Hne Hs0. destruct d as [|[letter count] d]; [contradiction|].
    cbn [for_each]. unfold add_edge at 1.
    apply Forall_cons_iff in Hd. destruct Hd as [[Ht Hc] _]. cbn [fst snd] in Ht, Hc.
    destruct (lookup_keys (py_slice_from ng 1 ++ letter) ch) as (tn & -> & _);
      [now apply HK|]. cbn [bind].
    apply Forall_cons_iff in Hle. destruct Hle as [Hle _]. cbn [snd] in Hle.
    unfold truediv. destruct (float_of_int_small count) as (fc & -> & _); [lia|].
    cbn [bind]. rewrite Hz, Hs0. reflexivity.
Qed.

(** The loop of lines 161-171 over a part [l] of the table. *)
Lemma connect_nodes_result (K : list pystr) (l : table) (ch : chain) :
  (forall g, In g (keys ch) <-> In g K) ->
  Forall (fun entry =>
            In (fst entry) K /\
            Forall (fun item => In (py_slice_from (fst entry) 1 ++ fst item) K
                                /\ 0 <= snd item) (snd entry) /\
            sum_counts (snd entry) < 2 ^ 1023) l ->
  (Forall (fun entry => snd entry = [] \/ 0 < sum_counts (snd entry)) l ->
   exists ch', for_each l connect_node ch = Ok ch') /\
  (~ Forall (fun entry => snd entry = [] \/ 0 < sum_counts (snd entry)) l ->
   for_each l connect_node ch = Raise ZeroDivisionError).
Proof.
  revert ch. induction l as [|[ng d] l IH]; intros ch HK Hl; cbn [for_each].
  - split; [eauto|]. intros Hn. exfalso. apply Hn. constructor.
  - apply Forall_cons_iff in Hl. destruct Hl as [(Hng & Hd & Hsum) Hl].
    cbn [fst snd] in Hng, Hd, Hsum.
    destruct (connect_node_result K ch ng d HK Hng Hd Hsum) as [Hok Hbad].
    assert (Hnn : Forall (fun item => 0 <= snd item) d).
    { eapply Forall_impl; [|exact Hd]. cbn beta. tauto. }
    pose proof (proj1 (sum_counts_nonneg d Hnn)) as H0.
    assert (Hdec : d = [] \/ d <> []).
    { destruct d; [now left | right; discriminate]. }
    destruct Hdec as [Ed|Ed].
    + destruct (Hok (or_introl Ed)) as (ch' & -> & HK'). cbn [bind].
      destruct (IH ch' HK' Hl) as [IH1 IH2]. split.
      * intros Hall. apply Forall_cons_iff in Hall. now apply IH1.
      * intros Hn. apply IH2. intros Hall. apply Hn. constructor; [now left|exact Hall].
    + destruct (Z.eq_dec (sum_counts d) 0) as [Es|Es].
      * rewrite (Hbad Ed Es). cbn [bind]. split; [|reflexivity].
        intros Hall. apply Forall_cons_iff in Hall. destruct Hall as [[E|Hp] _];
          cbn [snd] in *; [contradiction|lia].
      * destruct Hok as (ch' & -> & HK'); [right; lia|]. cbn [bind].
        destruct (IH ch' HK' Hl) as [IH1 IH2]. split.
        -- intros Hall. apply Forall_cons_iff in Hall. now apply IH1.
        -- intros Hn. apply IH2. intros Hall. apply Hn.
           constructor; [right; cbn [snd]; lia|exact Hall].
Qed.

(** X13.  For a table closed under the sliding window whose counts are not
    negative and whose totals are below [2^1023], [build_markov_chain]
    returns a chain exactly when every n-gram that has successor letters has
    a positive total; otherwise it raises [ZeroDivisionError]. *)
Theorem build_markov_chain_succeeds_iff (t : table) :
  closed_table t ->
  (forall g d c m, In (g, d) t -> In (c, m) d -> 0 <= m) ->
  (forall g d, In (g, d) t -> sum_counts d < 2 ^ 1023) ->
  (is_ok (build_markov_chain t) = true
   <-> forall g d, In (g, d) t -> d = [] \/ 0 < sum_counts d) /\
  (is_ok (build_markov_chain t) = false ->
   build_markov_chain t = Raise ZeroDivisionError).
Proof.
  intros Hclosed Hnn Hsum. unfold build_markov_chain.
  destruct (connect_nodes_result (keys t) t (create_nodes t)) as [Hok Hbad].
  { apply keys_create_nodes. }
  { apply Forall_forall. intros [g d] Hi. cbn [fst snd]. split; [|split].
    - apply (in_map fst) in Hi. exact Hi.
    - apply Forall_forall. intros [c m] Hc. cbn [fst snd]. split.
      + apply Hclosed. exists d, m. auto.
      + eapply Hnn; eauto.
    - eapply Hsum; eauto. }
  assert (Pdec : forall entry : pystr * counts,
             {snd entry = [] \/ 0 < sum_counts (snd entry)}
             + {~ (snd entry = [] \/ 0 < sum_counts (snd entry))}).
  { intros [g d]. cbn [snd]. destruct d as [|x d]; [left; now left|].
    destruct (Z_lt_dec 0 (sum_counts (x :: d))); [left; now right|].
    right. intros [E|E]; [discriminate|contradiction]. }
  destruct (Forall_dec _ Pdec t) as [Hall|Hn].
  - destruct (Hok Hall) as [ch' ->]. cbn [is_ok]. split; [|discriminate].
    split; [|reflexivity]. intros _ g d Hi.
    rewrite Forall_forall in Hall. exact (Hall (g, d) Hi).
  - rewrite (Hbad Hn). cbn [is_ok]. split; [|reflexivity].
    split; [discriminate|]. intros Hall. exfalso. apply Hn.
    apply Forall_forall. intros [g d] Hi. cbn [snd]. eapply Hall; eauto.
Qed.

Lemma build_markov_chain_succeeds_iff_witness :
  build_markov_chain [([97], [([97], 0)])] = Raise ZeroDivisionError /\
  is_ok (build_markov_chain [([97], [([97], 2)]); ([98], [])]) = true.
Proof.
  split.
  - apply (build_markov_chain_succeeds_iff [([97], [([97], 0)])]).
    + intros g c (d & m & [E|[]] & Hc). injection E as <- <-.
      destruct Hc as [E|[]]. injection E as <- _. now left.
    + intros g d c m [E|[]] Hc. injection E as <- <-.
      destruct Hc as [E|[]]. injection E as _ <-. lia.
    + intros g d [E|[]]. injection E as <- <-. vm_compute. reflexivity.
    + reflexivity.
  - apply (build_markov_chain_succeeds_iff [([97], [([97], 2)]); ([98], [])]).
    + intros g c (d & m & [E|[E|[]]] & Hc); injection E as <- <-.
      * destruct Hc as [E|[]]. injection E as <- _. now left.
      * destruct Hc.
    + intros g d c m [E|[E|[]]] Hc; injection E as <- <-.
      * destruct Hc as [E|[]]. injection E as _ <-. lia.
      * destruct Hc.
    + intros g d [E|[E|[]]]; injection E as <- <-; vm_compute; reflexivity.
    + intros g d [E|[E|[]]]; injection E as <- <-; [right|left]; vm_compute;
        reflexivity.
Defined.

(** ** From the text to the chain *)

Lemma sum_counts_le_total (t : table) (g : pystr) (d : counts) :
  (forall g' d', In (g', d') t -> 0 <= sum_counts d') ->
  In (g, d) t -> sum_counts d <= total_count t.
Proof.
  unfold total_count, values. induction t as [|[g0 d0] t IH]; intros Hnn Hi;
    [contradiction|].
  cbn [map snd fold_right].
  assert (Hrest : 0 <= fold_right Z.add 0 (map sum_counts (map snd t))).
  { clear IH Hi. induction t as [|[g1 d1] t IH]; cbn [map snd fold_right]; [lia|].
    assert (0 <= sum_counts d1) by (apply (Hnn g1); right; now left).
    assert (0 <= fold_right Z.add 0 (map sum_counts (map snd t))).
    { apply IH. intros g' d' [E|Hi]; [apply (Hnn g'); now left|].
      apply (Hnn g'). right. now right. }
    lia. }
  destruct Hi as [E|Hi].
  - injection E as _ ->. lia.
  - assert (0 <= sum_counts d0) by (apply (Hnn g0); now left).
    assert (sum_counts d <= fold_right Z.add 0 (map sum_counts (map snd t))).
    { apply IH; [|exact Hi]. intros g' d' Hi'. apply (Hnn g'). now right. }
    lia.
Qed.

(** X14.  Counting and building compose without an exception: for a positive
    [k] and a text of at least [k] and fewer than [2^1023] characters,
    [compute_ngram_counts] returns a table and [build_markov_chain] returns
    a chain for it, with the keys of the table in their order, every key of
    [k] characters and every edge leading to a node of the chain. *)
Theorem counts_to_chain (letters : pystr) (k : Z) :
  0 < k <= len letters -> len letters < 2 ^ 1023 ->
  exists t ch,
    compute_ngram_counts letters k = Ok t /\
    build_markov_chain t = Ok ch /\
    keys ch = keys t /\
    chain_wf k ch.
Proof.
  intros Hk Hlen.
  assert (Hk0 : 0 <= k) by lia. assert (Hk1 : 0 < k) by lia.
  assert (Hkl : k <= len letters) by lia.
  assert (Hfold := compute_ngram_counts_fold letters k (conj Hk0 Hkl)).
  set (t := fold_left record_pair
              (map (spec_observation letters k) (range (len letters))) []) in *.
  pose proof (compute_ngram_counts_NoDup _ _ _ Hk0 Hfold) as Hnd.
  pose proof (compute_ngram_counts_count_table _ _ _ Hk0 Hfold) as Hct.
  destruct (count_table_spec t Hct) as [_ Hpos].
  pose proof (compute_ngram_counts_closed letters k t Hk1 Hkl Hfold)
    as Hclosed.
  assert (Htot : total_count t = len letters).
  { unfold t. rewrite total_count_fold.
    assert (E : len (map (spec_observation letters k) (range (len letters)))
                = len letters).
    { unfold len at 1. rewrite length_map. apply length_range, len_nonneg. }
    rewrite E. reflexivity. }
  assert (Hsums : forall g d, In (g, d) t -> 0 < sum_counts d < 2 ^ 1023).
  { intros g d Hi. destruct (Hpos g d Hi) as [Hne Hd].
    destruct (counts_le_sum d Hd) as [Hl _].
    assert (1 <= len d).
    { destruct d; [contradiction|]. unfold len. cbn [length]. lia. }
    split; [lia|]. eapply Z.le_lt_trans; [|exact Hlen]. rewrite <- Htot.
    apply (sum_counts_le_total t g); [|exact Hi].
    intros g' d' Hi'. destruct (Hpos g' d' Hi') as [_ Hd'].
    pose proof (proj1 (counts_le_sum d' Hd')). pose proof (len_nonneg d'). lia. }
  destruct (connect_nodes_result (keys t) t (create_nodes t)) as [Hok _].
  { apply keys_create_nodes. }
  { apply Forall_forall. intros [g d] Hi. cbn [fst snd]. split; [|split].
    - apply (in_map fst) in Hi. exact Hi.
    - apply Forall_forall. intros [c m] Hc. cbn [fst snd]. split.
      + apply Hclosed. exists d, m. auto.
      + destruct (Hpos g d Hi) as [_ Hd]. rewrite Forall_forall in Hd.
        specialize (Hd _ Hc). cbn [snd] in Hd. lia.
    - apply (Hsums g d Hi). }
  destruct Hok as [ch Hch].
  { apply Forall_forall. intros [g d] Hi. cbn [snd]. right. apply (Hsums g d Hi). }
  exists t, ch. split; [exact Hfold|]. split; [exact Hch|]. split.
  - rewrite (for_each_keys_order _ _ _ _ connect_node_keys_order Hch).
    now apply keys_create_nodes_order.
  - apply (build_markov_chain_wf letters k t ch); auto.
Qed.

Lemma counts_to_chain_witness :
  exists t ch,
    compute_ngram_counts [97; 98; 97; 99] 2 = Ok t /\
    build_markov_chain t = Ok ch /\
    keys ch = keys t /\
    chain_wf 2 ch.
Proof.
  apply (counts_to_chain [97; 98; 97; 99] 2); [cbn; lia | vm_compute; reflexivity].
Defined.

(** ** The probability of an edge *)

Lemma comprehension_In {A B : Type} (f : A -> result B) (xs : list A) (ys : list B)
  (x : A) :
  comprehension f xs = Ok ys -> In x xs -> exists y, f x = Ok y /\ In y ys.
Proof.
  revert ys. induction xs as [|x0 xs IH]; intros ys E Hi; [contradiction|].
  cbn [comprehension] in E.
  destruct (f x0) as [y0|] eqn:E0; cbn [bind] in E; [|discriminate].
  destruct (comprehension f xs) as [ys'|]; cbn [bind] in E; [|discriminate].
  injection E as <-. destruct Hi as [->|Hi].
  - exists y0. split; [exact E0 | now left].
  - destruct (IH ys' eq_refl Hi) as (y & Hy & Hin). exists y. split; [exact Hy|now right].
Qed.

(** A total that [float] converts is below [2^1025]. *)
Lemma total_below_overflow (total : Z) (weight : float) :
  1 <= total -> float_of_int total = Ok weight ->
  (inject_Z total * pow2 (-1075) <= pow2 (-50))%Q.
Proof.
  intros Ht Hw.
  assert (HT : (1 <= inject_Z total)%Q).
  { change 1%Q with (inject_Z 1). rewrite <- Zle_Qle. lia. }
  destruct rounding_constants as (Hu & Heta & Hsum & Heps).
  assert (Hpos : 0 < total) by lia.
  pose proof (float_of_int_correct _ _ Hpos Hw) as Hrw.
  destruct (rounds_to_positive _ _ HT Hrw) as (mw & ew & ->).
  cbn [rounds_to float_value] in Hrw. unfold rounding_error in Hrw.
  destruct Hrw as (Hw1 & _ & _ & Hw3).
  set (T := inject_Z total) in *.
  set (vw := (inject_Z (Z.pos mw) * pow2 ew)%Q) in *.
  assert (Hta : (T * pow2 (-53) <= T * (1 # 8))%Q) by nra.
  assert (Htb : (T <= 2 * pow2 1024)%Q) by lra.
  assert (E : (2 * pow2 1024 * pow2 (-1075) == pow2 (-50))%Q).
  { change 2%Q with (pow2 1). rewrite <- !pow2_add. reflexivity. }
  rewrite <- E. apply Qmult_le_compat_r; lra.
Qed.

(** X15.  In the chain built for a count table, every successor letter [c] that
    the table holds for an n-gram [g], with count [m], has an edge from the
    node of [g] to the node of [g[1:] + c]; the probability [p] of the edge
    is positive, and it is the quotient of [m] by the total [W] of the
    counts of [g] up to a relative error of [2^-50] and an absolute error of
    [2^-1075]: [|p * W - m| <= m * 2^-50 + W * 2^-1075]. *)
Theorem build_markov_chain_edge_probability (t : table) (ch : chain)
  (g : pystr) (d : counts) (c : pystr) (m : Z) :
  count_table t = true -> build_markov_chain t = Ok ch ->
  In (g, d) t -> In (c, m) d ->
  exists nd p,
    dict_get g ch = Some nd /\
    In (py_slice_from g 1 ++ c, p) (next_states nd) /\
    (0 < float_value p)%Q /\
    (Qabs (float_value p * inject_Z (sum_counts d) - inject_Z m)
     <= inject_Z m * pow2 (-50) + inject_Z (sum_counts d) * pow2 (-1075))%Q.
Proof.
  intros Hct Hb Hg Hc.
  destruct (count_table_spec t Hct) as [Hnd Hpos].
  destruct (build_markov_chain_nodes t ch Hnd Hb) as [_ Hnodes].
  destruct (Hnodes g d Hg) as (w & es & Hw & Hes & Hnode & _).
  destruct (Hpos g d Hg) as [_ Hd].
  destruct (counts_le_sum d Hd) as [_ Hle].
  rewrite Forall_forall in Hle. specialize (Hle _ Hc). cbn [snd] in Hle.
  destruct (comprehension_In _ _ _ _ Hes Hc) as ([tgt p] & He & Hin).
  unfold edge_of in He. cbn [fst snd] in He.
  destruct (truediv m w) as [p'|] eqn:Ep; cbn [bind] in He; [|discriminate].
  injection He as <- <-.
  destruct (truediv_correct m (sum_counts d) w p' Hle Hw Ep) as (_ & H1 & H2).
  assert (Hsum1 : 1 <= sum_counts d) by lia.
  pose proof (total_below_overflow (sum_counts d) w Hsum1 Hw) as Heta.
  exists (insert_edges es (empty_node g)), p'.
  split; [exact Hnode|]. split.
  { apply In_insert_edges. now right. }
  assert (E50 : (4 * pow2 (-52) == pow2 (-50))%Q).
  { change 4%Q with (pow2 2). rewrite <- pow2_add. reflexivity. }
  assert (H50 : (pow2 (-50) <= 1 # 8)%Q).
  { pose proof (pow2_le (-50) (-3) ltac:(lia)) as H.
    assert (E3 : (pow2 (-3) == 1 # 8)%Q) by reflexivity. now rewrite E3 in H. }
  assert (HM : (1 <= inject_Z m)%Q).
  { change 1%Q with (inject_Z 1). rewrite <- Zle_Qle. lia. }
  assert (HT : (1 <= inject_Z (sum_counts d))%Q).
  { change 1%Q with (inject_Z 1). rewrite <- Zle_Qle. lia. }
  set (P := float_value p') in *. set (T := inject_Z (sum_counts d)) in *.
  set (M := inject_Z m) in *. set (eta := pow2 (-1075)) in *.
  set (e50 := pow2 (-50)) in *.
  assert (G1 : (P * T - M <= M * e50 + T * eta)%Q).
  { assert (X : ((P - eta) * T == P * T - T * eta)%Q) by ring.
    assert (Y : (M * (1 + 4 * pow2 (-52)) == M + M * e50)%Q).
    { rewrite E50. unfold e50. ring. }
    rewrite X, Y in H1. lra. }
  assert (G2 : (M - P * T <= M * e50 + T * eta)%Q).
  { assert (X : ((P + eta) * T == P * T + T * eta)%Q) by ring.
    assert (Y : (M * (1 - 4 * pow2 (-52)) == M - M * e50)%Q).
    { rewrite E50. unfold e50. ring. }
    rewrite X, Y in H2. lra. }
  split.
  - destruct (Qlt_le_dec 0 P) as [Hp|Hp]; [exact Hp|]. exfalso.
    assert (Hpt : (P * T <= 0)%Q).
    { rewrite <- (Qmult_0_l T). apply Qmult_le_compat_r; lra. }
    assert (Hme : (M * e50 <= M * (1 # 8))%Q).
    { rewrite !(Qmult_comm M). apply Qmult_le_compat_r; lra. }
    fold T eta e50 in Heta. lra.
  - apply Qabs_Qle_condition. split; lra.
Qed.

Lemma build_markov_chain_edge_probability_witness :
  exists nd p,
    dict_get [97] example_chain = Some nd /\
    In (py_slice_from [97] 1 ++ [98], p) (next_states nd) /\
    (0 < float_value p)%Q /\
    (Qabs (float_value p
           * inject_Z (sum_counts [([99], 1); ([98], 2); ([100], 1)]%Z) - inject_Z 2)
     <= inject_Z 2 * pow2 (-50)
        + inject_Z (sum_counts [([99], 1); ([98], 2); ([100], 1)]%Z) * pow2 (-1075))%Q.
Proof.
  apply (build_markov_chain_edge_probability example_table example_chain [97]
           [([99], 1); ([98], 2); ([100], 1)] [98] 2).
  - reflexivity.
  - vm_compute. reflexivity.
  - now left.
  - right. now left.
Defined.

(** ** [string_to_decimal] and [string_from_decimal] *)

(** X16.  Decoding inverts encoding: for a string of valid characters (code points
    0 to 1114111), [string_from_decimal] of [string_to_decimal] is the
    string; so two such strings with the same decimal text are equal. *)
Theorem string_decimal_round_trip (s s' : pystr) :
  forallb valid_char s = true ->
  string_from_decimal (string_to_decimal s) = Ok s /\
  (forallb valid_char s' = true ->
   string_to_decimal s = string_to_decimal s' -> s = s').
Proof.
  intros Hs. split; [now apply string_from_to_decimal|].
  intros Hs' E.
  pose proof (string_from_to_decimal s Hs) as H1.
  pose proof (string_from_to_decimal s' Hs') as H2.
  rewrite E in H1. congruence.
Qed.

Lemma string_decimal_round_trip_witness :
  string_from_decimal (string_to_decimal [104; 105; 32; 8364; 1114111])
  = Ok [104; 105; 32; 8364; 1114111] /\
  (forallb valid_char [104; 105] = true ->
   string_to_decimal [104; 105; 32; 8364; 1114111] = string_to_decimal [104; 105] ->
   [104; 105; 32; 8364; 1114111] = [104; 105]).
Proof.
  apply (string_decimal_round_trip [104; 105; 32; 8364; 1114111] [104; 105]).
  reflexivity.
Defined.

(** A field that decodes to one character: an integer literal from 0 to
    1114111. *)
Definition code_field (field : string) : bool :=
  match py_int field with
  | Ok n => valid_char n
  | Raise _ => false
  end.

Lemma py_chr_ok (n : Z) : py_chr n = if valid_char n then Ok [n] else py_chr n.
Proof.
  unfold py_chr, valid_char. now destruct ((0 <=? n) && (n <=? 1114111)).
Qed.

Lemma py_chr_fails (n : Z) : valid_char n = false -> is_ok (py_chr n) = false.
Proof.
  unfold py_chr, valid_char. intros ->.
  now destruct ((-2147483648 <=? n) && (n <=? 2147483647)).
Qed.

Lemma decode_fields (fields : list string) :
  match comprehension (fun number => n <- py_int number ;; py_chr n) fields with
  | Ok letters =>
      forallb code_field fields = true /\
      length letters = length fields /\
      Forall (fun l => exists c, l = [c] /\ valid_char c = true) letters
  | Raise _ => forallb code_field fields = false
  end.
Proof.
  induction fields as [|f fields IH]; cbn [comprehension forallb].
  - repeat split. constructor.
  - unfold code_field at 1 3.
    destruct (py_int f) as [n|e]; cbn [bind]; [|reflexivity].
    destruct (valid_char n) eqn:Ev.
    + rewrite py_chr_ok, Ev. cbn [bind andb].
      destruct (comprehension _ fields) as [letters|e]; cbn [bind]; [|exact IH].
      destruct IH as (H1 & H2 & H3). split; [exact H1|]. split.
      * cbn [length]. now rewrite H2.
      * constructor; [eauto | exact H3].
    + pose proof (py_chr_fails n Ev) as Hf.
      destruct (py_chr n); [discriminate|reflexivity].
Qed.

Lemma length_concat_letters (letters : list pystr) :
  Forall (fun l => exists c : Z, l = [c] /\ valid_char c = true) letters ->
  length (concat letters) = length letters
  /\ forallb valid_char (concat letters) = true.
Proof.
  induction 1 as [|l letters (c & -> & Hc) _ [IH1 IH2]]; [now split|].
  cbn [concat app length forallb]. rewrite Hc, IH1, IH2. now split.
Qed.

(** X17.  [string_from_decimal] returns a string exactly when every field of its
    argument (the fields that [split] separates at whitespace) is an integer
    literal from 0 to 1114111; the string then has one character for each
    field, whatever the whitespace around the fields is. *)
Theorem string_from_decimal_fields (decimal : string) :
  (is_ok (string_from_decimal decimal) = true
   <-> forallb code_field (split decimal) = true) /\
  forall s, string_from_decimal decimal = Ok s ->
    len s = len (split decimal) /\ forallb valid_char s = true.
Proof.
  unfold string_from_decimal.
  pose proof (decode_fields (split decimal)) as H.
  destruct (comprehension _ (split decimal)) as [letters|e]; cbn [bind is_ok].
  - destruct H as (H1 & H2 & H3).
    destruct (length_concat_letters letters H3) as [L1 L2].
    split; [tauto|]. intros s E. injection E as <-.
    split; [|exact L2]. unfold len. now rewrite L1, H2.
  - rewrite H. split; [split; discriminate|]. intros s E. discriminate.
Qed.

Lemma string_from_decimal_fields_witness :
  len [104; 105] = len (split "  104 	105 ") /\ forallb valid_char [104; 105] = true.
Proof.
  apply (proj2 (string_from_decimal_fields "  104 	105 ") [104; 105]).
  reflexivity.
Defined.

(** ** The text of the model file *)

(** The characters of a model file: the decimal digits, the minus sign, the
    space and the newline. *)
Definition file_char (c : ascii) : bool :=
  is_digit c || Ascii.eqb c "-"%char || Ascii.eqb c space || Ascii.eqb c newline.

Lemma py_str_file_chars (z : Z) : string_forall file_char (py_str z) = true.
Proof.
  assert (Hd : forall d, string_forall file_char (NilZero.string_of_uint d) = true).
  { intros d. destruct (Decimal.uint_eq_dec d Decimal.Nil) as [->|Hn];
      [reflexivity|].
    destruct (string_of_uint_nonnil d Hn) as (-> & _).
    eapply string_forall_impl; [|apply string_of_uint_digits].
    intros c Hc. unfold file_char. now rewrite Hc. }
  unfold py_str. destruct (Z.to_int z) as [d|d]; cbn [NilZero.string_of_int].
  - apply Hd.
  - cbn [string_forall]. rewrite Hd. reflexivity.
Qed.

Lemma string_to_decimal_file_chars (s : pystr) :
  string_forall file_char (string_to_decimal s) = true.
Proof.
  unfold string_to_decimal. induction s as [|c s IH]; [reflexivity|].
  cbn [map]. destruct s as [|c' s]; cbn [join map].
  - apply py_str_file_chars.
  - rewrite string_forall_append, py_str_file_chars.
    cbn [append string_forall andb]. change (file_char " ") with true.
    cbn [andb]. exact IH.
Qed.

Lemma concat_file_chars (l : list string) :
  Forall (fun s => string_forall file_char s = true) l ->
  string_forall file_char (String.concat "" l) = true.
Proof.
  induction 1 as [|x l Hx _ IH]; [reflexivity|].
  rewrite string_concat_cons, string_forall_append, Hx. exact IH.
Qed.

Lemma write_ngram_file_chars (e : pystr * counts) :
  string_forall file_char (write_ngram e) = true.
Proof.
  destruct e as [g d]. unfold write_ngram.
  rewrite !string_forall_append, string_to_decimal_file_chars, py_str_file_chars.
  cbn [string_forall andb]. change (file_char " ") with true.
  change (file_char newline) with true. cbn [andb]. rewrite andb_true_r.
  apply concat_file_chars. apply Forall_forall. intros s Hs.
  apply in_map_iff in Hs. destruct Hs as ([c m] & <- & _). unfold write_letter_count.
  rewrite !string_forall_append, string_to_decimal_file_chars, py_str_file_chars.
  reflexivity.
Qed.

Lemma readlines_line (body rest : string) :
  string_forall not_newline body = true ->
  readlines (body ++ String newline rest)
  = (body ++ String newline "")%string :: readlines rest.
Proof.
  intros Hb. pose proof (readline_line body rest Hb) as Hr.
  destruct (body ++ String newline rest)%string as [|c s] eqn:E.
  - destruct body; discriminate.
  - rewrite readlines_cons, Hr. reflexivity.
Qed.

Lemma readlines_ngrams (t : table) :
  readlines (String.concat "" (map write_ngram t)) = map write_ngram t.
Proof.
  induction t as [|e t IH]; [reflexivity|].
  cbn [map]. rewrite string_concat_cons, write_ngram_line, append_assoc.
  cbn [append]. rewrite readlines_line by apply ngram_line_not_newline.
  now rewrite IH.
Qed.

(** X18.  The file that [write_ngram_counts_to_file] writes, for any table and
    any characters in its strings: its lines are the header line and one
    line for each item of the table, in the order of the table, each ended
    by a newline; and its characters are decimal digits, minus signs,
    spaces and newlines only. *)
Theorem write_ngram_counts_to_file_format (t : table) (k : Z) :
  readlines (write_ngram_counts_to_file t k)
  = (py_str k ++ " " ++ py_str (len t) ++ String newline "")%string
    :: map write_ngram t /\
  len (readlines (write_ngram_counts_to_file t k)) = len t + 1 /\
  string_forall file_char (write_ngram_counts_to_file t k) = true.
Proof.
  assert (Hlines : readlines (write_ngram_counts_to_file t k)
                   = (py_str k ++ " " ++ py_str (len t) ++ String newline "")%string
                     :: map write_ngram t).
  { unfold write_ngram_counts_to_file.
    replace (py_str k ++ " " ++ py_str (len t) ++ String newline ""
             ++ String.concat "" (map write_ngram t))%string
      with ((py_str k ++ " " ++ py_str (len t))
            ++ String newline (String.concat "" (map write_ngram t)))%string
      by (now rewrite !append_assoc).
    rewrite readlines_line.
    - rewrite readlines_ngrams. f_equal. now rewrite !append_assoc.
    - rewrite string_forall_append, (is_token_not_newline (py_str k))
        by apply is_token_py_str.
      change (" " ++ py_str (len t))%string with (String space (py_str (len t))).
      cbn [string_forall andb]. change (not_newline space) with true. cbn [andb].
      apply is_token_not_newline, is_token_py_str. }
  split; [exact Hlines|]. split.
  - rewrite Hlines. unfold len. cbn [length]. rewrite length_map. lia.
  - unfold write_ngram_counts_to_file.
    rewrite !string_forall_append, !py_str_file_chars.
    cbn [string_forall andb]. change (file_char " ") with true.
    change (file_char newline) with true. cbn [andb].
    apply concat_file_chars. apply Forall_forall. intros s Hs.
    apply in_map_iff in Hs. destruct Hs as (e & <- & _).
    apply write_ngram_file_chars.
Qed.

(** ** The tables that [read_ngram_counts_from_file] returns *)

Lemma py_index_In {A : Type} (l : list A) (i : Z) (x : A) :
  py_index l i = Ok x -> In x l /\ - len l <= i < len l.
Proof.
  unfold py_index. set (j := if i <? 0 then i + len l else i).
  destruct (Z.leb_spec 0 j); [|discriminate].
  destruct (Z.ltb_spec j (len l)); [|discriminate]. cbn [andb].
  destruct (nth_error l (Z.to_nat j)) as [y|] eqn:E; [|discriminate].
  intros H'. injection H' as <-. split; [eapply nth_error_In; eauto|].
  unfold j in *. destruct (Z.ltb_spec i 0); lia.
Qed.

Lemma forallb_In {A : Type} (P : A -> bool) (l : list A) (x : A) :
  forallb P l = true -> In x l -> P x = true.
Proof. intros Hl. rewrite forallb_forall in Hl. apply Hl. Qed.

(** A field that decodes: one valid character. *)
Lemma string_from_decimal_token (field : string) (s : pystr) :
  is_token field = true -> string_from_decimal field = Ok s -> is_letter s = true.
Proof.
  intros Ht. unfold string_from_decimal. rewrite split_token by assumption.
  cbn [comprehension]. destruct (py_int field) as [n|]; cbn [bind]; [|discriminate].
  rewrite py_chr_ok. destruct (valid_char n) eqn:Ev.
  - cbn [bind concat app]. intros E. injection E as <-. exact Ev.
  - pose proof (py_chr_fails n Ev). destruct (py_chr n); discriminate.
Qed.

Lemma counts_wf_set (letter : pystr) (count : Z) (d : counts) :
  is_letter letter = true -> counts_wf d = true ->
  counts_wf (dict_set letter count d) = true.
Proof.
  unfold counts_wf. intros Hl Hd. apply andb_true_iff in Hd. destruct Hd as [H1 H2].
  apply andb_true_iff. split.
  - apply NoDup_distinct, NoDup_keys_dict_set. now apply distinct_NoDup.
  - apply forallb_forall. intros x Hx. apply In_keys_dict_set in Hx.
    destruct Hx as [->|Hx]; [exact Hl|]. eapply forallb_In; eauto.
Qed.

(** The loop of lines 143-146 builds a dictionary of distinct one-character
    keys. *)
Lemma read_letter_counts_wf (fields : list string) (k : Z) (xs : list Z)
  (d d' : counts) :
  forallb is_token fields = true ->
  counts_wf d = true ->
  for_each xs (read_letter_count fields k) d = Ok d' ->
  counts_wf d' = true.
Proof.
  intros Hf. revert d. induction xs as [|j xs IH]; intros d Hd; cbn [for_each].
  - intros E. now injection E as <-.
  - unfold read_letter_count at 1.
    destruct (py_index fields (1 + k + j * 2)) as [field|] eqn:E1; cbn [bind];
      [|discriminate].
    destruct (string_from_decimal field) as [letter|] eqn:E2; cbn [bind];
      [|discriminate].
    destruct (py_index fields (1 + k + (j * 2 + 1))) as [field'|]; cbn [bind];
      [|discriminate].
    destruct (py_int field') as [count|]; cbn [bind]; [|discriminate].
    apply IH. apply counts_wf_set; [|exact Hd].
    apply (string_from_decimal_token field); [|exact E2].
    eapply forallb_In; [exact Hf|]. apply (py_index_In _ _ _ E1).
Qed.

(** Lines 136-148 add an item of the data model to a table of the data
    model. *)
Lemma read_ngram_wf (k : Z) (file file' : string) (ngrams ngrams' : table) (i : Z) :
  0 <= k -> table_wf k ngrams = true ->
  read_ngram k (file, ngrams) i = Ok (file', ngrams') ->
  table_wf k ngrams' = true.
Proof.
  intros Hk Hwf. unfold read_ngram. destruct (readline file) as [line rest].
  pose proof (split_tokens line) as Htok. set (fields := split line) in *.
  destruct (string_from_decimal (join " " (py_slice fields 0 k))) as [g|] eqn:Eg;
    cbn [bind]; [|discriminate].
  destruct (py_index fields k) as [field|] eqn:Ef; cbn [bind]; [|discriminate].
  destruct (py_int field) as [m|]; cbn [bind]; [|discriminate].
  destruct (for_each (range m) (read_letter_count fields k) []) as [d|] eqn:Ed;
    cbn [bind]; [|discriminate].
  intros E. injection E as _ <-.
  assert (Hd : counts_wf d = true).
  { eapply read_letter_counts_wf; [exact Htok| |exact Ed]. reflexivity. }
  assert (Hg : len g = k /\ forallb valid_char g = true).
  { rewrite py_slice_0 in Eg by assumption.
    unfold string_from_decimal in Eg.
    rewrite split_join in Eg by now apply forallb_firstn.
    pose proof (decode_fields (firstn (Z.to_nat k) fields)) as Hdec.
    destruct (comprehension _ (firstn (Z.to_nat k) fields)) as [letters|];
      cbn [bind] in Eg; [|discriminate].
    injection Eg as <-. destruct Hdec as (_ & Hlen & Hletters).
    destruct (length_concat_letters letters Hletters) as [L1 L2].
    split; [|exact L2]. unfold len. rewrite L1, Hlen, length_firstn.
    destruct (py_index_In _ _ _ Ef) as [_ Hb]. unfold len in Hb. lia. }
  unfold table_wf in *. apply andb_true_iff in Hwf. destruct Hwf as [H1 H2].
  apply andb_true_iff. split.
  - apply NoDup_distinct, NoDup_keys_dict_set. now apply distinct_NoDup.
  - apply forallb_forall. intros [g' d'] Hi. apply In_dict_set in Hi.
    destruct Hi as [[-> ->]|Hi]; [|eapply forallb_In; eauto].
    unfold entry_wf. cbn [fst snd]. destruct Hg as [-> ->].
    now rewrite Z.eqb_refl, Hd.
Qed.

Lemma read_ngrams_wf (k : Z) (xs : list Z) (file file' : string)
  (ngrams ngrams' : table) :
  0 <= k -> table_wf k ngrams = true ->
  for_each xs (read_ngram k) (file, ngrams) = Ok (file', ngrams') ->
  table_wf k ngrams' = true.
Proof.
  intros Hk. revert file ngrams. induction xs as [|i xs IH]; intros file ngrams Hwf;
    cbn [for_each].
  - intros E. now injection E as _ <-.
  - destruct (read_ngram k (file, ngrams) i) as [[file1 ngrams1]|] eqn:E1;
      cbn [bind]; [|discriminate].
    apply IH. eapply read_ngram_wf; eauto.
Qed.

(** X19.  Whatever the file is, a table that [read_ngram_counts_from_file]
    returns with an n-gram length [k >= 0] is a table of the data model:
    its keys are distinct strings of exactly [k] valid characters and the
    successor keys of every n-gram are distinct single characters.  Written
    again with [write_ngram_counts_to_file], it is read back unchanged. *)
Theorem read_ngram_counts_from_file_shape (file : string) (t : table) (k : Z) :
  read_ngram_counts_from_file file = Ok (t, k) -> 0 <= k ->
  table_wf k t = true /\
  read_ngram_counts_from_file (write_ngram_counts_to_file t k) = Ok (t, k).
Proof.
  intros Hr Hk.
  assert (Hwf : table_wf k t = true).
  { unfold read_ngram_counts_from_file in Hr. destruct (readline file) as [line rest].
    destruct (comprehension py_int (split line)) as [header|]; cbn [bind] in Hr;
      [|discriminate].
    destruct header as [|k' [|n [|x header]]]; try discriminate.
    destruct (for_each (range n) (read_ngram k') (rest, [])) as [[file' t']|] eqn:E;
      cbn [bind snd] in Hr; [|discriminate].
    injection Hr as <- <-. eapply read_ngrams_wf; [exact Hk| |exact E]. reflexivity. }
  split; [exact Hwf | now apply read_write_table].
Qed.

Lemma read_ngram_counts_from_file_shape_witness :
  table_wf 1 [([97], [([98], 7)]); ([98], [])] = true /\
  read_ngram_counts_from_file
    (write_ngram_counts_to_file [([97], [([98], 7)]); ([98], [])] 1)
  = Ok ([([97], [([98], 7)]); ([98], [])], 1).
Proof.
  apply (read_ngram_counts_from_file_shape
           ("1 3" ++ String newline
              ("97 1 98 5" ++ String newline
                 (" 98   0  junk" ++ String newline
                    ("+97 1 0_98 7 trailing" ++ String newline "never read"))))%string).
  - reflexivity.
  - lia.
Defined.

(** ** [generate_text]: the text comes from the source *)

Lemma comprehension_In_inv {A B : Type} (f : A -> result B) (xs : list A)
  (ys : list B) (y : B) :
  comprehension f xs = Ok ys -> In y ys -> exists x, In x xs /\ f x = Ok y.
Proof.
  revert ys. induction xs as [|x0 xs IH]; intros ys E Hi; cbn [comprehension] in E.
  - injection E as <-. contradiction.
  - destruct (f x0) as [y0|] eqn:E0; cbn [bind] in E; [|discriminate].
    destruct (comprehension f xs) as [ys'|]; cbn [bind] in E; [|discriminate].
    injection E as <-. destruct Hi as [<-|Hi].
    + exists x0. split; [now left|exact E0].
    + destruct (IH ys' eq_refl Hi) as (x & Hx & Hy). exists x. split; [now right|exact Hy].
Qed.

(** The nodes of a built chain, edge by edge: an edge of the node of [g]
    comes from a successor letter [c] of [g] with its count [m]; it leads to
    the node of [g[1:] + c] and has the probability [m / float(total)]. *)
Lemma build_markov_chain_edges (t : table) (ch : chain) :
  NoDup (keys t) -> build_markov_chain t = Ok ch ->
  forall g nd, dict_get g ch = Some nd ->
    ngram nd = g /\
    exists d w,
      dict_get g t = Some d /\ float_of_int (sum_counts d) = Ok w /\
      (forall c m, In (c, m) d ->
         exists p, truediv m w = Ok p
                   /\ In (py_slice_from g 1 ++ c, p) (next_states nd)) /\
      forall e, In e (next_states nd) ->
        In (fst e) (keys ch) /\
        exists c m, In (c, m) d /\ fst e = py_slice_from g 1 ++ c
                    /\ truediv m w = Ok (snd e).
Proof.
  intros Hnd Hb g nd Hg.
  destruct (build_markov_chain_nodes t ch Hnd Hb) as [Hkeys Hnodes].
  assert (Hi : In g (keys t)).
  { apply Hkeys. apply dict_get_Some_keys. eauto. }
  apply dict_get_Some_keys in Hi. destruct Hi as [d Hd].
  destruct (Hnodes g d (dict_get_In _ _ _ Hd)) as (w & es & Hw & Hes & Hnode & Hin).
  rewrite Hnode in Hg. injection Hg as <-.
  split; [apply ngram_insert_edges|]. exists d, w.
  split; [exact Hd|]. split; [exact Hw|]. split.
  - intros c m Hc. destruct (comprehension_In _ _ _ _ Hes Hc) as ([tgt p] & He & Hp).
    unfold edge_of in He. cbn [fst snd] in He.
    destruct (truediv m w) as [p'|]; cbn [bind] in He; [|discriminate].
    injection He as <- <-. exists p'. split; [reflexivity|].
    apply In_insert_edges. now right.
  - intros e He. apply In_insert_edges in He. cbn [empty_node next_states] in He.
    destruct He as [[]|He]. split.
    + apply Hkeys. rewrite Forall_forall in Hin. now apply Hin.
    + destruct (comprehension_In_inv _ _ _ _ Hes He) as ([c m] & Hc & Hf).
      unfold edge_of in Hf. cbn [fst snd] in Hf.
      destruct (truediv m w) as [p'|] eqn:Ep; cbn [bind] in Hf; [|discriminate].
      injection Hf as <-. exists c, m. cbn [fst snd]. repeat split; auto.
Qed.

Lemma range_succ (k : Z) : 0 <= k -> range (k + 1) = range k ++ [k].
Proof.
  intros Hk. unfold range.
  replace (Z.to_nat (k + 1)) with (S (Z.to_nat k)) by lia.
  rewrite seq_S, map_app. cbn [map Nat.add]. now rewrite Z2Nat.id.
Qed.

Lemma spec_circular_ngram_succ (letters : pystr) (k i : Z) :
  0 <= k ->
  spec_circular_ngram letters (k + 1) i
  = spec_circular_ngram letters k i ++ spec_circular_next letters k i.
Proof.
  intros Hk. unfold spec_circular_ngram, spec_circular_next.
  now rewrite range_succ, map_app.
Qed.

Lemma app_suffix_eq {A : Type} (l1 l2 w1 w2 : list A) :
  l1 ++ w1 = l2 ++ w2 -> length w1 = length w2 -> l1 = l2 /\ w1 = w2.
Proof.
  intros E Hl. assert (Hl' : length l1 = length l2).
  { apply (f_equal (@length A)) in E. rewrite !length_app in E. lia. }
  revert l2 E Hl'. induction l1 as [|x l1 IH]; intros [|y l2] E Hl';
    try discriminate.
  - now split.
  - cbn in E. injection E as -> E. cbn in Hl'.
    destruct (IH l2 E ltac:(lia)) as [-> ->]. now split.
Qed.

(** Every stretch of [size] characters of [s] satisfies [P]. *)
Definition stretches (size : Z) (P : pystr -> Prop) (s : pystr) : Prop :=
  forall before w after, s = before ++ w ++ after -> len w = size -> P w.

Lemma stretches_short (size : Z) (P : pystr -> Prop) (s : pystr) :
  len s < size -> stretches size P s.
Proof.
  intros Hs before w after -> Hw. rewrite !len_app in Hs.
  pose proof (len_nonneg before). pose proof (len_nonneg after). lia.
Qed.

(** Appending a character adds one stretch, the last one. *)
Lemma stretches_snoc (size : Z) (P : pystr -> Prop) (s : pystr) (x : Z)
  (before w : pystr) :
  stretches size P s -> s ++ [x] = before ++ w -> len w = size -> P w ->
  stretches size P (s ++ [x]).
Proof.
  intros Hs E Hw Pw before' w' after' E' Hw'.
  destruct after' as [|a after'] using rev_ind.
  - rewrite app_nil_r in E'. rewrite E in E'.
    destruct (app_suffix_eq _ _ _ _ E') as [_ ->]; [|exact Pw].
    unfold len in *. lia.
  - clear IHafter'. rewrite !app_assoc in E'.
    apply app_inj_tail in E'. destruct E' as [E' _].
    apply (Hs before' w' after'); [|exact Hw']. now rewrite E', app_assoc.
Qed.

Lemma str_index_snoc (s : pystr) (x : Z) : str_index (s ++ [x]) (-1) = Ok [x].
Proof.
  unfold str_index, py_index. cbn [Z.ltb Z.compare]. rewrite len_app.
  change (len [x]) with 1. pose proof (len_nonneg s) as Hs.
  replace (0 <=? -1 + (len s + 1)) with true by (symmetry; apply Z.leb_le; lia).
  replace (-1 + (len s + 1) <? len s + 1) with true by (symmetry; apply Z.ltb_lt; lia).
  cbn [andb]. replace (Z.to_nat (-1 + (len s + 1))) with (length s)
    by (unfold len; lia).
  rewrite nth_error_app2 by lia. rewrite Nat.sub_diag. reflexivity.
Qed.

Lemma choice_Ok_In {A : Type} (rs : random_source) (l : list A) (x : A) :
  choice rs l = Ok x -> In x l.
Proof.
  unfold choice. destruct l as [|a l]; [discriminate|].
  destruct (nth_error (a :: l) _) as [y|] eqn:E; [|discriminate].
  intros H. injection H as <-. eapply nth_error_In; eauto.
Qed.

Section MarkovProperty.

Variables (letters : pystr) (k : Z) (t : table) (ch : chain).
Hypothesis Hk : 0 < k.
Hypothesis Ht : compute_ngram_counts letters k = Ok t.
Hypothesis Hb : build_markov_chain t = Ok ch.

(** [w] is read in the circular text, from some position on. *)
Definition from_source (size : Z) (w : pystr) : Prop :=
  exists i, 0 <= i < len letters /\ w = spec_circular_ngram letters size i.

(** The state of the walk: the node is a node of the chain and its n-gram
    ends the text; the text is made of characters of the source, its
    stretches of [k] characters are n-grams of the chain and its stretches
    of [k + 1] characters are read in the circular source. *)
Definition walk_inv (st : walk_state) : Prop :=
  In (node st) (keys ch) /\
  (exists before, join_text (text st) = before ++ node st) /\
  incl (join_text (text st)) letters /\
  stretches k (fun w => In w (keys ch)) (join_text (text st)) /\
  stretches (k + 1) (from_source (k + 1)) (join_text (text st)).

Lemma chain_key_from_source (g : pystr) :
  In g (keys ch) -> from_source k g.
Proof.
  intros Hg.
  pose proof (compute_ngram_counts_NoDup _ _ _ (Z.lt_le_incl _ _ Hk) Ht) as Hnd.
  destruct (build_markov_chain_nodes t ch Hnd Hb) as [Hkeys _].
  apply Hkeys in Hg.
  apply (compute_ngram_counts_keys letters k t g (Z.lt_le_incl _ _ Hk) Ht) in Hg.
  exact Hg.
Qed.

Lemma entry_from_source (g c : pystr) :
  has_entry t g c ->
  exists i, 0 <= i < len letters /\ g = spec_circular_ngram letters k i
            /\ c = spec_circular_next letters k i.
Proof.
  intros He. pose proof (compute_ngram_counts_Ok_len _ _ _ Ht) as Hl.
  pose proof Ht as Ht'.
  rewrite compute_ngram_counts_fold in Ht' by lia. injection Ht' as Ht'.
  rewrite <- Ht' in He. apply has_entry_fold in He.
  destruct He as [(d & m & [] & _)|He].
  apply in_map_iff in He. destruct He as (i & Ho & Hi).
  apply In_range in Hi. injection Ho as <- <-. eauto.
Qed.

Lemma walk_step_inv (rs : random_source) (st st' : walk_state) :
  walk_inv st -> walk_step ch rs st = Ok st' -> walk_inv st'.
Proof.
  intros (Hin & (before & Hsuffix) & Hincl & Hgrams & Hwindows).
  pose proof (compute_ngram_counts_NoDup _ _ _ (Z.lt_le_incl _ _ Hk) Ht) as Hnd.
  unfold walk_step.
  destruct (lookup (node st) ch) as [self|] eqn:Eself; cbn [bind]; [|discriminate].
  apply lookup_Ok in Eself.
  destruct (get_next_state self (draws rs (selections st))) as [next|] eqn:Enext;
    cbn [bind]; [|discriminate].
  destruct (lookup next ch) as [next_node|] eqn:Enode; cbn [bind]; [|discriminate].
  apply lookup_Ok in Enode.
  destruct (build_markov_chain_edges t ch Hnd Hb _ _ Eself)
    as (Hself & d & w & Hd & _ & _ & Hedges).
  destruct (build_markov_chain_edges t ch Hnd Hb _ _ Enode) as (Hngram & _).
  apply scan_states_In in Enext. destruct Enext as [pr Hpr].
  destruct (Hedges _ Hpr) as (Hkey & c & m & Hc & Hfst & _). cbn [fst] in Hkey, Hfst.
  destruct (entry_from_source (node st) c) as (i & Hi & Hg & Hcx).
  { exists d, m. split; [now apply dict_get_In|exact Hc]. }
  set (x := spec_circular_at letters (i + k)) in *.
  assert (Hne : letters <> []).
  { intros ->. unfold len in Hi. cbn in Hi. lia. }
  assert (Hlen : len (node st) = k).
  { rewrite Hg. apply len_spec_circular_ngram. lia. }
  rewrite Hngram, Hfst, Hcx. unfold spec_circular_next. fold x.
  rewrite py_slice_from_1, str_index_snoc. cbn [bind].
  intros E. injection E as <-. unfold walk_inv. cbn [node text].
  assert (Hjoin : join_text (text st ++ [[x]]) = join_text (text st) ++ [x]).
  { unfold join_text. rewrite concat_app. cbn [concat app]. reflexivity. }
  assert (Hnext : next = tl (node st) ++ [x]).
  { rewrite Hfst, Hcx, py_slice_from_1. reflexivity. }
  assert (Hnext_in : In (tl (node st) ++ [x]) (keys ch)) by now rewrite <- Hnext.
  enough (G : forall s',
             s' = join_text (text st) ++ [x] ->
             In (tl (node st) ++ [x]) (keys ch) /\
             (exists before0, s' = before0 ++ tl (node st) ++ [x]) /\
             incl s' letters /\
             stretches k (fun w0 => In w0 (keys ch)) s' /\
             stretches (k + 1) (from_source (k + 1)) s')
    by (apply G; exact Hjoin).
  intros s' ->. split; [exact Hnext_in|].
  destruct (node st) as [|y g'] eqn:Eg.
  { unfold len in Hlen. cbn in Hlen. lia. }
  cbn [tl] in *.
  assert (Hsplit : join_text (text st) ++ [x] = (before ++ [y]) ++ (g' ++ [x])).
  { rewrite Hsuffix, <- !app_assoc. reflexivity. }
  split; [eauto|]. split.
  { intros z Hz. apply in_app_or in Hz. destruct Hz as [Hz|[<-|[]]]; [now apply Hincl|].
    now apply spec_circular_at_In. }
  split.
  - apply (stretches_snoc _ _ _ _ (before ++ [y]) (g' ++ [x])); auto.
    rewrite len_app. unfold len in *. cbn [length] in *. lia.
  - apply (stretches_snoc _ _ _ _ before ((y :: g') ++ [x])); auto.
    + rewrite Hsuffix, <- app_assoc. reflexivity.
    + rewrite len_app, Hlen. reflexivity.
    + exists i. split; [exact Hi|].
      rewrite spec_circular_ngram_succ by lia. rewrite <- Hg. reflexivity.
Qed.

Lemma while_loop_inv (rs : random_source) (target : Z) (fuel : nat)
  (st st' : walk_state) :
  walk_inv st -> while_loop fuel ch rs target st = Some (Ok st') -> walk_inv st'.
Proof.
  revert st. induction fuel as [|fuel IH]; intros st Hst; cbn [while_loop].
  - destruct (text_length st <? target); [discriminate|].
    intros E. now injection E as <-.
  - destruct (text_length st <? target).
    + destruct (walk_step ch rs st) as [st1|] eqn:E1; [|discriminate].
      apply IH. eapply walk_step_inv; eauto.
    + intros E. now injection E as <-.
Qed.

Lemma initial_state_inv (rs : random_source) (st : walk_state) :
  initial_state ch rs = Ok st -> walk_inv st.
Proof.
  pose proof (compute_ngram_counts_NoDup _ _ _ (Z.lt_le_incl _ _ Hk) Ht) as Hnd.
  unfold initial_state.
  destruct (choice rs (keys ch)) as [start|] eqn:Ec; cbn [bind]; [|discriminate].
  apply choice_Ok_In in Ec.
  destruct (lookup start ch) as [self|] eqn:Es; cbn [bind]; [|discriminate].
  apply lookup_Ok in Es.
  destruct (build_markov_chain_edges t ch Hnd Hb _ _ Es) as (Hself & _).
  intros E. injection E as <-. unfold walk_inv. cbn [node text].
  rewrite Hself, join_text_letters.
  destruct (chain_key_from_source start Ec) as (i & Hi & Hg).
  assert (Hlen : len start = k).
  { rewrite Hg. apply len_spec_circular_ngram. lia. }
  assert (Hne : letters <> []).
  { intros ->. unfold len in Hi. cbn in Hi. lia. }
  split; [exact Ec|]. split; [exists []; reflexivity|]. split.
  { rewrite Hg. now apply spec_circular_ngram_incl. }
  split.
  - intros before w after E Hw.
    assert (Hl : len before + len after = 0).
    { apply (f_equal (@len Z)) in E. rewrite !len_app in E. lia. }
    pose proof (len_nonneg before). pose proof (len_nonneg after).
    destruct before; [|unfold len in *; cbn [length] in *; lia].
    destruct after; [|unfold len in *; cbn [length] in *; lia].
    cbn [app] in E. rewrite app_nil_r in E. now subst w.
  - apply stretches_short. lia.
Qed.

End MarkovProperty.

(** X20.  The Markov property of the generated text.  For a chain built from the
    table of a text with a positive n-gram length [k], a text [s] that
    [generate_text] returns, whatever the draws are, is made of characters
    of the source; every stretch of [k] characters of [s] is an n-gram of
    the table; and every stretch of [k + 1] characters of [s] is read in
    the source taken as a circular buffer: [generate_text] never puts a
    character after an n-gram that does not follow it somewhere in the
    source. *)
Theorem generate_text_markov_property (letters : pystr) (k : Z) (t : table)
  (ch : chain) (target : Z) (rs : random_source) (fuel : nat) (s : pystr) :
  0 < k ->
  compute_ngram_counts letters k = Ok t ->
  build_markov_chain t = Ok ch ->
  generate_text fuel ch target rs = Some (Ok s) ->
  incl s letters /\
  (forall before w after, s = before ++ w ++ after -> len w = k ->
     In w (keys t)) /\
  (forall before w after, s = before ++ w ++ after -> len w = k + 1 ->
     exists i, 0 <= i < len letters /\ w = spec_circular_ngram letters (k + 1) i).
Proof.
  intros Hk Ht Hb Hs. unfold generate_text, generate_run in Hs.
  destruct (initial_state ch rs) as [st0|] eqn:E0; [|discriminate].
  pose proof (initial_state_inv letters k t ch Hk Ht Hb rs st0 E0) as H0.
  destruct (while_loop fuel ch rs target st0) as [[st|]|] eqn:Ew; try discriminate.
  injection Hs as <-.
  pose proof (while_loop_inv letters k t ch Hk Ht Hb rs target fuel st0 st H0 Ew)
    as (_ & _ & Hincl & Hgrams & Hwindows).
  split; [exact Hincl|]. split.
  - intros before w after E Hw.
    pose proof (compute_ngram_counts_NoDup _ _ _ (Z.lt_le_incl _ _ Hk) Ht) as Hnd.
    destruct (build_markov_chain_nodes t ch Hnd Hb) as [Hkeys _].
    apply Hkeys. exact (Hgrams before w after E Hw).
  - exact Hwindows.
Qed.

Lemma generate_text_markov_property_witness :
  incl [97; 98; 97; 98; 97; 98] [97; 98; 97; 98] /\
  (forall before w after, [97; 98; 97; 98; 97; 98] = before ++ w ++ after ->
     len w = 1 -> In w (keys [([97], [([98], 2)]); ([98], [([97], 2)])])) /\
  (forall before w after, [97; 98; 97; 98; 97; 98] = before ++ w ++ after ->
     len w = 1 + 1 ->
     exists i, 0 <= i < len [97; 98; 97; 98]
               /\ w = spec_circular_ngram [97; 98; 97; 98] (1 + 1) i).
Proof.
  apply (generate_text_markov_property [97; 98; 97; 98] 1
           [([97], [([98], 2)]); ([98], [([97], 2)])]
           [([97], {| ngram := [97]; next_states := [([98], float_one)] |});
            ([98], {| ngram := [98]; next_states := [([97], float_one)] |})]
           6 {| choice_draw := 0; draws := fun _ => float_zero |} 5).
  - lia.
  - reflexivity.
  - reflexivity.
  - reflexivity.
Defined.

(** ** N-grams with one successor *)

(** A positive finite float divided by itself is exactly [1.0]. *)
Lemma SFdiv_self (m : positive) (e : Z) :
  SFdiv prec emax (S754_finite false m e) (S754_finite false m e) = float_one.
Proof.
  unfold SFdiv, SFdiv_core_binary. rewrite !Z.sub_diag.
  change (Z.min (fexp prec emax 0) 0) with (-53). change (0 - -53) with 53.
  rewrite Z.shiftl_mul_pow2 by lia.
  assert (Ed : Z.div_eucl (Z.pos m * 2 ^ 53) (Z.pos m) = (2 ^ 53, 0)).
  { pose proof (Z.div_eucl_eq (Z.pos m * 2 ^ 53) (Z.pos m) ltac:(lia)) as Hq.
    pose proof (Z.mod_pos_bound (Z.pos m * 2 ^ 53) (Z.pos m) ltac:(lia)) as Hr.
    unfold Z.modulo in Hr.
    destruct (Z.div_eucl (Z.pos m * 2 ^ 53) (Z.pos m)) as [q r].
    assert (Hq' : Z.pos m * (2 ^ 53 - q) = r) by lia.
    assert (2 ^ 53 - q = 0) by nia.
    f_equal; lia. }
  rewrite Ed.
  assert (El : new_location (Z.pos m) 0 = loc_Exact).
  { unfold new_location. destruct (Z.even (Z.pos m)); reflexivity. }
  rewrite El. vm_compute. reflexivity.
Qed.

(** The node of an n-gram with one successor letter: one edge, of
    probability exactly [1.0]. *)
Lemma single_successor_node (t : table) (ch : chain) (g c : pystr) (m : Z) :
  NoDup (keys t) -> build_markov_chain t = Ok ch ->
  dict_get g t = Some [(c, m)] -> 0 < m ->
  dict_get g ch
  = Some {| ngram := g; next_states := [(py_slice_from g 1 ++ c, float_one)] |}.
Proof.
  intros Hnd Hb Hg Hm.
  destruct (build_markov_chain_nodes t ch Hnd Hb) as [_ Hnodes].
  destruct (Hnodes g _ (dict_get_In _ _ _ Hg)) as (w & es & Hw & Hes & Hnode & _).
  change (sum_counts [(c, m)]) with (m + 0) in Hw. rewrite Z.add_0_r in Hw.
  assert (H1 : (1 <= inject_Z m)%Q).
  { change 1%Q with (inject_Z 1). rewrite <- Zle_Qle. lia. }
  destruct (rounds_to_positive _ _ H1 (float_of_int_correct _ _ Hm Hw))
    as (mw & ew & ->).
  cbn [comprehension] in Hes. unfold edge_of, truediv in Hes. cbn [fst snd] in Hes.
  rewrite Hw in Hes. cbn [bind float_is_zero] in Hes. rewrite SFdiv_self in Hes.
  injection Hes as <-. rewrite Hnode. reflexivity.
Qed.

(** X21.  An n-gram that has a single successor letter in the table is followed
    by it with certainty: its node has one edge, to the node of
    [g[1:] + c], with the probability [1.0] exactly, and [get_next_state]
    returns that node for every value of [random()], from [0.0] up to but
    not including [1.0]. *)
Theorem single_successor_certain (t : table) (ch : chain) (g c : pystr) (m : Z) :
  NoDup (keys t) -> build_markov_chain t = Ok ch ->
  dict_get g t = Some [(c, m)] -> 0 < m ->
  exists nd,
    dict_get g ch = Some nd /\
    next_states nd = [(py_slice_from g 1 ++ c, float_one)] /\
    forall r, in_unit_interval r = true ->
      get_next_state nd r = Ok (py_slice_from g 1 ++ c).
Proof.
  intros Hnd Hb Hg Hm. eexists. split; [eapply single_successor_node; eauto|].
  split; [reflexivity|]. intros r Hr. unfold get_next_state.
  cbn [next_states scan_states snd fst]. now rewrite (in_unit_interval_lt_one r Hr).
Qed.

Lemma single_successor_certain_witness :
  exists nd,
    dict_get [98] example_chain = Some nd /\
    next_states nd = [(py_slice_from [98] 1 ++ [97], float_one)] /\
    forall r, in_unit_interval r = true ->
      get_next_state nd r = Ok (py_slice_from [98] 1 ++ [97]).
Proof.
  apply (single_successor_certain example_table example_chain [98] [97] 2).
  - repeat constructor; cbn; intuition discriminate.
  - vm_compute. reflexivity.
  - reflexivity.
  - lia.
Defined.

Lemma spec_circular_ngram_mod (letters : pystr) (k p : Z) :
  spec_circular_ngram letters k (p mod len letters) = spec_circular_ngram letters k p.
Proof.
  unfold spec_circular_ngram. apply map_ext. intros j.
  apply spec_circular_at_shift.
Qed.

Section SingleSuccessors.

Variables (letters : pystr) (k : Z) (t : table) (ch : chain) (rs : random_source).
Hypothesis Hk : 0 < k.
Hypothesis Ht : compute_ngram_counts letters k = Ok t.
Hypothesis Hb : build_markov_chain t = Ok ch.
Hypothesis Hsingle : forall g d, In (g, d) t -> len d = 1.
Hypothesis Hdraws : forall n, in_unit_interval (draws rs n) = true.

(** The node of the n-gram read at position [p] leads to the node of the
    n-gram read at [p + 1], with certainty. *)
Lemma single_successor_at (p : Z) :
  dict_get (spec_circular_ngram letters k p) ch
  = Some {| ngram := spec_circular_ngram letters k p;
            next_states := [(spec_circular_ngram letters k (p + 1), float_one)] |}.
Proof.
  pose proof (compute_ngram_counts_Ok_len _ _ _ Ht) as Hl.
  pose proof (compute_ngram_counts_NoDup _ _ _ (Z.lt_le_incl _ _ Hk) Ht) as Hnd.
  assert (Hn : 0 < len letters) by lia.
  set (i := p mod len letters).
  assert (Hi : 0 <= i < len letters) by (apply Z.mod_pos_bound; lia).
  assert (Hkey : In (spec_circular_ngram letters k i) (keys t)).
  { apply (compute_ngram_counts_keys letters k t); [lia|exact Ht|]. eauto. }
  apply dict_get_Some_keys in Hkey. destruct Hkey as [d Hd].
  pose proof (Hsingle _ _ (dict_get_In _ _ _ Hd)) as Hlen.
  destruct d as [|[c m] [|x d]]; try (unfold len in Hlen; cbn in Hlen; lia).
  pose proof Ht as Ht'.
  rewrite compute_ngram_counts_fold in Ht' by lia. injection Ht' as Ht'.
  pose proof (count_of_fold letters k (spec_circular_ngram letters k i)
                (spec_circular_next letters k i) (range (len letters)) []) as Hc.
  rewrite Ht' in Hc. unfold count_of at 1 in Hc. rewrite Hd in Hc.
  change (count_of [] (spec_circular_ngram letters k i)
            (spec_circular_next letters k i)) with 0 in Hc.
  assert (Hpos : 1 <= len (filter
                             (fun j => eqb (spec_circular_ngram letters k j)
                                           (spec_circular_ngram letters k i)
                                       && eqb (spec_circular_next letters k j)
                                              (spec_circular_next letters k i))
                             (range (len letters)))).
  { assert (Hin : In i (filter
                          (fun j => eqb (spec_circular_ngram letters k j)
                                        (spec_circular_ngram letters k i)
                                    && eqb (spec_circular_next letters k j)
                                           (spec_circular_next letters k i))
                          (range (len letters)))).
    { apply filter_In. split; [now apply In_range|]. now rewrite !eqb_refl. }
    destruct (filter _ _); [contradiction|]. unfold len. cbn [length]. lia. }
  cbn [dict_get] in Hc.
  destruct (eqb_spec (spec_circular_next letters k i) c) as [Ec|Ec]; [|lia].
  subst c.
  pose proof (single_successor_node t ch _ _ m Hnd Hb Hd ltac:(lia)) as Hnode.
  rewrite spec_circular_ngram_next in Hnode by exact Hk.
  unfold i in Hnode. rewrite spec_circular_ngram_mod in Hnode.
  rewrite spec_circular_ngram_mod in Hnode.
  rewrite <- (spec_circular_ngram_mod letters k (p + 1)).
  rewrite <- Z.add_mod_idemp_l by lia. rewrite spec_circular_ngram_mod. exact Hnode.
Qed.

Lemma single_successor_step (i : Z) (j : Z) (st : walk_state) :
  0 <= j ->
  node st = spec_circular_ngram letters k (i + j) ->
  join_text (text st) = spec_circular_ngram letters (k + j) i ->
  text_length st = k + j ->
  exists st',
    walk_step ch rs st = Ok st' /\
    node st' = spec_circular_ngram letters k (i + (j + 1)) /\
    join_text (text st') = spec_circular_ngram letters (k + (j + 1)) i /\
    text_length st' = k + (j + 1).
Proof.
  intros Hj Hnode Htext Hlen. unfold walk_step.
  rewrite Hnode, (proj2 (lookup_Ok _ _ _) (single_successor_at (i + j))).
  cbn [bind]. unfold get_next_state. cbn [next_states scan_states snd fst].
  rewrite (in_unit_interval_lt_one _ (Hdraws _)). cbn [bind].
  rewrite (proj2 (lookup_Ok _ _ _) (single_successor_at (i + j + 1))).
  cbn [bind ngram].
  assert (Elast : str_index (spec_circular_ngram letters k (i + j + 1)) (-1)
                  = Ok [spec_circular_at letters (i + j + 1 + (k - 1))]).
  { replace k with ((k - 1) + 1) at 1 by lia.
    rewrite spec_circular_ngram_succ by lia. apply str_index_snoc. }
  rewrite Elast. cbn [bind].
  eexists. split; [reflexivity|]. cbn [node text text_length].
  split; [f_equal; lia|]. split; [|lia].
  unfold join_text. rewrite concat_app. cbn [concat app].
  fold (join_text (text st)). rewrite Htext.
  replace (k + (j + 1)) with ((k + j) + 1) by lia.
  rewrite spec_circular_ngram_succ by lia. unfold spec_circular_next.
  do 3 f_equal. lia.
Qed.

Lemma single_successor_loop (i : Z) (target : Z) (fuel : nat) :
  forall (j : Z) (st : walk_state),
    0 <= j ->
    node st = spec_circular_ngram letters k (i + j) ->
    join_text (text st) = spec_circular_ngram letters (k + j) i ->
    text_length st = k + j ->
    (Z.to_nat (target - (k + j)) <= fuel)%nat ->
    exists st',
      while_loop fuel ch rs target st = Some (Ok st') /\
      join_text (text st')
      = spec_circular_ngram letters (Z.max target (k + j)) i.
Proof.
  induction fuel as [|fuel IH]; intros j st Hj Hnode Htext Hlen Hfuel;
    cbn [while_loop]; rewrite Hlen.
  - destruct (Z.ltb_spec (k + j) target); [lia|].
    exists st. split; [reflexivity|]. rewrite Htext. f_equal. lia.
  - destruct (Z.ltb_spec (k + j) target).
    + destruct (single_successor_step i j st Hj Hnode Htext Hlen)
        as (st1 & -> & Hn1 & Ht1 & Hl1).
      destruct (IH (j + 1) st1 ltac:(lia) Hn1 Ht1 Hl1 ltac:(lia)) as (st' & -> & E).
      exists st'. split; [reflexivity|]. rewrite E. f_equal. lia.
    + exists st. split; [reflexivity|]. rewrite Htext. f_equal. lia.
Qed.

End SingleSuccessors.

(** X22.  When every n-gram of the table has a single successor letter, the walk
    is determined by its start: whatever the values of [random()] in
    [0.0, 1.0) are, [generate_text] ends and returns the source text read
    as a circular buffer from the position [i] of the start n-gram, for
    [max length k] characters. *)
Theorem generate_text_single_successors (letters : pystr) (k : Z) (t : table)
  (ch : chain) (target : Z) (rs : random_source) :
  0 < k ->
  compute_ngram_counts letters k = Ok t ->
  build_markov_chain t = Ok ch ->
  (forall g d, In (g, d) t -> len d = 1) ->
  (forall n, in_unit_interval (draws rs n) = true) ->
  exists i, 0 <= i < len letters /\
    forall fuel, (Z.to_nat (target - k) <= fuel)%nat ->
      generate_text fuel ch target rs
      = Some (Ok (spec_circular_ngram letters (Z.max target k) i)).
Proof.
  intros Hk Ht Hb Hsingle Hdraws.
  pose proof (compute_ngram_counts_Ok_len _ _ _ Ht) as Hl.
  pose proof (compute_ngram_counts_NoDup _ _ _ (Z.lt_le_incl _ _ Hk) Ht) as Hnd.
  destruct (build_markov_chain_nodes t ch Hnd Hb) as [Hkeys _].
  assert (Hne : keys ch <> []).
  { assert (Hin : In (spec_circular_ngram letters k 0) (keys ch)).
    { apply Hkeys. apply (compute_ngram_counts_keys letters k t); [lia|exact Ht|].
      exists 0. split; [lia|reflexivity]. }
    intros E. rewrite E in Hin. contradiction. }
  destruct (choice_In rs (keys ch) Hne) as (start & Hc & Hstart).
  apply Hkeys in Hstart.
  apply (compute_ngram_counts_keys letters k t start (Z.lt_le_incl _ _ Hk) Ht)
    in Hstart.
  destruct Hstart as (i & Hi & ->).
  exists i. split; [exact Hi|]. intros fuel Hfuel.
  unfold generate_text, generate_run, initial_state. rewrite Hc. cbn [bind].
  rewrite (proj2 (lookup_Ok _ _ _)
             (single_successor_at letters k t ch Hk Ht Hb Hsingle i)).
  cbn [bind ngram].
  destruct (single_successor_loop letters k t ch rs Hk Ht Hb Hsingle Hdraws
              i target fuel 0
              {| node := spec_circular_ngram letters k i;
                 text := map (fun c => [c]) (spec_circular_ngram letters k i);
                 text_length := len (spec_circular_ngram letters k i);
                 selections := 0 |})
    as (st' & -> & E).
  - lia.
  - cbn [node]. f_equal. lia.
  - cbn [text]. rewrite join_text_letters. f_equal. lia.
  - cbn [text_length]. rewrite len_spec_circular_ngram; lia.
  - rewrite Z.add_0_r. exact Hfuel.
  - rewrite E. do 3 f_equal. lia.
Qed.

Lemma generate_text_single_successors_witness :
  exists i, 0 <= i < len [97; 98; 99] /\
    forall fuel, (Z.to_nat (7 - 1) <= fuel)%nat ->
      generate_text fuel
        [([97], {| ngram := [97]; next_states := [([98], float_one)] |});
         ([98], {| ngram := [98]; next_states := [([99], float_one)] |});
         ([99], {| ngram := [99]; next_states := [([97], float_one)] |})]
        7 {| choice_draw := 1; draws := fun _ => float_zero |}
      = Some (Ok (spec_circular_ngram [97; 98; 99] (Z.max 7 1) i)).
Proof.
  apply (generate_text_single_successors [97; 98; 99] 1
           [([97], [([98], 1)]); ([98], [([99], 1)]); ([99], [([97], 1)])]).
  - lia.
  - reflexivity.
  - reflexivity.
  - intros g d [E|[E|[E|[]]]]; injection E as <- <-; reflexivity.
  - intros n. reflexivity.
Defined.

(** ** Canonical floats

    The floats that the operations return: a mantissa of at most 53 bits,
    of exactly 53 bits unless the exponent is the least one. *)

Definition canonical (f : float) : Prop :=
  match f with
  | S754_finite _ m e =>
      Z.pos m < 2 ^ 53 /\ -1074 <= e /\ (2 ^ 52 <= Z.pos m \/ e = -1074)
  | _ => True
  end.

(** A float that is [+0.0] or positive and finite. *)
Definition nonneg_finite (f : float) : Prop :=
  match f with
  | S754_zero false | S754_finite false _ _ => True
  | _ => False
  end.

(** What [binary_round_aux] returns is canonical. *)
Lemma binary_round_aux_canonical (m e : Z) (l : location) (x : Q) :
  0 <= m ->
  located (shr_record_of_loc m l) (x * pow2 (- e))%Q ->
  e <= fexp prec emax (Zdigits2 m + e) ->
  canonical (binary_round_aux prec emax false m e l).
Proof.
  intros Hm Hloc Hpre.
  destruct (half_ulp_rounding_error m e l x Hm Hloc Hpre) as (Hx0 & Hulp & Hbig).
  unfold binary_round_aux, shr_fexp.
  pose proof (Zdigits2_upper m Hm) as Hdig.
  pose proof (Zdigits2_nonneg m Hm) as Hdig0.
  pose proof (fexp_binary64 (Zdigits2 m + e)) as Hfexp.
  set (e1 := fexp prec emax (Zdigits2 m + e)) in *.
  pose proof (shr_located (shr_record_of_loc m l) e (e1 - e) x Hloc) as Hloc1.
  pose proof (snd_shr (shr_record_of_loc m l) e (e1 - e)) as He1.
  destruct (shr (shr_record_of_loc m l) e (e1 - e)) as [mrs' e'].
  cbn [fst snd] in *.
  assert (He' : e' = e1) by lia. clear He1. subst e'.
  pose proof (pow2_pos e1) as Hp1.
  assert (Hy53 : (x * pow2 (- e1) < pow2 53)%Q).
  { apply located_bounds in Hloc. destruct (located_loc m l) as [-> _] in Hloc.
    destruct Hloc as [_ Hhi].
    assert (Hm1 : (inject_Z m + 1 <= pow2 (Zdigits2 m))%Q).
    { rewrite <- pow2_inject by assumption.
      change 1%Q with (inject_Z 1). rewrite <- inject_Z_plus, <- Zle_Qle. lia. }
    assert (Hs : (x * pow2 (- e1) == x * pow2 (- e) * pow2 (e - e1))%Q).
    { rewrite <- Qmult_assoc, <- pow2_add.
      replace (- e + (e - e1)) with (- e1) by lia. reflexivity. }
    rewrite Hs.
    apply Qlt_le_trans with (pow2 (Zdigits2 m) * pow2 (e - e1))%Q.
    - apply Qmult_lt_compat_r; [apply pow2_pos | lra].
    - rewrite <- pow2_add. apply pow2_le. lia. }
  pose proof (located_bounds _ _ Hloc1) as [Hlo1 Hhi1].
  pose proof (round_nearest_even_located _ _ Hloc1) as Hrnd. cbv zeta in Hrnd.
  destruct Hloc1 as [Hm' _].
  set (m1 := round_nearest_even (shr_m mrs') (loc_of_shr_record mrs')) in *.
  destruct Hrnd as (Hm1 & Hr1 & Hr2).
  assert (Hm'53 : shr_m mrs' < 2 ^ 53).
  { apply Qlt_inject_Z. rewrite pow2_inject by lia. lra. }
  (* a normal exponent comes with a mantissa of 53 bits *)
  assert (Hnormal : -1074 < e1 -> 2 ^ 52 <= shr_m mrs').
  { intros Hn. specialize (Hbig Hn).
    assert (Hy : (pow2 52 <= x * pow2 (- e1))%Q).
    { assert (E : (pow2 52 == pow2 (e1 + 52) * pow2 (- e1))%Q).
      { rewrite <- pow2_add. replace (e1 + 52 + - e1) with 52 by lia. reflexivity. }
      rewrite E. apply Qmult_le_compat_r; [exact Hbig|].
      apply Qlt_le_weak, pow2_pos. }
    assert (Hlt : (inject_Z (2 ^ 52 - 1) < inject_Z (shr_m mrs'))%Q).
    { rewrite <- pow2_inject in Hy by lia.
      assert (E1 : (inject_Z (2 ^ 52 - 1) == inject_Z (2 ^ 52) - 1)%Q).
      { change (2 ^ 52 - 1) with (2 ^ 52 + -1). rewrite inject_Z_plus. reflexivity. }
      rewrite E1. lra. }
    apply Qlt_inject_Z in Hlt. lia. }
  destruct (Z.eq_dec m1 (2 ^ 53)) as [E53|N53].
  - rewrite E53 in *. change (Zdigits2 (2 ^ 53)) with 54.
    rewrite fexp_binary64.
    replace (Z.max (54 + e1 - 53) (-1074) - e1) with 1 by lia.
    cbn [shr_record_of_loc shr iter_pos]. change (2 ^ 53) with 9007199254740992.
    cbn [shr_1 shr_m orb].
    destruct (Z.leb_spec (e1 + 1) (emax - prec)); [|exact I].
    cbn [canonical]. split; [reflexivity|]. split; [lia|]. left. reflexivity.
  - assert (Hm153 : m1 < 2 ^ 53) by lia.
    pose proof (Zdigits2_le m1 53 ltac:(lia) ltac:(lia) Hm153) as Hd1.
    rewrite shr_nonpos by (rewrite fexp_binary64; lia).
    cbn [shr_record_of_loc shr_m].
    destruct m1 as [|p|p] eqn:Em1; [exact I| |lia].
    destruct (Z.leb_spec e1 (emax - prec)); [|exact I].
    cbn [canonical]. split; [lia|]. split; [lia|].
    destruct (Z.eq_dec e1 (-1074)) as [->|Hn]; [now right|left].
    specialize (Hnormal ltac:(lia)). lia.
Qed.

Lemma binary_round_canonical (p : positive) (ex : Z) :
  canonical (binary_round prec emax false p ex).
Proof.
  unfold binary_round, shl_align.
  set (ex' := fexp prec emax (Z.pos (digits2_pos p) + ex)).
  destruct (ex' - ex) as [|k|k] eqn:Ek.
  - apply (binary_round_aux_canonical _ _ _ (inject_Z (Z.pos p) * pow2 ex)%Q);
      [lia| |].
    + split; [cbn; lia|]. cbn.
      rewrite <- Qmult_assoc, pow2_cancel. ring.
    + cbn [Zdigits2]. fold ex'. lia.
  - apply (binary_round_aux_canonical _ _ _ (inject_Z (Z.pos p) * pow2 ex)%Q);
      [lia| |].
    + split; [cbn; lia|]. cbn.
      rewrite <- Qmult_assoc, pow2_cancel. ring.
    + cbn [Zdigits2]. fold ex'. lia.
  - destruct (iter_xO_value p k) as [Hv Hd].
    apply (binary_round_aux_canonical _ _ _ (inject_Z (Z.pos p) * pow2 ex)%Q);
      [lia| |].
    + split; [cbn; lia|]. cbn [shr_record_of_loc shr_m shr_r shr_s].
      rewrite Hv, inject_Z_mult, pow2_inject by lia.
      rewrite <- Qmult_assoc, <- pow2_add.
      replace (ex + - ex') with (Z.pos k) by lia. reflexivity.
    + cbn [Zdigits2]. rewrite Hd, Pos2Z.inj_add.
      replace (Z.pos (digits2_pos p) + Z.pos k + ex')
        with (Z.pos (digits2_pos p) + ex) by lia.
      fold ex'. lia.
Qed.

Lemma SFdiv_canonical (m1 m2 : positive) (e1 e2 : Z) :
  canonical (SFdiv prec emax (S754_finite false m1 e1) (S754_finite false m2 e2)).
Proof.
  cbn [SFdiv xorb].
  pose proof (SFdiv_core_binary_correct m1 m2 e1 e2) as H. cbv zeta in H.
  destruct (SFdiv_core_binary prec emax (Z.pos m1) e1 (Z.pos m2) e2) as [[q eq] loc].
  destruct H as (Hq & Hloc & Hpre).
  eapply binary_round_aux_canonical; eauto.
Qed.

(** A probability [count / weight] of a positive count is a canonical float
    that is not negative. *)
Lemma truediv_canonical (count total : Z) (weight p : float) :
  1 <= count <= total ->
  float_of_int total = Ok weight -> truediv count weight = Ok p ->
  canonical p /\ nonneg_finite p.
Proof.
  intros Hc Hw Hp.
  assert (HT : (1 <= inject_Z total)%Q).
  { change 1%Q with (inject_Z 1). rewrite <- Zle_Qle. lia. }
  assert (HC : (1 <= inject_Z count)%Q).
  { change 1%Q with (inject_Z 1). rewrite <- Zle_Qle. lia. }
  assert (Ht0 : 0 < total) by lia. assert (Hc0 : 0 < count) by lia.
  pose proof (float_of_int_correct _ _ Ht0 Hw) as Hrw.
  destruct (rounds_to_positive _ _ HT Hrw) as (mw & ew & ->).
  unfold truediv in Hp.
  destruct (float_of_int count) as [fc|] eqn:Ec; cbn [bind float_is_zero] in Hp;
    [|discriminate].
  pose proof (float_of_int_correct _ _ Hc0 Ec) as Hrc.
  destruct (rounds_to_positive _ _ HC Hrc) as (mc & ec & ->).
  remember (SFdiv prec emax (S754_finite false mc ec) (S754_finite false mw ew))
    as q eqn:Eq.
  injection Hp as <-. split.
  - rewrite Eq. apply SFdiv_canonical.
  - destruct (truediv_correct count total (S754_finite false mw ew) q Hc Hw)
      as (_ & _ & Hlow).
    { unfold truediv. rewrite Ec. cbn [bind float_is_zero]. now rewrite Eq. }
    pose proof (SFdiv_correct mc mw ec ew) as Hd. cbv zeta in Hd.
    rewrite <- Eq in Hd. destruct Hd as [[Hinf Hbig]|Hr].
    + exfalso. rewrite Hinf in Hlow. cbn [float_value] in Hlow.
      pose proof (total_below_overflow total _ ltac:(lia) Hw) as Heta.
      assert (E50 : (4 * pow2 (-52) == pow2 (-50))%Q).
      { change 4%Q with (pow2 2). rewrite <- pow2_add. reflexivity. }
      assert (H50 : (pow2 (-50) <= 1 # 8)%Q).
      { pose proof (pow2_le (-50) (-3) ltac:(lia)) as H.
        assert (E3 : (pow2 (-3) == 1 # 8)%Q) by reflexivity. now rewrite E3 in H. }
      assert (X : ((0 + pow2 (-1075)) * inject_Z total
                   == inject_Z total * pow2 (-1075))%Q) by ring.
      rewrite X, E50 in Hlow.
      assert (Y : (inject_Z count * (1 - pow2 (-50))
                   == inject_Z count - inject_Z count * pow2 (-50))%Q) by ring.
      rewrite Y in Hlow.
      assert (Z0 : (inject_Z count * pow2 (-50) <= inject_Z count * (1 # 8))%Q).
      { rewrite !(Qmult_comm (inject_Z count)). apply Qmult_le_compat_r; lra. }
      lra.
    + destruct q as [[]|[]| |[] mq eq']; try contradiction; exact I.
Qed.

Lemma float_value_nonneg (f : float) : nonneg_finite f -> (0 <= float_value f)%Q.
Proof.
  destruct f as [[]|[]| |[] m e]; try contradiction; intros _; cbn [float_value];
    [lra|].
  apply Qmult_le_0_compat; [|apply Qlt_le_weak, pow2_pos].
  change 0%Q with (inject_Z 0). rewrite <- Zle_Qle. lia.
Qed.

Lemma nonneg_finite_not_nan (f : float) : nonneg_finite f -> is_nan f = false.
Proof. destruct f as [[]|[]| |[] m e]; try contradiction; reflexivity. Qed.

(** On canonical floats that are not negative, [<] is the order of the
    values: when [a < b] is false, the value of [b] is at most that of
    [a]. *)
Lemma float_lt_false_value (a b : float) :
  canonical a -> canonical b -> nonneg_finite a -> nonneg_finite b ->
  float_lt a b = false -> (float_value b <= float_value a)%Q.
Proof.
  intros Ca Cb Na Nb Hlt.
  apply float_lt_false_rank in Hlt; try now apply nonneg_finite_not_nan.
  destruct a as [[]|[]| |[] ma ea]; try contradiction;
    destruct b as [[]|[]| |[] mb eb]; try contradiction.
  - cbn [float_value]. lra.
  - exfalso. apply Hlt. left. cbn. lia.
  - now apply float_value_nonneg.
  - unfold rank_lt in Hlt. cbn [float_rank fst snd] in Hlt.
    cbn [canonical] in Ca, Cb. cbn [float_value].
    destruct Ca as (Ha1 & Ha2 & Ha3). destruct Cb as (Hb1 & Hb2 & Hb3).
    pose proof (pow2_pos ea) as Hpa. pose proof (pow2_pos eb) as Hpb.
    destruct (Z.eq_dec ea eb) as [->|Hne].
    + apply Qmult_le_compat_r; [|lra]. rewrite <- Zle_Qle. lia.
    + assert (Hgt : eb < ea) by lia.
      assert (Hma : 2 ^ 52 <= Z.pos ma) by lia.
      apply Qle_trans with (pow2 53 * pow2 eb)%Q.
      * apply Qmult_le_compat_r; [|lra].
        rewrite <- pow2_inject by lia. rewrite <- Zle_Qle. lia.
      * apply Qle_trans with (pow2 52 * pow2 ea)%Q.
        -- rewrite <- !pow2_add. apply pow2_le. lia.
        -- apply Qmult_le_compat_r; [|lra].
           rewrite <- pow2_inject by lia. now rewrite <- Zle_Qle.
Qed.

Lemma shl_align_value (m : positive) (e ez : Z) :
  ez <= e -> Z.pos (fst (shl_align m e ez)) = Z.pos m * 2 ^ (e - ez).
Proof.
  intros He. unfold shl_align. destruct (ez - e) as [|d|d] eqn:Ed; cbn [fst].
  - replace (e - ez) with 0 by lia. lia.
  - lia.
  - destruct (iter_xO_value m d) as [-> _]. f_equal. f_equal. lia.
Qed.

(** The subtraction [a - b] of canonical floats [a >= b >= 0], [a] below
    [2^1023]: the result is canonical, not negative, and at most the exact
    difference plus its rounding error. *)
Lemma float_sub_bound (a b : float) :
  canonical a -> canonical b -> nonneg_finite a -> nonneg_finite b ->
  (float_value b <= float_value a)%Q -> (float_value a < pow2 1023)%Q ->
  canonical (float_sub a b) /\ nonneg_finite (float_sub a b) /\
  (float_value (float_sub a b)
   <= (float_value a - float_value b)
      + rounding_error (float_value a - float_value b))%Q.
Proof.
  intros Ca Cb Na Nb Hle Hbig. unfold float_sub.
  pose proof (pow2_pos (-53)) as H53. pose proof (pow2_pos (-1075)) as H1075.
  destruct a as [[]|[]| |[] ma ea]; try contradiction;
    destruct b as [[]|[]| |[] mb eb]; try contradiction.
  - cbn [SFsub float_value canonical nonneg_finite]. unfold rounding_error.
    repeat split; auto. lra.
  - exfalso. cbn [float_value] in Hle.
    assert (0 < inject_Z (Z.pos mb) * pow2 eb)%Q.
    { apply Qmult_lt_0_compat; [reflexivity | apply pow2_pos]. }
    lra.
  - cbn [SFsub]. split; [exact Ca|]. split; [exact I|].
    cbn [float_value] in *. unfold rounding_error.
    assert (0 <= (inject_Z (Z.pos ma) * pow2 ea - 0) * pow2 (-53))%Q.
    { apply Qmult_le_0_compat; lra. }
    lra.
  - cbn [SFsub cond_Zopp]. set (ez := Z.min ea eb).
    rewrite !shl_align_value by (unfold ez; lia).
    set (D := Z.pos ma * 2 ^ (ea - ez) - Z.pos mb * 2 ^ (eb - ez)).
    cbn [float_value] in *.
    assert (Ex : (inject_Z D * pow2 ez
                  == inject_Z (Z.pos ma) * pow2 ea - inject_Z (Z.pos mb) * pow2 eb)%Q).
    { unfold D, Z.sub. rewrite inject_Z_plus, inject_Z_opp, !inject_Z_mult.
      fold (Z.sub ea ez). fold (Z.sub eb ez).
      rewrite !pow2_inject by (unfold ez; lia).
      assert (Ea : (pow2 ea == pow2 (ea - ez) * pow2 ez)%Q).
      { rewrite <- pow2_add. replace (ea - ez + ez) with ea by lia. reflexivity. }
      assert (Eb : (pow2 eb == pow2 (eb - ez) * pow2 ez)%Q).
      { rewrite <- pow2_add. replace (eb - ez + ez) with eb by lia. reflexivity. }
      rewrite Ea, Eb. ring. }
    pose proof (pow2_pos ez) as Hpz.
    assert (HD : 0 <= D).
    { destruct (Z_lt_le_dec D 0) as [Hneg|]; [|assumption]. exfalso.
      assert (Hd : (inject_Z D <= -1)%Q).
      { change (-1)%Q with (inject_Z (-1)). rewrite <- Zle_Qle. lia. }
      assert (inject_Z D * pow2 ez <= (-1) * pow2 ez)%Q
        by (apply Qmult_le_compat_r; lra).
      lra. }
    destruct D as [|p|p] eqn:ED; [| |lia]; cbn [binary_normalize].
    + cbn [canonical nonneg_finite float_value]. unfold rounding_error.
      split; [exact I|]. split; [exact I|].
      assert (E0 : (inject_Z (Z.pos ma) * pow2 ea - inject_Z (Z.pos mb) * pow2 eb
                    == 0)%Q) by (rewrite <- Ex; change (inject_Z 0) with 0%Q; ring).
      rewrite E0. lra.
    + split; [apply binary_round_canonical|].
      destruct (binary_round_correct p ez) as [[_ Hb]|Hr].
      * exfalso. rewrite Ex in Hb.
        assert (0 < inject_Z (Z.pos mb) * pow2 eb)%Q.
        { apply Qmult_lt_0_compat; [reflexivity | apply pow2_pos]. }
        lra.
      * destruct (binary_round prec emax false p ez) as [[]|[]| |[] mc ec];
          try contradiction; (split; [exact I|]);
          cbn [rounds_to] in Hr; destruct Hr as (_ & Hr & _);
          unfold rounding_error in *; rewrite Ex in Hr; exact Hr.
Qed.

(** ** [get_next_state]: when the scan finds an edge *)

(** The probabilities of an edge list are canonical floats, not negative. *)
Definition probabilities_ok (states : list (node_ref * float)) : Prop :=
  Forall (fun state => canonical (snd state) /\ nonneg_finite (snd state)) states.

Lemma probability_sum_cons (state : node_ref * float)
  (states : list (node_ref * float)) :
  (probability_sum (state :: states)
   == float_value (snd state) + probability_sum states)%Q.
Proof. reflexivity. Qed.

Lemma rounding_error_unit (x : Q) :
  (0 <= x)%Q -> (x <= 1)%Q -> (rounding_error x <= pow2 (-52))%Q.
Proof.
  intros H0 H1. unfold rounding_error.
  destruct rounding_constants as (Hu & Heta & Hsum & _).
  assert (x * pow2 (-53) <= 1 * pow2 (-53))%Q by (apply Qmult_le_compat_r; lra).
  lra.
Qed.

(** The scan of lines 40-44 returns an edge when the value drawn, with
    [2^-52] for each edge, is below the sum of the probabilities. *)
Lemma scan_states_resolves (g : pystr) (states : list (node_ref * float)) :
  probabilities_ok states ->
  forall r,
    canonical r -> nonneg_finite r ->
    (float_value r + inject_Z (len states) * pow2 (-52) <= 1)%Q ->
    (float_value r + inject_Z (len states) * pow2 (-52) < probability_sum states)%Q ->
    exists target pr,
      scan_states g states r = Ok target /\ In (target, pr) states.
Proof.
  pose proof (pow2_pos (-52)) as H52.
  induction 1 as [|[tgt p] states [Cp Np] Hok IH]; intros r Cr Nr Hone Hsum.
  - exfalso. pose proof (float_value_nonneg r Nr).
    change (probability_sum []) with 0%Q in Hsum.
    change (inject_Z (len (@nil (node_ref * float)))) with 0%Q in Hsum. lra.
  - cbn [scan_states snd fst]. cbn [snd] in Cp, Np.
    destruct (float_lt r p) eqn:Hlt.
    + exists tgt, p. split; [reflexivity | now left].
    + pose proof (float_lt_false_value r p Cr Cp Nr Np Hlt) as Hle.
      pose proof (float_value_nonneg r Nr) as Hr0.
      pose proof (float_value_nonneg p Np) as Hp0.
      assert (El : (inject_Z (len ((tgt, p) :: states))
                    == inject_Z (len states) + 1)%Q).
      { unfold len. cbn [length]. rewrite Nat2Z.inj_succ, <- Z.add_1_r, inject_Z_plus.
        reflexivity. }
      assert (Hn0 : (0 <= inject_Z (len states))%Q).
      { change 0%Q with (inject_Z 0). rewrite <- Zle_Qle. apply len_nonneg. }
      rewrite El in Hone, Hsum. rewrite probability_sum_cons in Hsum. cbn [snd] in Hsum.
      assert (Hnd : (0 <= inject_Z (len states) * pow2 (-52))%Q)
        by (apply Qmult_le_0_compat; lra).
      assert (Hr1 : (float_value r <= 1)%Q) by lra.
      destruct (float_sub_bound r p Cr Cp Nr Np Hle) as (Cs & Ns & Hs).
      { apply Qle_lt_trans with 1%Q; [exact Hr1|]. apply (pow2_lt 0 1023). lia. }
      pose proof (rounding_error_unit (float_value r - float_value p)
                    ltac:(lra) ltac:(lra)) as He.
      destruct (IH (float_sub r p) Cs Ns) as (target & pr & Hscan & Hin).
      * lra.
      * lra.
      * exists target, pr. split; [exact Hscan | now right].
Qed.

Lemma probabilities_ok_perm (l l' : list (node_ref * float)) :
  Permutation l l' -> probabilities_ok l -> probabilities_ok l'.
Proof. intros Hp. unfold probabilities_ok. now apply Permutation_Forall. Qed.

Lemma edges_probabilities_ok (g : pystr) (total : Z) (weight : float) (d : counts)
  (es : list (node_ref * float)) :
  float_of_int total = Ok weight ->
  comprehension (edge_of g weight) d = Ok es ->
  Forall (fun item => 1 <= snd item <= total) d ->
  probabilities_ok es.
Proof.
  intros Hw. revert es; induction d as [|[letter count] d IH]; intros es Hes Hd.
  - injection Hes as <-. constructor.
  - cbn [comprehension] in Hes. unfold edge_of at 1 in Hes. cbn [fst snd] in Hes.
    destruct (truediv count weight) as [p|e] eqn:Ep; [|discriminate].
    cbn [bind] in Hes.
    destruct (comprehension (edge_of g weight) d) as [es'|e]; [|discriminate].
    injection Hes as <-.
    apply Forall_cons_iff in Hd. destruct Hd as [Hc Hd]. cbn [snd] in Hc.
    constructor; [|now apply IH].
    cbn [snd]. eapply truediv_canonical; eauto.
Qed.

(** The nodes of the chain of a count table: canonical probabilities that
    are not negative, whose exact sum is within [2^-49] of 1, one for each
    successor letter. *)
Lemma build_markov_chain_probabilities (t : table) (ch : chain) (g : pystr)
  (nd : MarkovChainNode) :
  count_table t = true -> build_markov_chain t = Ok ch ->
  dict_get g ch = Some nd ->
  probabilities_ok (next_states nd) /\
  (Qabs (probability_sum (next_states nd) - 1) <= pow2 (-49))%Q /\
  exists d, In (g, d) t /\ len (next_states nd) = len d.
Proof.
  intros Hct Hb Hg.
  destruct (count_table_spec t Hct) as [Hnd Hpos].
  destruct (build_markov_chain_nodes t ch Hnd Hb) as [Hkeys Hnodes].
  assert (Hi : In g (keys t)).
  { apply Hkeys. apply dict_get_Some_keys. eauto. }
  apply dict_get_Some_keys in Hi. destruct Hi as [d Hd].
  pose proof (dict_get_In _ _ _ Hd) as Hin.
  destruct (Hnodes g d Hin) as (w & es & Hw & Hes & Hnode & _).
  rewrite Hnode in Hg. injection Hg as <-.
  destruct (Hpos g d Hin) as [Hne Hcounts].
  destruct (counts_le_sum d Hcounts) as [_ Hle].
  pose proof (insert_edges_perm es (empty_node g)) as Hperm.
  cbn [empty_node next_states app] in Hperm.
  split; [|split].
  - apply (probabilities_ok_perm es); [now symmetry|].
    eapply edges_probabilities_ok; eauto.
  - rewrite (probability_sum_perm _ _ Hperm).
    exact (edges_sum_one g w d es Hne Hcounts Hw Hes).
  - exists d. split; [exact Hin|]. unfold len. f_equal.
    rewrite (Permutation_length Hperm). now apply (comprehension_length _ _ _ Hes).
Qed.

(** A value that [random()] can return and that stays [2^-49] and [2^-52]
    for each of [edges] edges away from 1. *)
Definition safe_draw (edges : Z) (r : float) : Prop :=
  canonical r /\ nonneg_finite r /\
  (float_value r < 1 - pow2 (-49) - inject_Z edges * pow2 (-52))%Q.

(** X23.  In the chain built for a count table, [get_next_state] on a node
    returns the target of one of its edges, without the exception of line
    48, for every canonical draw [r >= 0] that is below
    [1 - 2^-49 - n * 2^-52], [n] being the number of edges of the node: the
    scan can only run past the last edge for a draw that close to 1. *)
Theorem get_next_state_resolves (t : table) (ch : chain) (g : pystr)
  (nd : MarkovChainNode) (r : float) :
  count_table t = true -> build_markov_chain t = Ok ch ->
  dict_get g ch = Some nd ->
  safe_draw (len (next_states nd)) r ->
  exists target pr,
    get_next_state nd r = Ok target /\ In (target, pr) (next_states nd).
Proof.
  intros Hct Hb Hg (Cr & Nr & Hr).
  destruct (build_markov_chain_probabilities t ch g nd Hct Hb Hg)
    as (Hok & Hsum & _).
  apply Qabs_Qle_condition in Hsum. destruct Hsum as [Hlow _].
  pose proof (pow2_pos (-49)) as H49.
  unfold get_next_state. apply scan_states_resolves; auto; lra.
Qed.

Lemma get_next_state_resolves_witness :
  exists target pr,
    get_next_state example_node (S754_finite false 9007199254740000 (-53))
    = Ok target
    /\ In (target, pr) (next_states example_node).
Proof.
  apply (get_next_state_resolves example_table example_chain [97]).
  - reflexivity.
  - vm_compute. reflexivity.
  - reflexivity.
  - split; [|split].
    + cbn. lia.
    + exact I.
    + vm_compute. reflexivity.
Defined.

(** ** [generate_text]: the run ends with a text *)

Lemma compute_ngram_counts_total_count (letters : pystr) (k : Z) (t : table) :
  0 <= k -> compute_ngram_counts letters k = Ok t -> total_count t = len letters.
Proof.
  intros Hk Ht. pose proof (compute_ngram_counts_Ok_len _ _ _ Ht) as Hl.
  rewrite compute_ngram_counts_fold in Ht by lia. injection Ht as <-.
  rewrite total_count_fold.
  assert (E : len (map (spec_observation letters k) (range (len letters)))
              = len letters).
  { unfold len at 1. rewrite length_map. apply length_range, len_nonneg. }
  rewrite E. reflexivity.
Qed.

Lemma safe_draw_le (n n' : Z) (r : float) :
  n <= n' -> safe_draw n' r -> safe_draw n r.
Proof.
  intros Hn (Cr & Nr & Hr). split; [exact Cr|]. split; [exact Nr|].
  pose proof (pow2_pos (-52)) as H52.
  assert (inject_Z n * pow2 (-52) <= inject_Z n' * pow2 (-52))%Q.
  { apply Qmult_le_compat_r; [|lra]. now rewrite <- Zle_Qle. }
  lra.
Qed.

(** The number of edges of a node of the chain of a text is at most the
    length of the text, and every draw that is safe for that many edges
    resolves. *)
Lemma scans_resolve_safe (letters : pystr) (k : Z) (t : table) (ch : chain)
  (rs : random_source) :
  0 < k -> compute_ngram_counts letters k = Ok t -> build_markov_chain t = Ok ch ->
  (forall n, safe_draw (len letters) (draws rs n)) ->
  scans_resolve ch rs.
Proof.
  intros Hk Ht Hb Hdraws nd n Hin.
  assert (Hk0 : 0 <= k) by lia.
  pose proof (compute_ngram_counts_NoDup _ _ _ Hk0 Ht) as Hnd.
  pose proof (compute_ngram_counts_count_table _ _ _ Hk0 Ht) as Hct.
  destruct (count_table_spec t Hct) as [_ Hpos].
  assert (Hkeys : keys ch = keys t).
  { unfold build_markov_chain in Hb.
    rewrite (for_each_keys_order _ _ _ _ connect_node_keys_order Hb).
    now apply keys_create_nodes_order. }
  unfold values in Hin. apply in_map_iff in Hin. destruct Hin as ([g nd'] & E & Hin).
  cbn [snd] in E. subst nd'.
  assert (Hg : dict_get g ch = Some nd).
  { apply NoDup_In_dict_get; [now rewrite Hkeys | exact Hin]. }
  destruct (build_markov_chain_probabilities t ch g nd Hct Hb Hg)
    as (Hok & Hsum & d & Hd & Hlen).
  assert (Hedges : len (next_states nd) <= len letters).
  { rewrite Hlen. destruct (Hpos g d Hd) as [_ Hcounts].
    pose proof (proj1 (counts_le_sum d Hcounts)) as H1.
    rewrite <- (compute_ngram_counts_total_count letters k t Hk0 Ht).
    etransitivity; [exact H1|]. apply (sum_counts_le_total t g); [|exact Hd].
    intros g' d' Hi'. destruct (Hpos g' d' Hi') as [_ Hd'].
    pose proof (proj1 (counts_le_sum d' Hd')). pose proof (len_nonneg d'). lia. }
  pose proof (safe_draw_le _ _ _ Hedges (Hdraws n)) as (Cr & Nr & Hr).
  apply Qabs_Qle_condition in Hsum. destruct Hsum as [Hlow _].
  pose proof (pow2_pos (-49)) as H49.
  destruct (scan_states_resolves (ngram nd) (next_states nd) Hok
              (draws rs n) Cr Nr) as (target & pr & Hscan & _); [lra | lra |].
  unfold get_next_state. now rewrite Hscan.
Qed.

(** X24.  The whole pipeline ends with a text.  For a positive [k], the table of
    a text and the chain built from it, and a random generator whose draws
    are canonical floats from [0.0] to below
    [1 - 2^-49 - len(text) * 2^-52], [generate_text] raises nothing: with
    fuel for [max 0 (length - k)] turns of the loop it returns a text of
    exactly [max length k] characters. *)
Theorem generate_text_total (letters : pystr) (k : Z) (t : table) (ch : chain)
  (target : Z) (rs : random_source) :
  0 < k ->
  compute_ngram_counts letters k = Ok t ->
  build_markov_chain t = Ok ch ->
  (forall n, safe_draw (len letters) (draws rs n)) ->
  exists s,
    (forall fuel, (Z.to_nat (target - k) <= fuel)%nat ->
       generate_text fuel ch target rs = Some (Ok s)) /\
    len s = Z.max target k.
Proof.
  intros Hk Ht Hb Hdraws.
  pose proof (build_markov_chain_wf letters k t ch Hk Ht Hb) as Hwf.
  pose proof (scans_resolve_safe letters k t ch rs Hk Ht Hb Hdraws) as Hres.
  destruct (generate_run_wf k ch rs target Hk Hwf Hres)
    as (st & start & more & Hrun & Hstart & Hjoin & Hmore & _).
  pose proof (proj1 (proj2 Hwf _ Hstart)) as Hlen.
  exists (join_text (text st)). split.
  - intros fuel Hf. unfold generate_text. now rewrite Hrun.
  - rewrite Hjoin, len_app, Hmore. lia.
Qed.

Lemma generate_text_total_witness :
  exists s,
    (forall fuel, (Z.to_nat (9 - 1) <= fuel)%nat ->
       generate_text fuel example_chain 9
         {| choice_draw := 2;
            draws := fun n =>
              if Nat.even n then S754_finite false 4503599627370496 (-54)
              else S754_finite false 6755399441055744 (-53) |}
       = Some (Ok s)) /\
    len s = Z.max 9 1.
Proof.
  apply (generate_text_total [97; 99; 97; 98; 97; 100; 97; 98] 1 example_table).
  - lia.
  - reflexivity.
  - vm_compute. reflexivity.
  - intros n. cbn [draws]. destruct (Nat.even n); (split; [|split]).
    + cbn. lia.
    + exact I.
    + vm_compute. reflexivity.
    + cbn. lia.
    + exact I.
    + vm_compute. reflexivity.
Defined.

(** ** [get_next_state]: what it returns and raises *)

Lemma scan_states_outcome (g : pystr) (states : list (node_ref * float)) (r : float) :
  (exists target p, scan_states g states r = Ok target /\ In (target, p) states)
  \/ scan_states g states r = Raise (NoNextState g).
Proof.
  revert r. induction states as [|[tgt p] states IH]; intros r; cbn [scan_states].
  - now right.
  - cbn [snd fst]. destruct (float_lt r p).
    + left. exists tgt, p. split; [reflexivity | now left].
    + destruct (IH (float_sub r p)) as [(target & p' & E & Hin)|E]; [left|now right].
      exists target, p'. split; [exact E | now right].
Qed.

(** X25.  Whatever the node and the value drawn are, [get_next_state] either
    returns the target of one of the edges of the node or raises the
    exception of line 48, which carries the n-gram of the node, and nothing
    else; a node without edges always raises it, and with a draw below the
    probability of the first edge the first target is returned. *)
Theorem get_next_state_outcome (self : MarkovChainNode) (r : float) :
  ((exists target p,
      get_next_state self r = Ok target /\ In (target, p) (next_states self))
   \/ get_next_state self r = Raise (NoNextState (ngram self))) /\
  (next_states self = [] ->
   get_next_state self r = Raise (NoNextState (ngram self))) /\
  (forall target p rest,
     next_states self = (target, p) :: rest -> float_lt r p = true ->
     get_next_state self r = Ok target).
Proof.
  unfold get_next_state. split; [apply scan_states_outcome|]. split.
  - intros ->. reflexivity.
  - intros target p rest -> Hlt. cbn [scan_states snd fst]. now rewrite Hlt.
Qed.

Lemma get_next_state_outcome_witness :
  get_next_state {| ngram := [97; 98]; next_states := [] |} float_zero
  = Raise (NoNextState [97; 98])
  /\ get_next_state example_node float_zero = Ok [98].
Proof.
  split.
  - apply (proj1 (proj2 (get_next_state_outcome
                           {| ngram := [97; 98]; next_states := [] |} float_zero))).
    reflexivity.
  - apply (proj2 (proj2 (get_next_state_outcome example_node float_zero))
             [98] (S754_finite false 4503599627370496 (-53))
             [([99], S754_finite false 4503599627370496 (-54));
              ([100], S754_finite false 4503599627370496 (-54))]);
      reflexivity.
Defined.

(** ** A model file without n-grams *)

(** X26.  A header that declares no n-gram, or a negative number of them, is
    accepted: whatever follows the header line, the table read is empty;
    [build_markov_chain] returns the empty chain for it, and
    [generate_text] on that chain raises [IndexError], from [choice] on the
    empty list of keys, for every length asked. *)
Theorem read_empty_model (k n : Z) (rest : string) (target : Z)
  (rs : random_source) (fuel : nat) :
  n <= 0 ->
  read_ngram_counts_from_file
    (py_str k ++ " " ++ py_str n ++ String newline rest)%string
  = Ok ([], k) /\
  build_markov_chain [] = Ok [] /\
  generate_text fuel [] target rs = Some (Raise IndexError).
Proof.
  intros Hn. split; [|split; reflexivity].
  unfold read_ngram_counts_from_file.
  replace (py_str k ++ " " ++ py_str n ++ String newline rest)%string
    with ((py_str k ++ " " ++ py_str n) ++ String newline rest)%string
    by (now rewrite !append_assoc).
  rewrite readline_line.
  - rewrite append_assoc.
    change ((" " ++ py_str n) ++ String newline "")%string
      with (String space (py_str n ++ String newline "")).
    rewrite split_token_space by apply is_token_py_str.
    rewrite split_token_newline by apply is_token_py_str.
    cbn [comprehension]. rewrite !py_int_py_str. cbn [bind].
    assert (E : range n = []).
    { unfold range. replace (Z.to_nat n) with 0%nat by lia. reflexivity. }
    rewrite E. reflexivity.
  - rewrite string_forall_append, (is_token_not_newline (py_str k))
      by apply is_token_py_str.
    change (" " ++ py_str n)%string with (String space (py_str n)).
    cbn [string_forall andb]. change (not_newline space) with true. cbn [andb].
    apply is_token_not_newline, is_token_py_str.
Qed.

Lemma read_empty_model_witness :
  read_ngram_counts_from_file
    (py_str 3 ++ " " ++ py_str (-2) ++ String newline "97 98 99 1 100 4")%string
  = Ok ([], 3) /\
  build_markov_chain [] = Ok [] /\
  generate_text 0 [] 10 {| choice_draw := 0; draws := fun _ => float_zero |}
  = Some (Raise IndexError).
Proof.
  apply (read_empty_model 3 (-2) "97 98 99 1 100 4" 10
           {| choice_draw := 0; draws := fun _ => float_zero |} 0).
  lia.
Defined.

(** ** [get_next_state]: the edge that a draw selects *)

(** When [a < b] holds between canonical floats that are not negative, the
    value of [a] is below that of [b]. *)
Lemma float_lt_true_value (a b : float) :
  canonical a -> canonical b -> nonneg_finite a -> nonneg_finite b ->
  float_lt a b = true -> (float_value a < float_value b)%Q.
Proof.
  intros Ca Cb Na Nb Hlt.
  apply float_lt_rank in Hlt; try now apply nonneg_finite_not_nan.
  destruct a as [[]|[]| |[] ma ea]; try contradiction;
    destruct b as [[]|[]| |[] mb eb]; try contradiction.
  - exfalso. unfold rank_lt in Hlt. cbn in Hlt. lia.
  - cbn [float_value]. apply Qmult_lt_0_compat; [reflexivity | apply pow2_pos].
  - exfalso. unfold rank_lt in Hlt. cbn in Hlt. lia.
  - unfold rank_lt in Hlt. cbn [float_rank fst snd] in Hlt.
    cbn [canonical] in Ca, Cb. cbn [float_value].
    destruct Ca as (Ha1 & Ha2 & Ha3). destruct Cb as (Hb1 & Hb2 & Hb3).
    pose proof (pow2_pos ea) as Hpa. pose proof (pow2_pos eb) as Hpb.
    destruct (Z.eq_dec ea eb) as [->|Hne].
    + apply Qmult_lt_compat_r; [lra|]. rewrite <- Zlt_Qlt. lia.
    + assert (Hgt : ea < eb) by lia.
      assert (Hmb : 2 ^ 52 <= Z.pos mb) by lia.
      apply Qlt_le_trans with (pow2 53 * pow2 ea)%Q.
      * apply Qmult_lt_compat_r; [lra|].
        rewrite <- pow2_inject by lia. rewrite <- Zlt_Qlt. lia.
      * apply Qle_trans with (pow2 52 * pow2 eb)%Q.
        -- rewrite <- !pow2_add. apply pow2_le. lia.
        -- apply Qmult_le_compat_r; [|lra].
           rewrite <- pow2_inject by lia. now rewrite <- Zle_Qle.
Qed.

(** The subtraction of [float_sub_bound] is at least the exact difference
    less its rounding error. *)
Lemma float_sub_lower (a b : float) :
  canonical a -> canonical b -> nonneg_finite a -> nonneg_finite b ->
  (float_value b <= float_value a)%Q -> (float_value a < pow2 1023)%Q ->
  ((float_value a - float_value b)
   - rounding_error (float_value a - float_value b)
   <= float_value (float_sub a b))%Q.
Proof.
  intros Ca Cb Na Nb Hle Hbig. unfold float_sub.
  pose proof (pow2_pos (-53)) as H53. pose proof (pow2_pos (-1075)) as H1075.
  destruct a as [[]|[]| |[] ma ea]; try contradiction;
    destruct b as [[]|[]| |[] mb eb]; try contradiction.
  - cbn [SFsub float_value]. unfold rounding_error. lra.
  - exfalso. cbn [float_value] in Hle.
    assert (0 < inject_Z (Z.pos mb) * pow2 eb)%Q.
    { apply Qmult_lt_0_compat; [reflexivity | apply pow2_pos]. }
    lra.
  - cbn [SFsub]. cbn [float_value] in *. unfold rounding_error.
    assert (0 <= (inject_Z (Z.pos ma) * pow2 ea - 0) * pow2 (-53))%Q.
    { apply Qmult_le_0_compat; lra. }
    lra.
  - cbn [SFsub cond_Zopp]. set (ez := Z.min ea eb).
    rewrite !shl_align_value by (unfold ez; lia).
    set (D := Z.pos ma * 2 ^ (ea - ez) - Z.pos mb * 2 ^ (eb - ez)).
    cbn [float_value] in *.
    assert (Ex : (inject_Z D * pow2 ez
                  == inject_Z (Z.pos ma) * pow2 ea - inject_Z (Z.pos mb) * pow2 eb)%Q).
    { unfold D, Z.sub. rewrite inject_Z_plus, inject_Z_opp, !inject_Z_mult.
      fold (Z.sub ea ez). fold (Z.sub eb ez).
      rewrite !pow2_inject by (unfold ez; lia).
      assert (Ea : (pow2 ea == pow2 (ea - ez) * pow2 ez)%Q).
      { rewrite <- pow2_add. replace (ea - ez + ez) with ea by lia. reflexivity. }
      assert (Eb : (pow2 eb == pow2 (eb - ez) * pow2 ez)%Q).
      { rewrite <- pow2_add. replace (eb - ez + ez) with eb by lia. reflexivity. }
      rewrite Ea, Eb. ring. }
    pose proof (pow2_pos ez) as Hpz.
    assert (HD : 0 <= D).
    { destruct (Z_lt_le_dec D 0) as [Hneg|]; [|assumption]. exfalso.
      assert (Hd : (inject_Z D <= -1)%Q).
      { change (-1)%Q with (inject_Z (-1)). rewrite <- Zle_Qle. lia. }
      assert (inject_Z D * pow2 ez <= (-1) * pow2 ez)%Q
        by (apply Qmult_le_compat_r; lra).
      lra. }
    destruct D as [|p|p] eqn:ED; [| |lia]; cbn [binary_normalize].
    + cbn [float_value]. unfold rounding_error.
      assert (E0 : (inject_Z (Z.pos ma) * pow2 ea - inject_Z (Z.pos mb) * pow2 eb
                    == 0)%Q) by (rewrite <- Ex; change (inject_Z 0) with 0%Q; ring).
      rewrite E0. lra.
    + destruct (binary_round_correct p ez) as [[_ Hb]|Hr].
      * exfalso. rewrite Ex in Hb.
        assert (0 < inject_Z (Z.pos mb) * pow2 eb)%Q.
        { apply Qmult_lt_0_compat; [reflexivity | apply pow2_pos]. }
        lra.
      * destruct (binary_round prec emax false p ez) as [[]|[]| |[] mc ec];
          try contradiction;
          cbn [rounds_to] in Hr; destruct Hr as (Hr & _);
          unfold rounding_error in *; rewrite Ex in Hr; exact Hr.
Qed.

Lemma inject_Z_len_cons {A : Type} (x : A) (l : list A) :
  (inject_Z (len (x :: l)) == inject_Z (len l) + 1)%Q.
Proof.
  unfold len. cbn [length]. rewrite Nat2Z.inj_succ, <- Z.add_1_r, inject_Z_plus.
  reflexivity.
Qed.

(** The edge that the scan returns is the one whose stretch of the
    cumulated probabilities holds the value drawn, within [2^-52] for each
    edge passed. *)
Lemma scan_states_interval (g : pystr) (states : list (node_ref * float)) :
  probabilities_ok states ->
  forall r target,
    canonical r -> nonneg_finite r ->
    (float_value r + inject_Z (len states) * pow2 (-52) <= 1)%Q ->
    scan_states g states r = Ok target ->
    exists before p after,
      states = before ++ (target, p) :: after /\
      (probability_sum before - inject_Z (len before) * pow2 (-52)
       <= float_value r)%Q /\
      (float_value r
       < probability_sum before + float_value p
         + inject_Z (len before) * pow2 (-52))%Q.
Proof.
  pose proof (pow2_pos (-52)) as H52.
  induction 1 as [|[tgt p] states [Cp Np] Hok IH]; intros r target Cr Nr Hone Hscan.
  - discriminate.
  - cbn [scan_states snd fst] in Hscan. cbn [snd] in Cp, Np.
    pose proof (float_value_nonneg r Nr) as Hr0.
    pose proof (float_value_nonneg p Np) as Hp0.
    destruct (float_lt r p) eqn:Hlt.
    + injection Hscan as <-. exists [], p, states. split; [reflexivity|].
      pose proof (float_lt_true_value r p Cr Cp Nr Np Hlt) as Hv.
      change (probability_sum []) with 0%Q.
      change (inject_Z (len (@nil (node_ref * float)))) with 0%Q. split; lra.
    + pose proof (float_lt_false_value r p Cr Cp Nr Np Hlt) as Hle.
      rewrite inject_Z_len_cons in Hone.
      assert (Hn0 : (0 <= inject_Z (len states))%Q).
      { change 0%Q with (inject_Z 0). rewrite <- Zle_Qle. apply len_nonneg. }
      assert (Hnd : (0 <= inject_Z (len states) * pow2 (-52))%Q)
        by (apply Qmult_le_0_compat; lra).
      assert (Hr1 : (float_value r <= 1)%Q) by lra.
      assert (Hbig : (float_value r < pow2 1023)%Q).
      { apply Qle_lt_trans with 1%Q; [exact Hr1|]. apply (pow2_lt 0 1023). lia. }
      destruct (float_sub_bound r p Cr Cp Nr Np Hle Hbig) as (Cs & Ns & Hs).
      pose proof (float_sub_lower r p Cr Cp Nr Np Hle Hbig) as Hs'.
      pose proof (rounding_error_unit (float_value r - float_value p)
                    ltac:(lra) ltac:(lra)) as He.
      destruct (IH (float_sub r p) target Cs Ns ltac:(lra) Hscan)
        as (before & q & after & -> & Hlo & Hhi).
      exists ((tgt, p) :: before), q, after. split; [reflexivity|].
      rewrite probability_sum_cons, inject_Z_len_cons. cbn [snd].
      assert (Hb0 : (0 <= inject_Z (len before))%Q).
      { change 0%Q with (inject_Z 0). rewrite <- Zle_Qle. apply len_nonneg. }
      split; lra.
Qed.

(** X27.  The weighted choice.  In the chain built for a count table, for a
    canonical draw [r >= 0] with [r + n * 2^-52 <= 1] ([n] the number of
    edges of the node), the edge whose target [get_next_state] returns is
    the one whose stretch of the cumulated probabilities holds [r]: with
    [i] edges [before] it in the list, of total probability [P], and with
    its own probability [p], [P - i * 2^-52 <= r < P + p + i * 2^-52]. *)
Theorem get_next_state_interval (t : table) (ch : chain) (g : pystr)
  (nd : MarkovChainNode) (r : float) (target : node_ref) :
  count_table t = true -> build_markov_chain t = Ok ch ->
  dict_get g ch = Some nd ->
  canonical r -> nonneg_finite r ->
  (float_value r + inject_Z (len (next_states nd)) * pow2 (-52) <= 1)%Q ->
  get_next_state nd r = Ok target ->
  exists before p after,
    next_states nd = before ++ (target, p) :: after /\
    (probability_sum before - inject_Z (len before) * pow2 (-52)
     <= float_value r)%Q /\
    (float_value r
     < probability_sum before + float_value p
       + inject_Z (len before) * pow2 (-52))%Q.
Proof.
  intros Hct Hb Hg Cr Nr Hone Hget.
  destruct (build_markov_chain_probabilities t ch g nd Hct Hb Hg) as (Hok & _).
  unfold get_next_state in Hget.
  exact (scan_states_interval (ngram nd) (next_states nd) Hok r target Cr Nr Hone Hget).
Qed.

Lemma get_next_state_interval_witness :
  exists before p after,
    next_states example_node = before ++ ([99], p) :: after /\
    (probability_sum before - inject_Z (len before) * pow2 (-52)
     <= float_value (S754_finite false 5404319552844595 (-53)))%Q /\
    (float_value (S754_finite false 5404319552844595 (-53))
     < probability_sum before + float_value p
       + inject_Z (len before) * pow2 (-52))%Q.
Proof.
  apply (get_next_state_interval example_table example_chain [97]).
  - reflexivity.
  - vm_compute. reflexivity.
  - reflexivity.
  - cbn. lia.
  - exact I.
  - vm_compute. discriminate.
  - vm_compute. reflexivity.
Defined.

(** ** [generate_text]: the only exception *)

(** One turn of the loop in a chain graph, whatever the draw is: the next
    state, at a node of the chain, or the exception of line 48 for the
    n-gram of the current node. *)
Lemma walk_step_outcome (k : Z) (ch : chain) (rs : random_source) (st : walk_state) :
  0 < k -> chain_wf k ch -> In (node st) (keys ch) ->
  (exists st', walk_step ch rs st = Ok st' /\ In (node st') (keys ch))
  \/ walk_step ch rs st = Raise (NoNextState (node st)).
Proof.
  intros Hk [_ Hwf] Hin. unfold walk_step.
  destruct (Hwf _ Hin) as (_ & nd & Hnd & Hng & Hedges).
  rewrite (proj2 (lookup_Ok _ _ _) Hnd). cbn [bind]. unfold get_next_state.
  destruct (scan_states_outcome (ngram nd) (next_states nd)
              (draws rs (selections st))) as [(next & p & E & Hp)|E];
    rewrite E; cbn [bind]; [left | right; now rewrite Hng].
  apply Hedges in Hp. cbn [fst] in Hp.
  destruct (Hwf _ Hp) as (Hlen & nd' & Hnd' & Hng' & _).
  rewrite (proj2 (lookup_Ok _ _ _) Hnd'). cbn [bind].
  destruct (str_index_last (ngram nd')) as [c Hc]; [rewrite Hng'; lia|].
  rewrite Hc. cbn [bind]. eexists. split; [reflexivity|]. exact Hp.
Qed.

Lemma while_loop_outcome (k : Z) (ch : chain) (rs : random_source) (target : Z)
  (fuel : nat) (st : walk_state) (e : exn) :
  0 < k -> chain_wf k ch -> In (node st) (keys ch) ->
  while_loop fuel ch rs target st = Some (Raise e) ->
  exists g, In g (keys ch) /\ e = NoNextState g.
Proof.
  intros Hk Hwf. revert st. induction fuel as [|fuel IH]; intros st Hin;
    cbn [while_loop].
  - destruct (text_length st <? target); discriminate.
  - destruct (text_length st <? target); [|discriminate].
    destruct (walk_step_outcome k ch rs st Hk Hwf Hin) as [(st' & E & Hin')|E];
      rewrite E.
    + now apply IH.
    + intros E'. injection E' as <-. eauto.
Qed.

(** X28.  In the chain built from the table of a text, for a positive [k],
    [generate_text] raises no [KeyError] and no [IndexError]: whatever the
    draws are, NaN and values outside [0, 1) included, the only exception it
    can raise is the one of line 48, for an n-gram of the chain. *)
Theorem generate_text_only_exception (letters : pystr) (k : Z) (t : table)
  (ch : chain) (target : Z) (rs : random_source) (fuel : nat) (e : exn) :
  0 < k ->
  compute_ngram_counts letters k = Ok t ->
  build_markov_chain t = Ok ch ->
  generate_text fuel ch target rs = Some (Raise e) ->
  exists g, In g (keys t) /\ e = NoNextState g.
Proof.
  intros Hk Ht Hb Hgen.
  pose proof (build_markov_chain_wf letters k t ch Hk Ht Hb) as Hwf.
  pose proof (compute_ngram_counts_NoDup _ _ _ (Z.lt_le_incl _ _ Hk) Ht) as Hnd.
  destruct (build_markov_chain_nodes t ch Hnd Hb) as [Hkeys _].
  unfold generate_text, generate_run, initial_state in Hgen.
  destruct (choice_In rs (keys ch)) as (start & Hc & Hstart).
  { destruct Hwf as [Hne _]. destruct ch; [contradiction|discriminate]. }
  assert (Hstart' := Hstart).
  destruct (proj2 Hwf _ Hstart) as (_ & nd & Hget & _).
  rewrite Hc in Hgen. cbn [bind] in Hgen.
  rewrite (proj2 (lookup_Ok _ _ _) Hget) in Hgen. cbn [bind] in Hgen.
  destruct (while_loop fuel ch rs target _) as [[st|e']|] eqn:Ew; try discriminate.
  injection Hgen as <-.
  apply (while_loop_outcome k ch rs target fuel _ e' Hk Hwf) in Ew;
    [|exact Hstart].
  destruct Ew as (g & Hg & E).
  rewrite E. exists g. split; [now apply Hkeys | reflexivity].
Qed.

Lemma generate_text_only_exception_witness :
  exists g, In g (keys example_table) /\ NoNextState [97] = NoNextState g.
Proof.
  apply (generate_text_only_exception [97; 99; 97; 98; 97; 100; 97; 98] 1
           example_table example_chain 5
           {| choice_draw := 0; draws := fun _ => S754_nan |} 3).
  - lia.
  - reflexivity.
  - vm_compute. reflexivity.
  - vm_compute. reflexivity.
Defined.
